(** * AVL trees of c-language-data-structures

    A shallow embedding of the macro-generated AVL tree of
    [macros_data_structs/src/m_avl.h] (nodes linked through [parent], [left]
    and [right] pointers, with one shared [nil] sentinel node per tree) and of
    the insertion path of the void-pointer AVL tree of [scl_avl_tree.c].

    Memory is a finite map from addresses to node records.  Every C function
    becomes a computation in a state-and-failure monad over the tree object;
    a computation has no result ([None]) when the C execution reads or
    writes an address that holds no node, or when a loop exhausts its fuel. *)

From stdpp Require Import gmap list sorting.
From Stdlib Require Import ZArith Lia.

Local Open Scope Z_scope.

(** ** Machine integers *)

(** [uint32_t] arithmetic wraps modulo [2^32]; [size_t] is 64 bits wide. *)
Definition u32 (z : Z) : Z := z mod 2 ^ 32.
Definition u64 (z : Z) : Z := z mod 2 ^ 64.

(** The value obtained when a 32-bit pattern is read as [int32_t]. *)
Definition i32 (z : Z) : Z := (z + 2 ^ 31) mod 2 ^ 32 - 2 ^ 31.

(** [MAVL_MAX_VALUES(A, B)] *)
Definition MAVL_MAX_VALUES (A B : Z) : Z := if A >=? B then A else B.

(** Node objects live at addresses; an address space of 64 bits holds
    fewer than [2^64] objects, whatever the allocator does. *)
Abbreviation addr := positive (only parsing).
Definition addr_space : Z := 2 ^ 64.

(** ** Error codes, [merr_t] of [m_config.h] *)

(** Modelled from the spec: [M_INVALID_INPUT], [M_UNDEFINED_BEHAVIOUR] and
    [M_EMPTY_STRUCTURE] are returned by [m_avl.h] but their declaration is
    not part of the enumeration in the available [m_config.h]; they are the
    error kinds invalid-input, defensive unreachable branch and
    empty-structure of the error taxonomy, further enumerators of [merr_t]
    and as such distinct from the declared ones. *)
Inductive merr_t : Set :=
  | M_OK
  | M_MUST_BE_NULL
  | M_MALLOC_FAILED
  | M_FREE_NULL
  | M_NULL_INPUT
  | M_NOT_FOUND
  | M_POP_FROM_EMPTY
  | M_IDX_OVERFLOW
  | M_NULL_ACTION
  | M_INVALID_INPUT
  | M_UNDEFINED_BEHAVIOUR
  | M_EMPTY_STRUCTURE.

Global Instance merr_t_eq_dec : EqDecision merr_t.
Proof. solve_decision. Defined.

(** ** The macro AVL tree, [m_avl.h] *)

Module MAvl.

(** [struct ID##_mavl_node_s] *)
Record mavl_node_t {T : Type} : Type := MkNode {
  n_data : T;
  n_parent : addr;
  n_left : addr;
  n_right : addr;
  n_count : Z;
  n_height : Z
}.
Global Arguments mavl_node_t : clear implicits.
Global Arguments MkNode {T} _ _ _ _ _ _.

(** [struct ID##_mavl_s]: the tree object together with the node memory it
    owns.  [frd] tells whether a destructor was given at creation, and
    [released] collects the payloads handed to it. *)
Record mavl_t {T : Type} : Type := MkTree {
  root : addr;
  nil : addr;
  tsize : Z;
  frd : bool;
  released : list T;
  mem : gmap addr (mavl_node_t T)
}.
Global Arguments mavl_t : clear implicits.
Global Arguments MkTree {T} _ _ _ _ _ _.

Section Code.
Context {T : Type}.

(** [self->cmp], fixed when the tree is created. *)
Variable cmp : T → T → Z.

Abbreviation node := (mavl_node_t T).
Abbreviation tree_obj := (mavl_t T).

(** *** State and failure monad *)

Definition M (A : Type) : Type := tree_obj → option (A * tree_obj).

Definition ret {A} (a : A) : M A := λ σ, Some (a, σ).
Definition bind {A B} (m : M A) (k : A → M B) : M B :=
  λ σ, match m σ with Some (a, σ') => k a σ' | None => None end.
Definition stuck {A} : M A := λ _, None.

Notation "'let*' x ':=' m 'in' k" := (bind m (λ x, k))
  (at level 10, x name, m at level 100, k at level 200, only parsing).
Notation "m ';;' k" := (bind m (λ _, k))
  (at level 100, k at level 200, right associativity, only parsing).

(** Reading a field of the node at [p] and updating the node at [p]. *)
Definition get {A} (f : node → A) (p : addr) : M A :=
  λ σ, match mem σ !! p with Some n => Some (f n, σ) | None => None end.
Definition upd (f : node → node) (p : addr) : M unit :=
  λ σ, match mem σ !! p with
       | Some n => Some (tt, MkTree (root σ) (nil σ) (tsize σ) (frd σ)
                                    (released σ) (<[p := f n]> (mem σ)))
       | None => None
       end.

Definition set_parent (v : addr) (n : node) : node :=
  MkNode (n_data n) v (n_left n) (n_right n) (n_count n) (n_height n).
Definition set_left (v : addr) (n : node) : node :=
  MkNode (n_data n) (n_parent n) v (n_right n) (n_count n) (n_height n).
Definition set_right (v : addr) (n : node) : node :=
  MkNode (n_data n) (n_parent n) (n_left n) v (n_count n) (n_height n).
Definition set_count (v : Z) (n : node) : node :=
  MkNode (n_data n) (n_parent n) (n_left n) (n_right n) v (n_height n).
Definition set_height (v : Z) (n : node) : node :=
  MkNode (n_data n) (n_parent n) (n_left n) (n_right n) (n_count n) v.

Definition get_nil : M addr := λ σ, Some (nil σ, σ).
Definition get_root : M addr := λ σ, Some (root σ, σ).
Definition set_root (v : addr) : M unit :=
  λ σ, Some (tt, MkTree v (nil σ) (tsize σ) (frd σ) (released σ) (mem σ)).
Definition set_size (f : Z → Z) : M unit :=
  λ σ, Some (tt, MkTree (root σ) (nil σ) (f (tsize σ)) (frd σ) (released σ) (mem σ)).

(** [malloc(sizeof *self_node)]: [ok] is the allocator's answer; a granted
    request yields an address that holds no object, and no request is
    granted once the address space is full. *)
Definition malloc (ok : bool) : M (option addr) :=
  λ σ, if ok && (Z.of_nat (size (mem σ)) <? addr_space)
       then Some (Some (fresh (dom (mem σ))), σ)
       else Some (None, σ).

(** [if (self->frd != NULL) self->frd(&self_node->data); free(self_node);] *)
Definition free_node (p : addr) : M unit :=
  λ σ, match mem σ !! p with
       | Some n =>
           Some (tt, MkTree (root σ) (nil σ) (tsize σ) (frd σ)
                       (if frd σ then n_data n :: released σ else released σ)
                       (delete p (mem σ)))
       | None => None
       end.

(** Fuel for the loops of one call: every loop walks along one branch of
    the tree, and the fix-up loops visit a node at most twice. *)
Definition gas (σ : tree_obj) : nat := (2 * size (mem σ) + 2)%nat.
Definition get_gas : M nat := λ σ, Some (gas σ, σ).

(** *** Creation *)

(** [ID##_mavl(cmp, frd)]: [cmp] is given, so the first guard does not
    fire; [None] is the [NULL] result.  The sentinel's payload is never
    initialised: it holds whatever [garbage] the allocator returned. *)
Definition mavl (has_frd : bool) (garbage : T) (ok_self ok_nil : bool)
  : option tree_obj :=
  if ok_self then
    if ok_nil then
      let nl : addr := fresh (∅ : gset addr) in
      Some (MkTree nl nl 0 has_frd [] {[ nl := MkNode garbage nl nl nl 1 0 ]})
    else None
  else None.

(** [ID##_internal_mavl_node(self, data)] *)
Definition internal_mavl_node (data : T) (ok : bool) : M addr :=
  let* nl := get_nil in
  let* self_node := malloc ok in
  match self_node with
  | None => ret nl
  | Some p =>
      (λ σ, Some (tt, MkTree (root σ) (nil σ) (tsize σ) (frd σ) (released σ)
                        (<[p := MkNode data nl nl nl 1 1]> (mem σ))));;
      ret p
  end.

(** [ID##_internal_mavl_upheight(self, self_node)] *)
Definition internal_mavl_upheight (self_node : addr) : M unit :=
  let* nl := get_nil in
  if decide (self_node ≠ nl) then
    let* l := get n_left self_node in
    let* lh := get n_height l in
    let* r := get n_right self_node in
    let* rh := get n_height r in
    upd (set_height (u32 (MAVL_MAX_VALUES lh rh + 1))) self_node
  else ret tt.

(** [ID##_internal_mavl_balance(self_node)] *)
Definition internal_mavl_balance (self_node : addr) : M Z :=
  let* l := get n_left self_node in
  let* lh := get n_height l in
  let* r := get n_right self_node in
  let* rh := get n_height r in
  ret (i32 (i32 lh - i32 rh)).

(** The re-linking shared by both rotations: [temp] is hung below its new
    parent on the side its payload compares to, or becomes the root. *)
Definition relink (temp : addr) : M unit :=
  let* nl := get_nil in
  let* tp := get n_parent temp in
  if decide (tp ≠ nl) then
    let* td := get n_data temp in
    let* pd := get n_data tp in
    if cmp td pd >=? 1 then upd (set_right temp) tp
    else upd (set_left temp) tp
  else set_root temp.

(** [ID##_internal_mavl_rotl(self, self_node)] *)
Definition internal_mavl_rotl (self_node : addr) : M unit :=
  let* nl := get_nil in
  if decide (self_node = nl) then ret tt else
  let* temp := get n_right self_node in
  if decide (temp = nl) then ret tt else
  let* tl := get n_left temp in
  upd (set_right tl) self_node;;
  (if decide (tl ≠ nl) then upd (set_parent self_node) tl else ret tt);;
  upd (set_left self_node) temp;;
  let* sp := get n_parent self_node in
  upd (set_parent sp) temp;;
  upd (set_parent temp) self_node;;
  relink temp;;
  internal_mavl_upheight self_node;;
  internal_mavl_upheight temp.

(** [ID##_internal_mavl_rotr(self, self_node)] *)
Definition internal_mavl_rotr (self_node : addr) : M unit :=
  let* nl := get_nil in
  if decide (self_node = nl) then ret tt else
  let* temp := get n_left self_node in
  if decide (temp = nl) then ret tt else
  let* tr := get n_right temp in
  upd (set_left tr) self_node;;
  (if decide (tr ≠ nl) then upd (set_parent self_node) tr else ret tt);;
  upd (set_right self_node) temp;;
  let* sp := get n_parent self_node in
  upd (set_parent sp) temp;;
  upd (set_parent temp) self_node;;
  relink temp;;
  internal_mavl_upheight self_node;;
  internal_mavl_upheight temp.

(** *** Queries *)

(** [ID##_internal_mavl_find_node(self, data)]; the loop is
    [find_node_loop], started at the root. *)
Fixpoint find_node_loop (fuel : nat) (data : T) (iterator : addr) : M addr :=
  let* nl := get_nil in
  if decide (iterator = nl) then ret nl else
  match fuel with
  | O => stuck
  | S fuel' =>
      let* d := get n_data iterator in
      if cmp d data <=? -1 then
        let* r := get n_right iterator in find_node_loop fuel' data r
      else if cmp d data >=? 1 then
        let* l := get n_left iterator in find_node_loop fuel' data l
      else ret iterator
  end.

Definition internal_mavl_find_node (data : T) : M addr :=
  let* fuel := get_gas in
  let* iterator := get_root in
  find_node_loop fuel data iterator.

(** [ID##_internal_mavl_min_node(self, self_node)] *)
Fixpoint min_node_loop (fuel : nat) (self_node : addr) : M addr :=
  let* nl := get_nil in
  let* l := get n_left self_node in
  if decide (l = nl) then ret self_node else
  match fuel with
  | O => stuck
  | S fuel' => min_node_loop fuel' l
  end.

Definition internal_mavl_min_node (self_node : addr) : M addr :=
  let* nl := get_nil in
  if decide (self_node ≠ nl) then
    let* fuel := get_gas in min_node_loop fuel self_node
  else ret self_node.

(** [ID##_internal_mavl_max_node(self, self_node)] *)
Fixpoint max_node_loop (fuel : nat) (self_node : addr) : M addr :=
  let* nl := get_nil in
  let* r := get n_right self_node in
  if decide (r = nl) then ret self_node else
  match fuel with
  | O => stuck
  | S fuel' => max_node_loop fuel' r
  end.

Definition internal_mavl_max_node (self_node : addr) : M addr :=
  let* nl := get_nil in
  if decide (self_node ≠ nl) then
    let* fuel := get_gas in max_node_loop fuel self_node
  else ret self_node.

(** A call on the tree object [self]: a [NULL] handle is answered with
    [M_NULL_INPUT] before anything is touched. *)
Definition query {A} (self : option tree_obj) (body : M (merr_t * option A))
  : option (merr_t * option A) :=
  match self with
  | None => Some (M_NULL_INPUT, None)
  | Some σ => match body σ with Some (r, _) => Some r | None => None end
  end.

Definition call (self : option tree_obj) (body : M merr_t)
  : option (merr_t * option tree_obj) :=
  match self with
  | None => Some (M_NULL_INPUT, None)
  | Some σ => match body σ with
              | Some (e, σ') => Some (e, Some σ')
              | None => None
              end
  end.

(** [ID##_mavl_find(self, data, acc)]; [acc] tells whether the accumulator
    pointer is given, and the second component of the result is what was
    stored through it. *)
Definition mavl_find (self : option tree_obj) (data : T) (acc : bool)
  : option (merr_t * option T) :=
  query self (
    let* nl := get_nil in
    let* self_node := internal_mavl_find_node data in
    if decide (self_node = nl) then ret (M_NOT_FOUND, None) else
    if acc then
      let* d := get n_data self_node in ret (M_OK, Some d)
    else ret (M_OK, None)).

(** [ID##_mavl_min(self, data, acc)] *)
Definition mavl_min (self : option tree_obj) (data : T) (acc : bool)
  : option (merr_t * option T) :=
  if negb acc then Some (M_NULL_INPUT, None) else
  query self (
    let* found := internal_mavl_find_node data in
    let* m := internal_mavl_min_node found in
    let* d := get n_data m in
    ret (M_OK, Some d)).

(** [ID##_mavl_max(self, data, acc)] *)
Definition mavl_max (self : option tree_obj) (data : T) (acc : bool)
  : option (merr_t * option T) :=
  if negb acc then Some (M_NULL_INPUT, None) else
  query self (
    let* found := internal_mavl_find_node data in
    let* m := internal_mavl_max_node found in
    let* d := get n_data m in
    ret (M_OK, Some d)).

(** The ascent of [ID##_mavl_pred]: climb while the node is a left child. *)
Fixpoint pred_climb (fuel : nat) (iterator parent_iterator : addr) : M addr :=
  let* nl := get_nil in
  if decide (parent_iterator = nl) then ret parent_iterator else
  let* pl := get n_left parent_iterator in
  if decide (pl = iterator) then
    match fuel with
    | O => stuck
    | S fuel' =>
        let* pp := get n_parent parent_iterator in
        pred_climb fuel' parent_iterator pp
    end
  else ret parent_iterator.

(** [ID##_mavl_pred(self, data, acc)] *)
Definition mavl_pred (self : option tree_obj) (data : T) (acc : bool)
  : option (merr_t * option T) :=
  query self (
    let* nl := get_nil in
    let* iterator := internal_mavl_find_node data in
    if decide (iterator = nl) then ret (M_INVALID_INPUT, None) else
    if acc then
      let* l := get n_left iterator in
      if decide (l ≠ nl) then
        let* m := internal_mavl_max_node l in
        let* d := get n_data m in ret (M_OK, Some d)
      else
        let* fuel := get_gas in
        let* p := get n_parent iterator in
        let* parent_iterator := pred_climb fuel iterator p in
        let* d := get n_data parent_iterator in ret (M_OK, Some d)
    else ret (M_OK, None)).

(** The ascent of [ID##_mavl_succ]: climb while the node is a right child. *)
Fixpoint succ_climb (fuel : nat) (iterator parent_iterator : addr) : M addr :=
  let* nl := get_nil in
  if decide (parent_iterator = nl) then ret parent_iterator else
  let* pr := get n_right parent_iterator in
  if decide (pr = iterator) then
    match fuel with
    | O => stuck
    | S fuel' =>
        let* pp := get n_parent parent_iterator in
        succ_climb fuel' parent_iterator pp
    end
  else ret parent_iterator.

(** [ID##_mavl_succ(self, data, acc)] *)
Definition mavl_succ (self : option tree_obj) (data : T) (acc : bool)
  : option (merr_t * option T) :=
  query self (
    let* nl := get_nil in
    let* iterator := internal_mavl_find_node data in
    if decide (iterator = nl) then ret (M_INVALID_INPUT, None) else
    if acc then
      let* r := get n_right iterator in
      if decide (r ≠ nl) then
        let* m := internal_mavl_min_node r in
        let* d := get n_data m in ret (M_OK, Some d)
      else
        let* fuel := get_gas in
        let* p := get n_parent iterator in
        let* parent_iterator := succ_climb fuel iterator p in
        let* d := get n_data parent_iterator in ret (M_OK, Some d)
    else ret (M_OK, None)).

(** The descent of [ID##_mavl_lca]. *)
Fixpoint lca_loop (fuel : nat) (left right : T) (iterator : addr)
  : M (merr_t * option T) :=
  let* nl := get_nil in
  if decide (iterator = nl) then ret (M_UNDEFINED_BEHAVIOUR, None) else
  match fuel with
  | O => stuck
  | S fuel' =>
      let* d := get n_data iterator in
      if (cmp d left >=? 1) && (cmp d right >=? 1) then
        let* l := get n_left iterator in lca_loop fuel' left right l
      else if (cmp d left <=? -1) && (cmp d right <=? -1) then
        let* r := get n_right iterator in lca_loop fuel' left right r
      else ret (M_OK, Some d)
  end.

(** [ID##_mavl_lca(self, left, right, acc)] *)
Definition mavl_lca (self : option tree_obj) (left right : T) (acc : bool)
  : option (merr_t * option T) :=
  query self (
    let* nl := get_nil in
    let* fl := internal_mavl_find_node left in
    if decide (fl = nl) then ret (M_INVALID_INPUT, None) else
    let* fr := internal_mavl_find_node right in
    if decide (fr = nl) then ret (M_INVALID_INPUT, None) else
    if acc then
      let* fuel := get_gas in
      let* iterator := get_root in
      lca_loop fuel left right iterator
    else ret (M_OK, None)).

(** *** Insertion *)

(** One round of the loop of [ID##_internal_mavl_push_fix]; the result is
    the node the loop continues with. *)
Definition push_fix_round (self_node : addr) : M addr :=
  internal_mavl_upheight self_node;;
  let* bf := internal_mavl_balance self_node in
  let* l := get n_left self_node in
  let* lbf := internal_mavl_balance l in
  let* r := get n_right self_node in
  let* rbf := internal_mavl_balance r in
  (if (bf =? 2) && (lbf =? 1) then internal_mavl_rotr self_node else ret tt);;
  (if (bf =? -2) && (rbf =? -1) then internal_mavl_rotl self_node else ret tt);;
  (if (bf =? 2) && (lbf =? -1) then
     let* l' := get n_left self_node in
     internal_mavl_rotl l';;
     internal_mavl_rotr self_node
   else ret tt);;
  (if (bf =? -2) && (rbf =? 1) then
     let* r' := get n_right self_node in
     internal_mavl_rotr r';;
     internal_mavl_rotl self_node
   else ret tt);;
  get n_parent self_node.

(** [ID##_internal_mavl_push_fix(self, self_node)] *)
Fixpoint internal_mavl_push_fix (fuel : nat) (self_node : addr) : M unit :=
  let* nl := get_nil in
  if decide (self_node = nl) then ret tt else
  match fuel with
  | O => stuck
  | S fuel' =>
      let* next := push_fix_round self_node in
      internal_mavl_push_fix fuel' next
  end.

(** The descent of [ID##_mavl_push]: [None] when the loop returned from
    inside (an equal payload was met and its count incremented), else the
    last node visited. *)
Fixpoint push_descent (fuel : nat) (data : T) (iterator parent_iterator : addr)
  : M (option addr) :=
  let* nl := get_nil in
  if decide (iterator = nl) then ret (Some parent_iterator) else
  match fuel with
  | O => stuck
  | S fuel' =>
      let* d := get n_data iterator in
      if cmp d data >=? 1 then
        let* l := get n_left iterator in push_descent fuel' data l iterator
      else if cmp d data <=? -1 then
        let* r := get n_right iterator in push_descent fuel' data r iterator
      else
        let* c := get n_count iterator in
        upd (set_count (u32 (c + 1))) iterator;;
        ret None
  end.

(** [ID##_mavl_push(self, data)]; [ok] is the allocator's answer, should
    the call come to ask for a node. *)
Definition mavl_push (self : option tree_obj) (data : T) (ok : bool)
  : option (merr_t * option tree_obj) :=
  call self (
    let* nl := get_nil in
    let* fuel := get_gas in
    let* iterator := get_root in
    let* met := push_descent fuel data iterator nl in
    match met with
    | None => ret M_OK
    | Some parent_iterator =>
        let* self_node := internal_mavl_node data ok in
        if decide (self_node = nl) then ret M_MALLOC_FAILED else
        (if decide (parent_iterator ≠ nl) then
           upd (set_parent parent_iterator) self_node;;
           let* pd := get n_data parent_iterator in
           let* sd := get n_data self_node in
           (if cmp pd sd >=? 1 then upd (set_left self_node) parent_iterator
            else upd (set_right self_node) parent_iterator);;
           let* fuel' := get_gas in
           internal_mavl_push_fix fuel' parent_iterator
         else set_root self_node);;
        set_size (λ n, u64 (n + 1));;
        ret M_OK
    end).

(** *** Deletion *)

(** [ID##_internal_mavl_swap(self, dest, src)] *)
Definition internal_mavl_swap (dest src : addr) : M unit :=
  let* nl := get_nil in
  if bool_decide (dest = nl) || bool_decide (src = nl) then ret tt else
  let* temp := get n_right dest in
  let* sr := get n_right src in
  upd (set_right sr) dest;;
  let* dr := get n_right dest in
  (if decide (dr ≠ nl) then upd (set_parent dest) dr else ret tt);;
  upd (set_right temp) src;;
  let* sr' := get n_right src in
  (if decide (sr' ≠ nl) then upd (set_parent src) sr' else ret tt);;
  let* temp := get n_left dest in
  let* sl := get n_left src in
  upd (set_left sl) dest;;
  let* dl := get n_left dest in
  (if decide (dl ≠ nl) then upd (set_parent dest) dl else ret tt);;
  upd (set_left temp) src;;
  let* sl' := get n_left src in
  (if decide (sl' ≠ nl) then upd (set_parent src) sl' else ret tt);;
  let* temp := get n_parent dest in
  let* sp := get n_parent src in
  upd (set_parent sp) dest;;
  let* dp := get n_parent dest in
  (if decide (dp ≠ nl) then
     let* dpl := get n_left dp in
     if decide (dpl = src) then upd (set_left dest) dp
     else upd (set_right dest) dp
   else set_root dest);;
  upd (set_parent temp) src;;
  let* sp' := get n_parent src in
  if decide (sp' ≠ nl) then
    let* spl := get n_left sp' in
    if decide (spl = dest) then upd (set_left src) sp'
    else upd (set_right src) sp'
  else set_root src.

(** One round of the loop of [ID##_internal_mavl_pop_fix]. *)
Definition pop_fix_round (self_node : addr) : M addr :=
  internal_mavl_upheight self_node;;
  let* bf := internal_mavl_balance self_node in
  let* l := get n_left self_node in
  let* lbf := internal_mavl_balance l in
  let* r := get n_right self_node in
  let* rbf := internal_mavl_balance r in
  (if (bf >? 1) && (lbf >=? 0) then internal_mavl_rotr self_node else ret tt);;
  (if (bf <? -1) && (rbf <=? 0) then internal_mavl_rotl self_node else ret tt);;
  (if (bf >? 1) && (lbf <? 0) then
     let* l' := get n_left self_node in
     internal_mavl_rotl l';;
     internal_mavl_rotr self_node
   else ret tt);;
  (if (bf <? -1) && (rbf >? 0) then
     let* r' := get n_right self_node in
     internal_mavl_rotr r';;
     internal_mavl_rotl self_node
   else ret tt);;
  get n_parent self_node.

(** [ID##_internal_mavl_pop_fix(self, self_node)] *)
Fixpoint internal_mavl_pop_fix (fuel : nat) (self_node : addr) : M unit :=
  let* nl := get_nil in
  if decide (self_node = nl) then ret tt else
  match fuel with
  | O => stuck
  | S fuel' =>
      let* next := pop_fix_round self_node in
      internal_mavl_pop_fix fuel' next
  end.

(** The unlinking step of [ID##_mavl_pop]: [child] takes the place of
    [self_node] below the parent of [self_node], or becomes the root. *)
Definition replace_in_parent (self_node child : addr) : M unit :=
  let* nl := get_nil in
  let* p := get n_parent self_node in
  if decide (p ≠ nl) then
    let* pr := get n_right p in
    if decide (pr = self_node) then upd (set_right child) p
    else upd (set_left child) p
  else set_root child.

(** [ID##_mavl_pop(self, data)] *)
Definition mavl_pop (self : option tree_obj) (data : T)
  : option (merr_t * option tree_obj) :=
  call self (
    let* nl := get_nil in
    let* rt := get_root in
    if decide (rt = nl) then ret M_POP_FROM_EMPTY else
    let* self_node := internal_mavl_find_node data in
    if decide (self_node = nl) then ret M_INVALID_INPUT else
    let* l := get n_left self_node in
    let* r := get n_right self_node in
    (if bool_decide (l ≠ nl) && bool_decide (r ≠ nl) then
       let* m := internal_mavl_min_node r in
       internal_mavl_swap self_node m
     else ret tt);;
    let* l := get n_left self_node in
    let* r := get n_right self_node in
    (if decide (l ≠ nl) then
       let* p := get n_parent self_node in
       upd (set_parent p) l;;
       replace_in_parent self_node l
     else if decide (r ≠ nl) then
       let* p := get n_parent self_node in
       upd (set_parent p) r;;
       replace_in_parent self_node r
     else replace_in_parent self_node nl);;
    let* parent_self_node := get n_parent self_node in
    free_node self_node;;
    set_size (λ n, u64 (n - 1));;
    (if decide (parent_self_node ≠ nl) then
       let* fuel := get_gas in
       internal_mavl_pop_fix fuel parent_self_node
     else ret tt);;
    ret M_OK).

(** [ID##_internal_mavl_traverse_inorder_help(self, self_node, action)],
    with the payloads handed to [action] collected in order. *)
Fixpoint traverse_inorder_help (fuel : nat) (self_node : addr) : M (list T) :=
  let* nl := get_nil in
  if decide (self_node = nl) then ret [] else
  match fuel with
  | O => stuck
  | S fuel' =>
      let* l := get n_left self_node in
      let* xs := traverse_inorder_help fuel' l in
      let* d := get n_data self_node in
      let* r := get n_right self_node in
      let* ys := traverse_inorder_help fuel' r in
      ret (xs ++ d :: ys)
  end.

(** *** Release *)

(** The place a node pointer is stored in, the [ID##_mavl_node_t *] that
    [ID##_internal_mavl_free_help] receives: [&self->root],
    [&node->left] or [&node->right]. *)
Inductive slot : Type :=
  | Root_slot
  | Left_slot (p : addr)
  | Right_slot (p : addr).

Definition read_slot (s : slot) : M addr :=
  match s with
  | Root_slot => get_root
  | Left_slot p => get n_left p
  | Right_slot p => get n_right p
  end.

Definition write_slot (s : slot) (v : addr) : M unit :=
  match s with
  | Root_slot => set_root v
  | Left_slot p => upd (set_left v) p
  | Right_slot p => upd (set_right v) p
  end.

(** [ID##_internal_mavl_free_help(self, self_node)] *)
Fixpoint internal_mavl_free_help (fuel : nat) (self_node : slot) : M unit :=
  let* nl := get_nil in
  let* p := read_slot self_node in
  if decide (p = nl) then ret tt else
  match fuel with
  | O => stuck
  | S fuel' =>
      internal_mavl_free_help fuel' (Left_slot p);;
      let* p := read_slot self_node in
      internal_mavl_free_help fuel' (Right_slot p);;
      let* p := read_slot self_node in
      free_node p;;
      let* nl := get_nil in
      write_slot self_node nl
  end.

(** The sentinel is freed as a plain block: its payload is not handed to
    the destructor. *)
Definition free_nil : M unit :=
  λ σ, match mem σ !! nil σ with
       | Some _ => Some (tt, MkTree (root σ) (nil σ) (tsize σ) (frd σ)
                               (released σ) (delete (nil σ) (mem σ)))
       | None => None
       end.

(** [ID##_mavl_free(self)].  The argument is [None] for a [NULL] pointer
    and [Some None] for a pointer to a [NULL] handle.  The result gives the
    error code, the handle found in [*self] afterwards, the payloads that
    were handed to the destructor (the latest first) and the node memory
    that is still allocated. *)
Definition mavl_free (self : option (option tree_obj))
  : option (merr_t * option tree_obj * list T * gmap addr node) :=
  match self with
  | Some (Some σ) =>
      match (internal_mavl_free_help (gas σ) Root_slot;; free_nil) σ with
      | Some (_, σ') => Some (M_OK, None, released σ', mem σ')
      | None => None
      end
  | Some None => Some (M_FREE_NULL, None, [], ∅)
  | None => Some (M_FREE_NULL, None, [], ∅)
  end.

(** *** Observers *)

(** [ID##_mavl_empty(self)]: [true] is [mtrue]. *)
Definition mavl_empty (self : option tree_obj) : bool :=
  match self with
  | None => true
  | Some σ => bool_decide (root σ = nil σ) || (tsize σ =? 0)
  end.

(** [SIZE_MAX] *)
Definition SIZE_MAX : Z := 2 ^ 64 - 1.

(** [ID##_mavl_size(self)] *)
Definition mavl_size (self : option tree_obj) : Z :=
  match self with
  | None => SIZE_MAX
  | Some σ => tsize σ
  end.

(** [ID##_mavl_root(self, acc)] *)
Definition mavl_root (self : option tree_obj) (acc : bool)
  : option (merr_t * option T) :=
  if negb acc then Some (M_NULL_INPUT, None) else
  query self (
    let* nl := get_nil in
    let* rt := get_root in
    if decide (rt = nl) then ret (M_EMPTY_STRUCTURE, None) else
    let* d := get n_data rt in
    ret (M_OK, Some d)).

(** *** Traversals *)

(** What a traversal does that can be observed: the text it prints and the
    payloads it hands to [action]. *)
Inductive event : Type :=
  | Printed_nil
  | Printed_open
  | Printed_close
  | Action (d : T).

(** [ID##_internal_mavl_traverse_preorder_help(self, self_node, action)],
    with the payloads handed to [action] collected in order. *)
Fixpoint traverse_preorder_help (fuel : nat) (self_node : addr) : M (list T) :=
  let* nl := get_nil in
  if decide (self_node = nl) then ret [] else
  match fuel with
  | O => stuck
  | S fuel' =>
      let* d := get n_data self_node in
      let* l := get n_left self_node in
      let* xs := traverse_preorder_help fuel' l in
      let* r := get n_right self_node in
      let* ys := traverse_preorder_help fuel' r in
      ret (d :: xs ++ ys)
  end.

(** [ID##_internal_mavl_traverse_postorder_help(self, self_node, action)] *)
Fixpoint traverse_postorder_help (fuel : nat) (self_node : addr) : M (list T) :=
  let* nl := get_nil in
  if decide (self_node = nl) then ret [] else
  match fuel with
  | O => stuck
  | S fuel' =>
      let* d := get n_data self_node in
      let* l := get n_left self_node in
      let* xs := traverse_postorder_help fuel' l in
      let* r := get n_right self_node in
      let* ys := traverse_postorder_help fuel' r in
      ret (d :: xs ++ ys)
  end.

(** [ID##_mavl_traverse_inorder(self, action)]; [action] tells whether the
    function pointer is given.  [Printed_nil] is [printf("(Nil)\n")],
    [Printed_open] is [printf("[")] and [Printed_close] is [printf(" ]")]. *)
Definition mavl_traverse_inorder (self : option tree_obj) (action : bool)
  : option (merr_t * list event) :=
  match self with
  | None => Some (M_NULL_INPUT, [])
  | Some σ =>
      if negb action then Some (M_NULL_ACTION, []) else
      if decide (root σ = nil σ) then Some (M_OK, [Printed_nil]) else
      match traverse_inorder_help (gas σ) (root σ) σ with
      | Some (xs, _) =>
          Some (M_OK, Printed_open :: map Action xs ++ [Printed_close])
      | None => None
      end
  end.

(** [ID##_mavl_traverse_preorder(self, action)] *)
Definition mavl_traverse_preorder (self : option tree_obj) (action : bool)
  : option (merr_t * list event) :=
  match self with
  | None => Some (M_NULL_INPUT, [])
  | Some σ =>
      if negb action then Some (M_NULL_ACTION, []) else
      if decide (root σ = nil σ) then Some (M_OK, [Printed_nil]) else
      match traverse_preorder_help (gas σ) (root σ) σ with
      | Some (xs, _) =>
          Some (M_OK, Printed_open :: map Action xs ++ [Printed_close])
      | None => None
      end
  end.

(** [ID##_mavl_traverse_postorder(self, action)] *)
Definition mavl_traverse_postorder (self : option tree_obj) (action : bool)
  : option (merr_t * list event) :=
  match self with
  | None => Some (M_NULL_INPUT, [])
  | Some σ =>
      if negb action then Some (M_NULL_ACTION, []) else
      if decide (root σ = nil σ) then Some (M_OK, [Printed_nil]) else
      match traverse_postorder_help (gas σ) (root σ) σ with
      | Some (xs, _) =>
          Some (M_OK, Printed_open :: map Action xs ++ [Printed_close])
      | None => None
      end
  end.

End Code.
End MAvl.

(** ** The void-pointer AVL tree, [scl_avl_tree.c]: insertion *)

Module SclAvl.

(** [avl_tree_node_t], with the fields the functions use (the header that
    declares it is not among the sources at hand); pointers are [option]s,
    [None] being [NULL], and [data] points to a heap copy of the payload.
    [height] is an [int], [size] a [size_t], and [count] is taken to be a
    counter that does not wrap in the executions considered. *)
Record avl_tree_node_t {T : Type} : Type := MkNode {
  data : option T;
  parent : option addr;
  left : option addr;
  right : option addr;
  count : Z;
  height : Z
}.
Global Arguments avl_tree_node_t : clear implicits.
Global Arguments MkNode {T} _ _ _ _ _ _.

(** [avl_tree_t] together with the node memory. *)
Record avl_tree_t {T : Type} : Type := MkTree {
  root : option addr;
  size : Z;
  mem : gmap addr (avl_tree_node_t T)
}.
Global Arguments avl_tree_t : clear implicits.
Global Arguments MkTree {T} _ _ _.

Section Code.
Context {T : Type}.

(** [tree->compare_data] *)
Variable cmp : T → T → Z.

(** [_MAX(A, B)] *)
Definition _MAX (A B : Z) : Z := if A >=? B then A else B.

Definition M (A : Type) : Type := avl_tree_t T → option (A * avl_tree_t T).
Definition ret {A} (a : A) : M A := λ σ, Some (a, σ).
Definition bind {A B} (m : M A) (k : A → M B) : M B :=
  λ σ, match m σ with Some (a, σ') => k a σ' | None => None end.
Definition stuck {A} : M A := λ _, None.

Notation "'let*' x ':=' m 'in' k" := (bind m (λ x, k))
  (at level 10, x name, m at level 100, k at level 200, only parsing).
Notation "m ';;' k" := (bind m (λ _, k))
  (at level 100, k at level 200, right associativity, only parsing).

Definition get {A} (f : avl_tree_node_t T → A) (p : addr) : M A :=
  λ σ, match mem σ !! p with Some n => Some (f n, σ) | None => None end.
Definition upd (f : avl_tree_node_t T → avl_tree_node_t T) (p : addr) : M unit :=
  λ σ, match mem σ !! p with
       | Some n => Some (tt, MkTree (root σ) (size σ) (<[p := f n]> (mem σ)))
       | None => None
       end.
Definition get_root : M (option addr) := λ σ, Some (root σ, σ).
Definition set_root (v : option addr) : M unit :=
  λ σ, Some (tt, MkTree v (size σ) (mem σ)).

Definition set_parent (v : option addr) (n : avl_tree_node_t T) :=
  MkNode (data n) v (left n) (right n) (count n) (height n).
Definition set_left (v : option addr) (n : avl_tree_node_t T) :=
  MkNode (data n) (parent n) v (right n) (count n) (height n).
Definition set_right (v : option addr) (n : avl_tree_node_t T) :=
  MkNode (data n) (parent n) (left n) v (count n) (height n).
Definition set_count (v : Z) (n : avl_tree_node_t T) :=
  MkNode (data n) (parent n) (left n) (right n) v (height n).
Definition set_height (v : Z) (n : avl_tree_node_t T) :=
  MkNode (data n) (parent n) (left n) (right n) (count n) v.

(** A call of the comparator; it reads through both pointers, so a [NULL]
    one leaves the execution without a defined result. *)
Definition compare_data (a b : option T) : M Z :=
  match a, b with
  | Some x, Some y => ret (cmp x y)
  | _, _ => stuck
  end.

(** [create_avl(compare_data, free_data)]; the comparator is given. *)
Definition create_avl (ok : bool) : option (avl_tree_t T) :=
  if ok then Some (MkTree None 0 ∅) else None.

(** [create_avl_node(data, data_size)]: [ok_node] and [ok_data] are the
    allocator's answers to the request for the node and to the request
    for the copy of the payload. *)
Definition create_avl_node (d : option T) (ok_node ok_data : bool)
  : M (option addr) :=
  match d with
  | None => ret None
  | Some x =>
      if ok_node then
        λ σ, let p := fresh (dom (mem σ)) in
             Some (Some p,
                   MkTree (root σ) (size σ)
                     (<[p := MkNode (if ok_data then Some x else None)
                                    None None None 1 1]> (mem σ)))
      else ret None
  end.

(** The height read through a child pointer, [0] for [NULL]. *)
Definition child_height (p : option addr) : M Z :=
  match p with Some a => get height a | None => ret 0 end.

(** [avl_update_node_height(fix_node)] *)
Definition avl_update_node_height (fix_node : option addr) : M unit :=
  match fix_node with
  | None => ret tt
  | Some a =>
      let* l := get left a in
      let* lh := child_height l in
      let* r := get right a in
      let* rh := child_height r in
      upd (set_height (i32 (_MAX lh rh + 1))) a
  end.

(** [avl_get_node_balance(fix_node)] *)
Definition avl_get_node_balance (fix_node : option addr) : M Z :=
  match fix_node with
  | None => ret 0
  | Some a =>
      let* l := get left a in
      let* r := get right a in
      match l, r with
      | None, None => ret 0
      | Some x, None => get height x
      | None, Some y => let* h := get height y in ret (i32 (- h))
      | Some x, Some y =>
          let* lh := get height x in
          let* rh := get height y in
          ret (i32 (lh - rh))
      end
  end.

(** The re-linking shared by both rotations. *)
Definition relink (rotate_node : addr) : M unit :=
  let* rp := get parent rotate_node in
  match rp with
  | Some p =>
      let* rd := get data rotate_node in
      let* pd := get data p in
      let* c := compare_data rd pd in
      if c >=? 1 then upd (set_right (Some rotate_node)) p
      else upd (set_left (Some rotate_node)) p
  | None => set_root (Some rotate_node)
  end.

(** [avl_rotate_left(tree, fix_node)] *)
Definition avl_rotate_left (fix_node : option addr) : M unit :=
  match fix_node with
  | None => ret tt
  | Some a =>
      let* r := get right a in
      match r with
      | None => ret tt
      | Some rotate_node =>
          let* rl := get left rotate_node in
          upd (set_right rl) a;;
          (match rl with
           | Some x => upd (set_parent (Some a)) x
           | None => ret tt
           end);;
          upd (set_left (Some a)) rotate_node;;
          let* ap := get parent a in
          upd (set_parent ap) rotate_node;;
          upd (set_parent (Some rotate_node)) a;;
          relink rotate_node;;
          avl_update_node_height (Some a);;
          avl_update_node_height (Some rotate_node)
      end
  end.

(** [avl_rotate_right(tree, fix_node)] *)
Definition avl_rotate_right (fix_node : option addr) : M unit :=
  match fix_node with
  | None => ret tt
  | Some a =>
      let* l := get left a in
      match l with
      | None => ret tt
      | Some rotate_node =>
          let* lr := get right rotate_node in
          upd (set_left lr) a;;
          (match lr with
           | Some x => upd (set_parent (Some a)) x
           | None => ret tt
           end);;
          upd (set_right (Some a)) rotate_node;;
          let* ap := get parent a in
          upd (set_parent ap) rotate_node;;
          upd (set_parent (Some rotate_node)) a;;
          relink rotate_node;;
          avl_update_node_height (Some a);;
          avl_update_node_height (Some rotate_node)
      end
  end.

(** [avl_insert_fix_node_up(tree, fix_node)] *)
Fixpoint avl_insert_fix_node_up (fuel : nat) (fix_node : option addr) : M unit :=
  match fix_node with
  | None => ret tt
  | Some a =>
      match fuel with
      | O => stuck
      | S fuel' =>
          avl_update_node_height (Some a);;
          let* bf := avl_get_node_balance (Some a) in
          let* l := get left a in
          let* lbf := avl_get_node_balance l in
          let* r := get right a in
          let* rbf := avl_get_node_balance r in
          (if (bf =? 2) && (lbf =? 1) then avl_rotate_right (Some a) else ret tt);;
          (if (bf =? -2) && (rbf =? -1) then avl_rotate_left (Some a) else ret tt);;
          (if (bf =? 2) && (lbf =? -1) then
             let* l' := get left a in
             avl_rotate_left l';;
             avl_rotate_right (Some a)
           else ret tt);;
          (if (bf =? -2) && (rbf =? 1) then
             let* r' := get right a in
             avl_rotate_right r';;
             avl_rotate_left (Some a)
           else ret tt);;
          let* next := get parent a in
          avl_insert_fix_node_up fuel' next
      end
  end.

(** The descent of [avl_insert]: [inl tt] when an equal payload was met
    and its count incremented, else the last node visited. *)
Fixpoint insert_descent (fuel : nat) (d : option T)
    (iterator parent_iterator : option addr) : M (unit + option addr) :=
  match iterator with
  | None => ret (inr parent_iterator)
  | Some a =>
      match fuel with
      | O => stuck
      | S fuel' =>
          let* x := get data a in
          let* c := compare_data x d in
          if c >=? 1 then
            let* l := get left a in insert_descent fuel' d l (Some a)
          else
            let* c' := compare_data x d in
            if c' <=? -1 then
              let* r := get right a in insert_descent fuel' d r (Some a)
            else
              let* n := get count a in
              upd (set_count (n + 1)) a;;
              ret (inl tt)
      end
  end.

Definition gas (σ : avl_tree_t T) : nat := (2 * base.size (mem σ) + 2)%nat.

(** [avl_insert(tree, data, data_size)]; the result is the returned [int]
    and the tree object afterwards. *)
Definition avl_insert (tree : option (avl_tree_t T)) (d : option T)
    (data_size : Z) (ok_node ok_data : bool) : option (Z * option (avl_tree_t T)) :=
  match tree with
  | None => Some (1, None)
  | Some σ =>
      if negb (bool_decide (is_Some d)) || (data_size =? 0)
      then Some (1, Some σ) else
      match
        (let* iterator := get_root in
         let* met := insert_descent (gas σ) d iterator None in
         match met with
         | inl _ => ret 0
         | inr parent_iterator =>
             let* new_node := create_avl_node d ok_node ok_data in
             match new_node with
             | None => ret 1
             | Some p =>
                 (match parent_iterator with
                  | Some q =>
                      upd (set_parent (Some q)) p;;
                      let* qd := get data q in
                      let* pd := get data p in
                      let* c := compare_data qd pd in
                      (if c >=? 1 then upd (set_left (Some p)) q
                       else upd (set_right (Some p)) q);;
                      λ σ', avl_insert_fix_node_up (gas σ') (Some q) σ'
                  | None => set_root (Some p)
                  end);;
                 (λ σ', Some (tt, MkTree (root σ') (u64 (size σ' + 1)) (mem σ')));;
                 ret 0
             end
         end) σ
      with
      | Some (r, σ') => Some (r, Some σ')
      | None => None
      end
  end.

(** *** Search *)

Definition get_gas : M nat := λ σ, Some (gas σ, σ).

(** A call on the tree object [tree] that does not change it: a [NULL]
    tree is answered with [null] before anything is touched. *)
Definition observe {A} (tree : option (avl_tree_t T)) (null : A) (body : M A)
  : option A :=
  match tree with
  | None => Some null
  | Some σ => match body σ with Some (r, _) => Some r | None => None end
  end.

(** The loop of [avl_find_data_set_root] and of [avl_find_data]. *)
Fixpoint find_data_loop (fuel : nat) (d : option T) (iterator : option addr)
  : M (option addr) :=
  match iterator with
  | None => ret None
  | Some a =>
      match fuel with
      | O => stuck
      | S fuel' =>
          let* x := get data a in
          let* c := compare_data x d in
          if c <=? -1 then
            let* r := get right a in find_data_loop fuel' d r
          else
            let* c' := compare_data x d in
            if c' >=? 1 then
              let* l := get left a in find_data_loop fuel' d l
            else ret (Some a)
      end
  end.

(** [avl_find_data_set_root(tree, root, data)], the tree being given. *)
Definition avl_find_data_set_root (root : option addr) (d : option T)
  : M (option addr) :=
  match root with
  | None => ret None
  | Some _ => let* fuel := get_gas in find_data_loop fuel d root
  end.

(** The body of [avl_find_data] once the tree is known to be given. *)
Definition find_data (d : option T) : M (option addr) :=
  let* rt := get_root in
  match rt with
  | None => ret None
  | Some _ => let* fuel := get_gas in find_data_loop fuel d rt
  end.

(** [avl_find_data(tree, data)] *)
Definition avl_find_data (tree : option (avl_tree_t T)) (d : option T)
  : option (option addr) :=
  observe tree None (find_data d).

(** *** Observers *)

(** [avl_node_level(base_node)]: the loop, with the level counted so far. *)
Fixpoint node_level_loop (fuel : nat) (base_node : option addr) (level_count : Z)
  : M Z :=
  match base_node with
  | None => ret level_count
  | Some a =>
      match fuel with
      | O => stuck
      | S fuel' =>
          let* p := get parent a in
          node_level_loop fuel' p (i32 (level_count + 1))
      end
  end.

(** [avl_node_level(base_node)], reading the memory of [σ]. *)
Definition avl_node_level (σ : avl_tree_t T) (base_node : option addr)
  : option Z :=
  match base_node with
  | None => Some (-1)
  | Some _ =>
      match node_level_loop (gas σ) base_node (-1) σ with
      | Some (r, _) => Some r
      | None => None
      end
  end.

(** [is_avl_empty(tree)] *)
Definition is_avl_empty (tree : option (avl_tree_t T)) : Z :=
  match tree with
  | None => 1
  | Some σ =>
      if negb (bool_decide (is_Some (root σ))) || (size σ =? 0) then 1 else 0
  end.

(** [get_avl_root(tree)] *)
Definition get_avl_root (tree : option (avl_tree_t T)) : option addr :=
  match tree with
  | None => None
  | Some σ => root σ
  end.

(** [get_avl_size(tree)]; [__SIZE_MAX__] is [2^64 - 1]. *)
Definition get_avl_size (tree : option (avl_tree_t T)) : Z :=
  match tree with
  | None => 2 ^ 64 - 1
  | Some σ => size σ
  end.

(** *** Minimum and maximum *)

Fixpoint max_node_loop (fuel : nat) (root : addr) : M addr :=
  let* r := get right root in
  match r with
  | None => ret root
  | Some x =>
      match fuel with
      | O => stuck
      | S fuel' => max_node_loop fuel' x
      end
  end.

(** [avl_max_node(root)] *)
Definition avl_max_node (root : option addr) : M (option addr) :=
  match root with
  | None => ret None
  | Some a =>
      let* fuel := get_gas in
      let* m := max_node_loop fuel a in
      ret (Some m)
  end.

Fixpoint min_node_loop (fuel : nat) (root : addr) : M addr :=
  let* l := get left root in
  match l with
  | None => ret root
  | Some x =>
      match fuel with
      | O => stuck
      | S fuel' => min_node_loop fuel' x
      end
  end.

(** [avl_min_node(root)] *)
Definition avl_min_node (root : option addr) : M (option addr) :=
  match root with
  | None => ret None
  | Some a =>
      let* fuel := get_gas in
      let* m := min_node_loop fuel a in
      ret (Some m)
  end.

(** The payload pointer of a node that may be [NULL]: what the callers
    return as [node->data] after their [NULL != node] test. *)
Definition data_of (node : option addr) : M (option T) :=
  match node with
  | None => ret None
  | Some a => get data a
  end.

(** [avl_max_data(root)], reading the memory of [σ]; the result [None] of
    the inner option is the [NULL] pointer. *)
Definition avl_max_data (σ : avl_tree_t T) (root : option addr)
  : option (option T) :=
  match root with
  | None => Some None
  | Some _ =>
      match (let* max_node := avl_max_node root in data_of max_node) σ with
      | Some (r, _) => Some r
      | None => None
      end
  end.

(** [avl_min_data(root)] *)
Definition avl_min_data (σ : avl_tree_t T) (root : option addr)
  : option (option T) :=
  match root with
  | None => Some None
  | Some _ =>
      match (let* min_node := avl_min_node root in data_of min_node) σ with
      | Some (r, _) => Some r
      | None => None
      end
  end.

(** *** Predecessor and successor *)

(** The ascent of [avl_predecessor_node]: climb while the node is a left
    child. *)
Fixpoint predecessor_climb (fuel : nat) (iterator : addr)
    (parent_iterator : option addr) : M (option addr) :=
  match parent_iterator with
  | None => ret None
  | Some p =>
      let* pl := get left p in
      if decide (pl = Some iterator) then
        match fuel with
        | O => stuck
        | S fuel' =>
            let* pp := get parent p in
            predecessor_climb fuel' p pp
        end
      else ret (Some p)
  end.

(** The body of [avl_predecessor_node] once the tree is known to be
    given. *)
Definition predecessor_node (d : option T) : M (option addr) :=
  let* rt := get_root in
  if negb (bool_decide (is_Some rt)) || negb (bool_decide (is_Some d))
  then ret None else
  let* iterator := find_data d in
  match iterator with
  | None => ret None
  | Some a =>
      let* l := get left a in
      match l with
      | Some _ => avl_max_node l
      | None =>
          let* fuel := get_gas in
          let* p := get parent a in
          predecessor_climb fuel a p
      end
  end.

(** [avl_predecessor_node(tree, data)] *)
Definition avl_predecessor_node (tree : option (avl_tree_t T)) (d : option T)
  : option (option addr) :=
  observe tree None (predecessor_node d).

(** The ascent of [avl_successor_node]: climb while the node is a right
    child. *)
Fixpoint successor_climb (fuel : nat) (iterator : addr)
    (parent_iterator : option addr) : M (option addr) :=
  match parent_iterator with
  | None => ret None
  | Some p =>
      let* pr := get right p in
      if decide (pr = Some iterator) then
        match fuel with
        | O => stuck
        | S fuel' =>
            let* pp := get parent p in
            successor_climb fuel' p pp
        end
      else ret (Some p)
  end.

(** The body of [avl_successor_node] once the tree is known to be given. *)
Definition successor_node (d : option T) : M (option addr) :=
  let* rt := get_root in
  if negb (bool_decide (is_Some rt)) || negb (bool_decide (is_Some d))
  then ret None else
  let* iterator := find_data d in
  match iterator with
  | None => ret None
  | Some a =>
      let* r := get right a in
      match r with
      | Some _ => avl_min_node r
      | None =>
          let* fuel := get_gas in
          let* p := get parent a in
          successor_climb fuel a p
      end
  end.

(** [avl_successor_node(tree, data)] *)
Definition avl_successor_node (tree : option (avl_tree_t T)) (d : option T)
  : option (option addr) :=
  observe tree None (successor_node d).

(** [avl_predecessor_data(tree, data)] *)
Definition avl_predecessor_data (tree : option (avl_tree_t T)) (d : option T)
  : option (option T) :=
  observe tree None (
    if negb (bool_decide (is_Some d)) then ret None else
    let* predecessor_node := predecessor_node d in
    data_of predecessor_node).

(** [avl_succecessor_data(tree, data)] *)
Definition avl_succecessor_data (tree : option (avl_tree_t T)) (d : option T)
  : option (option T) :=
  observe tree None (
    if negb (bool_decide (is_Some d)) then ret None else
    let* successor_node := successor_node d in
    data_of successor_node).

(** *** Lowest common ancestor *)

(** The descent of [avl_lowest_common_ancestor_node]. *)
Fixpoint lowest_common_ancestor_loop (fuel : nat) (data1 data2 : option T)
    (iterator : option addr) : M (option addr) :=
  match iterator with
  | None => ret None
  | Some a =>
      match fuel with
      | O => stuck
      | S fuel' =>
          let* x := get data a in
          let* c1 := compare_data x data1 in
          let* go_left :=
            (if c1 >=? 1 then
               let* c2 := compare_data x data2 in ret (c2 >=? 1)
             else ret false) in
          if go_left then
            let* l := get left a in
            lowest_common_ancestor_loop fuel' data1 data2 l
          else
            let* c1' := compare_data x data1 in
            let* go_right :=
              (if c1' <=? -1 then
                 let* c2' := compare_data x data2 in ret (c2' <=? -1)
               else ret false) in
            if go_right then
              let* r := get right a in
              lowest_common_ancestor_loop fuel' data1 data2 r
            else ret (Some a)
      end
  end.

(** The body of [avl_lowest_common_ancestor_node] once the tree is known
    to be given. *)
Definition lowest_common_ancestor_node (data1 data2 : option T)
  : M (option addr) :=
  if negb (bool_decide (is_Some data1)) || negb (bool_decide (is_Some data2))
  then ret None else
  let* f1 := find_data data1 in
  match f1 with
  | None => ret None
  | Some _ =>
      let* f2 := find_data data2 in
      match f2 with
      | None => ret None
      | Some _ =>
          let* fuel := get_gas in
          let* iterator := get_root in
          lowest_common_ancestor_loop fuel data1 data2 iterator
      end
  end.

(** [avl_lowest_common_ancestor_node(tree, data1, data2)] *)
Definition avl_lowest_common_ancestor_node (tree : option (avl_tree_t T))
    (data1 data2 : option T) : option (option addr) :=
  observe tree None (lowest_common_ancestor_node data1 data2).

(** [avl_lowest_common_ancestor_data(tree, data1, data2)] *)
Definition avl_lowest_common_ancestor_data (tree : option (avl_tree_t T))
    (data1 data2 : option T) : option (option T) :=
  observe tree None (
    if negb (bool_decide (is_Some data1)) || negb (bool_decide (is_Some data2))
    then ret None else
    let* common_ancestor := lowest_common_ancestor_node data1 data2 in
    data_of common_ancestor).

(** *** Traversals *)

(** What a traversal does that can be observed: the text it prints,
    [printf("(Null)\n")], and the nodes it hands to [action]. *)
Inductive event : Type :=
  | Printed_null
  | Action (node : addr).

(** [avl_traverse_inorder_helper(root, action)], with the nodes handed to
    [action] collected in order. *)
Fixpoint avl_traverse_inorder_helper (fuel : nat) (root : option addr)
  : M (list addr) :=
  match root with
  | None => ret []
  | Some a =>
      match fuel with
      | O => stuck
      | S fuel' =>
          let* l := get left a in
          let* xs := avl_traverse_inorder_helper fuel' l in
          let* r := get right a in
          let* ys := avl_traverse_inorder_helper fuel' r in
          ret (xs ++ a :: ys)
      end
  end.

(** [avl_traverse_preorder_helper(root, action)] *)
Fixpoint avl_traverse_preorder_helper (fuel : nat) (root : option addr)
  : M (list addr) :=
  match root with
  | None => ret []
  | Some a =>
      match fuel with
      | O => stuck
      | S fuel' =>
          let* l := get left a in
          let* xs := avl_traverse_preorder_helper fuel' l in
          let* r := get right a in
          let* ys := avl_traverse_preorder_helper fuel' r in
          ret (a :: xs ++ ys)
      end
  end.

(** [avl_traverse_postorder_helper(root, action)] *)
Fixpoint avl_traverse_postorder_helper (fuel : nat) (root : option addr)
  : M (list addr) :=
  match root with
  | None => ret []
  | Some a =>
      match fuel with
      | O => stuck
      | S fuel' =>
          let* l := get left a in
          let* xs := avl_traverse_postorder_helper fuel' l in
          let* r := get right a in
          let* ys := avl_traverse_postorder_helper fuel' r in
          ret (xs ++ ys ++ [a])
      end
  end.

(** [avl_traverse_inorder(tree, action)]; [action] tells whether the
    function pointer is given. *)
Definition avl_traverse_inorder (tree : option (avl_tree_t T)) (action : bool)
  : option (list event) :=
  if negb action then Some [] else
  observe tree [] (
    let* rt := get_root in
    match rt with
    | None => ret [Printed_null]
    | Some _ =>
        let* fuel := get_gas in
        let* xs := avl_traverse_inorder_helper fuel rt in
        ret (map Action xs)
    end).

(** [avl_traverse_preorder(tree, action)] *)
Definition avl_traverse_preorder (tree : option (avl_tree_t T)) (action : bool)
  : option (list event) :=
  if negb action then Some [] else
  observe tree [] (
    let* rt := get_root in
    match rt with
    | None => ret [Printed_null]
    | Some _ =>
        let* fuel := get_gas in
        let* xs := avl_traverse_preorder_helper fuel rt in
        ret (map Action xs)
    end).

(** [avl_traverse_postorder(tree, action)] *)
Definition avl_traverse_postorder (tree : option (avl_tree_t T)) (action : bool)
  : option (list event) :=
  if negb action then Some [] else
  observe tree [] (
    let* rt := get_root in
    match rt with
    | None => ret [Printed_null]
    | Some _ =>
        let* fuel := get_gas in
        let* xs := avl_traverse_postorder_helper fuel rt in
        ret (map Action xs)
    end).

(** *** Deletion *)

Definition set_data (v : option T) (n : avl_tree_node_t T) :=
  MkNode v (parent n) (left n) (right n) (count n) (height n).

Definition set_size (f : Z → Z) : M unit :=
  λ σ, Some (tt, MkTree (root σ) (f (size σ)) (mem σ)).

(** [free(node->data); free(node)] *)
Definition free_node (p : addr) : M unit :=
  λ σ, match mem σ !! p with
       | Some _ => Some (tt, MkTree (root σ) (size σ) (delete p (mem σ)))
       | None => None
       end.

(** [avl_change_data(dest_node, src_node, data_size)]: [memmove] copies
    the payload of the source into the block of the destination. *)
Definition avl_change_data (dest_node src_node : option addr) (data_size : Z)
  : M unit :=
  match dest_node, src_node with
  | Some a, Some b =>
      if data_size =? 0 then ret tt else
      let* dd := get data a in
      let* sd := get data b in
      match dd, sd with
      | Some _, Some x =>
          upd (set_data (Some x)) a;;
          let* c := get count b in
          upd (set_count c) a;;
          let* h := get height b in
          upd (set_height h) a
      | _, _ => ret tt
      end
  | _, _ => ret tt
  end.

(** [avl_delete_fix_node_up(tree, fix_node)] *)
Fixpoint avl_delete_fix_node_up (fuel : nat) (fix_node : option addr) : M unit :=
  match fix_node with
  | None => ret tt
  | Some a =>
      match fuel with
      | O => stuck
      | S fuel' =>
          avl_update_node_height (Some a);;
          let* bf := avl_get_node_balance (Some a) in
          let* l := get left a in
          let* lbf := avl_get_node_balance l in
          let* r := get right a in
          let* rbf := avl_get_node_balance r in
          (if (bf >? 1) && (lbf >=? 0) then avl_rotate_right (Some a) else ret tt);;
          (if (bf <? -1) && (rbf <=? 0) then avl_rotate_left (Some a) else ret tt);;
          (if (bf >? 1) && (lbf <? 0) then
             let* l' := get left a in
             avl_rotate_left l';;
             avl_rotate_right (Some a)
           else ret tt);;
          (if (bf <? -1) && (rbf >? 0) then
             let* r' := get right a in
             avl_rotate_right r';;
             avl_rotate_left (Some a)
           else ret tt);;
          let* next := get parent a in
          avl_delete_fix_node_up fuel' next
      end
  end.

(** The link of the parent of [delete_node] that designates it is set to
    [child]; for the root, [tree->root] is. *)
Definition replace_in_parent (delete_node : addr) (child : option addr) : M unit :=
  let* p := get parent delete_node in
  match p with
  | Some q =>
      let* qr := get right q in
      if decide (qr = Some delete_node) then upd (set_right child) q
      else upd (set_left child) q
  | None => set_root child
  end.

(** [avl_delete_helper(tree, root, data, data_size)]; [free_data] tells
    whether the tree was created with a function to free the content of a
    payload, and the result lists the payloads handed to it. *)
Fixpoint avl_delete_helper (fuel : nat) (free_data : bool) (root : option addr)
    (d : option T) (data_size : Z) : M (list T) :=
  match root, d with
  | Some _, Some _ =>
      let* delete_node := avl_find_data_set_root root d in
      match delete_node with
      | None => ret []
      | Some a =>
          let* l := get left a in
          let* r := get right a in
          match l, r with
          | Some _, Some _ =>
              let* delete_succecessor := avl_min_node r in
              avl_change_data (Some a) delete_succecessor data_size;;
              let* r' := get right a in
              let* sd := (match delete_succecessor with
                          | Some b => get data b
                          | None => stuck
                          end) in
              match fuel with
              | O => stuck
              | S fuel' => avl_delete_helper fuel' free_data r' sd data_size
              end
          | _, _ =>
              (match l with
               | Some x =>
                   let* p := get parent a in
                   upd (set_parent p) x;;
                   replace_in_parent a (Some x)
               | None =>
                   match r with
                   | Some y =>
                       let* p := get parent a in
                       upd (set_parent p) y;;
                       replace_in_parent a (Some y)
                   | None => replace_in_parent a None
                   end
               end);;
              let* parent_delete_node := get parent a in
              let* dd := get data a in
              free_node a;;
              let* fuel' := get_gas in
              avl_delete_fix_node_up fuel' parent_delete_node;;
              set_size (λ n, u64 (n - 1));;
              ret (if free_data then option_list dd else [])
          end
      end
  | _, _ => ret []
  end.

(** [avl_delete(tree, data, data_size)]; the result is the returned [int],
    the tree object afterwards and the payloads handed to [free_data]. *)
Definition avl_delete (tree : option (avl_tree_t T)) (d : option T)
    (data_size : Z) (free_data : bool)
  : option (Z * option (avl_tree_t T) * list T) :=
  match tree with
  | None => Some (1, None, [])
  | Some σ =>
      if negb (bool_decide (is_Some (root σ))) || negb (bool_decide (is_Some d))
         || (data_size =? 0)
      then Some (1, Some σ, []) else
      match avl_delete_helper (gas σ) free_data (root σ) d data_size σ with
      | Some (freed, σ') => Some (0, Some σ', freed)
      | None => None
      end
  end.

(** *** Release *)

(** [free_avl_helper(tree, root)]; the result lists the payloads handed
    to [free_data]. *)
Fixpoint free_avl_helper (fuel : nat) (free_data : bool) (root : option addr)
  : M (list T) :=
  match root with
  | None => ret []
  | Some a =>
      match fuel with
      | O => stuck
      | S fuel' =>
          let* l := get left a in
          let* xs := free_avl_helper fuel' free_data l in
          let* r := get right a in
          let* ys := free_avl_helper fuel' free_data r in
          let* d := get data a in
          free_node a;;
          ret (xs ++ ys ++ (if free_data then option_list d else []))
      end
  end.

(** [free_avl(tree)]: the payloads handed to [free_data] and the node
    memory that is still allocated afterwards. *)
Definition free_avl (tree : option (avl_tree_t T)) (free_data : bool)
  : option (list T * gmap addr (avl_tree_node_t T)) :=
  match tree with
  | None => Some ([], ∅)
  | Some σ =>
      match free_avl_helper (gas σ) free_data (root σ) σ with
      | Some (freed, σ') => Some (freed, mem σ')
      | None => None
      end
  end.

End Code.
End SclAvl.

(** ** Trees as values

    The shape a tree object is meant to have in memory, as an inductive
    tree that records for every node its address and its stored fields. *)

Module Shape.
Import MAvl.

Section Trees.
Context {T : Type}.

Inductive tree : Type :=
  | Leaf
  | Node (l : tree) (a : addr) (d : T) (c h : Z) (r : tree).

(** The pointer that designates a tree: the sentinel for the empty tree. *)
Definition ptr (nl : addr) (t : tree) : addr :=
  match t with Leaf => nl | Node _ a _ _ _ _ => a end.

(** The stored height of the root; the sentinel stores 0. *)
Definition ht (t : tree) : Z :=
  match t with Leaf => 0 | Node _ _ _ _ h _ => h end.

Fixpoint taddrs (t : tree) : list addr :=
  match t with
  | Leaf => []
  | Node l a _ _ _ r => taddrs l ++ a :: taddrs r
  end.

Fixpoint keys (t : tree) : list T :=
  match t with
  | Leaf => []
  | Node l _ d _ _ r => keys l ++ d :: keys r
  end.

(** Payloads with their counts, in order. *)
Fixpoint elements (t : tree) : list (T * Z) :=
  match t with
  | Leaf => []
  | Node l _ d c _ r => elements l ++ (d, c) :: elements r
  end.

Fixpoint card (t : tree) : Z :=
  match t with
  | Leaf => 0
  | Node l _ _ _ _ r => card l + 1 + card r
  end.

(** [rep_tree H nl par t]: memory [H] holds the nodes of [t], linked as
    [t] prescribes, below a parent at address [par]. *)
Fixpoint rep_tree (H : gmap addr (mavl_node_t T)) (nl par : addr) (t : tree)
  : Prop :=
  match t with
  | Leaf => True
  | Node l a d c h r =>
      H !! a = Some (MkNode d par (ptr nl l) (ptr nl r) c h) ∧
      rep_tree H nl a l ∧ rep_tree H nl a r
  end.

(** The sentinel points to itself and has height 0. *)
Definition nil_ok (nl : addr) (n : mavl_node_t T) : Prop :=
  n_parent n = nl ∧ n_left n = nl ∧ n_right n = nl ∧ n_height n = 0.

(** [wf σ t]: the tree object [σ] holds exactly the tree [t]. *)
Definition wf (σ : mavl_t T) (t : tree) : Prop :=
  (∃ n, mem σ !! nil σ = Some n ∧ nil_ok (nil σ) n) ∧
  root σ = ptr (nil σ) t ∧
  rep_tree (mem σ) (nil σ) (nil σ) t ∧
  NoDup (nil σ :: taddrs t).

(** *** One-hole contexts *)

(** A frame is a node one of whose children is the hole: [FL] has the hole
    on the left, [FR] on the right. *)
Inductive frame : Type :=
  | FL (a : addr) (d : T) (c h : Z) (r : tree)
  | FR (l : tree) (a : addr) (d : T) (c h : Z).

Definition fill (f : frame) (t : tree) : tree :=
  match f with
  | FL a d c h r => Node t a d c h r
  | FR l a d c h => Node l a d c h t
  end.

Definition faddr (f : frame) : addr :=
  match f with FL a _ _ _ _ => a | FR _ a _ _ _ => a end.

(** A context lists the frames from the hole outwards. *)
Fixpoint plug (t : tree) (k : list frame) : tree :=
  match k with
  | [] => t
  | f :: k' => plug (fill f t) k'
  end.

(** The parent of the hole. *)
Definition cpar (top : addr) (k : list frame) : addr :=
  match k with [] => top | f :: _ => faddr f end.

(** [rep_ctx H nl c k top]: memory holds the frames of [k], the innermost
    one pointing to [c] through its hole, the outermost one hanging below
    [top]. *)
Fixpoint rep_ctx (H : gmap addr (mavl_node_t T)) (nl c : addr)
    (k : list frame) (top : addr) : Prop :=
  match k with
  | [] => True
  | FL a d cn h r :: k' =>
      H !! a = Some (MkNode d (cpar top k') c (ptr nl r) cn h) ∧
      rep_tree H nl a r ∧ rep_ctx H nl a k' top
  | FR l a d cn h :: k' =>
      H !! a = Some (MkNode d (cpar top k') (ptr nl l) c cn h) ∧
      rep_tree H nl a l ∧ rep_ctx H nl a k' top
  end.

Definition flefts (f : frame) : list addr :=
  match f with FL _ _ _ _ _ => [] | FR l a _ _ _ => taddrs l ++ [a] end.
Definition frights (f : frame) : list addr :=
  match f with FL a _ _ _ r => a :: taddrs r | FR _ _ _ _ _ => [] end.

(** Addresses to the left and to the right of the hole, in order. *)
Fixpoint clefts (k : list frame) : list addr :=
  match k with [] => [] | f :: k' => clefts k' ++ flefts f end.
Fixpoint crights (k : list frame) : list addr :=
  match k with [] => [] | f :: k' => frights f ++ crights k' end.

Definition kflefts (f : frame) : list T :=
  match f with FL _ _ _ _ _ => [] | FR l _ d _ _ => keys l ++ [d] end.
Definition kfrights (f : frame) : list T :=
  match f with FL _ d _ _ r => d :: keys r | FR _ _ _ _ _ => [] end.
Fixpoint klefts (k : list frame) : list T :=
  match k with [] => [] | f :: k' => klefts k' ++ kflefts f end.
Fixpoint krights (k : list frame) : list T :=
  match k with [] => [] | f :: k' => kfrights f ++ krights k' end.


(** *** The invariants of the data model *)

(** Height consistency: the stored height is one more than the larger of
    the children's stored heights. *)
Fixpoint hc (t : tree) : Prop :=
  match t with
  | Leaf => True
  | Node l _ _ _ h r => h = 1 + Z.max (ht l) (ht r) ∧ hc l ∧ hc r
  end.

(** AVL balance. *)
Fixpoint avl (t : tree) : Prop :=
  match t with
  | Leaf => True
  | Node l _ _ _ _ r => Z.abs (ht l - ht r) ≤ 1 ∧ avl l ∧ avl r
  end.

(** *** What the restructuring functions do to a tree *)

Definition upheight_t (t : tree) : tree :=
  match t with
  | Leaf => Leaf
  | Node l a d c _ r => Node l a d c (u32 (MAVL_MAX_VALUES (ht l) (ht r) + 1)) r
  end.

Definition bal (t : tree) : Z :=
  match t with
  | Leaf => 0
  | Node l _ _ _ _ r => i32 (i32 (ht l) - i32 (ht r))
  end.

Definition rotl_t (t : tree) : tree :=
  match t with
  | Node l a d c h (Node rl b db cb hb rr) =>
      upheight_t (Node (upheight_t (Node l a d c h rl)) b db cb hb rr)
  | _ => t
  end.

Definition rotr_t (t : tree) : tree :=
  match t with
  | Node (Node ll b db cb hb lr) a d c h r =>
      upheight_t (Node ll b db cb hb (upheight_t (Node lr a d c h r)))
  | _ => t
  end.

Definition on_left (f : tree → tree) (t : tree) : tree :=
  match t with Leaf => Leaf | Node l a d c h r => Node (f l) a d c h r end.
Definition on_right (f : tree → tree) (t : tree) : tree :=
  match t with Leaf => Leaf | Node l a d c h r => Node l a d c h (f r) end.

(** The four rebalancing cases. *)
Inductive rot_case : Set := NoRot | CaseLL | CaseRR | CaseLR | CaseRL.

Definition apply_case (cs : rot_case) (t : tree) : tree :=
  match cs with
  | NoRot => t
  | CaseLL => rotr_t t
  | CaseRR => rotl_t t
  | CaseLR => rotr_t (on_left rotl_t t)
  | CaseRL => rotl_t (on_right rotr_t t)
  end.

Definition push_case (bf lbf rbf : Z) : rot_case :=
  if (bf =? 2) && (lbf =? 1) then CaseLL
  else if (bf =? -2) && (rbf =? -1) then CaseRR
  else if (bf =? 2) && (lbf =? -1) then CaseLR
  else if (bf =? -2) && (rbf =? 1) then CaseRL
  else NoRot.

Definition pop_case (bf lbf rbf : Z) : rot_case :=
  if (bf >? 1) && (lbf >=? 0) then CaseLL
  else if (bf <? -1) && (rbf <=? 0) then CaseRR
  else if (bf >? 1) && (lbf <? 0) then CaseLR
  else if (bf <? -1) && (rbf >? 0) then CaseRL
  else NoRot.

Definition lsub (t : tree) : tree :=
  match t with Leaf => Leaf | Node l _ _ _ _ _ => l end.
Definition rsub (t : tree) : tree :=
  match t with Leaf => Leaf | Node _ _ _ _ _ r => r end.

(** One round of a fix-up loop on the subtree it works on. *)
Definition round_t (sel : Z → Z → Z → rot_case) (t : tree) : tree :=
  let t1 := upheight_t t in
  apply_case (sel (bal t1) (bal (lsub t1)) (bal (rsub t1))) t1.

End Trees.

Global Arguments tree : clear implicits.
Global Arguments frame : clear implicits.

Section Order.
Context {T : Type}.
Variable cmp : T → T → Z.

(** BST order: every payload on the left compares less than the node's,
    every payload on the right greater. *)
Fixpoint bst (t : tree T) : Prop :=
  match t with
  | Leaf => True
  | Node l _ d _ _ r =>
      Forall (λ x, cmp x d ≤ -1) (keys l) ∧ Forall (λ x, 1 ≤ cmp x d) (keys r) ∧
      bst l ∧ bst r
  end.

(** The invariants that hold between calls. *)
Definition inv (σ : mavl_t T) (t : tree T) : Prop :=
  wf σ t ∧ bst t ∧ avl t ∧ hc t ∧
  Z.of_nat (size (mem σ)) ≤ addr_space ∧
  tsize σ = card t.

End Order.
End Shape.

(** A valid comparator is a total order whose sign tells the relation. *)
Class TotalOrder {T : Type} (cmp : T → T → Z) : Prop := {
  cmp_eq : ∀ a b, cmp a b = 0 ↔ a = b;
  cmp_flip : ∀ a b, 1 ≤ cmp a b ↔ cmp b a ≤ -1;
  cmp_trans : ∀ a b c, cmp a b ≤ -1 → cmp b c ≤ -1 → cmp a c ≤ -1
}.

(** ** Definitions used to state and prove the properties *)

Import MAvl Shape.

Section Spec.
Context {T : Type}.

(** The comparator of the tree. *)
Variable cmp : T → T → Z.

Implicit Types (t l r : tree T) (k : list (frame T)) (σ : mavl_t T).

(** The addresses held by the frames of a context and by their sibling
    subtrees. *)
Definition caddrs (k : list (frame T)) : list positive := clefts k ++ crights k.

(** Two tree objects that differ at most in the root pointer and in the
    contents of their nodes. *)
Definition same_obj σ σ' : Prop :=
  nil σ' = nil σ ∧ tsize σ' = tsize σ ∧ frd σ' = frd σ ∧
  released σ' = released σ ∧ dom (mem σ') = dom (mem σ).

(** The side of a frame on which the payload [x] is hung by [relink]. *)
Definition hole_ok (k : list (frame T)) (x : T) : Prop :=
  match k with
  | [] => True
  | FL _ dp _ _ _ :: _ => (cmp x dp >=? 1) = false
  | FR _ _ dp _ _ :: _ => (cmp x dp >=? 1) = true
  end.

(** The node [a] is the root of [t] or a child of the root. *)
Definition near (nl a : positive) t : Prop :=
  ptr nl t = a ∨ ptr nl (lsub t) = a ∨ ptr nl (rsub t) = a.

(** What a fix-up round runs once the case is chosen. *)
Definition exec_case (cs : rot_case) (self_node : positive) : M unit :=
  match cs with
  | NoRot => ret tt
  | CaseLL => internal_mavl_rotr cmp self_node
  | CaseRR => internal_mavl_rotl cmp self_node
  | CaseLR =>
      bind (get n_left self_node) (λ x,
      bind (internal_mavl_rotl cmp x) (λ _,
      internal_mavl_rotr cmp self_node))
  | CaseRL =>
      bind (get n_right self_node) (λ x,
      bind (internal_mavl_rotr cmp x) (λ _,
      internal_mavl_rotl cmp self_node))
  end.

(** The common form of the two fix-up rounds. *)
Definition fix_round_gen (sel : Z → Z → Z → rot_case) (self_node : positive)
  : M positive :=
  bind (internal_mavl_upheight self_node) (λ _,
  bind (internal_mavl_balance self_node) (λ bf,
  bind (get n_left self_node) (λ x,
  bind (internal_mavl_balance x) (λ lbf,
  bind (get n_right self_node) (λ y,
  bind (internal_mavl_balance y) (λ rbf,
  bind (exec_case (sel bf lbf rbf) self_node) (λ _,
  get n_parent self_node))))))).

(** The descent from the root towards [data]: the subtree it stops at,
    and the frames passed on the way. *)
Fixpoint locate (data : T) (t : tree T) (k : list (frame T))
  : tree T * list (frame T) :=
  match t with
  | Leaf => (Leaf, k)
  | Node l a x c h r =>
      if cmp x data >=? 1 then locate data l (FL a x c h r :: k)
      else if cmp x data <=? -1 then locate data r (FR l a x c h :: k)
      else (t, k)
  end.

(** The descent along the left spine and along the right spine. *)
Fixpoint leftmost (t : tree T) (k : list (frame T)) : tree T * list (frame T) :=
  match t with
  | Leaf => (Leaf, k)
  | Node l a x c h r =>
      match l with
      | Leaf => (t, k)
      | Node _ _ _ _ _ _ => leftmost l (FL a x c h r :: k)
      end
  end.

Fixpoint rightmost (t : tree T) (k : list (frame T)) : tree T * list (frame T) :=
  match t with
  | Leaf => (Leaf, k)
  | Node l a x c h r =>
      match r with
      | Leaf => (t, k)
      | Node _ _ _ _ _ _ => rightmost r (FR l a x c h :: k)
      end
  end.

(** The descent of an insertion ends on an equal payload, whose count it
    increments, or at the place where the new node belongs. *)
Definition descent_post σ (z : tree T * list (frame T))
    (res : option positive) σ' : Prop :=
  match z with
  | (Leaf, k') => res = Some (cpar (nil σ) k') ∧ σ' = σ
  | (Node l a x c h r, k') =>
      res = None ∧
      upd (set_count (u32 (c + 1))) a σ = Some (tt, σ') ∧
      wf σ' (plug (Node l a x (u32 (c + 1)) h r) k') ∧ same_obj σ σ'
  end.

(** The unlinking code of deletion, for a node with at most one child. *)
Definition splice_code (nl self_node x y : positive) : M (T:=T) unit :=
  if decide (x ≠ nl) then
    bind (get n_parent self_node) (λ p,
    bind (upd (set_parent p) x) (λ _, replace_in_parent self_node x))
  else if decide (y ≠ nl) then
    bind (get n_parent self_node) (λ p,
    bind (upd (set_parent p) y) (λ _, replace_in_parent self_node y))
  else replace_in_parent self_node nl.

(** The subtree that takes the place of a node with at most one child. *)
Definition spliced (l r : tree T) : tree T :=
  match l with Leaf => r | Node _ _ _ _ _ _ => l end.

(** The pointer that designates the outermost frame of a context. *)
Definition ctop (c : positive) (k : list (frame T)) : positive :=
  match last k with Some f => faddr f | None => c end.

(** Frames whose hole is on the left. *)
Definition is_FL (f : frame T) : Prop :=
  match f with FL _ _ _ _ _ => True | FR _ _ _ _ _ => False end.

(** A consistent AVL tree is left as it is by a fix-up round. *)
Definition quiet (sel : Z → Z → Z → rot_case) : Prop :=
  ∀ bf lbf rbf, -1 ≤ bf ≤ 1 → sel bf lbf rbf = NoRot.

(** The balance factor as a difference of heights. *)
Definition mbal t : Z := ht (lsub t) - ht (rsub t).

(** After an insertion below it, a subtree that had height [h0] is a
    consistent AVL tree again, of the same height or one higher; in the
    latter case it leans to one side, unless it is the new leaf. *)
Definition Grown (h0 : Z) t : Prop :=
  hc t ∧ avl t ∧ (ht t = h0 ∨ (ht t = h0 + 1 ∧ (mbal t ≠ 0 ∨ h0 = 0))).

(** After a deletion below it: of the same height or one lower. *)
Definition Shrunk (h0 : Z) t : Prop :=
  hc t ∧ avl t ∧ (ht t = h0 ∨ ht t = h0 - 1).

(** The sibling subtree of the hole of a frame. *)
Definition fsib (f : frame T) : tree T :=
  match f with FL _ _ _ _ r => r | FR l _ _ _ _ => l end.

(** The nodes in order: address, payload and count. *)
Fixpoint cells t : list (positive * T * Z) :=
  match t with
  | Leaf => []
  | Node l a d c _ r => cells l ++ (a, d, c) :: cells r
  end.

(** The nodes of a frame, and of a context, to the left and to the right
    of the hole. *)
Definition fcl (f : frame T) : list (positive * T * Z) :=
  match f with FL _ _ _ _ _ => [] | FR l a d c _ => cells l ++ [(a, d, c)] end.
Definition fcr (f : frame T) : list (positive * T * Z) :=
  match f with FL a d c _ r => (a, d, c) :: cells r | FR _ _ _ _ _ => [] end.
Fixpoint ccl k : list (positive * T * Z) :=
  match k with [] => [] | f :: k' => ccl k' ++ fcl f end.
Fixpoint ccr k : list (positive * T * Z) :=
  match k with [] => [] | f :: k' => fcr f ++ ccr k' end.

(** What the fix-up needs of the frames above the subtree at work:
    siblings are consistent AVL trees whose heights fit the height [h0]
    the subtree had before the update. *)
Fixpoint ctx_inv (h0 : Z) k : Prop :=
  match k with
  | [] => True
  | f :: k' =>
      hc (fsib f) ∧ avl (fsib f) ∧ Z.abs (h0 - ht (fsib f)) ≤ 1 ∧
      ctx_inv (1 + Z.max h0 (ht (fsib f))) k'
  end.

(** The order on payloads that the comparator tells. *)
Definition key_lt (x y : T) : Prop := cmp x y ≤ -1.

(** The linking code of an insertion below an existing parent. *)
Definition attach_code (self_node parent_iterator : positive) : M (T:=T) unit :=
  bind (upd (set_parent parent_iterator) self_node) (λ _,
  bind (get n_data parent_iterator) (λ pd,
  bind (get n_data self_node) (λ sd,
  if cmp pd sd >=? 1 then upd (set_left self_node) parent_iterator
  else upd (set_right self_node) parent_iterator))).

(** The tree object once the node [n] has been stored at [p]. *)
Definition with_node σ (p : positive) (n : mavl_node_t T) : mavl_t T :=
  MkTree (root σ) (nil σ) (tsize σ) (frd σ) (released σ) (<[p := n]> (mem σ)).

(** [σ'] has one node object more than [σ], at [p]; sentinel, size,
    destructor and released payloads are those of [σ]. *)
Definition grown_by σ (p : positive) σ' : Prop :=
  nil σ' = nil σ ∧ tsize σ' = tsize σ ∧ frd σ' = frd σ ∧
  released σ' = released σ ∧ dom (mem σ') = {[p]} ∪ dom (mem σ).

(** The last step of the descent of an insertion agrees with the side the
    new node is hung on. *)
Definition went_ok (k : list (frame T)) (data : T) : Prop :=
  match k with
  | [] => True
  | FL _ dp _ _ _ :: _ => (cmp dp data >=? 1) = true
  | FR _ _ dp _ _ :: _ => (cmp dp data >=? 1) = false
  end.

(** The keys passed on the left of the descent are below [data], those
    passed on the right above it. *)
Definition path_ok (data : T) k : Prop :=
  Forall (λ y, key_lt y data) (klefts k) ∧ Forall (λ y, key_lt data y) (krights k).

(** What [ID##_mavl_pop] does once the node to unlink has at most one
    child. *)
Definition pop_tail (nl self_node : positive) : M (T:=T) merr_t :=
  bind (get n_left self_node) (λ x,
  bind (get n_right self_node) (λ y,
  bind (splice_code nl self_node x y) (λ _,
  bind (get n_parent self_node) (λ parent_self_node,
  bind (free_node self_node) (λ _,
  bind (set_size (λ n, u64 (n - 1))) (λ _,
  bind (if decide (parent_self_node ≠ nl) then
          bind get_gas (λ fuel, internal_mavl_pop_fix cmp fuel parent_self_node)
        else ret tt) (λ _,
  ret M_OK))))))).

(** The tree object after the node at [a], holding [d], has been
    released. *)
Definition shrunk_by σ (a : positive) (d : T) σ' : Prop :=
  nil σ' = nil σ ∧ tsize σ' = u64 (tsize σ - 1) ∧ frd σ' = frd σ ∧
  released σ' = (if frd σ then d :: released σ else released σ) ∧
  dom (mem σ') = dom (mem σ) ∖ {[a]}.

(** Frames whose hole is on the right. *)
Definition is_FR (f : frame T) : Prop :=
  match f with FL _ _ _ _ _ => False | FR _ _ _ _ _ => True end.

(** The payload of the node of a frame. *)
Definition fdata (f : frame T) : T :=
  match f with FL _ d _ _ _ => d | FR _ _ d _ _ => d end.

(** The nearest frame above the hole that has the hole in its right
    subtree, and the nearest that has it in its left subtree. *)
Fixpoint pred_anc k : option (frame T) :=
  match k with
  | [] => None
  | FL _ _ _ _ _ :: k' => pred_anc k'
  | FR l a d c h :: _ => Some (FR l a d c h)
  end.
Fixpoint succ_anc k : option (frame T) :=
  match k with
  | [] => None
  | FR _ _ _ _ _ :: k' => succ_anc k'
  | FL a d c h r :: _ => Some (FL a d c h r)
  end.

(** What the descent of [ID##_mavl_lca] computes on a tree. *)
Fixpoint lca_t (left right : T) t : merr_t * option T :=
  match t with
  | Leaf => (M_UNDEFINED_BEHAVIOUR, None)
  | Node l _ d _ _ r =>
      if (cmp d left >=? 1) && (cmp d right >=? 1) then lca_t left right l
      else if (cmp d left <=? -1) && (cmp d right <=? -1) then lca_t left right r
      else (M_OK, Some d)
  end.

(** Reference computation: the payloads met on the way from the root to
    the node of [x], found by searching the whole tree. *)
Fixpoint ancestors (x : T) t : option (list T) :=
  match t with
  | Leaf => None
  | Node l _ d _ _ r =>
      if cmp d x =? 0 then Some [d]
      else match ancestors x l with
           | Some p => Some (d :: p)
           | None =>
               match ancestors x r with
               | Some p => Some (d :: p)
               | None => None
               end
           end
  end.

(** Membership in a list of payloads, decided by the comparator. *)
Definition is_in (p : list T) (x : T) : bool := existsb (λ y, cmp x y =? 0) p.

(** The deepest ancestor of [x1] that is an ancestor of [x2] too. *)
Definition lca_ref (x1 x2 : T) t : option T :=
  match ancestors x1 t, ancestors x2 t with
  | Some p1, Some p2 => last (List.filter (is_in p2) p1)
  | _, _ => None
  end.

(** A call of the mutating interface. *)
Inductive op : Type :=
  | Push (data : T) (ok : bool)
  | Pop (data : T).

(** One call; there is no result when the call does not return. *)
Definition step (o : op) (σ : mavl_t T) : option (merr_t * mavl_t T) :=
  match
    match o with
    | Push data ok => mavl_push cmp (Some σ) data ok
    | Pop data => mavl_pop cmp (Some σ) data
    end
  with
  | Some (e, Some σ') => Some (e, σ')
  | _ => None
  end.

(** The tree object after a sequence of calls, whatever they returned. *)
Fixpoint run (ops : list op) (σ : mavl_t T) : option (mavl_t T) :=
  match ops with
  | [] => Some σ
  | o :: ops' =>
      match step o σ with
      | Some (_, σ') => run ops' σ'
      | None => None
      end
  end.

(** The payloads of a tree, the root before its subtrees. *)
Fixpoint preorder (t : tree T) : list T :=
  match t with
  | Leaf => []
  | Node l _ d _ _ r => d :: preorder l ++ preorder r
  end.

(** The payloads of a tree, the subtrees before the root. *)
Fixpoint postorder (t : tree T) : list T :=
  match t with
  | Leaf => []
  | Node l _ d _ _ r => postorder l ++ postorder r ++ [d]
  end.

(** What a traversal of a non-empty tree prints around the payloads. *)
Definition bracketed (xs : list T) : list (event (T:=T)) :=
  Printed_open :: map Action xs ++ [Printed_close].

(** The slot is not a field of a node of [t]. *)
Definition slot_out (s : slot) (t : tree T) : Prop :=
  match s with
  | Root_slot => True
  | Left_slot p | Right_slot p => p ∉ taddrs t
  end.

(** Memory [m] once [nl] has been written to the slot [s]. *)
Definition slot_view (s : slot) (nl : positive) (m : gmap positive (mavl_node_t T))
    (x : positive) : option (mavl_node_t T) :=
  match s with
  | Root_slot => m !! x
  | Left_slot p => if decide (x = p) then set_left nl <$> m !! x else m !! x
  | Right_slot p => if decide (x = p) then set_right nl <$> m !! x else m !! x
  end.

(** The root pointer once [nl] has been written to the slot [s]. *)
Definition slot_root (s : slot) (nl rt : positive) : positive :=
  match s with Root_slot => nl | _ => rt end.

(** The addresses of the node objects of a tree object are those of its
    tree and the sentinel: nothing else was allocated. *)
Definition tight σ t : Prop :=
  dom (mem σ) = list_to_set (nil σ :: taddrs t).

End Spec.

(** ** Definitions used for the void-pointer tree *)

Section SclSpec.
Import SclAvl.
Context {T : Type}.

(** The comparator of the tree. *)
Variable cmp : T → T → Z.

Implicit Types (t l r : tree T) (k : list (frame T)) (σ : avl_tree_t T).

(** The pointer that designates a tree in [scl_avl_tree.c]: [NULL] for the
    empty tree. *)
Definition optr (t : tree T) : option positive :=
  match t with Leaf => None | Node _ a _ _ _ _ => Some a end.

(** [srep_tree m par t]: memory [m] holds the nodes of [t], each with its
    payload, linked as [t] prescribes, below the parent [par]. *)
Fixpoint srep_tree (m : gmap positive (avl_tree_node_t T)) (par : option positive)
    (t : tree T) : Prop :=
  match t with
  | Leaf => True
  | Node l a d c h r =>
      m !! a = Some (MkNode (Some d) par (optr l) (optr r) c h) ∧
      srep_tree m (Some a) l ∧ srep_tree m (Some a) r
  end.

(** The parent of the hole of a context; the outermost node has none. *)
Definition ocpar (k : list (frame T)) : option positive :=
  match k with [] => None | f :: _ => Some (faddr f) end.

(** [srep_ctx m c k]: memory holds the frames of [k], the innermost one
    pointing to [c] through its hole. *)
Fixpoint srep_ctx (m : gmap positive (avl_tree_node_t T)) (c : option positive)
    (k : list (frame T)) : Prop :=
  match k with
  | [] => True
  | FL a d cn h r :: k' =>
      m !! a = Some (MkNode (Some d) (ocpar k') c (optr r) cn h) ∧
      srep_tree m (Some a) r ∧ srep_ctx m (Some a) k'
  | FR l a d cn h :: k' =>
      m !! a = Some (MkNode (Some d) (ocpar k') (optr l) c cn h) ∧
      srep_tree m (Some a) l ∧ srep_ctx m (Some a) k'
  end.

(** [swf σ t]: the tree object [σ] holds the tree [t]. *)
Definition swf (σ : avl_tree_t T) (t : tree T) : Prop :=
  root σ = optr t ∧ srep_tree (mem σ) None t ∧ NoDup (taddrs t).

(** The nodes of a tree, the root before its subtrees, and the subtrees
    before the root. *)
Fixpoint pre_nodes (t : tree T) : list positive :=
  match t with
  | Leaf => []
  | Node l a _ _ _ r => a :: pre_nodes l ++ pre_nodes r
  end.

Fixpoint post_nodes (t : tree T) : list positive :=
  match t with
  | Leaf => []
  | Node l a _ _ _ r => post_nodes l ++ post_nodes r ++ [a]
  end.

(** The subtree at which the descent of the lowest common ancestor
    stops. *)
Fixpoint lca_sub (x1 x2 : T) (t : tree T) : tree T :=
  match t with
  | Leaf => Leaf
  | Node l _ d _ _ r =>
      if (cmp d x1 >=? 1) && (cmp d x2 >=? 1) then lca_sub x1 x2 l
      else if (cmp d x1 <=? -1) && (cmp d x2 <=? -1) then lca_sub x1 x2 r
      else t
  end.

(** The payload at the root of a tree. *)
Definition root_data (t : tree T) : option T :=
  match t with Leaf => None | Node _ _ d _ _ _ => Some d end.

(** What [avl_update_node_height] does to the root of a tree: the height
    is an [int]. *)
Definition s_upheight_t (t : tree T) : tree T :=
  match t with
  | Leaf => Leaf
  | Node l a d c _ r => Node l a d c (i32 (_MAX (ht l) (ht r) + 1)) r
  end.

(** What [avl_get_node_balance] returns for the root of a tree: the
    function reads the height of the children that are there. *)
Definition s_bal (t : tree T) : Z :=
  match t with
  | Leaf => 0
  | Node l _ _ _ _ r =>
      match l, r with
      | Leaf, Leaf => 0
      | Node _ _ _ _ hl _, Leaf => hl
      | Leaf, Node _ _ _ _ hr _ => i32 (- hr)
      | Node _ _ _ _ hl _, Node _ _ _ _ hr _ => i32 (hl - hr)
      end
  end.

Definition s_rotl_t (t : tree T) : tree T :=
  match t with
  | Node l a d c h (Node rl b db cb hb rr) =>
      s_upheight_t (Node (s_upheight_t (Node l a d c h rl)) b db cb hb rr)
  | _ => t
  end.

Definition s_rotr_t (t : tree T) : tree T :=
  match t with
  | Node (Node ll b db cb hb lr) a d c h r =>
      s_upheight_t (Node ll b db cb hb (s_upheight_t (Node lr a d c h r)))
  | _ => t
  end.

Definition s_apply_case (cs : rot_case) (t : tree T) : tree T :=
  match cs with
  | NoRot => t
  | CaseLL => s_rotr_t t
  | CaseRR => s_rotl_t t
  | CaseLR => s_rotr_t (on_left s_rotl_t t)
  | CaseRL => s_rotl_t (on_right s_rotr_t t)
  end.

(** One round of a fix-up loop of [scl_avl_tree.c] on the subtree it
    works on. *)
Definition s_round_t (sel : Z → Z → Z → rot_case) (t : tree T) : tree T :=
  let t1 := s_upheight_t t in
  s_apply_case (sel (s_bal t1) (s_bal (lsub t1)) (s_bal (rsub t1))) t1.

(** Two tree objects that differ at most in the root pointer and in the
    contents of their nodes. *)
Definition s_same (σ σ' : avl_tree_t T) : Prop :=
  size σ' = size σ ∧ dom (mem σ') = dom (mem σ).

(** What a fix-up round of [scl_avl_tree.c] runs once the case is
    chosen. *)
Definition s_exec_case (cs : rot_case) (fix_node : positive) : M (T:=T) unit :=
  match cs with
  | NoRot => ret tt
  | CaseLL => avl_rotate_right cmp (Some fix_node)
  | CaseRR => avl_rotate_left cmp (Some fix_node)
  | CaseLR =>
      bind (get left fix_node) (λ x,
      bind (avl_rotate_left cmp x) (λ _,
      avl_rotate_right cmp (Some fix_node)))
  | CaseRL =>
      bind (get right fix_node) (λ x,
      bind (avl_rotate_right cmp x) (λ _,
      avl_rotate_left cmp (Some fix_node)))
  end.

(** The common form of the rounds of [avl_insert_fix_node_up] and of
    [avl_delete_fix_node_up]; the result is the node the loop goes on
    with. *)
Definition s_fix_round_gen (sel : Z → Z → Z → rot_case) (fix_node : positive)
  : M (T:=T) (option positive) :=
  bind (avl_update_node_height (Some fix_node)) (λ _,
  bind (avl_get_node_balance (Some fix_node)) (λ bf,
  bind (get left fix_node) (λ x,
  bind (avl_get_node_balance x) (λ lbf,
  bind (get right fix_node) (λ y,
  bind (avl_get_node_balance y) (λ rbf,
  bind (s_exec_case (sel bf lbf rbf) fix_node) (λ _,
  get parent fix_node))))))).

(** The node [a] is the root of [t] or a child of the root. *)
Definition s_near (a : positive) (t : tree T) : Prop :=
  optr t = Some a ∨ optr (lsub t) = Some a ∨ optr (rsub t) = Some a.

(** The invariants of a tree object of [scl_avl_tree.c] between calls:
    it holds a balanced search tree with consistent heights, [size] counts
    its nodes, the node memory holds no other node, and the nodes fit in
    the address space. *)
Definition sinv (σ : avl_tree_t T) (t : tree T) : Prop :=
  swf σ t ∧ bst cmp t ∧ avl t ∧ hc t ∧ size σ = card t ∧
  dom (mem σ) = list_to_set (taddrs t) ∧ card t < addr_space.

(** The tree object once the node [n] has been stored at [p]. *)
Definition s_with_node (σ : avl_tree_t T) (p : positive) (n : avl_tree_node_t T)
  : avl_tree_t T :=
  MkTree (root σ) (size σ) (<[p := n]> (mem σ)).

(** [σ'] has one node object more than [σ], at [p]. *)
Definition s_grown (σ : avl_tree_t T) (p : positive) (σ' : avl_tree_t T) : Prop :=
  size σ' = size σ ∧ dom (mem σ') = {[p]} ∪ dom (mem σ).

(** The linking code of an insertion below an existing parent. *)
Definition s_attach_code (p q : positive) : M (T:=T) unit :=
  bind (upd (set_parent (Some q)) p) (λ _,
  bind (get data q) (λ qd,
  bind (get data p) (λ pd,
  bind (compare_data cmp qd pd) (λ c,
  if c >=? 1 then upd (set_left (Some p)) q else upd (set_right (Some p)) q)))).

(** The descent of an insertion ends on an equal payload, whose count it
    increments, or at the place where the new node belongs. *)
Definition s_descent_post (σ : avl_tree_t T) (z : tree T * list (frame T))
    (res : unit + option positive) (σ' : avl_tree_t T) : Prop :=
  match z with
  | (Leaf, k') => res = inr (ocpar k') ∧ σ' = σ
  | (Node l a x c h r, k') =>
      res = inl tt ∧
      upd (set_count (c + 1)) a σ = Some (tt, σ') ∧
      swf σ' (plug (Node l a x (c + 1) h r) k') ∧ s_same σ σ'
  end.

(** The unlinking code of [avl_delete_helper], for a node with at most
    one child. *)
Definition s_splice_code (a : positive) (l r : option positive) : M (T:=T) unit :=
  match l with
  | Some x =>
      bind (get parent a) (λ p,
      bind (upd (set_parent p) x) (λ _, replace_in_parent a (Some x)))
  | None =>
      match r with
      | Some y =>
          bind (get parent a) (λ p,
          bind (upd (set_parent p) y) (λ _, replace_in_parent a (Some y)))
      | None => replace_in_parent a None
      end
  end.

(** What [avl_delete_helper] does once the node to unlink has at most one
    child. *)
Definition s_delete_tail (fd : bool) (a : positive) (l r : option positive)
  : M (T:=T) (list T) :=
  bind (s_splice_code a l r) (λ _,
  bind (get parent a) (λ parent_delete_node,
  bind (get data a) (λ dd,
  bind (free_node a) (λ _,
  bind get_gas (λ fuel',
  bind (avl_delete_fix_node_up cmp fuel' parent_delete_node) (λ _,
  bind (set_size (λ n, u64 (n - 1))) (λ _,
  ret (if fd then option_list dd else [])))))))).

(** A call of the mutating interface of [scl_avl_tree.c]. *)
Inductive scl_op : Type :=
  | AvlInsert (d : T)
  | AvlDelete (d : T).

(** One call with payloads of size [sz], every allocation being granted;
    [fd] tells whether the tree has a [free_data] function.  There is no
    result when the call does not return. *)
Definition scl_step (sz : Z) (fd : bool) (o : scl_op) (σ : avl_tree_t T)
  : option (avl_tree_t T) :=
  match o with
  | AvlInsert d =>
      match avl_insert cmp (Some σ) (Some d) sz true true with
      | Some (_, Some σ') => Some σ'
      | _ => None
      end
  | AvlDelete d =>
      match avl_delete cmp (Some σ) (Some d) sz fd with
      | Some (_, Some σ', _) => Some σ'
      | _ => None
      end
  end.

(** The tree object after a sequence of calls, whatever they returned. *)
Fixpoint scl_run (sz : Z) (fd : bool) (ops : list scl_op) (σ : avl_tree_t T)
  : option (avl_tree_t T) :=
  match ops with
  | [] => Some σ
  | o :: ops' =>
      match scl_step sz fd o σ with
      | Some σ' => scl_run sz fd ops' σ'
      | None => None
      end
  end.

End SclSpec.

(** ** A concrete instance: integer payloads *)

(** A comparator of integers. *)
Definition cmp_int (a b : Z) : Z := if a <? b then -1 else if b <? a then 1 else 0.

(** The tree built by a sequence of calls on a fresh tree without a
    destructor whose sentinel holds [garbage]. *)
Definition build (garbage : Z) (ops : list (op (T:=Z))) : option (mavl_t Z) :=
  match mavl false garbage true true with
  | Some σ => run cmp_int ops σ
  | None => None
  end.

(** The trees the example histories build. *)
Definition tree_213 (c1 : Z) : tree Z :=
  Node (Node Leaf 3 1 c1 1 Leaf) 2 2 1 2 (Node Leaf 4 3 1 1 Leaf).

(** Three pushes that build a root with two children. *)
Definition ops_213 : list (op (T:=Z)) := [Push 2 true; Push 1 true; Push 3 true].

(** The tree object built by a sequence of insertions into a fresh tree of
    [scl_avl_tree.c], every allocation being granted. *)
Definition scl_build (xs : list Z) : option (SclAvl.avl_tree_t Z) :=
  foldl (λ acc x,
           match SclAvl.avl_insert cmp_int acc (Some x) 4 true true with
           | Some (_, Some σ) => Some σ
           | _ => None
           end)
        (SclAvl.create_avl true) xs.

(** The tree that the insertions of 2, 1 and 3 build. *)
Definition scl_tree_213 : tree Z :=
  Node (Node Leaf 2 1 1 1 Leaf) 1 2 1 2 (Node Leaf 3 3 1 1 Leaf).

(** ** Trees, contexts and memory *)

Section Basics.
Context {T : Type}.
Implicit Types (t l r : tree T) (k : list (frame T)) (m : gmap positive (mavl_node_t T)).

Lemma rep_tree_ext m m' nl par t :
  (∀ x, x ∈ taddrs t → m' !! x = m !! x) →
  rep_tree m nl par t → rep_tree m' nl par t.
Proof.
  revert par. induction t as [|l IHl a d c h r IHr]; intros par Hx; simpl; [done|].
  intros (Ha & Hl & Hr). split_and!.
  - rewrite Hx; [done|]. simpl. set_solver.
  - apply IHl; [|done]. intros x Hin. apply Hx. simpl. set_solver.
  - apply IHr; [|done]. intros x Hin. apply Hx. simpl. set_solver.
Qed.

Lemma rep_ctx_ext m m' nl c k top :
  (∀ x, x ∈ caddrs k → m' !! x = m !! x) →
  rep_ctx m nl c k top → rep_ctx m' nl c k top.
Proof.
  revert c. induction k as [|f k IH]; intros c Hx; simpl; [done|].
  destruct f as [a d cn h r|l a d cn h]; intros (Ha & Hs & Hk); split_and!.
  - rewrite Hx; [done|]. unfold caddrs. simpl. set_solver.
  - eapply rep_tree_ext; [|done]. intros x Hin. apply Hx. unfold caddrs. simpl. set_solver.
  - apply IH; [|done]. intros x Hin. apply Hx. unfold caddrs in *. simpl. set_solver.
  - rewrite Hx; [done|]. unfold caddrs. simpl. set_solver.
  - eapply rep_tree_ext; [|done]. intros x Hin. apply Hx. unfold caddrs. simpl. set_solver.
  - apply IH; [|done]. intros x Hin. apply Hx. unfold caddrs in *. simpl. set_solver.
Qed.

(** A tree with a subtree at a hole is represented when the subtree and
    the frames around it are. *)
Lemma rep_plug m nl top t k :
  rep_tree m nl top (plug t k) ↔
  rep_tree m nl (cpar top k) t ∧ rep_ctx m nl (ptr nl t) k top.
Proof.
  revert t. induction k as [|f k IH]; intros t; simpl; [naive_solver|].
  rewrite IH. destruct f; simpl; naive_solver.
Qed.

Lemma taddrs_plug t k : taddrs (plug t k) = clefts k ++ taddrs t ++ crights k.
Proof.
  revert t. induction k as [|f k IH]; intros t; simpl; [by rewrite app_nil_r|].
  rewrite IH. destruct f; simpl; by rewrite <- ?app_assoc.
Qed.

Lemma keys_plug t k : keys (plug t k) = klefts k ++ keys t ++ krights k.
Proof.
  revert t. induction k as [|f k IH]; intros t; simpl; [by rewrite app_nil_r|].
  rewrite IH. destruct f; simpl; by rewrite <- ?app_assoc.
Qed.


Lemma ptr_plug nl t t' k :
  (k = [] → ptr nl t = ptr nl t') → ptr nl (plug t k) = ptr nl (plug t' k).
Proof.
  revert t t'. induction k as [|f k IH]; intros t t' Hp; simpl; [by apply Hp|].
  apply IH. intros _. by destruct f.
Qed.

End Basics.

Section Heap.
Context {T : Type}.
Implicit Types (t l r : tree T) (k : list (frame T)) (m : gmap positive (mavl_node_t T)).
Implicit Types (σ : mavl_t T).

Lemma same_obj_refl σ : same_obj σ σ.
Proof. by repeat split. Qed.
Lemma same_obj_trans σ1 σ2 σ3 : same_obj σ1 σ2 → same_obj σ2 σ3 → same_obj σ1 σ3.
Proof. unfold same_obj. intuition congruence. Qed.

(** Well-formedness, told for the subtree at a hole and its context. *)
Lemma wf_plug σ t k :
  wf σ (plug t k) ↔
  (∃ n, mem σ !! nil σ = Some n ∧ nil_ok (nil σ) n) ∧
  root σ = ptr (nil σ) (plug t k) ∧
  rep_tree (mem σ) (nil σ) (cpar (nil σ) k) t ∧
  rep_ctx (mem σ) (nil σ) (ptr (nil σ) t) k (nil σ) ∧
  NoDup (nil σ :: clefts k ++ taddrs t ++ crights k).
Proof. unfold wf. rewrite rep_plug, taddrs_plug. naive_solver. Qed.

(** Reading through a pointer to a represented tree. *)
Lemma rep_lookup m nl par t n0 :
  rep_tree m nl par t → m !! nl = Some n0 → nil_ok nl n0 →
  ∃ n, m !! ptr nl t = Some n ∧ n_height n = ht t ∧
       n_left n = ptr nl (lsub t) ∧ n_right n = ptr nl (rsub t).
Proof.
  intros Hr Hn (?&?&?&?). destruct t; simpl in *.
  - exists n0. naive_solver.
  - destruct Hr as (-> & _). eexists. split; [done|]. done.
Qed.

Lemma rep_sub_l m nl par t :
  rep_tree m nl par t → rep_tree m nl (ptr nl t) (lsub t).
Proof. destruct t; simpl; naive_solver. Qed.
Lemma rep_sub_r m nl par t :
  rep_tree m nl par t → rep_tree m nl (ptr nl t) (rsub t).
Proof. destruct t; simpl; naive_solver. Qed.

Lemma balance_ok σ par t n0 :
  rep_tree (mem σ) (nil σ) par t → mem σ !! nil σ = Some n0 → nil_ok (nil σ) n0 →
  internal_mavl_balance (ptr (nil σ) t) σ = Some (bal t, σ).
Proof.
  intros Hr Hn Hok.
  destruct (rep_lookup _ _ _ _ _ Hr Hn Hok) as (n & Hl & _ & Hnl & Hnr).
  destruct (rep_lookup _ _ _ _ _ (rep_sub_l _ _ _ _ Hr) Hn Hok) as (n1 & Hl1 & Hh1 & _).
  destruct (rep_lookup _ _ _ _ _ (rep_sub_r _ _ _ _ Hr) Hn Hok) as (n2 & Hl2 & Hh2 & _).
  unfold internal_mavl_balance, bind, get, ret.
  rewrite Hl; simpl. rewrite Hnl, Hl1; simpl. rewrite Hl; simpl.
  rewrite Hnr, Hl2; simpl. rewrite Hh1, Hh2.
  destruct t; simpl; done.
Qed.

End Heap.

(** ** Symbolic execution of the code on a represented tree *)

Lemma nd_app_false {A} (x : A) l1 l2 : NoDup (l1 ++ l2) → x ∈ l1 → x ∈ l2 → False.
Proof. rewrite NoDup_app. naive_solver. Qed.
Lemma nd_app_l {A} (l1 l2 : list A) : NoDup (l1 ++ l2) → NoDup l1.
Proof. rewrite NoDup_app. naive_solver. Qed.
Lemma nd_app_r {A} (l1 l2 : list A) : NoDup (l1 ++ l2) → NoDup l2.
Proof. rewrite NoDup_app. naive_solver. Qed.
Lemma nd_cons_false {A} (x : A) l : NoDup (x :: l) → x ∈ l → False.
Proof. rewrite NoDup_cons. naive_solver. Qed.
Lemma in_here {A} (x : A) l : x ∈ x :: l.
Proof. by left. Qed.
Lemma in_further {A} (x y : A) l : x ∈ l → x ∈ y :: l.
Proof. by right. Qed.
Lemma in_app_l {A} (x : A) l1 l2 : x ∈ l1 → x ∈ l1 ++ l2.
Proof. rewrite elem_of_app. by left. Qed.
Lemma in_app_r {A} (x : A) l1 l2 : x ∈ l2 → x ∈ l1 ++ l2.
Proof. rewrite elem_of_app. by right. Qed.

Lemma nd_app_neq {A} (x y : A) l1 l2 : NoDup (l1 ++ l2) → x ∈ l1 → y ∈ l2 → x ≠ y.
Proof. rewrite NoDup_app. naive_solver. Qed.
Lemma nd_app_neq' {A} (x y : A) l1 l2 : NoDup (l1 ++ l2) → y ∈ l1 → x ∈ l2 → x ≠ y.
Proof. rewrite NoDup_app. naive_solver. Qed.
Lemma nd_cons_neq {A} (x y : A) l : NoDup (x :: l) → y ∈ l → x ≠ y.
Proof. rewrite NoDup_cons. naive_solver. Qed.
Lemma nd_cons_neq' {A} (x y : A) l : NoDup (y :: l) → x ∈ l → x ≠ y.
Proof. rewrite NoDup_cons. naive_solver. Qed.

Ltac in_tac :=
  lazymatch goal with
  | |- _ ∈ _ ++ _ => first [apply in_app_l; in_tac | apply in_app_r; in_tac]
  | |- ?x ∈ ?y :: _ => first [apply in_here | apply in_further; in_tac]
  | |- _ => assumption
  end.

(** [nd_false H x]: closes the goal [False] when [x] occurs at two places of
    the duplicate-free list of [H]. *)
Ltac nd_false H x :=
  lazymatch type of H with
  | NoDup (?l1 ++ ?l2) =>
      first
        [ exact (nd_app_false x l1 l2 H ltac:(in_tac) ltac:(in_tac))
        | nd_false (nd_app_l l1 l2 H) x
        | nd_false (nd_app_r l1 l2 H) x ]
  | NoDup (?y :: ?l) =>
      first
        [ exact (nd_cons_false y l H ltac:(in_tac))
        | nd_false (NoDup_cons_1_2 y l H) x ]
  end.

(** [nd_neq H x y]: proves [x ≠ y] when [x] and [y] occur at different
    places of the duplicate-free list of [H]. *)
Ltac nd_neq H x y :=
  lazymatch type of H with
  | NoDup (?l1 ++ ?l2) =>
      first
        [ exact (nd_app_neq x y l1 l2 H ltac:(in_tac) ltac:(in_tac))
        | exact (nd_app_neq' x y l1 l2 H ltac:(in_tac) ltac:(in_tac))
        | nd_neq (nd_app_l l1 l2 H) x y
        | nd_neq (nd_app_r l1 l2 H) x y ]
  | NoDup (?z :: ?l) =>
      first
        [ exact (nd_cons_neq z y l H ltac:(in_tac))
        | exact (nd_cons_neq' x z l H ltac:(in_tac))
        | nd_neq (NoDup_cons_1_2 z l H) x y ]
  end.

(** Disequalities and non-memberships from a duplicate-free list. *)
Ltac nd H :=
  lazymatch goal with
  | |- ?x ≠ ?y => nd_neq H x y
  | |- ?x ∉ _ => let E := fresh in intros E; nd_false H x
  end.

Lemma ptr_neq {T} nl (t : tree T) x : x ≠ nl → x ∉ taddrs t → ptr nl t ≠ x.
Proof. destruct t; simpl; [congruence|]. set_solver. Qed.
Lemma ptr_neq' {T} nl (t : tree T) x : x ≠ nl → x ∉ taddrs t → x ≠ ptr nl t.
Proof. intros ?? E. by eapply ptr_neq. Qed.

(** *** Symbolic execution of the monadic code *)

Section Steps.
Context {T : Type}.
Implicit Types (m : gmap positive (mavl_node_t T)) (n : mavl_node_t T).

Lemma lk_ne m i j (y : mavl_node_t T) v : i ≠ j → m !! j = v → <[i:=y]> m !! j = v.
Proof. intros. by rewrite lookup_insert_ne. Qed.

Lemma ins_comm m m' i j (x y : mavl_node_t T) :
  i ≠ j → <[i:=x]> m = m' → <[i:=x]> (<[j:=y]> m) = <[j:=y]> m'.
Proof. intros ? <-. by apply insert_insert_ne. Qed.

Lemma step_get {A B} (f : mavl_node_t T → A) p (K : A → M B) rt nl sz fr rel m n v R :
  m !! p = Some n → f n = v → K v (MkTree rt nl sz fr rel m) = R →
  bind (get f p) K (MkTree rt nl sz fr rel m) = R.
Proof. intros Hp <- <-. unfold bind, get. simpl. by rewrite Hp. Qed.

Lemma step_upd {B} f p (K : unit → M B) rt nl sz fr rel m n m' R :
  m !! p = Some n → <[p := f n]> m = m' → K tt (MkTree rt nl sz fr rel m') = R →
  bind (upd f p) K (MkTree rt nl sz fr rel m) = R.
Proof. intros Hp <- <-. unfold bind, upd. simpl. by rewrite Hp. Qed.

Lemma fin_get {A} (f : mavl_node_t T → A) p rt nl sz fr rel m n v :
  m !! p = Some n → f n = v →
  get f p (MkTree rt nl sz fr rel m) = Some (v, MkTree rt nl sz fr rel m).
Proof. intros Hp <-. unfold get. simpl. by rewrite Hp. Qed.

Lemma fin_upd f p rt nl sz fr rel m n m' :
  m !! p = Some n → <[p := f n]> m = m' →
  upd f p (MkTree rt nl sz fr rel m) = Some (tt, MkTree rt nl sz fr rel m').
Proof. intros Hp <-. unfold upd. simpl. by rewrite Hp. Qed.

Lemma step_nil {B} (K : positive → M B) rt nl sz fr rel m R :
  K nl (MkTree rt nl sz fr rel m) = R →
  bind get_nil K (MkTree rt nl sz fr rel m) = R.
Proof. done. Qed.

Lemma step_set_root {B} v (K : unit → M B) rt nl sz fr rel m R :
  K tt (MkTree v nl sz fr rel m) = R →
  bind (set_root v) K (MkTree rt nl sz fr rel m) = R.
Proof. done. Qed.

Lemma step_ret {A B} (a : A) (K : A → M B) (σ : mavl_t T) R :
  K a σ = R → bind (ret a) K σ = R.
Proof. done. Qed.

Lemma bind_bind {A B C} (c : M A) (f : A → M B) (g : B → M C) (σ : mavl_t T) :
  bind (bind c f) g σ = bind c (λ x, bind (f x) g) σ.
Proof. unfold bind. by destruct (c σ) as [[]|]. Qed.

Lemma step_bind {A B C} (c : M A) (f : A → M B) (g : B → M C) (σ : mavl_t T) R :
  bind c (λ x, bind (f x) g) σ = R → bind (bind c f) g σ = R.
Proof. intros <-. apply bind_bind. Qed.

End Steps.

(** Two addresses differ: known, or at different places of the
    duplicate-free list of [H]. *)
Ltac neq_tac H :=
  solve [ assumption | nd H | apply ptr_neq; nd H | apply ptr_neq'; nd H ].

(** The node stored at an address of a memory given by updates. *)
Ltac lk H :=
  lazymatch goal with
  | |- <[?i:=_]> _ !! ?j = _ =>
      first [ apply lookup_insert_eq | apply lk_ne; [neq_tac H | lk H] ]
  | |- _ => eassumption
  end.

(** Updating such a memory, keeping one update per address. *)
Ltac upd_norm H :=
  lazymatch goal with
  | |- <[?i:=_]> (<[?j:=_]> _) = _ =>
      first [ apply insert_insert_eq | apply ins_comm; [neq_tac H | upd_norm H] ]
  | |- _ => reflexivity
  end.

Ltac node_norm :=
  cbn [set_height set_parent set_left set_right set_count
       n_data n_parent n_left n_right n_count n_height].

Ltac exec_cond H b :=
  lazymatch b with
  | context [decide (?x = ?x)] => rewrite (decide_True (P := x = x)) by reflexivity
  | context [decide (?x ≠ ?x)] =>
      rewrite (decide_False (P := x ≠ x)) by (let E := fresh in intros E; by apply E)
  | context [bool_decide (?x = ?x)] =>
      rewrite (bool_decide_eq_true_2 (x = x)) by reflexivity
  | context [bool_decide (?x ≠ ?x)] =>
      rewrite (bool_decide_eq_false_2 (x ≠ x)) by (let E := fresh in intros E; by apply E)
  | context [decide (?x = ?y)] => rewrite (decide_False (P := x = y)) by neq_tac H
  | context [decide (?x ≠ ?y)] => rewrite (decide_True (P := x ≠ y)) by neq_tac H
  | context [bool_decide (?x = ?y)] =>
      rewrite (bool_decide_eq_false_2 (x = y)) by neq_tac H
  | context [bool_decide (?x ≠ ?y)] =>
      rewrite (bool_decide_eq_true_2 (x ≠ y)) by neq_tac H
  end.

Ltac exec_if H b :=
  lazymatch b with
  | true => cbv iota
  | false => cbv iota
  | left _ => cbv iota
  | right _ => cbv iota
  | orb true _ => cbv beta iota delta [orb]
  | orb false _ => cbv beta iota delta [orb]
  | andb true _ => cbv beta iota delta [andb]
  | andb false _ => cbv beta iota delta [andb]
  | context [decide _] => exec_cond H b
  | context [bool_decide _] => exec_cond H b
  | _ =>
      match goal with
      | Hx : b = true |- _ => rewrite Hx
      | Hx : b = false |- _ => rewrite Hx
      end
  end.

Ltac exec_step H :=
  lazymatch goal with
  | |- bind (get _ _) _ _ = _ =>
      eapply step_get; [lk H | node_norm; reflexivity | cbv beta]
  | |- bind (upd _ _) _ _ = _ =>
      eapply step_upd; [lk H | node_norm; upd_norm H | cbv beta]
  | |- bind get_nil _ _ = _ => apply step_nil; cbv beta
  | |- bind (set_root _) _ _ = _ => apply step_set_root; cbv beta
  | |- bind (ret _) _ _ = _ => apply step_ret; cbv beta
  | |- bind (bind _ _) _ _ = _ => apply step_bind; cbv beta
  | |- bind (if ?b then _ else _) _ _ = _ => exec_if H b
  | |- (if ?b then _ else _) _ = _ => exec_if H b
  | |- get _ _ _ = _ => eapply fin_get; [lk H | node_norm; reflexivity]
  | |- upd _ _ _ = _ => eapply fin_upd; [lk H | node_norm; upd_norm H]
  | |- ret _ _ = _ => reflexivity
  | |- set_root _ _ = _ => reflexivity
  end.

Ltac exec H := repeat exec_step H.

Ltac run_code H := eexists; split; [cbn [nil root ptr lsub rsub]; exec H|].

Lemma dom_ins {T} (m : gmap positive (mavl_node_t T)) i x D :
  is_Some (m !! i) → dom m = D → dom (<[i:=x]> m) = D.
Proof. intros ? <-. by apply dom_insert_lookup_L. Qed.

Ltac dom_tac H :=
  lazymatch goal with
  | |- dom (<[_:=_]> _) = _ => apply dom_ins; [eexists; lk H | dom_tac H]
  | |- _ => reflexivity
  end.

Ltac same_tac H := unfold same_obj; simpl; split_and!; [reflexivity..|dom_tac H].

Ltac heights :=
  repeat match goal with
  | Hh : n_height ?n = _ |- context [n_height ?n] => rewrite Hh
  end.

(** Nodes outside the written addresses are untouched. *)
Ltac fr H :=
  lazymatch goal with
  | |- <[_:=_]> _ !! _ = _ => apply lk_ne; [nd H | fr H]
  | |- _ => reflexivity
  end.

Ltac frame_tac H :=
  let z := fresh "z" in let Hz := fresh "Hz" in
  intros z Hz;
  try (unfold caddrs in Hz; apply elem_of_app in Hz as [Hz|Hz]);
  fr H.

Ltac anorm := repeat first [rewrite <- app_assoc | rewrite app_nil_r | progress simpl].

Ltac sub_tac :=
  lazymatch goal with
  | |- ?l `sublist_of` ?l => reflexivity
  | |- (?x :: ?l) `sublist_of` (?x :: ?k) => apply sublist_skip; sub_tac
  | |- (?A ++ ?l) `sublist_of` (?A ++ ?k) => apply sublist_app; [reflexivity|sub_tac]
  | |- ?A `sublist_of` (?A ++ ?k) => apply sublist_inserts_r; reflexivity
  | |- [] `sublist_of` _ => apply sublist_nil_l
  | |- ?l `sublist_of` (?x :: ?k) => apply sublist_cons; sub_tac
  | |- ?l `sublist_of` (?A ++ ?k) => apply sublist_inserts_l; sub_tac
  end.

(** A list obtained by removing elements of a duplicate-free list. *)
Ltac nd_sub H := refine (sublist_NoDup _ _ H _); anorm; sub_tac.

Ltac wf_goal H n0 :=
  first
    [ done
    | by (exists n0; split; [lk H|])
    | (heights; lk H)
    | (eapply rep_tree_ext; [|eassumption]; frame_tac H)
    | (eapply rep_ctx_ext; [|eassumption]; frame_tac H)
    | (repeat first [rewrite <- app_assoc in H | progress simpl in H];
       repeat first [rewrite <- app_assoc | progress simpl]; exact H)
    | nd_sub H
    | match goal with
      | Hroot : _ = ptr _ (plug _ _) |- _ = ptr _ (plug _ _) =>
          simpl in Hroot; rewrite Hroot; by apply ptr_plug
      end ].

Section Heap.
Context {T : Type}.
Variable cmp : T → T → Z.
Implicit Types (t l r : tree T) (k : list (frame T)) (m : gmap positive (mavl_node_t T)).
Implicit Types (σ : mavl_t T).

Lemma rep_ctx_head m m' nl c c' f k top :
  rep_ctx m nl c (f :: k) top →
  NoDup (clefts (f :: k) ++ crights (f :: k)) →
  (∀ x, x ∈ clefts k ++ flefts f → x ≠ faddr f → m' !! x = m !! x) →
  (∀ x, x ∈ frights f ++ crights k → x ≠ faddr f → m' !! x = m !! x) →
  m' !! faddr f =
    match f with
    | FL a d cn h r => Some (MkNode d (cpar top k) c' (ptr nl r) cn h)
    | FR l a d cn h => Some (MkNode d (cpar top k) (ptr nl l) c' cn h)
    end →
  rep_ctx m' nl c' (f :: k) top.
Proof.
  intros Hc Hnd Hx1 Hx2 Hf. destruct f as [a d cn h r|l a d cn h]; simpl in *.
  - destruct Hc as (Ha & Hr & Hk). split_and!; [done|..].
    + eapply rep_tree_ext; [|done]. intros x Hin. apply Hx2; [by apply in_further, in_app_l|].
      nd Hnd.
    + eapply rep_ctx_ext; [|done]. unfold caddrs. intros x Hin.
      apply elem_of_app in Hin as [Hin|Hin].
      * apply Hx1; [by apply in_app_l|]. nd Hnd.
      * apply Hx2; [by apply in_further, in_app_r|]. nd Hnd.
  - destruct Hc as (Ha & Hr & Hk). split_and!; [done|..].
    + eapply rep_tree_ext; [|done]. intros x Hin. apply Hx1; [by apply in_app_r, in_app_l|].
      nd Hnd.
    + eapply rep_ctx_ext; [|done]. unfold caddrs. intros x Hin.
      apply elem_of_app in Hin as [Hin|Hin].
      * apply Hx1; [by apply in_app_l|]. nd Hnd.
      * apply Hx2; [done|]. nd Hnd.
Qed.

(** [ID##_internal_mavl_rotl] at the root of a subtree performs the left
    rotation of that subtree. *)
Lemma rotl_ok σ l a d c h rl b db cb hb rr k :
  let t := Node l a d c h (Node rl b db cb hb rr) in
  wf σ (plug t k) → hole_ok cmp k db →
  ∃ σ', internal_mavl_rotl cmp a σ = Some (tt, σ') ∧
        wf σ' (plug (rotl_t t) k) ∧ same_obj σ σ'.
Proof.
  intros t Hwf Hside. subst t.
  apply wf_plug in Hwf as ((n0 & Hn0 & Hnil) & Hroot & Hrep & Hctx & Hnd).
  destruct σ as [rt nl sz fr rel m]. simpl in *|-.
  destruct Hrep as (Ha & Hl & (Hb & Hrl & Hrr)).
  destruct (rep_lookup _ _ _ _ _ Hl Hn0 Hnil) as (nl_ & Hll & Hlh & _).
  destruct (rep_lookup _ _ _ _ _ Hrr Hn0 Hnil) as (nrr & Hrrl & Hrrh & _).
  destruct Hnil as (Hn1 & Hn2 & Hn3 & Hn4).
  unfold internal_mavl_rotl, relink, internal_mavl_upheight.
  destruct rl as [|rll x dx cx hx rlr]; destruct k as [|[p dp cp hp s|s p dp cp hp] k'];
    simpl in *|-.
  all: try destruct Hctx as (Hp & Hs & Hk').
  all: try destruct Hrl as (Hx & Hrll & Hrlr).
  all: run_code Hnd; (split; [|same_tac Hnd]); apply wf_plug; simpl; split_and!.
  all: wf_goal Hnd n0.
Qed.

(** The same for [ID##_internal_mavl_rotr]. *)
Lemma rotr_ok σ ll b db cb hb lr a d c h r k :
  let t := Node (Node ll b db cb hb lr) a d c h r in
  wf σ (plug t k) → hole_ok cmp k db →
  ∃ σ', internal_mavl_rotr cmp a σ = Some (tt, σ') ∧
        wf σ' (plug (rotr_t t) k) ∧ same_obj σ σ'.
Proof.
  intros t Hwf Hside. subst t.
  apply wf_plug in Hwf as ((n0 & Hn0 & Hnil) & Hroot & Hrep & Hctx & Hnd).
  destruct σ as [rt nl sz fr rel m]. simpl in *|-.
  destruct Hrep as (Ha & (Hb & Hll & Hlr) & Hr).
  destruct (rep_lookup _ _ _ _ _ Hll Hn0 Hnil) as (nll & Hlll & Hllh & _).
  destruct (rep_lookup _ _ _ _ _ Hr Hn0 Hnil) as (nr & Hrl & Hrh & _).
  destruct Hnil as (Hn1 & Hn2 & Hn3 & Hn4).
  unfold internal_mavl_rotr, relink, internal_mavl_upheight.
  destruct lr as [|lrl x dx cx hx lrr]; destruct k as [|[p dp cp hp s|s p dp cp hp] k'];
    simpl in *|-.
  all: try destruct Hctx as (Hp & Hs & Hk').
  all: try destruct Hlr as (Hx & Hlrl & Hlrr).
  all: run_code Hnd; (split; [|same_tac Hnd]); apply wf_plug; simpl; split_and!.
  all: wf_goal Hnd n0.
Qed.

(** [ID##_internal_mavl_upheight] recomputes the stored height of the
    root of a subtree. *)
Lemma upheight_ok σ l a d c h r k :
  let t := Node l a d c h r in
  wf σ (plug t k) →
  ∃ σ', internal_mavl_upheight a σ = Some (tt, σ') ∧
        wf σ' (plug (upheight_t t) k) ∧ same_obj σ σ'.
Proof.
  intros t Hwf. subst t.
  apply wf_plug in Hwf as ((n0 & Hn0 & Hnil) & Hroot & Hrep & Hctx & Hnd).
  destruct σ as [rt nl sz fr rel m]. simpl in *|-.
  destruct Hrep as (Ha & Hl & Hr).
  destruct (rep_lookup _ _ _ _ _ Hl Hn0 Hnil) as (nl_ & Hll & Hlh & _).
  destruct (rep_lookup _ _ _ _ _ Hr Hn0 Hnil) as (nr & Hrl & Hrh & _).
  unfold internal_mavl_upheight.
  run_code Hnd; (split; [|same_tac Hnd]); apply wf_plug; simpl; split_and!.
  all: wf_goal Hnd n0.
Qed.

End Heap.

(** Boolean comparisons on [Z] from linear arithmetic. *)
Ltac zbool :=
  rewrite ?Z.geb_leb, ?Z.gtb_ltb;
  first [ apply Z.leb_le | apply Z.leb_gt | apply Z.ltb_lt | apply Z.ltb_ge
        | apply Z.eqb_eq | apply Z.eqb_neq ];
  lia.

Section Heap.
Context {T : Type}.
Variable cmp : T → T → Z.
Implicit Types (t l r : tree T) (k : list (frame T)) (m : gmap positive (mavl_node_t T)).
Implicit Types (σ : mavl_t T).

Lemma wf_root_neq σ l a d c h r k :
  wf σ (plug (Node l a d c h r) k) → a ≠ nil σ.
Proof.
  intros Hwf. apply wf_plug in Hwf as (_ & _ & _ & _ & Hnd).
  simpl in Hnd. nd Hnd.
Qed.

Lemma wf_root_lookup σ l a d c h r k :
  wf σ (plug (Node l a d c h r) k) →
  mem σ !! a = Some (MkNode d (cpar (nil σ) k) (ptr (nil σ) l) (ptr (nil σ) r) c h).
Proof. intros Hwf. apply wf_plug in Hwf as (_ & _ & Hrep & _). apply Hrep. Qed.

Lemma rotl_gen σ t k :
  wf σ (plug t k) → (∀ x, x ∈ keys t → hole_ok cmp k x) →
  ∃ σ', internal_mavl_rotl cmp (ptr (nil σ) t) σ = Some (tt, σ') ∧
        wf σ' (plug (rotl_t t) k) ∧ same_obj σ σ'.
Proof.
  intros Hwf Hside. destruct t as [|l a d c h [|rl b db cb hb rr]].
  - exists σ. split; [|split; [done|apply same_obj_refl]].
    unfold internal_mavl_rotl, bind, get_nil, ret. simpl. by rewrite decide_True.
  - exists σ. split; [|split; [done|apply same_obj_refl]].
    pose proof (wf_root_neq _ _ _ _ _ _ _ _ Hwf).
    pose proof (wf_root_lookup _ _ _ _ _ _ _ _ Hwf) as Hl.
    unfold internal_mavl_rotl, bind, get_nil, ret, get. simpl.
    rewrite decide_False by done. rewrite Hl. simpl. by rewrite decide_True.
  - apply rotl_ok; [done|]. apply Hside. simpl. set_solver.
Qed.

Lemma rotr_gen σ t k :
  wf σ (plug t k) → (∀ x, x ∈ keys t → hole_ok cmp k x) →
  ∃ σ', internal_mavl_rotr cmp (ptr (nil σ) t) σ = Some (tt, σ') ∧
        wf σ' (plug (rotr_t t) k) ∧ same_obj σ σ'.
Proof.
  intros Hwf Hside. destruct t as [|[|ll b db cb hb lr] a d c h r].
  - exists σ. split; [|split; [done|apply same_obj_refl]].
    unfold internal_mavl_rotr, bind, get_nil, ret. simpl. by rewrite decide_True.
  - exists σ. split; [|split; [done|apply same_obj_refl]].
    pose proof (wf_root_neq _ _ _ _ _ _ _ _ Hwf).
    pose proof (wf_root_lookup _ _ _ _ _ _ _ _ Hwf) as Hl.
    unfold internal_mavl_rotr, bind, get_nil, ret, get. simpl.
    rewrite decide_False by done. rewrite Hl. simpl. by rewrite decide_True.
  - apply rotr_ok; [done|]. apply Hside. simpl. set_solver.
Qed.

Lemma upheight_gen σ t k :
  wf σ (plug t k) →
  ∃ σ', internal_mavl_upheight (ptr (nil σ) t) σ = Some (tt, σ') ∧
        wf σ' (plug (upheight_t t) k) ∧ same_obj σ σ'.
Proof.
  intros Hwf. destruct t as [|l a d c h r].
  - exists σ. split; [|split; [done|apply same_obj_refl]].
    unfold internal_mavl_upheight, bind, get_nil, ret. simpl.
    rewrite decide_False; [done|]. intros E. by apply E.
  - by apply upheight_ok.
Qed.

Lemma get_parent_near σ t k a :
  wf σ (plug t k) → a ≠ nil σ → near (nil σ) a t →
  get n_parent a σ =
    Some (if decide (ptr (nil σ) t = a) then cpar (nil σ) k else ptr (nil σ) t, σ).
Proof.
  intros Hwf Ha Hnear.
  apply wf_plug in Hwf as (_ & _ & Hrep & _ & Hnd).
  unfold get, near in *. destruct t as [|l b d c h r]; simpl in *.
  { destruct Hnear as [?|[?|?]]; congruence. }
  destruct Hrep as (Hb & Hl & Hr).
  destruct Hnear as [->|[E|E]].
  - rewrite Hb. simpl. by rewrite decide_True.
  - destruct l as [|ll x dx cx hx lr]; simpl in *; [congruence|]. subst x.
    destruct Hl as (-> & _). simpl. rewrite decide_False; [done|]. nd Hnd.
  - destruct r as [|rl x dx cx hx rr]; simpl in *; [congruence|]. subst x.
    destruct Hr as (-> & _). simpl. rewrite decide_False; [done|]. nd Hnd.
Qed.

Lemma keys_upheight t : keys (upheight_t t) = keys t.
Proof. by destruct t. Qed.
Lemma keys_rotl t : keys (rotl_t t) = keys t.
Proof.
  destruct t as [|l a d c h [|rl b db cb hb rr]]; simpl; try done.
  by rewrite <- app_assoc.
Qed.
Lemma keys_rotr t : keys (rotr_t t) = keys t.
Proof.
  destruct t as [|[|ll b db cb hb lr] a d c h r]; simpl; try done.
  by rewrite <- app_assoc.
Qed.
Lemma keys_apply_case cs t : keys (apply_case cs t) = keys t.
Proof.
  destruct cs; simpl; rewrite ?keys_rotl, ?keys_rotr; try done.
  - destruct t; simpl; [done|]. by rewrite keys_rotl.
  - destruct t; simpl; [done|]. by rewrite keys_rotr.
Qed.

(** The rotations of one case of the fix-up, run on a subtree. *)
Lemma exec_case_ok σ cs l a d c h r k :
  let t := Node l a d c h r in
  wf σ (plug t k) → bst cmp t → (∀ x, x ∈ keys t → hole_ok cmp k x) →
  ∃ σ', exec_case cmp cs a σ = Some (tt, σ') ∧
        wf σ' (plug (apply_case cs t) k) ∧ same_obj σ σ'.
Proof.
  intros t Hwf Hbst Hside. subst t.
  pose proof Hwf as Hnil. apply wf_root_neq in Hnil.
  destruct cs; simpl exec_case.
  - exists σ. split; [done|]. split; [done|apply same_obj_refl].
  - by apply (rotr_gen σ (Node l a d c h r) k).
  - by apply (rotl_gen σ (Node l a d c h r) k).
  - destruct (rotl_gen σ l (FL a d c h r :: k)) as (σ1 & E1 & Hwf1 & Hs1); [done|..].
    { intros x Hx. simpl. destruct Hbst as (Hl & _).
      rewrite Forall_forall in Hl. specialize (Hl x Hx). zbool. }
    unfold bind at 1. unfold get. rewrite (wf_root_lookup _ _ _ _ _ _ _ _ Hwf). simpl.
    unfold bind at 1. rewrite E1.
    destruct (rotr_gen σ1 (Node (rotl_t l) a d c h r) k) as (σ2 & E2 & Hwf2 & Hs2); [done|..].
    { intros x Hx. apply Hside. simpl in *. by rewrite keys_rotl in Hx. }
    simpl in E2. exists σ2. split; [done|]. split; [done|]. by eapply same_obj_trans.
  - destruct (rotr_gen σ r (FR l a d c h :: k)) as (σ1 & E1 & Hwf1 & Hs1); [done|..].
    { intros x Hx. simpl. destruct Hbst as (_ & Hr & _).
      rewrite Forall_forall in Hr. specialize (Hr x Hx). zbool. }
    unfold bind at 1. unfold get. rewrite (wf_root_lookup _ _ _ _ _ _ _ _ Hwf). simpl.
    unfold bind at 1. rewrite E1.
    destruct (rotl_gen σ1 (Node l a d c h (rotr_t r)) k) as (σ2 & E2 & Hwf2 & Hs2); [done|..].
    { intros x Hx. apply Hside. simpl in *. by rewrite keys_rotr in Hx. }
    simpl in E2. exists σ2. split; [done|]. split; [done|]. by eapply same_obj_trans.
Qed.

End Heap.

Section Heap.
Context {T : Type}.
Variable cmp : T → T → Z.
Implicit Types (t l r : tree T) (k : list (frame T)) (m : gmap positive (mavl_node_t T)).
Implicit Types (σ : mavl_t T).

Ltac split_stage :=
  match goal with
  | |- context [match ?x with Some _ => _ | None => _ end] =>
      destruct x as [[? ?]|]; simpl; [|try done]
  end.

Lemma push_round_gen a σ :
  push_fix_round cmp a σ = fix_round_gen cmp push_case a σ.
Proof.
  unfold push_fix_round, fix_round_gen, bind.
  destruct (internal_mavl_upheight a σ) as [[[] σ1]|]; [|done].
  destruct (internal_mavl_balance a σ1) as [[bf σ2]|]; [|done].
  destruct (get n_left a σ2) as [[x σ3]|]; [|done].
  destruct (internal_mavl_balance x σ3) as [[lbf σ4]|]; [|done].
  destruct (get n_right a σ4) as [[y σ5]|]; [|done].
  destruct (internal_mavl_balance y σ5) as [[rbf σ6]|]; [|done].
  unfold push_case, ret.
  destruct (Z.eqb_spec bf 2), (Z.eqb_spec lbf 1), (Z.eqb_spec bf (-2)),
    (Z.eqb_spec rbf (-1)), (Z.eqb_spec lbf (-1)), (Z.eqb_spec rbf 1);
    simpl; try lia; unfold bind; repeat case_match; congruence.
Qed.

Lemma pop_round_gen a σ :
  pop_fix_round cmp a σ = fix_round_gen cmp pop_case a σ.
Proof.
  unfold pop_fix_round, fix_round_gen, bind.
  destruct (internal_mavl_upheight a σ) as [[[] σ1]|]; [|done].
  destruct (internal_mavl_balance a σ1) as [[bf σ2]|]; [|done].
  destruct (get n_left a σ2) as [[x σ3]|]; [|done].
  destruct (internal_mavl_balance x σ3) as [[lbf σ4]|]; [|done].
  destruct (get n_right a σ4) as [[y σ5]|]; [|done].
  destruct (internal_mavl_balance y σ5) as [[rbf σ6]|]; [|done].
  unfold pop_case, ret. rewrite !Z.gtb_ltb, !Z.geb_leb.
  destruct (Z.ltb_spec 1 bf), (Z.leb_spec 0 lbf), (Z.ltb_spec bf (-1)),
    (Z.leb_spec rbf 0), (Z.ltb_spec lbf 0), (Z.ltb_spec 0 rbf);
    simpl; try lia; unfold bind; repeat case_match; congruence.
Qed.

Lemma near_apply_case nl cs l a d c h r :
  near nl a (apply_case cs (Node l a d c h r)).
Proof.
  unfold near. destruct cs; simpl.
  - by left.
  - destruct l as [|ll b db cb hb lr]; simpl; auto.
  - destruct r as [|rl b db cb hb rr]; simpl; auto.
  - destruct l as [|ll b db cb hb [|lrl x dx cx hx lrr]]; simpl; auto.
  - destruct r as [|[|rll x dx cx hx rlr] b db cb hb rr]; simpl; auto.
Qed.

(** One round of a fix-up loop at the root of a subtree: the subtree is
    replaced by [round_t], and the loop goes on with the parent of the node,
    or once more with the new root of the subtree after a rotation. *)
Lemma round_ok sel σ l a d c h r k :
  let t := Node l a d c h r in
  wf σ (plug t k) → bst cmp t → (∀ x, x ∈ keys t → hole_ok cmp k x) →
  ∃ σ', fix_round_gen cmp sel a σ =
          Some (if decide (ptr (nil σ) (round_t sel t) = a)
                then cpar (nil σ) k else ptr (nil σ) (round_t sel t), σ') ∧
        wf σ' (plug (round_t sel t) k) ∧ same_obj σ σ'.
Proof.
  intros t Hwf Hbst Hside. subst t.
  destruct (upheight_gen σ (Node l a d c h r) k Hwf) as (σ1 & E1 & Hwf1 & Hs1).
  simpl in E1. unfold fix_round_gen. unfold bind at 1. rewrite E1.
  assert (nil σ1 = nil σ) as Hnl by apply Hs1.
  pose proof Hwf1 as Hz. apply wf_plug in Hz as ((n0 & Hn0 & Hnil) & _ & Hrep & _ & _).
  pose proof (balance_ok σ1 _ _ _ Hrep Hn0 Hnil) as Hb. simpl ptr in Hb.
  unfold bind at 1. rewrite Hb.
  pose proof Hrep as Hrep'. simpl in Hrep'. destruct Hrep' as (Ha & Hl & Hr).
  unfold bind at 1. unfold get at 1. rewrite Ha. simpl n_left.
  unfold bind at 1. rewrite (balance_ok σ1 _ _ _ Hl Hn0 Hnil).
  unfold bind at 1. unfold get at 1. rewrite Ha. simpl n_right.
  unfold bind at 1. rewrite (balance_ok σ1 _ _ _ Hr Hn0 Hnil).
  set (cs := sel _ _ _).
  destruct (exec_case_ok cmp σ1 cs l a d c _ r k Hwf1) as (σ2 & E2 & Hwf2 & Hs2).
  { done. } { done. }
  unfold bind at 1. rewrite E2.
  assert (nil σ2 = nil σ) as Hnl2 by (destruct Hs2 as (-> & _); done).
  rewrite (get_parent_near σ2 _ k a Hwf2).
  - exists σ2. unfold round_t. fold cs. simpl upheight_t. rewrite Hnl2.
    split; [done|]. split; [done|]. by eapply same_obj_trans.
  - rewrite Hnl2. by eapply wf_root_neq.
  - apply near_apply_case.
Qed.

End Heap.

Section Heap.
Context {T : Type}.
Variable cmp : T → T → Z.
Implicit Types (t l r : tree T) (k : list (frame T)) (m : gmap positive (mavl_node_t T)).
Implicit Types (σ : mavl_t T).

Lemma locate_plug data t k :
  plug (locate cmp data t k).1 (locate cmp data t k).2 = plug t k.
Proof.
  revert k. induction t as [|l IHl a x c h r IHr]; intros k; simpl; [done|].
  repeat case_match; simpl; [apply IHl|apply IHr|done].
Qed.

Lemma leftmost_plug t k : plug (leftmost t k).1 (leftmost t k).2 = plug t k.
Proof.
  revert k. induction t as [|l IHl a x c h r IHr]; intros k; simpl; [done|].
  destruct l; [done|]. apply IHl.
Qed.

Lemma rightmost_plug t k : plug (rightmost t k).1 (rightmost t k).2 = plug t k.
Proof.
  revert k. induction t as [|l IHl a x c h r IHr]; intros k; simpl; [done|].
  destruct r; [done|]. apply IHr.
Qed.

Lemma wf_fill_l σ l a d c h r k :
  wf σ (plug (Node l a d c h r) k) ↔ wf σ (plug l (FL a d c h r :: k)).
Proof. done. Qed.
Lemma wf_fill_r σ l a d c h r k :
  wf σ (plug (Node l a d c h r) k) ↔ wf σ (plug r (FR l a d c h :: k)).
Proof. done. Qed.

Lemma length_taddrs_node l a (d : T) c h r :
  length (taddrs (Node l a d c h r)) = S (length (taddrs l) + length (taddrs r)).
Proof. simpl. rewrite length_app. simpl. lia. Qed.

(** The loop of [ID##_internal_mavl_find_node] follows [locate cmp]. *)
Lemma find_node_loop_ok σ data t k fuel :
  wf σ (plug t k) → (length (taddrs t) ≤ fuel)%nat →
  find_node_loop cmp fuel data (ptr (nil σ) t) σ =
    Some (ptr (nil σ) (locate cmp data t k).1, σ).
Proof.
  revert k fuel. induction t as [|l IHl a x c h r IHr]; intros k fuel Hwf Hfuel.
  - destruct fuel; simpl; unfold bind, get_nil, ret; simpl; by rewrite decide_True.
  - rewrite length_taddrs_node in Hfuel.
    destruct fuel as [|fuel]; [lia|].
    pose proof (wf_root_neq _ _ _ _ _ _ _ _ Hwf) as Hne.
    pose proof (wf_root_lookup _ _ _ _ _ _ _ _ Hwf) as Hl.
    simpl. unfold bind, get_nil, get. simpl.
    rewrite decide_False by done. rewrite Hl. simpl.
    destruct (cmp x data <=? -1) eqn:E1.
    + assert ((cmp x data >=? 1) = false) as -> by (apply Z.leb_le in E1; zbool).
      rewrite Hl. simpl. rewrite (IHr (FR l a x c h :: k) fuel Hwf); [done|lia].
    + destruct (cmp x data >=? 1) eqn:E2.
      * rewrite Hl. simpl. rewrite (IHl (FL a x c h r :: k) fuel Hwf); [done|lia].
      * done.
Qed.

(** The loops of the minimum and of the maximum follow the spines. *)
Lemma min_node_loop_ok σ l a d c h r k fuel :
  let t := Node l a d c h r in
  wf σ (plug t k) → (length (taddrs t) ≤ S fuel)%nat →
  min_node_loop fuel a σ = Some (ptr (nil σ) (leftmost t k).1, σ).
Proof.
  intros t. subst t. revert a d c h r k fuel.
  induction l as [|ll IHl b db cb hb lr _]; intros a d c h r k fuel Hwf Hfuel.
  - pose proof (wf_root_lookup _ _ _ _ _ _ _ _ Hwf) as Hl.
    destruct fuel; simpl; unfold bind, get_nil, get, ret; simpl; rewrite Hl; simpl;
      by rewrite decide_True.
  - rewrite length_taddrs_node in Hfuel. rewrite length_taddrs_node in Hfuel.
    destruct fuel as [|fuel]; [lia|].
    pose proof (wf_root_lookup _ _ _ _ _ _ _ _ Hwf) as Hl.
    pose proof (wf_root_neq σ ll b db cb hb lr (FL a d c h r :: k) Hwf) as Hne.
    simpl. unfold bind, get_nil, get. simpl. rewrite Hl. simpl.
    rewrite decide_False by done.
    rewrite (IHl b db cb hb lr (FL a d c h r :: k) fuel Hwf); [done|].
    rewrite length_taddrs_node. lia.
Qed.

Lemma max_node_loop_ok σ l a d c h r k fuel :
  let t := Node l a d c h r in
  wf σ (plug t k) → (length (taddrs t) ≤ S fuel)%nat →
  max_node_loop fuel a σ = Some (ptr (nil σ) (rightmost t k).1, σ).
Proof.
  intros t. subst t. revert l a d c h k fuel.
  induction r as [|rl _ b db cb hb rr IHr]; intros l a d c h k fuel Hwf Hfuel.
  - pose proof (wf_root_lookup _ _ _ _ _ _ _ _ Hwf) as Hl.
    destruct fuel; simpl; unfold bind, get_nil, get, ret; simpl; rewrite Hl; simpl;
      by rewrite decide_True.
  - rewrite length_taddrs_node in Hfuel. rewrite length_taddrs_node in Hfuel.
    destruct fuel as [|fuel]; [lia|].
    pose proof (wf_root_lookup _ _ _ _ _ _ _ _ Hwf) as Hl.
    pose proof (wf_root_neq σ rl b db cb hb rr (FR l a d c h :: k) Hwf) as Hne.
    simpl. unfold bind, get_nil, get. simpl. rewrite Hl. simpl.
    rewrite decide_False by done.
    rewrite (IHr rl b db cb hb (FR l a d c h :: k) fuel Hwf); [done|].
    rewrite length_taddrs_node. lia.
Qed.

(** The tree object holds at least the nodes of its tree, and the sentinel. *)
Lemma wf_size σ t : wf σ t → (S (length (taddrs t)) ≤ size (mem σ))%nat.
Proof.
  intros ((n0 & Hn0 & _) & _ & Hrep & Hnd).
  assert (∀ par x, rep_tree (mem σ) (nil σ) par t → x ∈ taddrs t → x ∈ dom (mem σ)) as Hin.
  { clear. induction t as [|l IHl a d c h r IHr]; intros par x Hrep; simpl; [set_solver|].
    destruct Hrep as (Ha & Hl & Hr). rewrite elem_of_app, elem_of_cons.
    intros [?|[->|?]]; [by eapply IHl| |by eapply IHr].
    apply elem_of_dom. eauto. }
  assert (list_to_set (nil σ :: taddrs t) ⊆ dom (mem σ)) as Hsub.
  { intros x. rewrite elem_of_list_to_set, elem_of_cons. intros [->|?].
    - apply elem_of_dom. eauto.
    - by eapply Hin. }
  apply subseteq_size in Hsub. rewrite size_list_to_set in Hsub by done.
  rewrite size_dom in Hsub. simpl in Hsub. done.
Qed.

Lemma wf_gas σ t : wf σ t → (2 * length (taddrs t) + 4 ≤ gas σ)%nat.
Proof. intros Hwf. apply wf_size in Hwf. unfold gas. lia. Qed.

End Heap.

Section Heap.
Context {T : Type}.
Variable cmp : T → T → Z.
Implicit Types (t l r : tree T) (k : list (frame T)) (m : gmap positive (mavl_node_t T)).
Implicit Types (σ : mavl_t T).

Lemma rep_in_dom m nl par t x :
  rep_tree m nl par t → x ∈ taddrs t → x ∈ dom m.
Proof.
  revert par. induction t as [|l IHl a d c h r IHr]; intros par Hrep; simpl; [set_solver|].
  destruct Hrep as (Ha & Hl & Hr). rewrite elem_of_app, elem_of_cons.
  intros [?|[->|?]]; [by eapply IHl| |by eapply IHr].
  apply elem_of_dom. eauto.
Qed.

Lemma wf_in_dom σ t x : wf σ t → x ∈ nil σ :: taddrs t → x ∈ dom (mem σ).
Proof.
  intros ((n0 & Hn0 & _) & _ & Hrep & _). rewrite elem_of_cons. intros [->|?].
  - apply elem_of_dom. eauto.
  - by eapply rep_in_dom.
Qed.

(** Changing the count of a node. *)
Lemma set_count_ok σ l a d c h r k v :
  wf σ (plug (Node l a d c h r) k) →
  ∃ σ', upd (set_count v) a σ = Some (tt, σ') ∧
        wf σ' (plug (Node l a d v h r) k) ∧ same_obj σ σ' ∧ root σ' = root σ.
Proof.
  intros Hwf.
  apply wf_plug in Hwf as ((n0 & Hn0 & Hnil) & Hroot & Hrep & Hctx & Hnd).
  destruct σ as [rt nl sz fr rel m]. simpl in *|-.
  destruct Hrep as (Ha & Hl & Hr).
  run_code Hnd. split_and!; [|same_tac Hnd|done]. apply wf_plug; simpl; split_and!.
  all: wf_goal Hnd n0.
Qed.

(** The descent of [ID##_mavl_push] follows [locate]. *)
Lemma push_descent_ok σ data t k fuel :
  wf σ (plug t k) → (length (taddrs t) ≤ fuel)%nat →
  ∃ res σ',
    push_descent cmp fuel data (ptr (nil σ) t) (cpar (nil σ) k) σ = Some (res, σ') ∧
    descent_post σ (locate cmp data t k) res σ'.
Proof.
  revert k fuel. induction t as [|l IHl a x c h r IHr]; intros k fuel Hwf Hfuel.
  - exists (Some (cpar (nil σ) k)), σ. split; [|done].
    destruct fuel; simpl; unfold bind, get_nil, ret; simpl; by rewrite decide_True.
  - rewrite length_taddrs_node in Hfuel.
    destruct fuel as [|fuel]; [lia|].
    pose proof (wf_root_neq _ _ _ _ _ _ _ _ Hwf) as Hne.
    pose proof (wf_root_lookup _ _ _ _ _ _ _ _ Hwf) as Hl.
    simpl. unfold bind at 1. unfold get_nil. simpl.
    rewrite decide_False by done.
    unfold bind at 1. unfold get at 1. rewrite Hl. simpl.
    destruct (cmp x data >=? 1) eqn:E1.
    + unfold bind at 1. unfold get at 1. rewrite Hl. simpl.
      apply (IHl (FL a x c h r :: k) fuel Hwf). lia.
    + destruct (cmp x data <=? -1) eqn:E2.
      * unfold bind at 1. unfold get at 1. rewrite Hl. simpl.
        apply (IHr (FR l a x c h :: k) fuel Hwf). lia.
      * unfold bind at 1. unfold get at 1. rewrite Hl. simpl.
        destruct (set_count_ok σ l a x c h r k (u32 (c + 1)) Hwf) as (σ' & E & Hwf' & Hs & _).
        exists None, σ'. unfold bind. rewrite E. done.
Qed.

(** Releasing a node that is not part of the tree. *)
Lemma free_ok σ t a n :
  wf σ t → a ∉ nil σ :: taddrs t → mem σ !! a = Some n →
  let σ' := MkTree (root σ) (nil σ) (tsize σ) (frd σ)
              (if frd σ then n_data n :: released σ else released σ)
              (delete a (mem σ)) in
  free_node a σ = Some (tt, σ') ∧ wf σ' t.
Proof.
  intros ((n0 & Hn0 & Hnil) & Hroot & Hrep & Hnd) Ha Hl σ'.
  unfold free_node. rewrite Hl. split; [done|].
  subst σ'. split_and!; simpl.
  - exists n0. rewrite lookup_delete_ne; [done|]. intros ->. apply Ha. by left.
  - done.
  - eapply rep_tree_ext; [|done]. intros x Hx. rewrite lookup_delete_ne; [done|].
    intros ->. apply Ha. by right.
  - done.
Qed.

(** Unlinking a node with at most one child. *)
Lemma splice_ok σ l a d c h r k :
  wf σ (plug (Node l a d c h r) k) → l = Leaf ∨ r = Leaf →
  ∃ σ', splice_code (nil σ) a (ptr (nil σ) l) (ptr (nil σ) r) σ = Some (tt, σ') ∧
        wf σ' (plug (spliced l r) k) ∧ same_obj σ σ' ∧
        mem σ' !! a = mem σ !! a.
Proof.
  intros Hwf Hone.
  apply wf_plug in Hwf as ((n0 & Hn0 & Hnil) & Hroot & Hrep & Hctx & Hnd).
  destruct σ as [rt nl sz fr rel m]. simpl in *|-.
  destruct Hrep as (Ha & Hl & Hr).
  unfold splice_code, replace_in_parent.
  destruct l as [|ll x dx cx hx lr]; destruct r as [|rl y dy cy hy rr];
    try (destruct Hone; discriminate);
    destruct k as [|[p dp cp hp s|s p dp cp hp] k']; simpl in *|-.
  all: try destruct Hctx as (Hp & Hs & Hk').
  all: try destruct Hl as (Hx & Hll & Hlr).
  all: try destruct Hr as (Hy & Hrl & Hrr).
  all: run_code Hnd; (split_and!; [|same_tac Hnd|simpl; by fr Hnd]); apply wf_plug; simpl; split_and!.
  all: wf_goal Hnd n0.
Qed.

End Heap.

(** [nd_mem H z E]: closes the goal [False] from [E : z ∈ l], for [l] made
    of parts of the duplicate-free list of [H] in which [z] occurs
    elsewhere. *)
Ltac nd_mem H z E :=
  lazymatch type of E with
  | _ ∈ _ ++ _ => apply elem_of_app in E as [E|E]; nd_mem H z E
  | _ ∈ ?y :: _ =>
      apply elem_of_cons in E as [E|E];
      [ first [ subst z; nd_false H y
              | apply (λ Hne : z ≠ y, Hne E); nd H ]
      | nd_mem H z E ]
  | _ ∈ [] => by apply elem_of_nil in E
  | _ => nd_false H z
  end.

(** [nd_build H]: a list made of parts of the duplicate-free list of [H],
    each taken once, is duplicate-free. *)
Ltac nd_build H :=
  lazymatch goal with
  | |- NoDup [] => apply NoDup_nil_2
  | |- NoDup (?x :: ?l) =>
      apply NoDup_cons_2;
      [ let E := fresh "E" in intros E; nd_mem H x E | nd_build H ]
  | |- NoDup (?A ++ ?l) =>
      apply NoDup_app; split_and!;
      [ nd_sub H
      | let z := fresh "z" in let Hz := fresh "Hz" in let E := fresh "E" in
        intros z Hz E; nd_mem H z E
      | nd_build H ]
  | |- NoDup _ => nd_sub H
  end.

Section Heap.
Context {T : Type}.
Variable cmp : T → T → Z.
Implicit Types (t l r : tree T) (k : list (frame T)) (m : gmap positive (mavl_node_t T)).
Implicit Types (σ : mavl_t T).

Lemma cpar_app top k1 k2 : cpar top (k1 ++ k2) = cpar (cpar top k2) k1.
Proof. by destruct k1. Qed.

Lemma ctop_cons c f k : ctop c (f :: k) = ctop (faddr f) k.
Proof.
  unfold ctop. destruct k as [|g k]; simpl; [done|].
  destruct (last (g :: k)) eqn:E; [done|]. by apply last_None in E.
Qed.

Lemma rep_ctx_app m nl c k1 k2 top :
  rep_ctx m nl c (k1 ++ k2) top ↔
  rep_ctx m nl c k1 (cpar top k2) ∧ rep_ctx m nl (ctop c k1) k2 top.
Proof.
  revert c. induction k1 as [|f k1 IH]; intros c; simpl; [naive_solver|].
  rewrite ctop_cons, cpar_app.
  destruct f; simpl; rewrite IH; naive_solver.
Qed.

Lemma clefts_app k1 k2 : clefts (k1 ++ k2) = clefts k2 ++ clefts k1.
Proof.
  induction k1 as [|f k1 IH]; simpl; [by rewrite app_nil_r|].
  by rewrite IH, app_assoc.
Qed.
Lemma crights_app k1 k2 : crights (k1 ++ k2) = crights k1 ++ crights k2.
Proof.
  induction k1 as [|f k1 IH]; simpl; [done|]. by rewrite IH, app_assoc.
Qed.
Lemma clefts_FL k : Forall is_FL k → clefts k = [].
Proof.
  induction 1 as [|f k Hf _ IH]; simpl; [done|]. rewrite IH. by destruct f.
Qed.

Lemma plug_app t k1 k2 : plug t (k1 ++ k2) = plug (plug t k1) k2.
Proof. revert t. induction k1 as [|f k1 IH]; intros t; simpl; [done|]. apply IH. Qed.

Lemma FL_cases k :
  Forall is_FL k →
  k = [] ∨
  (∃ q dq cq hq sq, k = [FL q dq cq hq sq]) ∨
  (∃ q dq cq hq sq k' g dg cg hg sg,
     k = FL q dq cq hq sq :: k' ++ [FL g dg cg hg sg] ∧ Forall is_FL k').
Proof.
  intros Hk. destruct k as [|[q dq cq hq sq|] k]; [by left| |by apply Forall_cons in Hk as [[] _]].
  right. apply Forall_cons in Hk as [_ Hk].
  destruct k as [|f k _] using rev_ind; [left; by exists q, dq, cq, hq, sq|].
  right. apply Forall_app in Hk as [Hk Hf]. rewrite Forall_singleton in Hf.
  destruct f as [g dg cg hg sg|]; [|simpl in Hf; contradiction].
  exists q, dq, cq, hq, sq, k, g, dg, cg, hg, sg. done.
Qed.

(** [ID##_internal_mavl_swap] of a node with two children and its in-order
    successor: the two node objects exchange their places in the tree. *)
Lemma swap_ok σ ll x dx cx hx lr a d c h s ds cs hs sr ks k :
  let l := Node ll x dx cx hx lr in
  wf σ (plug (Node Leaf s ds cs hs sr) (ks ++ FR l a d c h :: k)) →
  Forall is_FL ks →
  ∃ σ', internal_mavl_swap a s σ = Some (tt, σ') ∧
        wf σ' (plug (Node Leaf a d c h sr) (ks ++ FR l s ds cs hs :: k)) ∧
        same_obj σ σ'.
Proof.
  intros l Hwf Hks. subst l.
  apply wf_plug in Hwf as ((n0 & Hn0 & Hnil) & Hroot & Hrep & Hctx & Hnd).
  destruct σ as [rt nl sz fr rel m]. simpl in *|-.
  destruct Hrep as (Hs & _ & Hsr).
  destruct Hnil as (Hn1 & Hn2 & Hn3 & Hn4).
  unfold internal_mavl_swap.
  destruct (FL_cases ks Hks) as [->|[(q&dq&cq&hq&sq&->)|
    (q&dq&cq&hq&sq&ks'&g&dg&cg&hg&sg&->&Hks')]].
  - (* the successor is the right child *)
    simpl in *|-. destruct Hctx as (Ha & (Hx & Hll & Hlr) & Hk).
    destruct sr as [|srl y dy cy hy srr];
      destruct k as [|[p dp cp hp sp|sp p dp cp hp] k']; simpl in *|-.
    all: try destruct Hk as (Hp & Hsp & Hk').
    all: try destruct Hsr as (Hy & Hsrl & Hsrr).
    all: run_code Hnd; (split; [|same_tac Hnd]); apply wf_plug; simpl; split_and!.
    all: try wf_goal Hnd n0.
    all: anorm; nd_build Hnd.
  - (* the successor is the left child of the right child *)
    simpl in *|-. destruct Hctx as (Hq & Hsq & Ha & (Hx & Hll & Hlr) & Hk).
    destruct sr as [|srl y dy cy hy srr];
      destruct k as [|[p dp cp hp sp|sp p dp cp hp] k']; simpl in *|-.
    all: try destruct Hk as (Hp & Hsp & Hk').
    all: try destruct Hsr as (Hy & Hsrl & Hsrr).
    all: run_code Hnd; (split; [|same_tac Hnd]); apply wf_plug; simpl; split_and!.
    all: try wf_goal Hnd n0.
    all: anorm; nd_build Hnd.
  - (* the successor lies deeper on the left spine of the right child *)
    assert (∀ (f : frame T) K, (FL q dq cq hq sq :: ks' ++ [FL g dg cg hg sg]) ++ f :: K
       = FL q dq cq hq sq :: ks' ++ FL g dg cg hg sg :: f :: K) as Hshape.
    { intros. simpl. by rewrite <- app_assoc. }
    rewrite !Hshape in *. clear Hshape.
    simpl in Hctx, Hnd, Hs, Hroot. rewrite cpar_app in Hctx. simpl in Hctx.
    rewrite rep_ctx_app in Hctx. simpl in Hctx.
    rewrite clefts_app, crights_app in Hnd. simpl in Hnd.
    destruct Hctx as (Hq & Hsq & Hks'' & Hg & Hsg & Ha & (Hx & Hll & Hlr) & Hk).
    destruct sr as [|srl y dy cy hy srr];
      destruct k as [|[p dp cp hp sp|sp p dp cp hp] k']; simpl in *|-.
    all: try destruct Hk as (Hp & Hsp & Hk').
    all: try destruct Hsr as (Hy & Hsrl & Hsrr).
    all: run_code Hnd; (split; [|same_tac Hnd]); apply wf_plug.
    all: simpl; rewrite ?cpar_app; simpl; rewrite ?rep_ctx_app, ?clefts_app, ?crights_app;
      simpl; split_and!.
    all: try wf_goal Hnd n0.
    all: try (anorm; nd_build Hnd).
    all: rewrite ?plug_app in *; simpl in *; first [done | rewrite Hroot; by apply ptr_plug].
Qed.

End Heap.

(** ** Heights and balance *)

Section Pure.
Context {T : Type}.
Implicit Types (t l r s : tree T) (k : list (frame T)).

Lemma hc_nonneg t : hc t → 0 ≤ ht t.
Proof.
  induction t as [|l IHl a d c h r IHr]; simpl; [done|].
  intros (-> & Hl & Hr). specialize (IHl Hl). lia.
Qed.

Lemma card_nonneg t : 0 ≤ card t.
Proof. induction t; simpl; lia. Qed.

(** An AVL tree of height [h] has at least [2^(h/2) - 1] nodes. *)
Lemma avl_card t : hc t → avl t → 2 ^ (ht t / 2) ≤ card t + 1.
Proof.
  induction t as [|l IHl a d c h r IHr]; simpl; [done|].
  intros (-> & Hl & Hr) (Hb & Al & Ar).
  specialize (IHl Hl Al). specialize (IHr Hr Ar).
  pose proof (hc_nonneg _ Hl). pose proof (hc_nonneg _ Hr).
  pose proof (card_nonneg l). pose proof (card_nonneg r).
  set (h := 1 + Z.max (ht l) (ht r)) in *.
  destruct (decide (h = 1)) as [->|Hne].
  { change (2 ^ (1 / 2)) with 1. lia. }
  assert (2 ≤ h) by lia.
  assert (h / 2 = (h - 2) / 2 + 1) as ->.
  { rewrite <- Z.div_add by lia. f_equal. lia. }
  rewrite Z.pow_add_r by (try apply Z.div_pos; lia).
  assert (2 ^ ((h - 2) / 2) ≤ 2 ^ (ht l / 2)).
  { apply Z.pow_le_mono_r; [lia|]. apply Z.div_le_mono; lia. }
  assert (2 ^ ((h - 2) / 2) ≤ 2 ^ (ht r / 2)).
  { apply Z.pow_le_mono_r; [lia|]. apply Z.div_le_mono; lia. }
  lia.
Qed.

(** So the heights of the trees that fit in memory stay far below the
    range of [uint32_t] and [int32_t]. *)
Lemma avl_small t : hc t → avl t → card t + 1 ≤ addr_space → 0 ≤ ht t ≤ 129.
Proof.
  intros Hc Ha Hcard. split; [by apply hc_nonneg|].
  pose proof (avl_card t Hc Ha) as Hp.
  destruct (decide (ht t ≤ 129)) as [|Hgt]; [done|exfalso].
  assert (2 ^ 65 ≤ 2 ^ (ht t / 2)).
  { apply Z.pow_le_mono_r; [lia|]. apply Z.div_le_lower_bound; lia. }
  unfold addr_space in *. lia.
Qed.

Lemma u32_max x y :
  0 ≤ x ≤ 200 → 0 ≤ y ≤ 200 → u32 (MAVL_MAX_VALUES x y + 1) = 1 + Z.max x y.
Proof.
  intros. unfold u32, MAVL_MAX_VALUES. rewrite Z.geb_leb.
  destruct (Z.leb_spec y x); rewrite Z.mod_small by lia; lia.
Qed.

Lemma i32_sub x y :
  0 ≤ x ≤ 200 → 0 ≤ y ≤ 200 → i32 (i32 x - i32 y) = x - y.
Proof.
  intros. unfold i32.
  rewrite (Z.mod_small (x + 2 ^ 31)) by lia.
  rewrite (Z.mod_small (y + 2 ^ 31)) by lia.
  rewrite Z.mod_small by lia. lia.
Qed.

Lemma hc_sub_le t : hc t → ht (lsub t) ≤ ht t ∧ ht (rsub t) ≤ ht t.
Proof. destruct t; simpl; [lia|]. intros (-> & _). lia. Qed.

Lemma hc_lsub t : hc t → hc (lsub t).
Proof. destruct t; simpl; naive_solver. Qed.
Lemma hc_rsub t : hc t → hc (rsub t).
Proof. destruct t; simpl; naive_solver. Qed.

Lemma bal_math t :
  hc t → ht t ≤ 200 → bal t = ht (lsub t) - ht (rsub t).
Proof.
  intros Hc Hb. destruct t as [|l a d c h r]; simpl; [done|].
  pose proof (hc_sub_le _ Hc) as [??]. destruct Hc as (_ & Hl & Hr).
  pose proof (hc_nonneg _ Hl). pose proof (hc_nonneg _ Hr). simpl in *.
  apply i32_sub; lia.
Qed.

Lemma push_case_quiet : quiet push_case.
Proof.
  intros bf lbf rbf Hb. unfold push_case.
  destruct (Z.eqb_spec bf 2), (Z.eqb_spec bf (-2)); simpl; try lia. done.
Qed.

Lemma pop_case_quiet : quiet pop_case.
Proof.
  intros bf lbf rbf Hb. unfold pop_case. rewrite !Z.gtb_ltb.
  destruct (Z.ltb_spec 1 bf), (Z.ltb_spec bf (-1)); simpl; try lia. done.
Qed.

(** A fix-up round leaves a consistent AVL tree as it is. *)
Lemma round_stable sel t :
  quiet sel → hc t → avl t → ht t ≤ 200 → round_t sel t = t.
Proof.
  intros Hq Hc Ha Hb. destruct t as [|l a d c h r].
  { unfold round_t. simpl. by rewrite Hq by lia. }
  pose proof (hc_sub_le _ Hc) as [??].
  destruct Hc as (Hh & Hl & Hr). destruct Ha as (Hbal & _).
  pose proof (hc_nonneg _ Hl). pose proof (hc_nonneg _ Hr). simpl in *.
  unfold round_t. simpl upheight_t. rewrite u32_max by lia.
  simpl bal at 1. rewrite i32_sub by lia.
  rewrite Hq by lia. simpl. by rewrite <- Hh.
Qed.

Lemma push_LL bf lbf rbf : bf = 2 → lbf = 1 → push_case bf lbf rbf = CaseLL.
Proof. intros -> ->. done. Qed.
Lemma push_LR bf lbf rbf : bf = 2 → lbf = -1 → push_case bf lbf rbf = CaseLR.
Proof. intros -> ->. done. Qed.
Lemma push_RR bf lbf rbf : bf = -2 → rbf = -1 → push_case bf lbf rbf = CaseRR.
Proof. intros -> ->. unfold push_case. simpl. done. Qed.
Lemma push_RL bf lbf rbf : bf = -2 → rbf = 1 → push_case bf lbf rbf = CaseRL.
Proof. intros -> ->. unfold push_case. simpl. done. Qed.

Lemma pop_LL bf lbf rbf : 1 < bf → 0 ≤ lbf → pop_case bf lbf rbf = CaseLL.
Proof.
  intros. unfold pop_case. rewrite !Z.gtb_ltb, !Z.geb_leb.
  destruct (Z.ltb_spec 1 bf), (Z.leb_spec 0 lbf); simpl; try lia. done.
Qed.
Lemma pop_LR bf lbf rbf : 1 < bf → lbf < 0 → pop_case bf lbf rbf = CaseLR.
Proof.
  intros. unfold pop_case. rewrite !Z.gtb_ltb, !Z.geb_leb.
  destruct (Z.ltb_spec 1 bf), (Z.leb_spec 0 lbf), (Z.ltb_spec bf (-1)),
    (Z.ltb_spec lbf 0); simpl; try lia. done.
Qed.
Lemma pop_RR bf lbf rbf : bf < -1 → rbf ≤ 0 → pop_case bf lbf rbf = CaseRR.
Proof.
  intros. unfold pop_case. rewrite !Z.gtb_ltb, !Z.geb_leb.
  destruct (Z.ltb_spec 1 bf), (Z.ltb_spec bf (-1)), (Z.leb_spec rbf 0);
    simpl; try lia. done.
Qed.
Lemma pop_RL bf lbf rbf : bf < -1 → 0 < rbf → pop_case bf lbf rbf = CaseRL.
Proof.
  intros. unfold pop_case. rewrite !Z.gtb_ltb, !Z.geb_leb.
  destruct (Z.ltb_spec 1 bf), (Z.ltb_spec bf (-1)), (Z.leb_spec rbf 0),
    (Z.ltb_spec 0 rbf); simpl; try lia. done.
Qed.

Ltac hnorm :=
  repeat first
    [ rewrite (u32_max (ht _) (ht _)) by lia
    | rewrite u32_max by lia
    | rewrite i32_sub by lia ].

Ltac tree_facts :=
  repeat match goal with
  | H : hc (Node _ _ _ _ _ _) |- _ => destruct H as (? & ? & ?)
  | H : avl (Node _ _ _ _ _ _) |- _ => destruct H as (? & ? & ?)
  | H : _ ∧ hc _ ∧ hc _ |- _ => destruct H as (? & ? & ?)
  | H : _ ∧ avl _ ∧ avl _ |- _ => destruct H as (? & ? & ?)
  end;
  repeat match goal with
  | H : hc ?t |- _ =>
      lazymatch goal with
      | _ : 0 ≤ ht t |- _ => fail
      | _ => pose proof (hc_nonneg t H)
      end
  end.

(** One round of the insertion fix-up, one level up. *)
Lemma push_step h0 t f :
  0 ≤ h0 → Grown h0 t → hc (fsib f) → avl (fsib f) →
  Z.abs (h0 - ht (fsib f)) ≤ 1 → ht t ≤ 150 → ht (fsib f) ≤ 150 →
  Grown (1 + Z.max h0 (ht (fsib f))) (round_t push_case (fill f t)).
Proof.
  intros Hh0 (Hc & Ha & Hg) Hcs Has Hd Hbt Hbs.
  pose proof (bal_math t Hc ltac:(lia)) as Hbt'.
  pose proof (bal_math _ Hcs ltac:(lia)) as Hbs'.
  pose proof (hc_nonneg _ Hc). pose proof (hc_nonneg _ Hcs).
  destruct f as [p dp cp hp s|s p dp cp hp]; simpl in *.
  - unfold round_t. simpl upheight_t. rewrite u32_max by lia.
    cbn [bal lsub rsub]. rewrite i32_sub by lia. rewrite Hbt', Hbs'.
    destruct (decide (ht t - ht s = 2)) as [E|E].
    + destruct t as [|tl b db cb hb tr]; simpl in *; [lia|].
      unfold mbal in Hg. simpl in Hg. tree_facts.
      destruct (decide (ht tl - ht tr = 1)) as [E'|E'].
      * rewrite push_LL by lia. simpl. hnorm. unfold Grown, mbal. simpl.
        split_and!; try done; lia.
      * rewrite push_LR by lia.
        destruct tr as [|trl x dx cx hx trr]; simpl in *; [lia|]. tree_facts.
        simpl. hnorm. simpl. hnorm.
        unfold Grown, mbal. simpl. split_and!; try done; lia.
    + rewrite push_case_quiet by lia. simpl.
      unfold Grown, mbal. simpl. split_and!; try done; lia.
  - unfold round_t. simpl upheight_t. rewrite u32_max by lia.
    cbn [bal lsub rsub]. rewrite i32_sub by lia. rewrite Hbt', Hbs'.
    destruct (decide (ht s - ht t = -2)) as [E|E].
    + destruct t as [|tl b db cb hb tr]; simpl in *; [lia|].
      unfold mbal in Hg. simpl in Hg. tree_facts.
      destruct (decide (ht tl - ht tr = -1)) as [E'|E'].
      * rewrite push_RR by lia. simpl. hnorm. unfold Grown, mbal. simpl.
        split_and!; try done; lia.
      * rewrite push_RL by lia.
        destruct tl as [|tll x dx cx hx tlr]; simpl in *; [lia|]. tree_facts.
        simpl. hnorm. simpl. hnorm.
        unfold Grown, mbal. simpl. split_and!; try done; lia.
    + rewrite push_case_quiet by lia. simpl.
      unfold Grown, mbal. simpl. split_and!; try done; lia.
Qed.

(** One round of the deletion fix-up, one level up. *)
Lemma pop_step h0 t f :
  0 ≤ h0 → Shrunk h0 t → hc (fsib f) → avl (fsib f) →
  Z.abs (h0 - ht (fsib f)) ≤ 1 → ht t ≤ 150 → ht (fsib f) ≤ 150 →
  Shrunk (1 + Z.max h0 (ht (fsib f))) (round_t pop_case (fill f t)).
Proof.
  intros Hh0 (Hc & Ha & Hg) Hcs Has Hd Hbt Hbs.
  pose proof (bal_math t Hc ltac:(lia)) as Hbt'.
  pose proof (bal_math _ Hcs ltac:(lia)) as Hbs'.
  pose proof (hc_nonneg _ Hc). pose proof (hc_nonneg _ Hcs).
  destruct f as [p dp cp hp s|s p dp cp hp]; simpl in *.
  - unfold round_t. simpl upheight_t. rewrite u32_max by lia.
    cbn [bal lsub rsub]. rewrite i32_sub by lia. rewrite Hbt', Hbs'.
    destruct (decide (ht t - ht s = -2)) as [E|E].
    + destruct s as [|sl b db cb hb sr]; simpl in *; [lia|]. tree_facts.
      destruct (decide (ht sl - ht sr ≤ 0)) as [E'|E'].
      * rewrite pop_RR by lia. simpl. hnorm. unfold Shrunk. simpl.
        split_and!; try done; lia.
      * rewrite pop_RL by lia.
        destruct sl as [|sll x dx cx hx slr]; simpl in *; [lia|]. tree_facts.
        simpl. hnorm. simpl. hnorm.
        unfold Shrunk. simpl. split_and!; try done; lia.
    + rewrite pop_case_quiet by lia. simpl.
      unfold Shrunk. simpl. split_and!; try done; lia.
  - unfold round_t. simpl upheight_t. rewrite u32_max by lia.
    cbn [bal lsub rsub]. rewrite i32_sub by lia. rewrite Hbt', Hbs'.
    destruct (decide (ht s - ht t = 2)) as [E|E].
    + destruct s as [|sl b db cb hb sr]; simpl in *; [lia|]. tree_facts.
      destruct (decide (0 ≤ ht sl - ht sr)) as [E'|E'].
      * rewrite pop_LL by lia. simpl. hnorm. unfold Shrunk. simpl.
        split_and!; try done; lia.
      * rewrite pop_LR by lia.
        destruct sr as [|srl x dx cx hx srr]; simpl in *; [lia|]. tree_facts.
        simpl. hnorm. simpl. hnorm.
        unfold Shrunk. simpl. split_and!; try done; lia.
    + rewrite pop_case_quiet by lia. simpl.
      unfold Shrunk. simpl. split_and!; try done; lia.
Qed.

End Pure.

(** ** The fix-up loops *)

Section Cells.
Context {T : Type}.
Implicit Types (t l r s : tree T) (k : list (frame T)).

Lemma taddrs_cells t : taddrs t = (λ x, x.1.1) <$> cells t.
Proof.
  induction t as [|l IHl a d c h r IHr]; simpl; [done|].
  by rewrite fmap_app, IHl, IHr.
Qed.
Lemma keys_cells t : keys t = (λ x, x.1.2) <$> cells t.
Proof.
  induction t as [|l IHl a d c h r IHr]; simpl; [done|].
  by rewrite fmap_app, IHl, IHr.
Qed.
Lemma elements_cells t : elements t = (λ x, (x.1.2, x.2)) <$> cells t.
Proof.
  induction t as [|l IHl a d c h r IHr]; simpl; [done|].
  by rewrite fmap_app, IHl, IHr.
Qed.
Lemma card_cells t : card t = Z.of_nat (length (cells t)).
Proof.
  induction t as [|l IHl a d c h r IHr]; simpl; [done|].
  rewrite length_app. simpl. lia.
Qed.

Lemma cells_plug t k : cells (plug t k) = ccl k ++ cells t ++ ccr k.
Proof.
  revert t. induction k as [|f k IH]; intros t; simpl; [by rewrite app_nil_r|].
  rewrite IH. destruct f; simpl; by rewrite <- ?app_assoc.
Qed.

Lemma cells_upheight t : cells (upheight_t t) = cells t.
Proof. by destruct t. Qed.
Lemma cells_rotl t : cells (rotl_t t) = cells t.
Proof.
  destruct t as [|l a d c h [|rl b db cb hb rr]]; simpl; try done.
  by rewrite <- app_assoc.
Qed.
Lemma cells_rotr t : cells (rotr_t t) = cells t.
Proof.
  destruct t as [|[|ll b db cb hb lr] a d c h r]; simpl; try done.
  by rewrite <- app_assoc.
Qed.
Lemma cells_apply_case cs t : cells (apply_case cs t) = cells t.
Proof.
  destruct cs; simpl; rewrite ?cells_rotl, ?cells_rotr; try done.
  - destruct t; simpl; [done|]. by rewrite cells_rotl.
  - destruct t; simpl; [done|]. by rewrite cells_rotr.
Qed.
Lemma cells_round sel t : cells (round_t sel t) = cells t.
Proof. unfold round_t. by rewrite cells_apply_case, cells_upheight. Qed.

Lemma cells_plug_eq t t' k : cells t = cells t' → cells (plug t k) = cells (plug t' k).
Proof. intros E. by rewrite !cells_plug, E. Qed.

Lemma card_plug_le t k : card t ≤ card (plug t k).
Proof.
  rewrite !card_cells, cells_plug, !length_app. lia.
Qed.
Lemma card_sib_le t f k : card (fsib f) ≤ card (plug t (f :: k)).
Proof.
  simpl. etrans; [|apply card_plug_le].
  destruct f; simpl; pose proof (card_nonneg t); lia.
Qed.

Lemma round_node sel l a d c h r :
  round_t sel (Node l a d c h r) ≠ Leaf.
Proof.
  unfold round_t. simpl upheight_t. destruct (sel _ _ _); simpl; try done.
  - by destruct l.
  - by destruct r.
  - destruct l as [|ll b db cb hb [|? ? ? ? ? ?]]; done.
  - destruct r as [|[|? ? ? ? ? ?] b db cb hb rr]; done.
Qed.

(** A consistent AVL tree gives the invariant of the context for each of
    its subtrees. *)
Lemma ctx_inv_intro t k :
  hc (plug t k) → avl (plug t k) → hc t ∧ avl t ∧ ctx_inv (ht t) k.
Proof.
  revert t. induction k as [|f k IH]; intros t Hc Ha; simpl in *; [done|].
  destruct (IH _ Hc Ha) as (Hc' & Ha' & Hk).
  destruct f as [p dp cp hp s|s p dp cp hp]; simpl in *.
  - destruct Hc' as (-> & ? & ?). destruct Ha' as (? & ? & ?).
    split_and!; done.
  - destruct Hc' as (-> & ? & ?). destruct Ha' as (? & ? & ?).
    split_and!; try done; [lia|]. by rewrite Z.max_comm.
Qed.

End Cells.

Section Sorted.
Context {T : Type} (cmp : T → T → Z) `{!TotalOrder cmp}.
Implicit Types (t l r s : tree T) (k : list (frame T)).

(** The search-tree order says that the keys are sorted in order. *)
Lemma bst_sorted t : bst cmp t ↔ StronglySorted (key_lt cmp) (keys t).
Proof.
  induction t as [|l IHl a d c h r IHr]; simpl.
  { split; [constructor|done]. }
  rewrite StronglySorted_app, StronglySorted_cons, <- IHl, <- IHr, !Forall_forall.
  split.
  - intros (Hl & Hr & ? & ?). split_and!; try done.
    + intros x1 x2 H1 [->|H2]%elem_of_cons; [by apply Hl|].
      eapply cmp_trans; [by apply Hl|]. apply cmp_flip. by apply Hr.
    + intros x Hx. apply cmp_flip. by apply Hr.
  - intros (H1 & ? & (Hr & ?)). split_and!; try done.
    + intros x Hx. apply (H1 x d); [done|]. apply elem_of_cons. by left.
    + intros x Hx. apply cmp_flip. by apply Hr.
Qed.

Lemma bst_cells t t' : cells t = cells t' → bst cmp t → bst cmp t'.
Proof. rewrite !bst_sorted, !keys_cells. by intros ->. Qed.

Lemma bst_keys t t' : keys t = keys t' → bst cmp t → bst cmp t'.
Proof. rewrite !bst_sorted. by intros ->. Qed.

Lemma lt_irrefl x : ¬ key_lt cmp x x.
Proof.
  unfold key_lt. intros H. assert (cmp x x = 0) by by apply cmp_eq. lia.
Qed.

Lemma keys_plug' t k : keys (plug t k) = (klefts k ++ keys t) ++ krights k.
Proof. by rewrite keys_plug, app_assoc. Qed.

(** In a search tree the keys of a subtree are on the side of its parent
    that [relink] will choose for them. *)
Lemma bst_hole t k : bst cmp (plug t k) → bst cmp t ∧ ∀ x, x ∈ keys t → hole_ok cmp k x.
Proof.
  rewrite !bst_sorted, keys_plug. intros Hs. split.
  { by apply StronglySorted_app_1_r, StronglySorted_app_1_l in Hs. }
  intros x Hx. destruct k as [|[p dp cp hp s|s p dp cp hp] k]; simpl in *; [done| |].
  - assert (key_lt cmp x dp) as Hlt; [|unfold key_lt in Hlt; zbool].
    apply StronglySorted_app_1_r in Hs.
    eapply (StronglySorted_app_1_elem_of _ _ _ x dp) in Hs; [done..|].
    rewrite ?elem_of_app, ?elem_of_cons, ?list_elem_of_singleton. naive_solver.
  - assert (key_lt cmp dp x) as Hlt; [|apply cmp_flip in Hlt; zbool].
    rewrite app_assoc in Hs. apply StronglySorted_app_1_l in Hs.
    eapply (StronglySorted_app_1_elem_of _ _ _ dp x) in Hs; [done| |done].
    rewrite ?elem_of_app, ?elem_of_cons, ?list_elem_of_singleton. naive_solver.
Qed.

End Sorted.

Section Loop.
Context {T : Type} (cmp : T → T → Z) `{!TotalOrder cmp}.
Implicit Types (t l r s : tree T) (k : list (frame T)) (σ : mavl_t T).
Variable sel : Z → Z → Z → rot_case.
Variable P : Z → tree T → Prop.
Variable loop : nat → positive → M (T:=T) unit.
Hypothesis Hquiet : quiet sel.
Hypothesis HP : ∀ h0 t, P h0 t → hc t ∧ avl t.
Hypothesis Hstep : ∀ h0 t f,
  0 ≤ h0 → P h0 t → hc (fsib f) → avl (fsib f) →
  Z.abs (h0 - ht (fsib f)) ≤ 1 → ht t ≤ 150 → ht (fsib f) ≤ 150 →
  P (1 + Z.max h0 (ht (fsib f))) (round_t sel (fill f t)).
Hypothesis Hloop0 : ∀ fuel σ, loop fuel (nil σ) σ = Some (tt, σ).
Hypothesis HloopS : ∀ fuel a σ, a ≠ nil σ →
  loop (S fuel) a σ = bind (fix_round_gen cmp sel a) (loop fuel) σ.

Lemma fill_node f t : ∃ l a d c h r, fill f t = Node l a d c h r.
Proof. destruct f; simpl; eauto 10. Qed.

(** A fix-up loop started at the parent of a subtree that an update has
    left in the state [P] ends, within the fuel given, with a consistent AVL
    tree that holds the same nodes in the same order. *)
Lemma fix_loop_ok k : ∀ t σ fuel h0,
  wf σ (plug t k) → bst cmp (plug t k) → P h0 t → 0 ≤ h0 → ctx_inv h0 k →
  card (plug t k) + 1 ≤ addr_space → (2 * length k ≤ fuel)%nat →
  ∃ σ' t', loop fuel (cpar (nil σ) k) σ = Some (tt, σ') ∧
           wf σ' t' ∧ hc t' ∧ avl t' ∧ cells t' = cells (plug t k) ∧
           same_obj σ σ'.
Proof.
  induction k as [|f k IH]; intros t σ fuel h0 Hwf Hbst Ht Hh0 Hk Hcard Hfuel.
  { exists σ, t. simpl. rewrite Hloop0. destruct (HP _ _ Ht).
    split_and!; try done; apply same_obj_refl. }
  destruct Hk as (Hcs & Has & Hd & Hk).
  destruct (HP _ _ Ht) as [Hct Hat].
  assert (ht t ≤ 150).
  { pose proof (card_plug_le t (f :: k)).
    pose proof (avl_small t Hct Hat). lia. }
  assert (ht (fsib f) ≤ 150).
  { pose proof (card_sib_le t f k).
    pose proof (avl_small _ Hcs Has). lia. }
  pose proof (Hstep h0 t f Hh0 Ht Hcs Has Hd) as Hu'.
  do 2 (specialize (Hu' ltac:(done))).
  set (h1 := 1 + Z.max h0 (ht (fsib f))) in *.
  assert (cpar (nil σ) (f :: k) = faddr f) as -> by by destruct f.
  change (plug t (f :: k)) with (plug (fill f t) k) in *.
  destruct (fill_node f t) as (l & a & d & c & h & r & Hu).
  assert (faddr f = a) as -> by (destruct f; simpl in *; congruence).
  rewrite Hu in *. clear Hu. set (u := Node l a d c h r) in *.
  remember (round_t sel u) as u' eqn:Eu'.
  destruct (bst_hole cmp _ _ Hbst) as [Hbu Hhole].
  destruct (round_ok cmp sel σ l a d c h r k Hwf Hbu Hhole)
    as (σ1 & Hrun & Hwf1 & Hso1).
  fold u in Hrun, Hwf1. rewrite <- Eu' in Hrun, Hwf1.
  assert (cells (plug u' k) = cells (plug u k)) as Hcells.
  { subst u'. apply cells_plug_eq, cells_round. }
  assert (bst cmp (plug u' k)) as Hbst1 by by eapply bst_cells.
  assert (card (plug u' k) + 1 ≤ addr_space) as Hcard1.
  { by rewrite card_cells, Hcells, <- card_cells. }
  assert (nil σ1 = nil σ) as Hnil1 by apply Hso1.
  assert (0 ≤ h1) as Hh1 by (unfold h1; lia).
  destruct fuel as [|[|fuel]]; [simpl in Hfuel; lia..|].
  rewrite HloopS by by eapply wf_root_neq.
  unfold bind at 1. rewrite Hrun.
  destruct (decide (ptr (nil σ) u' = a)) as [Heq|Hne].
  { destruct (IH u' σ1 (S fuel) h1) as (σ' & t' & Hl & ? & ? & ? & Hc' & ?);
      try done; [simpl in Hfuel; lia|].
    exists σ', t'. rewrite <- Hnil1, Hl. split_and!; try done.
    - by rewrite Hc'.
    - by eapply same_obj_trans. }
  destruct u' as [|l' a' d' c' h' r'].
  { symmetry in Eu'. by apply round_node in Eu'. }
  simpl ptr in *.
  rewrite HloopS by (eapply wf_root_neq; apply Hwf1).
  assert (bst cmp (plug (Node l' a' d' c' h' r') k)) as Hb2 by done.
  destruct (bst_hole cmp _ _ Hb2) as [Hbu2 Hhole2].
  destruct (round_ok cmp sel σ1 l' a' d' c' h' r' k Hwf1 Hbu2 Hhole2)
    as (σ2 & Hrun2 & Hwf2 & Hso2).
  destruct (HP _ _ Hu') as [Hcu' Hau'].
  assert (round_t sel (Node l' a' d' c' h' r') = Node l' a' d' c' h' r') as Est.
  { apply round_stable; try done.
    pose proof (card_plug_le (Node l' a' d' c' h' r') k).
    pose proof (avl_small _ Hcu' Hau'). lia. }
  rewrite Est in Hrun2, Hwf2.
  simpl ptr in Hrun2. rewrite decide_True in Hrun2 by done.
  unfold bind at 1. rewrite Hrun2.
  assert (nil σ2 = nil σ1) as Hnil2 by apply Hso2.
  destruct (IH (Node l' a' d' c' h' r') σ2 fuel h1)
    as (σ' & t' & Hl & ? & ? & ? & Hc' & ?);
    try done; [simpl in Hfuel; lia|].
  exists σ', t'. rewrite <- Hnil2, Hl. split_and!; try done.
  - by rewrite Hc'.
  - eapply same_obj_trans; [done|]. by eapply same_obj_trans.
Qed.

End Loop.

Section Fix.
Context {T : Type} (cmp : T → T → Z) `{!TotalOrder cmp}.
Implicit Types (t l r s : tree T) (k : list (frame T)) (σ : mavl_t T).

Lemma Grown_facts h0 t : Grown h0 t → hc t ∧ avl t.
Proof. intros (? & ? & _). done. Qed.
Lemma Shrunk_facts h0 t : Shrunk h0 t → hc t ∧ avl t.
Proof. intros (? & ? & _). done. Qed.

(** [ID##_internal_mavl_push_fix] and [ID##_internal_mavl_pop_fix]. *)
Lemma push_fix_ok k t σ fuel h0 :
  wf σ (plug t k) → bst cmp (plug t k) → Grown h0 t → 0 ≤ h0 → ctx_inv h0 k →
  card (plug t k) + 1 ≤ addr_space → (2 * length k ≤ fuel)%nat →
  ∃ σ' t', internal_mavl_push_fix cmp fuel (cpar (nil σ) k) σ = Some (tt, σ') ∧
           wf σ' t' ∧ hc t' ∧ avl t' ∧ cells t' = cells (plug t k) ∧
           same_obj σ σ'.
Proof.
  apply (fix_loop_ok cmp push_case Grown).
  - apply push_case_quiet.
  - apply Grown_facts.
  - apply push_step.
  - intros [|n] σ0; simpl; unfold bind, get_nil; by rewrite decide_True.
  - intros n a σ0 Ha. simpl. unfold bind at 1, get_nil.
    rewrite decide_False by done. unfold bind. rewrite push_round_gen. done.
Qed.

Lemma pop_fix_ok k t σ fuel h0 :
  wf σ (plug t k) → bst cmp (plug t k) → Shrunk h0 t → 0 ≤ h0 → ctx_inv h0 k →
  card (plug t k) + 1 ≤ addr_space → (2 * length k ≤ fuel)%nat →
  ∃ σ' t', internal_mavl_pop_fix cmp fuel (cpar (nil σ) k) σ = Some (tt, σ') ∧
           wf σ' t' ∧ hc t' ∧ avl t' ∧ cells t' = cells (plug t k) ∧
           same_obj σ σ'.
Proof.
  apply (fix_loop_ok cmp pop_case Shrunk).
  - apply pop_case_quiet.
  - apply Shrunk_facts.
  - apply pop_step.
  - intros [|n] σ0; simpl; unfold bind, get_nil; by rewrite decide_True.
  - intros n a σ0 Ha. simpl. unfold bind at 1, get_nil.
    rewrite decide_False by done. unfold bind. rewrite pop_round_gen. done.
Qed.

End Fix.

(** ** Insertion *)

Ltac zhyp :=
  repeat match goal with
  | H : (_ >=? _) = true |- _ => rewrite Z.geb_leb in H; apply Z.leb_le in H
  | H : (_ >=? _) = false |- _ => rewrite Z.geb_leb in H; apply Z.leb_gt in H
  | H : (_ <=? _) = true |- _ => apply Z.leb_le in H
  | H : (_ <=? _) = false |- _ => apply Z.leb_gt in H
  end.

Section Heap.
Context {T : Type}.
Variable cmp : T → T → Z.
Implicit Types (t l r : tree T) (k : list (frame T)) (m : gmap positive (mavl_node_t T)).
Implicit Types (σ : mavl_t T).

Lemma locate_went data t k :
  went_ok cmp k data → went_ok cmp (locate cmp data t k).2 data.
Proof.
  revert k. induction t as [|l IHl a x c h r IHr]; intros k Hk; simpl; [done|].
  destruct (cmp x data >=? 1) eqn:E1; [by apply IHl|].
  destruct (cmp x data <=? -1) eqn:E2; [by apply IHr|done].
Qed.

(** Linking the new node below the last node of the descent. *)
Lemma attach_ok σ f k p data :
  wf σ (plug Leaf (f :: k)) → went_ok cmp (f :: k) data → p ∉ dom (mem σ) →
  ∃ σ', attach_code cmp p (faddr f)
          (with_node σ p (MkNode data (nil σ) (nil σ) (nil σ) 1 1)) = Some (tt, σ') ∧
        wf σ' (plug (Node Leaf p data 1 1 Leaf) (f :: k)) ∧ grown_by σ p σ'.
Proof.
  intros Hwf Hhole Hp.
  assert (p ∉ nil σ :: taddrs (plug Leaf (f :: k))) as Hp'.
  { intros Hin. apply Hp. by eapply wf_in_dom. }
  apply wf_plug in Hwf as ((n0 & Hn0 & Hnil) & Hroot & Hrep & Hctx & Hnd).
  rewrite taddrs_plug in Hp'.
  assert (NoDup (p :: nil σ :: clefts (f :: k) ++ taddrs (Leaf : tree T) ++ crights (f :: k)))
    as Hnd' by by apply NoDup_cons_2.
  clear Hp'.
  destruct σ as [rt nl sz fr rel m]. unfold with_node, attach_code. simpl in *|-.
  destruct f as [a d c h s|s a d c h]; simpl in *|-; destruct Hctx as (Ha & Hs & Hk).
  all: cbn [tsize frd released mem root nil faddr].
  all: run_code Hnd'.
  all: split; [apply wf_plug; simpl; split_and!|].
  all: try wf_goal Hnd' n0.
  all: try (unfold grown_by; simpl; split_and!; try reflexivity).
  all: try (repeat first [rewrite <- app_assoc in Hnd' | rewrite app_nil_r in Hnd'
                          | progress simpl in Hnd'];
            anorm; nd_build Hnd').
  all: rewrite ?dom_insert_L.
  all: try (assert (a ∈ dom m) by (apply elem_of_dom; eauto)).
  all: try (clear -H; set_solver).
Qed.

(** Making the new node the root of an empty tree. *)
Lemma root_ok σ p data :
  wf σ Leaf → p ∉ dom (mem σ) →
  ∃ σ', set_root p (with_node σ p (MkNode data (nil σ) (nil σ) (nil σ) 1 1))
          = Some (tt, σ') ∧
        wf σ' (Node Leaf p data 1 1 Leaf) ∧ grown_by σ p σ'.
Proof.
  intros Hwf Hp.
  assert (p ≠ nil σ) as Hne.
  { intros ->. apply Hp. eapply wf_in_dom; [done|]. by left. }
  destruct Hwf as ((n0 & Hn0 & Hnil) & Hroot & Hrep & Hnd).
  destruct σ as [rt nl sz fr rel m]. unfold with_node, set_root. simpl in *|-.
  eexists. split; [reflexivity|]. split; [|by unfold grown_by; simpl; rewrite dom_insert_L].
  split_and!; simpl.
  - exists n0. by rewrite lookup_insert_ne.
  - done.
  - by rewrite lookup_insert_eq.
  - apply NoDup_cons_2; [|apply NoDup_singleton].
    rewrite list_elem_of_singleton. done.
Qed.

Lemma wf_set_size σ t f :
  wf σ t → wf (MkTree (root σ) (nil σ) (f (tsize σ)) (frd σ) (released σ) (mem σ)) t.
Proof. done. Qed.

Lemma length_ctx_le t k : (length k ≤ length (taddrs (plug t k)))%nat.
Proof.
  rewrite taddrs_plug, !length_app.
  assert (length k ≤ length (clefts k) + length (crights k))%nat; [|lia].
  induction k as [|f k IH]; simpl; [lia|].
  rewrite !length_app. destruct f; simpl; rewrite ?length_app; simpl; lia.
Qed.

End Heap.

Section Pure.
Context {T : Type} (cmp : T → T → Z) `{!TotalOrder cmp}.
Implicit Types (t l r s : tree T) (k : list (frame T)).

Lemma cmp_refl x : cmp x x = 0.
Proof. by apply cmp_eq. Qed.

Lemma cmp_zero_eq x y : (cmp x y >=? 1) = false → (cmp x y <=? -1) = false → x = y.
Proof.
  intros H1 H2. apply cmp_eq. zhyp. lia.
Qed.

(** Where the descent for [data] ends. *)
Lemma locate_spec data t k :
  bst cmp t →
  match (locate cmp data t k).1 with
  | Leaf => data ∉ keys t
  | Node _ _ x _ _ _ => x = data ∧ data ∈ keys t
  end.
Proof.
  revert k. induction t as [|l IHl a x c h r IHr]; intros k; simpl.
  { intros _. apply not_elem_of_nil. }
  intros (Hl & Hr & Hbl & Hbr). rewrite Forall_forall in Hl, Hr.
  destruct (cmp x data >=? 1) eqn:E1.
  { specialize (IHl (FL a x c h r :: k) Hbl).
    assert (1 ≤ cmp x data) as Hgt by (zhyp; lia).
    assert (cmp data x ≤ -1) as Hlt by by apply cmp_flip.
    destruct (locate cmp data l _).1.
    - rewrite elem_of_app, elem_of_cons. intros [?|[->|Hin]]; [done| |].
      + rewrite cmp_refl in Hgt. lia.
      + apply Hr in Hin. lia.
    - destruct IHl as [-> ?]. split; [done|]. rewrite elem_of_app. by left. }
  destruct (cmp x data <=? -1) eqn:E2.
  { specialize (IHr (FR l a x c h :: k) Hbr).
    assert (cmp x data ≤ -1) as Hlt by (zhyp; lia).
    assert (1 ≤ cmp data x) as Hgt by by apply cmp_flip.
    destruct (locate cmp data r _).1.
    - rewrite elem_of_app, elem_of_cons. intros [Hin|[->|?]]; [| |done].
      + apply Hl in Hin. lia.
      + rewrite cmp_refl in Hlt. lia.
    - destruct IHr as [-> ?]. split; [done|].
      rewrite elem_of_app, elem_of_cons. auto. }
  simpl. split; [by apply cmp_zero_eq|].
  rewrite elem_of_app, elem_of_cons. right. left. symmetry. by apply cmp_zero_eq.
Qed.

Lemma locate_path data t k :
  bst cmp t → path_ok cmp data k → path_ok cmp data (locate cmp data t k).2.
Proof.
  revert k. induction t as [|l IHl a x c h r IHr]; intros k; simpl; [done|].
  intros (Hl & Hr & Hbl & Hbr) [Hkl Hkr]. rewrite Forall_forall in Hl, Hr.
  destruct (cmp x data >=? 1) eqn:E1.
  { apply IHl; [done|].
    assert (key_lt cmp data x) as Hlt.
    { apply cmp_flip. zhyp. lia. }
    split; simpl; [by rewrite app_nil_r|].
    apply Forall_cons. split; [done|]. apply Forall_app. split; [|done].
    apply Forall_forall. intros y Hy. eapply cmp_trans; [done|].
    apply cmp_flip. by apply Hr. }
  destruct (cmp x data <=? -1) eqn:E2; [|done].
  apply IHr; [done|].
  assert (key_lt cmp x data) as Hlt by (unfold key_lt; zhyp; lia).
  split; simpl; [|done].
  apply Forall_app. split; [done|]. apply Forall_app. split.
  - apply Forall_forall. intros y Hy. eapply cmp_trans; [|done]. by apply Hl.
  - by apply Forall_singleton.
Qed.

Lemma bst_insert data k a c h :
  bst cmp (plug Leaf k) → path_ok cmp data k →
  bst cmp (plug (Node Leaf a data c h Leaf) k).
Proof.
  rewrite !(bst_sorted cmp), !keys_plug. simpl. intros Hs [Hl Hr].
  rewrite Forall_forall in Hl, Hr.
  apply StronglySorted_app in Hs as (H1 & H2 & H3).
  apply StronglySorted_app. split_and!; [|done|].
  - intros x1 x2 Hx1 [->|Hx2]%elem_of_cons; [by apply Hl|by apply H1].
  - apply StronglySorted_cons. split; [|done]. apply Forall_forall. done.
Qed.

Lemma hc_plug_inv t k : hc (plug t k) → hc t.
Proof.
  revert t. induction k as [|f k IH]; intros t; simpl; [done|].
  intros H%IH. destruct f; simpl in H; tauto.
Qed.
Lemma avl_plug_inv t k : avl (plug t k) → avl t.
Proof.
  revert t. induction k as [|f k IH]; intros t; simpl; [done|].
  intros H%IH. destruct f; simpl in H; tauto.
Qed.

Lemma hc_plug_eq t t' k : ht t' = ht t → hc t' → hc (plug t k) → hc (plug t' k).
Proof.
  revert t t'. induction k as [|f k IH]; intros t t' Hh Hc; simpl; [done|].
  intros H. eapply IH; [| |exact H].
  - by destruct f.
  - apply hc_plug_inv in H. destruct f; simpl in *; rewrite Hh; tauto.
Qed.
Lemma avl_plug_eq t t' k : ht t' = ht t → avl t' → avl (plug t k) → avl (plug t' k).
Proof.
  revert t t'. induction k as [|f k IH]; intros t t' Hh Hc; simpl; [done|].
  intros H. eapply IH; [| |exact H].
  - by destruct f.
  - apply avl_plug_inv in H. destruct f; simpl in *; rewrite Hh; tauto.
Qed.

Lemma sorted_nodup (l : list T) : StronglySorted (key_lt cmp) l → NoDup l.
Proof.
  induction 1 as [|x l Hs IH Hx]; constructor; [|done].
  rewrite Forall_forall in Hx. intros Hin%Hx. by apply lt_irrefl in Hin.
Qed.

Lemma bst_nodup t : bst cmp t → NoDup (keys t).
Proof. rewrite bst_sorted by done. apply sorted_nodup. Qed.

End Pure.

Lemma bind_run {T A B} (c : M (T:=T) A) (K : A → M B) σ a σ' :
  c σ = Some (a, σ') → bind c K σ = K a σ'.
Proof. intros E. unfold bind. by rewrite E. Qed.

Lemma call_run {T} (body : M (T:=T) merr_t) σ e σ' :
  body σ = Some (e, σ') → call (Some σ) body = Some (e, Some σ').
Proof. intros E. unfold call. by rewrite E. Qed.

Section Push.
Context {T : Type} (cmp : T → T → Z) `{!TotalOrder cmp}.
Implicit Types (t l r s : tree T) (k : list (frame T)) (σ : mavl_t T).

Lemma same_obj_size σ σ' : same_obj σ σ' → size (mem σ') = size (mem σ).
Proof. intros (_ & _ & _ & _ & Hd). by rewrite <- !size_dom, Hd. Qed.

Lemma inv_count_update σ σ' l a x c h r k v :
  inv cmp σ (plug (Node l a x c h r) k) →
  wf σ' (plug (Node l a x v h r) k) → same_obj σ σ' →
  inv cmp σ' (plug (Node l a x v h r) k).
Proof.
  intros (Hwf & Hbst & Havl & Hhc & Hsz & Hts) Hwf' Hso.
  split_and!; try done.
  - eapply bst_keys; [done| |done]. by rewrite !keys_plug.
  - eapply avl_plug_eq; [| |done]; [done|]. by apply avl_plug_inv in Havl.
  - eapply hc_plug_eq; [| |done]; [done|]. by apply hc_plug_inv in Hhc.
  - by rewrite (same_obj_size _ _ Hso).
  - destruct Hso as (_ & -> & _). rewrite Hts.
    rewrite !card_cells, !cells_plug, !length_app. simpl. by rewrite !length_app.
Qed.

Lemma attach_seq {A} p pa (K : unit → M A) σ :
  bind (bind (upd (set_parent pa) p) (λ _,
        bind (get n_data pa) (λ pd,
        bind (get n_data p) (λ sd,
        bind (if cmp pd sd >=? 1 then upd (set_left p) pa
              else upd (set_right p) pa) (λ _,
        bind get_gas (λ fuel', internal_mavl_push_fix cmp fuel' pa)))))) K σ
  = bind (attach_code cmp p pa) (λ _,
      bind (internal_mavl_push_fix cmp (gas σ) pa) K) σ.
Proof.
  unfold attach_code, bind.
  destruct (upd (set_parent pa) p σ) as [[[] σa]|] eqn:E1; [|done].
  assert (gas σa = gas σ) as Hg.
  { unfold upd in E1. destruct (mem σ !! p) eqn:E; [|done].
    injection E1 as <-. unfold gas. simpl.
    rewrite <- !size_dom, dom_insert_lookup_L; eauto. }
  destruct (get n_data pa σa) as [[pd σb]|] eqn:E2; [|done].
  assert (σb = σa) as ->.
  { unfold get in E2. destruct (mem σa !! pa); by simplify_eq. }
  destruct (get n_data p σa) as [[sd σc]|] eqn:E3; [|done].
  assert (σc = σa) as ->.
  { unfold get in E3. destruct (mem σa !! p); by simplify_eq. }
  destruct (if cmp pd sd >=? 1 then _ else _) as [[[] σd]|] eqn:E4; [|done].
  assert (gas σd = gas σ) as Hg'.
  { rewrite <- Hg. unfold gas. f_equal. f_equal.
    destruct (cmp pd sd >=? 1); unfold upd in E4;
      (destruct (mem σa !! pa) eqn:E; [|done]); injection E4 as <-; simpl;
      rewrite <- !size_dom, dom_insert_lookup_L; eauto. }
  unfold get_gas. by rewrite Hg'.
Qed.

(** [ID##_mavl_push] on a tree object that satisfies the invariants: the
    count of an equal payload is incremented; else a node is allocated and
    inserted in order, or [M_MALLOC_FAILED] is returned and nothing
    changes. *)
Lemma push_spec σ t data ok :
  inv cmp σ t →
  match locate cmp data t [] with
  | (Node l a x c h r, k) =>
      ∃ σ', mavl_push cmp (Some σ) data ok = Some (M_OK, Some σ') ∧
            upd (set_count (u32 (c + 1))) a σ = Some (tt, σ') ∧
            inv cmp σ' (plug (Node l a x (u32 (c + 1)) h r) k)
  | (Leaf, k) =>
      if ok && (Z.of_nat (size (mem σ)) <? addr_space) then
        let p := fresh (dom (mem σ)) in
        ∃ σ' t', mavl_push cmp (Some σ) data ok = Some (M_OK, Some σ') ∧
                 inv cmp σ' t' ∧ cells t' = ccl k ++ (p, data, 1) :: ccr k ∧
                 grown_by σ p (MkTree (root σ') (nil σ') (tsize σ) (frd σ')
                                 (released σ') (mem σ'))
      else mavl_push cmp (Some σ) data ok = Some (M_MALLOC_FAILED, Some σ)
  end.
Proof.
  intros Hinv. pose proof Hinv as (Hwf & Hbst & Havl & Hhc & Hsz & Hts).
  pose proof (wf_gas _ _ Hwf) as Hgas.
  destruct (push_descent_ok cmp σ data t [] (gas σ) Hwf ltac:(lia))
    as (res & σ1 & Hd & Hpost).
  pose proof (locate_plug cmp data t []) as Hplug.
  pose proof (locate_spec cmp data t [] Hbst) as Hspec.
  pose proof (locate_path cmp data t [] Hbst) as Hpath.
  pose proof (locate_went cmp data t []) as Hwent.
  destruct (locate cmp data t []) as [t0 k]. simpl in Hplug, Hspec, Hpath, Hwent.
  assert (root σ = ptr (nil σ) t) as Hroot by apply Hwf.
  simpl cpar in Hd. rewrite <- Hroot in Hd.
  assert (∀ (K : option positive → M merr_t) R, K res σ1 = R →
    bind get_nil (λ nl, bind get_gas (λ fuel, bind get_root (λ iterator,
      bind (push_descent cmp fuel data iterator nl) K))) σ = R) as Hstart.
  { intros K R <-.
    rewrite (bind_run _ _ σ (nil σ) σ) by done.
    rewrite (bind_run _ _ σ (gas σ) σ) by done.
    rewrite (bind_run _ _ σ (root σ) σ) by done.
    by rewrite (bind_run _ _ _ _ _ Hd). }
  destruct t0 as [|l a x c h r]; simpl in Hpost.
  2:{ destruct Hpost as (-> & Hu & Hwf1 & Hso). exists σ1. split_and!; try done.
      - unfold mavl_push. apply call_run, Hstart. done.
      - subst t. by eapply inv_count_update. }
  destruct Hpost as [-> ->].
  assert (∀ (K : positive → M merr_t) R,
    (if ok && (Z.of_nat (size (mem σ)) <? addr_space)
     then K (fresh (dom (mem σ)))
            (with_node σ (fresh (dom (mem σ))) (MkNode data (nil σ) (nil σ) (nil σ) 1 1))
     else K (nil σ) σ) = R →
    bind (internal_mavl_node data ok) K σ = R) as Hnode.
  { intros K R <-. unfold internal_mavl_node.
    rewrite bind_bind. rewrite (bind_run _ _ σ (nil σ) σ) by done.
    rewrite bind_bind. unfold malloc at 1. unfold bind at 1.
    by destruct (ok && (Z.of_nat (size (mem σ)) <? addr_space)). }
  destruct (ok && (Z.of_nat (size (mem σ)) <? addr_space)) eqn:Eok.
  2:{ unfold mavl_push. apply call_run, Hstart, Hnode. by rewrite decide_True. }
  set (p := fresh (dom (mem σ))) in *.
  assert (p ∉ dom (mem σ)) as Hp by apply is_fresh.
  assert (p ≠ nil σ) as Hpn.
  { intros E. apply Hp. rewrite E. eapply wf_in_dom; [done|]. by left. }
  apply andb_true_iff in Eok as [_ Hlt%Z.ltb_lt].
  pose proof (wf_size _ _ Hwf) as Hsize.
  assert (card t + 2 ≤ addr_space) as Hcard.
  { rewrite card_cells, <- (length_fmap (λ x, x.1.1)), <- taddrs_cells. lia. }
  assert (cells t = ccl k ++ ccr k) as Hcells by by rewrite <- Hplug, cells_plug.
  assert (u64 (tsize σ + 1) = card t + 1) as Hu64.
  { rewrite Hts. unfold u64. rewrite Z.mod_small; [done|].
    pose proof (card_nonneg t). unfold addr_space in *. lia. }
  destruct k as [|f k].
  - simpl in Hplug. subst t.
    destruct (root_ok σ p data Hwf Hp) as (σ2 & Hr & Hwf2 & Hg).
    destruct Hg as (Hg1 & Hg2 & Hg3 & Hg4 & Hg5).
    eexists _, (Node Leaf p data 1 1 Leaf). split.
    { unfold mavl_push. apply call_run, Hstart, Hnode.
      rewrite decide_False by done. simpl cpar.
      rewrite decide_False by (intros E; by apply E).
      rewrite (bind_run _ _ _ _ _ Hr). reflexivity. }
    refine (conj _ (conj _ _)); [|done|done].
    split; [exact (wf_set_size σ2 _ (λ n, u64 (n + 1)) Hwf2)|].
    split; [repeat split; try done; apply Forall_nil_2|].
    split; [simpl; lia|]. split; [done|]. split.
    + cbn [mem]. rewrite <- size_dom, Hg5, size_union, size_singleton, size_dom by set_solver. lia.
    + cbn [tsize]. by rewrite Hg2, Hu64.
  - assert (faddr f ≠ nil σ) as Hfn.
    { rewrite <- Hplug in Hwf. simpl in Hwf.
      destruct f; simpl in *; by eapply wf_root_neq. }
    assert (cpar (nil σ) (f :: k) = faddr f) as Hcp0 by by destruct f.
    rewrite <- Hplug in Hwf.
    destruct (attach_ok cmp σ f k p data Hwf (Hwent I) Hp) as (σ2 & Hr & Hwf2 & Hg).
    destruct Hg as (Hg1 & Hg2 & Hg3 & Hg4 & Hg5).
    assert (bst cmp (plug (Node Leaf p data 1 1 Leaf) (f :: k))) as Hb2.
    { apply bst_insert; [done|by rewrite Hplug|]. apply Hpath. by split. }
    rewrite <- Hplug in Hhc, Havl.
    destruct (ctx_inv_intro _ _ Hhc Havl) as (_ & _ & Hctx).
    destruct (push_fix_ok cmp (f :: k) (Node Leaf p data 1 1 Leaf) σ2 (gas σ2) 0)
      as (σ3 & t' & Hfix & Hwf3 & Hhc3 & Havl3 & Hcells3 & Hso3); try done.
    { repeat split; try done. right. split; [done|]. by right. }
    { rewrite card_cells, cells_plug. rewrite card_cells, Hcells in Hcard.
      change (cells (Node Leaf p data 1 1 Leaf)) with [(p, data, 1)].
      rewrite !length_app. rewrite !length_app in Hcard. cbn [length]. lia. }
    { pose proof (wf_gas _ _ Hwf2).
      pose proof (length_ctx_le (Node Leaf p data 1 1 Leaf) (f :: k)). lia. }
    assert (cpar (nil σ2) (f :: k) = faddr f) as Hcp by by destruct f.
    rewrite Hcp in Hfix.
    destruct Hso3 as (Hs1 & Hs2 & Hs3 & Hs4 & Hs5).
    eexists _, t'. split.
    { unfold mavl_push. apply call_run, Hstart, Hnode.
      rewrite decide_False by done. rewrite Hcp0.
      rewrite decide_True by done.
      rewrite attach_seq. rewrite (bind_run _ _ _ _ _ Hr).
      assert (gas (with_node σ p (MkNode data (nil σ) (nil σ) (nil σ) 1 1)) = gas σ2) as ->.
      { unfold gas, with_node. cbn [mem]. by rewrite <- !size_dom, Hg5, dom_insert_L. }
      rewrite (bind_run _ _ _ _ _ Hfix). reflexivity. }
    refine (conj _ (conj _ _)).
    + split; [exact (wf_set_size σ3 _ (λ n, u64 (n + 1)) Hwf3)|].
      split; [by eapply bst_cells|].
      split; [done|]. split; [done|]. split.
      * cbn [mem]. rewrite <- size_dom, Hs5, Hg5, size_union, size_singleton, size_dom by set_solver. lia.
      * cbn [tsize]. rewrite Hs2, Hg2, Hu64.
        rewrite !card_cells, Hcells3, Hcells, cells_plug.
        change (cells (Node Leaf p data 1 1 Leaf)) with [(p, data, 1)].
        rewrite !length_app. cbn [length]. lia.
    + rewrite Hcells3, cells_plug. done.
    + unfold grown_by; simpl; split_and!;
        [by rewrite Hs1|done|by rewrite Hs3|by rewrite Hs4|by rewrite Hs5].
Qed.

End Push.

(** ** Search and deletion *)

Lemma query_run {T A} (body : M (T:=T) (merr_t * option A)) σ r σ' :
  body σ = Some (r, σ') → query (Some σ) body = Some r.
Proof. intros E. unfold query. by rewrite E. Qed.

Ltac len_norm :=
  repeat first [rewrite length_app | rewrite length_cons | rewrite length_nil].
Ltac len_norm_in H :=
  repeat first [rewrite length_app in H | rewrite length_cons in H
               | rewrite length_nil in H].

Section Find.
Context {T : Type} (cmp : T → T → Z) `{!TotalOrder cmp}.
Implicit Types (t l r s : tree T) (k : list (frame T)) (σ : mavl_t T).

Lemma wf_ptr_neq σ t : wf σ t → t ≠ Leaf → ptr (nil σ) t ≠ nil σ.
Proof.
  intros Hwf Ht. destruct t as [|l a d c h r]; [done|]. simpl.
  by apply (wf_root_neq σ l a d c h r []).
Qed.

Lemma wf_sub_neq σ t k : wf σ (plug t k) → t ≠ Leaf → ptr (nil σ) t ≠ nil σ.
Proof.
  intros Hwf Ht. destruct t as [|l a d c h r]; [done|]. simpl.
  by eapply wf_root_neq.
Qed.

(** [ID##_internal_mavl_find_node] returns the node [locate] stops at. *)
Lemma find_node_ok σ t data :
  wf σ t →
  internal_mavl_find_node cmp data σ = Some (ptr (nil σ) (locate cmp data t []).1, σ).
Proof.
  intros Hwf. unfold internal_mavl_find_node.
  rewrite (bind_run _ _ σ (gas σ) σ) by done.
  rewrite (bind_run _ _ σ (root σ) σ) by done.
  assert (root σ = ptr (nil σ) t) as -> by apply Hwf.
  pose proof (wf_gas _ _ Hwf).
  apply (find_node_loop_ok cmp σ data t []); [done|lia].
Qed.

(** [ID##_mavl_find]. *)
Lemma find_spec σ t data acc :
  wf σ t →
  mavl_find cmp (Some σ) data acc =
    Some (match (locate cmp data t []).1 with
          | Leaf => (M_NOT_FOUND, None)
          | Node _ _ x _ _ _ => (M_OK, if acc then Some x else None)
          end).
Proof.
  intros Hwf. pose proof (locate_plug cmp data t []) as Hplug.
  unfold mavl_find.
  destruct (locate cmp data t []) as [t0 k] eqn:Hloc. simpl in Hplug.
  assert ((locate cmp data t []).1 = t0) as Ht0 by by rewrite Hloc.
  destruct t0 as [|l a x c h r].
  - eapply query_run.
    rewrite (bind_run _ _ σ (nil σ) σ) by done.
    rewrite (bind_run _ _ _ _ _ (find_node_ok σ t data Hwf)).
    rewrite Ht0. simpl. by rewrite decide_True.
  - rewrite <- Hplug in Hwf.
    pose proof (wf_root_neq _ _ _ _ _ _ _ _ Hwf) as Hne.
    pose proof (wf_root_lookup _ _ _ _ _ _ _ _ Hwf) as Hl.
    rewrite Hplug in Hwf.
    eapply query_run.
    rewrite (bind_run _ _ σ (nil σ) σ) by done.
    rewrite (bind_run _ _ _ _ _ (find_node_ok σ t data Hwf)).
    rewrite Ht0. simpl. rewrite decide_False by done.
    destruct acc; [|done]. unfold bind, get. by rewrite Hl.
Qed.

Lemma find_present σ t data :
  wf σ t → bst cmp t → data ∈ keys t →
  mavl_find cmp (Some σ) data true = Some (M_OK, Some data).
Proof.
  intros Hwf Hbst Hin. rewrite (find_spec σ t) by done.
  pose proof (locate_spec cmp data t [] Hbst) as Hs.
  destruct (locate cmp data t []).1; [done|]. by destruct Hs as [-> _].
Qed.

Lemma find_absent σ t data acc :
  wf σ t → bst cmp t → data ∉ keys t →
  mavl_find cmp (Some σ) data acc = Some (M_NOT_FOUND, None).
Proof.
  intros Hwf Hbst Hin. rewrite (find_spec σ t) by done.
  pose proof (locate_spec cmp data t [] Hbst) as Hs.
  destruct (locate cmp data t []).1; [done|]. by destruct Hs as [_ ?].
Qed.

End Find.

Section Pop.
Context {T : Type} (cmp : T → T → Z) `{!TotalOrder cmp}.
Implicit Types (t l r s : tree T) (k : list (frame T)) (σ : mavl_t T).

Lemma sorted_remove (R : relation T) (A B : list T) x :
  StronglySorted R (A ++ x :: B) → StronglySorted R (A ++ B).
Proof.
  rewrite !StronglySorted_app, StronglySorted_cons.
  intros (H1 & H2 & _ & H3). split_and!; try done.
  intros x1 x2 Hx1 Hx2. apply H1; [done|]. by apply elem_of_cons; right.
Qed.

Lemma bst_remove t t' A B e :
  cells t = A ++ e :: B → cells t' = A ++ B → bst cmp t → bst cmp t'.
Proof.
  rewrite !(bst_sorted cmp), !keys_cells. intros -> ->.
  rewrite !fmap_app, fmap_cons. apply sorted_remove.
Qed.

Lemma ctx_inv_sibs h0 k k' :
  fsib <$> k = fsib <$> k' → ctx_inv h0 k → ctx_inv h0 k'.
Proof.
  revert h0 k'. induction k as [|f k IH]; intros h0 [|f' k']; simpl; try done.
  intros [= Hf Hk]. rewrite Hf. intros (? & ? & ? & ?). split_and!; try done.
  by apply IH.
Qed.

(** Unlinking and releasing a node with at most one child, then fixing
    the tree up from its parent. *)
Lemma pop_tail_ok σ l a d c h r k :
  wf σ (plug (Node l a d c h r) k) → l = Leaf ∨ r = Leaf →
  bst cmp (plug (spliced l r) k) →
  hc l → hc r → avl l → avl r →
  ctx_inv (1 + Z.max (ht l) (ht r)) k →
  card (plug (spliced l r) k) + 1 ≤ addr_space →
  ∃ σ' t', pop_tail cmp (nil σ) a σ = Some (M_OK, σ') ∧
           wf σ' t' ∧ hc t' ∧ avl t' ∧
           cells t' = cells (plug (spliced l r) k) ∧
           shrunk_by σ a d σ'.
Proof.
  intros Hwf Hone Hbst Hcl Hcr Hal Har Hctx Hcard.
  pose proof (wf_root_lookup _ _ _ _ _ _ _ _ Hwf) as Hl.
  destruct (splice_ok σ l a d c h r k Hwf Hone) as (σ2 & Hsp & Hwf2 & Hso2 & Hmem).
  assert (a ∉ nil σ2 :: taddrs (plug (spliced l r) k)) as Hfresh.
  { destruct Hso2 as (-> & _). destruct Hwf as (_ & _ & _ & Hnd).
    rewrite taddrs_plug in *. simpl in Hnd.
    destruct Hone as [-> | ->]; [|destruct l]; simpl in *.
    all: repeat first [rewrite <- app_assoc in Hnd | rewrite app_nil_r in Hnd
                      | progress simpl in Hnd].
    all: intros E; nd_mem Hnd a E. }
  rewrite Hl in Hmem.
  destruct (free_ok σ2 _ a _ Hwf2 Hfresh Hmem) as [Hfree Hwf3].
  simpl in Hfree, Hwf3.
  set (σ3 := MkTree (root σ2) (nil σ2) (tsize σ2) (frd σ2)
               (if frd σ2 then d :: released σ2 else released σ2)
               (delete a (mem σ2))) in *.
  set (σ4 := MkTree (root σ3) (nil σ3) (u64 (tsize σ3 - 1)) (frd σ3) (released σ3) (mem σ3)).
  assert (wf σ4 (plug (spliced l r) k)) as Hwf4 by exact Hwf3.
  destruct Hso2 as (Hs1 & Hs2 & Hs3 & Hs4 & Hs5).
  assert (shrunk_by σ a d σ4) as Hsh.
  { unfold shrunk_by. simpl. rewrite Hs1, Hs2, Hs3, Hs4, dom_delete_L, Hs5. done. }
  assert (hc (spliced l r) ∧ avl (spliced l r) ∧
          ht (spliced l r) = 1 + Z.max (ht l) (ht r) - 1) as (Hcs & Has & Hhs).
  { pose proof (hc_nonneg _ Hcl). pose proof (hc_nonneg _ Hcr).
    destruct Hone as [-> | ->]; [|destruct l];
      (refine (conj _ (conj _ _)); [done|done|simpl in *; lia]). }
  assert (∀ R, (bind (if decide (cpar (nil σ) k ≠ nil σ) then
             bind get_gas (λ fuel, internal_mavl_pop_fix cmp fuel (cpar (nil σ) k))
           else ret tt) (λ _, ret M_OK)) σ4 = R → pop_tail cmp (nil σ) a σ = R) as Hrun.
  { intros R <-. unfold pop_tail.
    rewrite (bind_run _ _ σ (ptr (nil σ) l) σ) by (unfold get; by rewrite Hl).
    rewrite (bind_run _ _ σ (ptr (nil σ) r) σ) by (unfold get; by rewrite Hl).
    rewrite (bind_run _ _ _ _ _ Hsp).
    rewrite (bind_run _ _ σ2 (cpar (nil σ) k) σ2) by (unfold get; by rewrite Hmem).
    rewrite (bind_run _ _ _ _ _ Hfree).
    rewrite (bind_run _ _ σ3 tt σ4) by done. done. }
  destruct k as [|f k].
  - exists σ4, (spliced l r). split_and!; try done.
    apply Hrun. simpl cpar. by rewrite decide_False by (intros E; by apply E).
  - assert (cpar (nil σ) (f :: k) = faddr f) as Hcp by by destruct f.
    assert (faddr f ≠ nil σ) as Hne.
    { simpl in Hwf. destruct f; simpl in *; by eapply wf_root_neq. }
    destruct (pop_fix_ok cmp (f :: k) (spliced l r) σ4 (gas σ4)
                (1 + Z.max (ht l) (ht r)))
      as (σ5 & t' & Hfix & Hwf5 & Hhc5 & Havl5 & Hcells5 & Hso5); try done.
    { split_and!; try done. right. lia. }
    { pose proof (hc_nonneg _ Hcl). lia. }
    { pose proof (wf_gas _ _ Hwf4).
      pose proof (length_ctx_le (spliced l r) (f :: k)). lia. }
    exists σ5, t'. split_and!; try done.
    + apply Hrun. rewrite Hcp, decide_True by done.
      rewrite bind_bind. rewrite (bind_run _ _ σ4 (gas σ4) σ4) by done.
      assert (cpar (nil σ4) (f :: k) = faddr f) as Hcp4 by by destruct f.
      rewrite Hcp4 in Hfix. by rewrite (bind_run _ _ _ _ _ Hfix).
    + destruct Hso5 as (H1 & H2 & H3 & H4 & H5).
      destruct Hsh as (G1 & G2 & G3 & G4 & G5).
      unfold shrunk_by. by rewrite H1, H2, H3, H4, H5.
Qed.

Lemma leftmost_shape t k :
  t ≠ Leaf →
  ∃ (s : positive) ds cs hs sr ks,
    leftmost t k = (Node Leaf s ds cs hs sr, ks ++ k) ∧ Forall is_FL ks ∧
    t = plug (Node Leaf s ds cs hs sr) ks.
Proof.
  revert k. induction t as [|l IHl a x c h r _]; intros k Ht; [done|].
  destruct l as [|ll b db cb hb lr].
  { exists a, x, c, h, r, []. by split_and!. }
  destruct (IHl (FL a x c h r :: k)) as (s & ds & cs & hs & sr & ks & E & Hks & Hl); [done|].
  exists s, ds, cs, hs, sr, (ks ++ [FL a x c h r]). split_and!.
  - change (leftmost (Node (Node ll b db cb hb lr) a x c h r) k)
      with (leftmost (Node ll b db cb hb lr) (FL a x c h r :: k)).
    rewrite E. by rewrite <- app_assoc.
  - apply Forall_app. split; [done|]. by apply Forall_singleton.
  - rewrite plug_app. simpl. by rewrite <- Hl.
Qed.

Lemma ccl_app k1 k2 : ccl (k1 ++ k2) = ccl k2 ++ ccl k1.
Proof.
  induction k1 as [|f k1 IH]; simpl; [by rewrite app_nil_r|].
  by rewrite IH, app_assoc.
Qed.
Lemma ccr_app k1 k2 : ccr (k1 ++ k2) = ccr k1 ++ ccr k2.
Proof.
  induction k1 as [|f k1 IH]; simpl; [done|]. by rewrite IH, app_assoc.
Qed.
Lemma ccl_FL k : Forall is_FL k → ccl k = [].
Proof.
  induction 1 as [|f k Hf _ IH]; simpl; [done|]. rewrite IH. by destruct f.
Qed.

(** [ID##_mavl_pop] on a tree object that satisfies the invariants. *)
Lemma pop_spec σ t data :
  inv cmp σ t →
  match locate cmp data t [] with
  | (Leaf, _) =>
      mavl_pop cmp (Some σ) data =
        Some (match t with Leaf => M_POP_FROM_EMPTY | _ => M_INVALID_INPUT end, Some σ)
  | (Node l a x c h r, k) =>
      ∃ σ' t',
        mavl_pop cmp (Some σ) data = Some (M_OK, Some σ') ∧ inv cmp σ' t' ∧
        cells t = (ccl k ++ cells l) ++ (a, x, c) :: cells r ++ ccr k ∧
        cells t' = (ccl k ++ cells l) ++ cells r ++ ccr k ∧ shrunk_by σ a x σ'
  end.
Proof.
  intros Hinv. pose proof Hinv as (Hwf & Hbst & Havl & Hhc & Hsz & Hts).
  pose proof (wf_gas _ _ Hwf) as Hgas.
  pose proof (wf_size _ _ Hwf) as Hsize.
  pose proof (locate_plug cmp data t []) as Hplug.
  pose proof (find_node_ok cmp σ t data Hwf) as Hfind.
  assert (root σ = ptr (nil σ) t) as Hroot by apply Hwf.
  destruct (locate cmp data t []) as [t0 k]. simpl in Hplug, Hfind.
  destruct t0 as [|l a x c h r].
  { unfold mavl_pop. apply call_run.
    rewrite (bind_run _ _ σ (nil σ) σ) by done.
    rewrite (bind_run _ _ σ (root σ) σ) by done.
    destruct t as [|tl ta td tc th tr].
    - by rewrite decide_True.
    - rewrite decide_False by (rewrite Hroot; by apply wf_ptr_neq).
      rewrite (bind_run _ _ _ _ _ Hfind). simpl. by rewrite decide_True. }
  set (nl := nil σ) in *.
  assert (wf σ (plug (Node l a x c h r) k)) as Hwf0 by by rewrite Hplug.
  pose proof (wf_root_neq _ _ _ _ _ _ _ _ Hwf0) as Hne.
  pose proof (wf_root_lookup _ _ _ _ _ _ _ _ Hwf0) as Hl.
  assert (∀ R,
    bind (if bool_decide (ptr nl l ≠ nl) && bool_decide (ptr nl r ≠ nl) then
            bind (internal_mavl_min_node (ptr nl r)) (λ m, internal_mavl_swap a m)
          else ret tt) (λ _, pop_tail cmp nl a) σ = Some (M_OK, R) →
    mavl_pop cmp (Some σ) data = Some (M_OK, Some R)) as Hbody.
  { intros R HR. unfold mavl_pop. apply call_run.
    rewrite (bind_run _ _ σ (nil σ) σ) by done.
    rewrite (bind_run _ _ σ (root σ) σ) by done.
    rewrite decide_False.
    2:{ rewrite Hroot. apply wf_ptr_neq; [done|]. rewrite <- Hplug.
        clear. revert l a x c h r. induction k as [|f k IH]; intros; [done|].
        simpl. destruct f; apply IH. }
    rewrite (bind_run _ _ _ _ _ Hfind).
    change (ptr nl (Node l a x c h r)) with a.
    rewrite decide_False by done.
    rewrite (bind_run _ _ σ (ptr nl l) σ) by (unfold get; by rewrite Hl).
    rewrite (bind_run _ _ σ (ptr nl r) σ) by (unfold get; by rewrite Hl).
    exact HR. }
  assert (card t + 1 ≤ addr_space) as Hcard.
  { rewrite card_cells, <- (length_fmap (λ x, x.1.1)), <- taddrs_cells. lia. }
  assert (1 ≤ card t) as Hpos.
  { rewrite <- Hplug, card_cells, cells_plug, !length_app. simpl.
    rewrite length_app. simpl. lia. }
  assert (∀ σ' t' A B,
    cells t = A ++ (a, x, c) :: B → cells t' = A ++ B →
    wf σ' t' → hc t' → avl t' → shrunk_by σ a x σ' →
    inv cmp σ' t' ∧ cells t = A ++ (a, x, c) :: B ∧ cells t' = A ++ B ∧
    shrunk_by σ a x σ') as Hfin.
  { intros σ' t' A B HA HB Hwf' Hhc' Havl' Hsh. split_and!; try done.
    split; [done|]. split; [by eapply bst_remove|]. split; [done|]. split; [done|].
    destruct Hsh as (_ & Hsz' & _ & _ & Hdom). split.
    - rewrite <- size_dom, Hdom.
      assert (size (dom (mem σ) ∖ {[a]}) ≤ size (dom (mem σ)))%nat
        by (apply subseteq_size; set_solver).
      rewrite size_dom in *. lia.
    - rewrite Hsz', Hts. unfold u64. rewrite Z.mod_small by (unfold addr_space in *; lia).
      rewrite !card_cells, HA, HB, !length_app. simpl. lia. }
  assert (cells t = (ccl k ++ cells l) ++ (a, x, c) :: cells r ++ ccr k) as Hct.
  { rewrite <- Hplug, cells_plug. simpl. by rewrite <- !app_assoc. }
  rewrite <- Hplug in Hhc, Havl.
  destruct (ctx_inv_intro _ _ Hhc Havl) as (Hcn & Han & Hctx).
  destruct Hcn as (Hh & Hcl & Hcr). destruct Han as (Hbal & Hal & Har).
  assert ((l = Leaf ∨ r = Leaf) ∨ (l ≠ Leaf ∧ r ≠ Leaf)) as [Hone|[Hl0 Hr0]].
  { destruct l, r; auto. }
  - assert (cells (plug (spliced l r) k) = (ccl k ++ cells l) ++ cells r ++ ccr k) as Hct'.
    { rewrite cells_plug. destruct Hone as [-> | ->]; [|destruct l]; simpl;
        by rewrite <- ?app_assoc, ?app_nil_r. }
    destruct (pop_tail_ok σ l a x c h r k)
      as (σ' & t' & Hrun & Hwf' & Hhc' & Havl' & Hcells' & Hsh); try done.
    { by eapply bst_remove. }
    { simpl in Hctx. by rewrite <- Hh. }
    { rewrite card_cells, Hct'. rewrite card_cells, Hct in Hcard.
      len_norm. len_norm_in Hcard. lia. }
    exists σ', t'.
    split; [|apply Hfin; try done; by rewrite Hcells'].
    apply Hbody.
    assert (bool_decide (ptr nl l ≠ nl) && bool_decide (ptr nl r ≠ nl) = false) as ->.
    { destruct Hone as [-> | ->]; simpl.
      - by rewrite bool_decide_eq_false_2 by (intros E; by apply E).
      - rewrite (bool_decide_eq_false_2 (nl ≠ nl)) by (intros E; by apply E).
        apply andb_false_r. }
    exact Hrun.
  - destruct l as [|ll b db cb hb lr]; [done|].
    destruct r as [|rl y dy cy hy rr]; [done|].
    clear Hl0 Hr0.
    set (l := Node ll b db cb hb lr) in *. set (r := Node rl y dy cy hy rr) in *.
    destruct (leftmost_shape r (FR l a x c h :: k))
      as (s & ds & cs & hs & sr & ks & Hlm & Hks & Hr); [done|].
    assert (min_node_loop (gas σ) y σ = Some (s, σ)) as Hmin.
    { rewrite (min_node_loop_ok σ rl y dy cy hy rr (FR l a x c h :: k)); [|done|].
      - fold r. by rewrite Hlm.
      - fold r. pose proof (length_ctx_le r (FR l a x c h :: k)) as Hlen.
        change (plug r (FR l a x c h :: k)) with (plug (Node l a x c h r) k) in Hlen.
        rewrite Hplug in Hlen.
        assert (length (taddrs r) ≤ length (taddrs t))%nat; [|lia].
        rewrite <- Hplug, taddrs_plug.
        change (taddrs (Node l a x c h r)) with (taddrs l ++ a :: taddrs r).
        len_norm. lia. }
    assert (plug (Node Leaf s ds cs hs sr) (ks ++ FR l a x c h :: k) = t) as Hplug2.
    { rewrite plug_app, <- Hr. done. }
    assert (wf σ (plug (Node Leaf s ds cs hs sr) (ks ++ FR l a x c h :: k))) as Hwf2
      by by rewrite Hplug2.
    destruct (swap_ok cmp σ ll b db cb hb lr a x c h s ds cs hs sr ks k Hwf2 Hks)
      as (σ1 & Hswap & Hwf1 & Hso1).
    fold l in Hwf1.
    set (K := ks ++ FR l s ds cs hs :: k) in *.
    assert (cells r = (s, ds, cs) :: cells sr ++ ccr ks) as Hcr'.
    { rewrite Hr, cells_plug, (ccl_FL ks Hks). done. }
    assert (cells (plug (spliced Leaf sr) K) = (ccl k ++ cells l) ++ cells r ++ ccr k) as Hct'.
    { unfold K. rewrite cells_plug, ccl_app, ccr_app, (ccl_FL ks Hks), Hcr'.
      simpl. rewrite <- !app_assoc. done. }
    rewrite Hplug in Hhc, Havl. rewrite <- Hplug2 in Hhc, Havl.
    destruct (ctx_inv_intro _ _ Hhc Havl) as (Hcn & Han & Hctx2).
    destruct Hcn as (Hhs & _ & Hcsr). destruct Han as (_ & _ & Hasr).
    assert (nil σ1 = nl) as Hn1 by apply Hso1.
    destruct (pop_tail_ok σ1 Leaf a x c h sr K)
      as (σ' & t' & Hrun & Hwf' & Hhc' & Havl' & Hcells' & Hsh); try done.
    { by left. }
    { by eapply bst_remove. }
    { simpl ht in Hctx2. rewrite Hhs in Hctx2.
      eapply ctx_inv_sibs; [|exact Hctx2]. unfold K. by rewrite !fmap_app. }
    { rewrite card_cells, Hct'. rewrite card_cells, Hct in Hcard.
      len_norm. len_norm_in Hcard. lia. }
    exists σ', t'.
    split.
    + apply Hbody.
      rewrite !bool_decide_eq_true_2; [|by eapply (wf_sub_neq σ r (FR l a x c h :: k))
                                        |by eapply (wf_sub_neq σ l (FL a x c h r :: k))].
      simpl andb. cbv iota.
      rewrite bind_bind. unfold internal_mavl_min_node at 1.
      rewrite bind_bind. rewrite (bind_run _ _ σ nl σ) by done.
      rewrite decide_True by by eapply (wf_sub_neq σ r (FR l a x c h :: k)).
      rewrite bind_bind. rewrite (bind_run _ _ σ (gas σ) σ) by done.
      simpl ptr. rewrite (bind_run _ _ _ _ _ Hmin).
      rewrite (bind_run _ _ _ _ _ Hswap).
      rewrite <- Hn1. exact Hrun.
    + apply Hfin; try done; [by rewrite Hcells'|].
      destruct Hso1 as (H1 & H2 & H3 & H4 & H5).
      destruct Hsh as (G1 & G2 & G3 & G4 & G5).
      unfold shrunk_by. by rewrite G1, G2, G3, G4, G5, H1, H2, H3, H4, H5.
Qed.

End Pop.

(** ** Minimum, maximum, predecessor and successor *)

Section Queries.
Context {T : Type} (cmp : T → T → Z) `{!TotalOrder cmp}.
Implicit Types (t l r : tree T) (k : list (frame T)) (σ : mavl_t T).

Lemma klefts_FL k : Forall is_FL k → klefts k = [].
Proof.
  induction 1 as [|f k Hf _ IH]; simpl; [done|]. rewrite IH. by destruct f.
Qed.
Lemma krights_FR k : Forall is_FR k → krights k = [].
Proof.
  induction 1 as [|f k Hf _ IH]; simpl; [done|]. rewrite IH. by destruct f.
Qed.

Lemma rightmost_shape t k :
  t ≠ Leaf →
  ∃ sl (s : positive) ds cs hs ks,
    rightmost t k = (Node sl s ds cs hs Leaf, ks ++ k) ∧ Forall is_FR ks ∧
    t = plug (Node sl s ds cs hs Leaf) ks.
Proof.
  revert k. induction t as [|l _ a x c h r IHr]; intros k Ht; [done|].
  destruct r as [|rl b db cb hb rr].
  { exists l, a, x, c, h, []. by split_and!. }
  destruct (IHr (FR l a x c h :: k)) as (sl & s & ds & cs & hs & ks & E & Hks & Hl); [done|].
  exists sl, s, ds, cs, hs, (ks ++ [FR l a x c h]). split_and!.
  - change (rightmost (Node l a x c h (Node rl b db cb hb rr)) k)
      with (rightmost (Node rl b db cb hb rr) (FR l a x c h :: k)).
    rewrite E. by rewrite <- app_assoc.
  - apply Forall_app. split; [done|]. by apply Forall_singleton.
  - rewrite plug_app. simpl. by rewrite <- Hl.
Qed.

Lemma leftmost_head t k s ds cs hs sr k' :
  leftmost t k = (Node Leaf s ds cs hs sr, k') → head (keys t) = Some ds.
Proof.
  intros E. destruct t as [|l a x c h r]; [done|].
  destruct (leftmost_shape (Node l a x c h r) k) as (s' & ds' & cs' & hs' & sr' & ks & E' & Hks & ->);
    [done|].
  rewrite E' in E. injection E as -> -> -> -> -> _.
  by rewrite keys_plug, (klefts_FL _ Hks).
Qed.

Lemma rightmost_last t k sl s ds cs hs k' :
  rightmost t k = (Node sl s ds cs hs Leaf, k') → last (keys t) = Some ds.
Proof.
  intros E. destruct t as [|l a x c h r]; [done|].
  destruct (rightmost_shape (Node l a x c h r) k) as (sl' & s' & ds' & cs' & hs' & ks & E' & Hks & ->);
    [done|].
  rewrite E' in E. injection E as -> -> -> -> -> _.
  rewrite keys_plug, (krights_FR _ Hks). simpl. rewrite app_nil_r, !app_assoc.
  apply last_snoc.
Qed.

Lemma wf_nil σ t : wf σ t → ∃ n0, mem σ !! nil σ = Some n0.
Proof. intros ((n0 & ? & _) & _). eauto. Qed.

Lemma min_node_ok σ t0 k :
  wf σ (plug t0 k) →
  internal_mavl_min_node (ptr (nil σ) t0) σ = Some (ptr (nil σ) (leftmost t0 k).1, σ).
Proof.
  intros Hwf. unfold internal_mavl_min_node.
  rewrite (bind_run _ _ σ (nil σ) σ) by done.
  destruct t0 as [|l a x c h r].
  { simpl. by rewrite decide_False by (intros E; by apply E). }
  rewrite decide_True by by eapply wf_sub_neq.
  rewrite (bind_run _ _ σ (gas σ) σ) by done.
  apply min_node_loop_ok; [done|].
  pose proof (wf_gas _ _ Hwf) as Hgas. rewrite taddrs_plug, !length_app in Hgas. lia.
Qed.

Lemma max_node_ok σ t0 k :
  wf σ (plug t0 k) →
  internal_mavl_max_node (ptr (nil σ) t0) σ = Some (ptr (nil σ) (rightmost t0 k).1, σ).
Proof.
  intros Hwf. unfold internal_mavl_max_node.
  rewrite (bind_run _ _ σ (nil σ) σ) by done.
  destruct t0 as [|l a x c h r].
  { simpl. by rewrite decide_False by (intros E; by apply E). }
  rewrite decide_True by by eapply wf_sub_neq.
  rewrite (bind_run _ _ σ (gas σ) σ) by done.
  apply max_node_loop_ok; [done|].
  pose proof (wf_gas _ _ Hwf) as Hgas. rewrite taddrs_plug, !length_app in Hgas. lia.
Qed.

(** The payload read at the leftmost node of a subtree, the sentinel's
    when the subtree is empty. *)
Lemma leftmost_data σ t0 k n0 :
  wf σ (plug t0 k) → mem σ !! nil σ = Some n0 →
  get n_data (ptr (nil σ) (leftmost t0 k).1) σ =
    Some (default (n_data n0) (head (keys t0)), σ).
Proof.
  intros Hwf Hn0. destruct t0 as [|l a x c h r].
  { simpl. unfold get. by rewrite Hn0. }
  destruct (leftmost_shape (Node l a x c h r) k)
    as (s & ds & cs & hs & sr & ks & E & Hks & Ht); [done|].
  rewrite (leftmost_head _ _ _ _ _ _ _ _ E), E. simpl.
  rewrite Ht, <- plug_app in Hwf.
  pose proof (wf_root_lookup _ _ _ _ _ _ _ _ Hwf) as Hl.
  unfold get. by rewrite Hl.
Qed.

Lemma rightmost_data σ t0 k n0 :
  wf σ (plug t0 k) → mem σ !! nil σ = Some n0 →
  get n_data (ptr (nil σ) (rightmost t0 k).1) σ =
    Some (default (n_data n0) (last (keys t0)), σ).
Proof.
  intros Hwf Hn0. destruct t0 as [|l a x c h r].
  { simpl. unfold get. by rewrite Hn0. }
  destruct (rightmost_shape (Node l a x c h r) k)
    as (sl & s & ds & cs & hs & ks & E & Hks & Ht); [done|].
  rewrite (rightmost_last _ _ _ _ _ _ _ _ E), E. simpl.
  rewrite Ht, <- plug_app in Hwf.
  pose proof (wf_root_lookup _ _ _ _ _ _ _ _ Hwf) as Hl.
  unfold get. by rewrite Hl.
Qed.

(** [ID##_mavl_min] and [ID##_mavl_max]. *)
Lemma min_spec σ t data n0 :
  wf σ t → mem σ !! nil σ = Some n0 →
  mavl_min cmp (Some σ) data true =
    Some (M_OK, Some (default (n_data n0) (head (keys (locate cmp data t []).1)))).
Proof.
  intros Hwf Hn0. unfold mavl_min. simpl negb. cbv iota.
  pose proof (locate_plug cmp data t []) as Hplug.
  pose proof (find_node_ok cmp σ t data Hwf) as Hfind.
  destruct (locate cmp data t []) as [t0 k]. simpl in *.
  rewrite <- Hplug in Hwf.
  eapply query_run.
  rewrite (bind_run _ _ _ _ _ Hfind).
  rewrite (bind_run _ _ _ _ _ (min_node_ok σ t0 k Hwf)).
  rewrite (bind_run _ _ _ _ _ (leftmost_data σ t0 k n0 Hwf Hn0)). done.
Qed.

Lemma max_spec σ t data n0 :
  wf σ t → mem σ !! nil σ = Some n0 →
  mavl_max cmp (Some σ) data true =
    Some (M_OK, Some (default (n_data n0) (last (keys (locate cmp data t []).1)))).
Proof.
  intros Hwf Hn0. unfold mavl_max. simpl negb. cbv iota.
  pose proof (locate_plug cmp data t []) as Hplug.
  pose proof (find_node_ok cmp σ t data Hwf) as Hfind.
  destruct (locate cmp data t []) as [t0 k]. simpl in *.
  rewrite <- Hplug in Hwf.
  eapply query_run.
  rewrite (bind_run _ _ _ _ _ Hfind).
  rewrite (bind_run _ _ _ _ _ (max_node_ok σ t0 k Hwf)).
  rewrite (bind_run _ _ _ _ _ (rightmost_data σ t0 k n0 Hwf Hn0)). done.
Qed.

(** The ascents of [ID##_mavl_pred] and [ID##_mavl_succ] end at the
    nearest ancestor on the proper side, or at the sentinel. *)
Lemma pred_climb_ok σ k : ∀ l a d c h r fuel,
  wf σ (plug (Node l a d c h r) k) → (length k ≤ fuel)%nat →
  pred_climb fuel a (cpar (nil σ) k) σ =
    Some (from_option faddr (nil σ) (pred_anc k), σ).
Proof.
  induction k as [|f k IH]; intros l a d c h r fuel Hwf Hfuel.
  { destruct fuel; simpl; unfold bind, get_nil, ret; simpl; by rewrite decide_True. }
  destruct f as [p dp cp hp s|s p dp cp hp].
  - change (wf σ (plug (Node (Node l a d c h r) p dp cp hp s) k)) in Hwf.
    pose proof (wf_root_neq _ _ _ _ _ _ _ _ Hwf) as Hne.
    pose proof (wf_root_lookup _ _ _ _ _ _ _ _ Hwf) as Hl.
    destruct fuel as [|fuel]; [simpl in Hfuel; lia|].
    simpl. unfold bind at 1. unfold get_nil. rewrite decide_False by done.
    unfold bind at 1. unfold get at 1. rewrite Hl. simpl.
    rewrite decide_True by done.
    unfold bind at 1. unfold get at 1. rewrite Hl. simpl.
    apply (IH _ _ _ _ _ _ fuel Hwf). simpl in Hfuel. lia.
  - change (wf σ (plug (Node s p dp cp hp (Node l a d c h r)) k)) in Hwf.
    pose proof (wf_root_neq _ _ _ _ _ _ _ _ Hwf) as Hne.
    pose proof (wf_root_lookup _ _ _ _ _ _ _ _ Hwf) as Hl.
    assert (ptr (nil σ) s ≠ a) as Hsa.
    { apply wf_plug in Hwf as (_ & _ & _ & _ & Hnd). simpl in Hnd.
      apply ptr_neq; nd Hnd. }
    destruct fuel; simpl; unfold bind at 1; unfold get_nil; rewrite decide_False by done;
      unfold bind at 1; unfold get at 1; rewrite Hl; simpl; by rewrite decide_False.
Qed.

Lemma succ_climb_ok σ k : ∀ l a d c h r fuel,
  wf σ (plug (Node l a d c h r) k) → (length k ≤ fuel)%nat →
  succ_climb fuel a (cpar (nil σ) k) σ =
    Some (from_option faddr (nil σ) (succ_anc k), σ).
Proof.
  induction k as [|f k IH]; intros l a d c h r fuel Hwf Hfuel.
  { destruct fuel; simpl; unfold bind, get_nil, ret; simpl; by rewrite decide_True. }
  destruct f as [p dp cp hp s|s p dp cp hp].
  - change (wf σ (plug (Node (Node l a d c h r) p dp cp hp s) k)) in Hwf.
    pose proof (wf_root_neq _ _ _ _ _ _ _ _ Hwf) as Hne.
    pose proof (wf_root_lookup _ _ _ _ _ _ _ _ Hwf) as Hl.
    assert (ptr (nil σ) s ≠ a) as Hsa.
    { apply wf_plug in Hwf as (_ & _ & _ & _ & Hnd). simpl in Hnd.
      apply ptr_neq; nd Hnd. }
    destruct fuel; simpl; unfold bind at 1; unfold get_nil; rewrite decide_False by done;
      unfold bind at 1; unfold get at 1; rewrite Hl; simpl; by rewrite decide_False.
  - change (wf σ (plug (Node s p dp cp hp (Node l a d c h r)) k)) in Hwf.
    pose proof (wf_root_neq _ _ _ _ _ _ _ _ Hwf) as Hne.
    pose proof (wf_root_lookup _ _ _ _ _ _ _ _ Hwf) as Hl.
    destruct fuel as [|fuel]; [simpl in Hfuel; lia|].
    simpl. unfold bind at 1. unfold get_nil. rewrite decide_False by done.
    unfold bind at 1. unfold get at 1. rewrite Hl. simpl.
    rewrite decide_True by done.
    unfold bind at 1. unfold get at 1. rewrite Hl. simpl.
    apply (IH _ _ _ _ _ _ fuel Hwf). simpl in Hfuel. lia.
Qed.

Lemma frame_lookup σ k : ∀ t f,
  wf σ (plug t k) → f ∈ k →
  ∃ n, mem σ !! faddr f = Some n ∧ n_data n = fdata f.
Proof.
  induction k as [|g k IH]; intros t f Hwf Hin; [by apply elem_of_nil in Hin|].
  apply elem_of_cons in Hin as [->|Hin]; [|by eapply (IH (fill g t))].
  simpl in Hwf. destruct g; simpl in *;
    pose proof (wf_root_lookup _ _ _ _ _ _ _ _ Hwf) as Hl; eauto.
Qed.

Lemma pred_anc_in k f : pred_anc k = Some f → f ∈ k.
Proof.
  induction k as [|g k IH]; simpl; [done|]. destruct g.
  - intros ?%IH. by apply elem_of_cons; right.
  - intros [= <-]. by apply elem_of_cons; left.
Qed.
Lemma succ_anc_in k f : succ_anc k = Some f → f ∈ k.
Proof.
  induction k as [|g k IH]; simpl; [done|]. destruct g.
  - intros [= <-]. by apply elem_of_cons; left.
  - intros ?%IH. by apply elem_of_cons; right.
Qed.

Lemma last_klefts k : last (klefts k) = fdata <$> pred_anc k.
Proof.
  induction k as [|g k IH]; simpl; [done|]. destruct g; simpl.
  - by rewrite app_nil_r.
  - rewrite !app_assoc. apply last_snoc.
Qed.
Lemma head_krights k : head (krights k) = fdata <$> succ_anc k.
Proof.
  induction k as [|g k IH]; simpl; [done|]. destruct g; simpl; done.
Qed.

Lemma anc_data σ t k n0 (o : option (frame T)) :
  wf σ (plug t k) → mem σ !! nil σ = Some n0 → (∀ f, o = Some f → f ∈ k) →
  get n_data (from_option faddr (nil σ) o) σ =
    Some (default (n_data n0) (fdata <$> o), σ).
Proof.
  intros Hwf Hn0 Ho. destruct o as [f|]; simpl.
  - destruct (frame_lookup σ k t f Hwf (Ho f eq_refl)) as (n & Hn & Hd).
    unfold get. by rewrite Hn, Hd.
  - unfold get. by rewrite Hn0.
Qed.

(** Splitting a duplicate-free list at an element is unique. *)
Lemma nodup_split (A B A' B' : list T) x :
  NoDup (A ++ x :: B) → A ++ x :: B = A' ++ x :: B' → A = A' ∧ B = B'.
Proof.
  revert A'. induction A as [|a A IH]; intros A' Hnd E.
  - destruct A' as [|a' A']; simpl in *; [by simplify_eq|].
    injection E as <- E. apply NoDup_cons in Hnd as [Hx _]. exfalso. apply Hx.
    rewrite E. apply elem_of_app. right. by left.
  - destruct A' as [|a' A']; simpl in *.
    + injection E as -> E. apply NoDup_cons in Hnd as [Hx _]. exfalso. apply Hx.
      apply elem_of_app. right. by left.
    + injection E as -> E. apply NoDup_cons in Hnd as [_ Hnd].
      destruct (IH A' Hnd E) as [-> ->]. done.
Qed.

(** The place of a present key in the sequence of keys. *)
Lemma locate_keys x t A B :
  bst cmp t → keys t = A ++ x :: B →
  ∃ l a c h r k,
    locate cmp x t [] = (Node l a x c h r, k) ∧
    A = klefts k ++ keys l ∧ B = keys r ++ krights k.
Proof.
  intros Hbst E.
  pose proof (locate_spec cmp x t [] Hbst) as Hs.
  pose proof (locate_plug cmp x t []) as Hp.
  destruct (locate cmp x t []) as [t0 k]. simpl in *.
  destruct t0 as [|l a x' c h r].
  { exfalso. apply Hs. rewrite E. apply elem_of_app. right. by left. }
  destruct Hs as [-> _]. exists l, a, c, h, r, k. split; [done|].
  assert (keys t = (klefts k ++ keys l) ++ x :: keys r ++ krights k) as E2.
  { rewrite <- Hp, keys_plug. simpl. by rewrite <- !app_assoc. }
  apply (nodup_split _ _ _ _ x).
  - rewrite <- E. by apply (bst_nodup cmp).
  - by rewrite <- E, E2.
Qed.

(** [ID##_mavl_pred] and [ID##_mavl_succ] of a present key deliver its
    neighbours in the sequence of keys, and the sentinel's payload where
    there is none. *)
Lemma pred_spec σ t x A B n0 :
  wf σ t → bst cmp t → mem σ !! nil σ = Some n0 → keys t = A ++ x :: B →
  mavl_pred cmp (Some σ) x true = Some (M_OK, Some (default (n_data n0) (last A))).
Proof.
  intros Hwf Hbst Hn0 E.
  destruct (locate_keys x t A B Hbst E) as (l & a & c & h & r & k & Hloc & -> & ->).
  pose proof (locate_plug cmp x t []) as Hplug.
  pose proof (find_node_ok cmp σ t x Hwf) as Hfind.
  rewrite Hloc in Hplug, Hfind. simpl in Hplug, Hfind.
  rewrite <- Hplug in Hwf.
  pose proof (wf_root_neq _ _ _ _ _ _ _ _ Hwf) as Hne.
  pose proof (wf_root_lookup _ _ _ _ _ _ _ _ Hwf) as Hl.
  unfold mavl_pred. eapply query_run.
  rewrite (bind_run _ _ σ (nil σ) σ) by done.
  rewrite (bind_run _ _ _ _ _ Hfind).
  rewrite decide_False by done.
  rewrite (bind_run _ _ σ (ptr (nil σ) l) σ) by (unfold get; by rewrite Hl).
  destruct l as [|ll b db cb hb lr].
  - simpl ptr. rewrite decide_False by (intros E'; by apply E').
    rewrite (bind_run _ _ σ (gas σ) σ) by done.
    rewrite (bind_run _ _ σ (cpar (nil σ) k) σ) by (unfold get; by rewrite Hl).
    rewrite (bind_run _ _ _ _ _ (pred_climb_ok σ k _ _ _ _ _ _ (gas σ) Hwf
      ltac:(pose proof (wf_gas _ _ Hwf); pose proof (length_ctx_le (Node Leaf a x c h r) k); lia))).
    rewrite (bind_run _ _ _ _ _ (anc_data σ _ k n0 (pred_anc k) Hwf Hn0 (pred_anc_in k))).
    simpl. by rewrite app_nil_r, last_klefts.
  - set (l := Node ll b db cb hb lr) in *.
    assert (wf σ (plug l (FL a x c h r :: k))) as Hwfl by done.
    rewrite decide_True by by eapply wf_sub_neq.
    rewrite (bind_run _ _ _ _ _ (max_node_ok σ l _ Hwfl)).
    rewrite (bind_run _ _ _ _ _ (rightmost_data σ l _ n0 Hwfl Hn0)).
    unfold ret. do 4 f_equal.
    assert (is_Some (last (keys l))) as [z Hz].
    { destruct (rightmost_shape l (FL a x c h r :: k)) as (? & ? & ? & ? & ? & ? & E' & _); [done|].
      rewrite (rightmost_last _ _ _ _ _ _ _ _ E'). eauto. }
    rewrite Hz. apply last_Some in Hz as [l' Hz]. rewrite Hz, app_assoc.
    by rewrite last_snoc.
Qed.

Lemma succ_spec σ t x A B n0 :
  wf σ t → bst cmp t → mem σ !! nil σ = Some n0 → keys t = A ++ x :: B →
  mavl_succ cmp (Some σ) x true = Some (M_OK, Some (default (n_data n0) (head B))).
Proof.
  intros Hwf Hbst Hn0 E.
  destruct (locate_keys x t A B Hbst E) as (l & a & c & h & r & k & Hloc & -> & ->).
  pose proof (locate_plug cmp x t []) as Hplug.
  pose proof (find_node_ok cmp σ t x Hwf) as Hfind.
  rewrite Hloc in Hplug, Hfind. simpl in Hplug, Hfind.
  rewrite <- Hplug in Hwf.
  pose proof (wf_root_neq _ _ _ _ _ _ _ _ Hwf) as Hne.
  pose proof (wf_root_lookup _ _ _ _ _ _ _ _ Hwf) as Hl.
  unfold mavl_succ. eapply query_run.
  rewrite (bind_run _ _ σ (nil σ) σ) by done.
  rewrite (bind_run _ _ _ _ _ Hfind).
  rewrite decide_False by done.
  rewrite (bind_run _ _ σ (ptr (nil σ) r) σ) by (unfold get; by rewrite Hl).
  destruct r as [|rl b db cb hb rr].
  - simpl ptr. rewrite decide_False by (intros E'; by apply E').
    rewrite (bind_run _ _ σ (gas σ) σ) by done.
    rewrite (bind_run _ _ σ (cpar (nil σ) k) σ) by (unfold get; by rewrite Hl).
    rewrite (bind_run _ _ _ _ _ (succ_climb_ok σ k _ _ _ _ _ _ (gas σ) Hwf
      ltac:(pose proof (wf_gas _ _ Hwf); pose proof (length_ctx_le (Node l a x c h Leaf) k); lia))).
    rewrite (bind_run _ _ _ _ _ (anc_data σ _ k n0 (succ_anc k) Hwf Hn0 (succ_anc_in k))).
    simpl. by rewrite head_krights.
  - set (r := Node rl b db cb hb rr) in *.
    assert (wf σ (plug r (FR l a x c h :: k))) as Hwfr by done.
    rewrite decide_True by by eapply wf_sub_neq.
    rewrite (bind_run _ _ _ _ _ (min_node_ok σ r _ Hwfr)).
    rewrite (bind_run _ _ _ _ _ (leftmost_data σ r _ n0 Hwfr Hn0)).
    unfold ret. do 4 f_equal.
    assert (is_Some (head (keys r))) as [z Hz].
    { destruct (leftmost_shape r (FR l a x c h :: k)) as (? & ? & ? & ? & ? & ? & E' & _); [done|].
      rewrite (leftmost_head _ _ _ _ _ _ _ _ E'). eauto. }
    rewrite Hz. destruct (keys r); simpl in Hz |- *; by simplify_eq.
Qed.

End Queries.

(** ** Lowest common ancestor *)

Section Lca.
Context {T : Type} (cmp : T → T → Z) `{!TotalOrder cmp}.
Implicit Types (t l r : tree T) (k : list (frame T)) (σ : mavl_t T).

(** The loop of [ID##_mavl_lca] computes [lca_t cmp]. *)
Lemma lca_loop_ok σ left right t k fuel :
  wf σ (plug t k) → (length (taddrs t) ≤ fuel)%nat →
  lca_loop cmp fuel left right (ptr (nil σ) t) σ = Some (lca_t cmp left right t, σ).
Proof.
  revert k fuel. induction t as [|l IHl a x c h r IHr]; intros k fuel Hwf Hfuel.
  - destruct fuel; simpl; unfold bind, get_nil, ret; simpl; by rewrite decide_True.
  - rewrite length_taddrs_node in Hfuel.
    destruct fuel as [|fuel]; [lia|].
    pose proof (wf_root_neq _ _ _ _ _ _ _ _ Hwf) as Hne.
    pose proof (wf_root_lookup _ _ _ _ _ _ _ _ Hwf) as Hl.
    simpl. unfold bind at 1. unfold get_nil.
    rewrite decide_False by done.
    unfold bind at 1. unfold get at 1. rewrite Hl. simpl.
    destruct ((cmp x left >=? 1) && (cmp x right >=? 1)).
    + unfold bind at 1. unfold get at 1. rewrite Hl. simpl.
      apply (IHl (FL a x c h r :: k) fuel Hwf). lia.
    + destruct ((cmp x left <=? -1) && (cmp x right <=? -1)); [|done].
      unfold bind at 1. unfold get at 1. rewrite Hl. simpl.
      apply (IHr (FR l a x c h :: k) fuel Hwf). lia.
Qed.

Lemma find_nil σ t data :
  wf σ t → bst cmp t →
  (ptr (nil σ) (locate cmp data t []).1 = nil σ ↔ data ∉ keys t).
Proof.
  intros Hwf Hbst.
  pose proof (locate_spec cmp data t [] Hbst) as Hs.
  pose proof (locate_plug cmp data t []) as Hp.
  destruct (locate cmp data t []) as [t0 k]. simpl in *.
  destruct t0 as [|l a x c h r]; [done|].
  rewrite <- Hp in Hwf. pose proof (wf_root_neq _ _ _ _ _ _ _ _ Hwf).
  destruct Hs as [_ Hin]. simpl. split; [done|]. intros Hn. by destruct Hn.
Qed.

Lemma lca_absent σ t x1 x2 acc :
  wf σ t → bst cmp t → x1 ∉ keys t ∨ x2 ∉ keys t →
  mavl_lca cmp (Some σ) x1 x2 acc = Some (M_INVALID_INPUT, None).
Proof.
  intros Hwf Hbst Habs. unfold mavl_lca. eapply query_run.
  rewrite (bind_run _ _ σ (nil σ) σ) by done.
  rewrite (bind_run _ _ _ _ _ (find_node_ok cmp σ t x1 Hwf)).
  destruct (decide (ptr (nil σ) (locate cmp x1 t []).1 = nil σ)) as [|Hn1]; [done|].
  rewrite (bind_run _ _ _ _ _ (find_node_ok cmp σ t x2 Hwf)).
  destruct (decide (ptr (nil σ) (locate cmp x2 t []).1 = nil σ)) as [|Hn2]; [done|].
  exfalso. rewrite find_nil in Hn1, Hn2 by done. tauto.
Qed.

Lemma lca_present σ t x1 x2 :
  wf σ t → bst cmp t → x1 ∈ keys t → x2 ∈ keys t →
  mavl_lca cmp (Some σ) x1 x2 true = Some (lca_t cmp x1 x2 t).
Proof.
  intros Hwf Hbst H1 H2. unfold mavl_lca. eapply query_run.
  rewrite (bind_run _ _ σ (nil σ) σ) by done.
  rewrite (bind_run _ _ _ _ _ (find_node_ok cmp σ t x1 Hwf)).
  rewrite decide_False by (rewrite find_nil by done; tauto).
  rewrite (bind_run _ _ _ _ _ (find_node_ok cmp σ t x2 Hwf)).
  rewrite decide_False by (rewrite find_nil by done; tauto).
  rewrite (bind_run _ _ σ (gas σ) σ) by done.
  rewrite (bind_run _ _ σ (root σ) σ) by done.
  assert (root σ = ptr (nil σ) t) as -> by apply Hwf.
  apply (lca_loop_ok σ x1 x2 t []); [done|].
  pose proof (wf_gas _ _ Hwf). lia.
Qed.

Lemma lca_present_noacc σ t x1 x2 :
  wf σ t → bst cmp t → x1 ∈ keys t → x2 ∈ keys t →
  mavl_lca cmp (Some σ) x1 x2 false = Some (M_OK, None).
Proof.
  intros Hwf Hbst H1 H2. unfold mavl_lca. eapply query_run.
  rewrite (bind_run _ _ σ (nil σ) σ) by done.
  rewrite (bind_run _ _ _ _ _ (find_node_ok cmp σ t x1 Hwf)).
  rewrite decide_False by (rewrite find_nil by done; tauto).
  rewrite (bind_run _ _ _ _ _ (find_node_ok cmp σ t x2 Hwf)).
  rewrite decide_False by (rewrite find_nil by done; tauto).
  reflexivity.
Qed.

(** *** The descent agrees with the reference *)

Lemma is_in_spec p x : is_in cmp p x = true ↔ x ∈ p.
Proof.
  unfold is_in. rewrite existsb_exists. split.
  - intros (y & Hy & E). apply Z.eqb_eq, cmp_eq in E. subst. by apply list_elem_of_In.
  - intros H. exists x. split; [by apply list_elem_of_In|]. apply Z.eqb_eq. by apply cmp_eq.
Qed.

Lemma is_in_false p x : x ∉ p → is_in cmp p x = false.
Proof. intros H. apply not_true_is_false. by rewrite is_in_spec. Qed.

Lemma ancestors_sub x t p : ancestors cmp x t = Some p → ∀ y, y ∈ p → y ∈ keys t.
Proof.
  revert p. induction t as [|l IHl a d c h r IHr]; intros p; simpl; [done|].
  destruct (cmp d x =? 0).
  { intros [= <-] y ->%list_elem_of_singleton. apply elem_of_app. right. by left. }
  destruct (ancestors cmp x l) as [pl|].
  { intros [= <-] y [->|Hy]%elem_of_cons; rewrite elem_of_app, elem_of_cons; eauto. }
  destruct (ancestors cmp x r) as [pr|]; [|done].
  intros [= <-] y [->|Hy]%elem_of_cons; rewrite elem_of_app, elem_of_cons; eauto.
Qed.

Lemma ancestors_none x t : x ∉ keys t → ancestors cmp x t = None.
Proof.
  induction t as [|l IHl a d c h r IHr]; simpl; [done|].
  rewrite elem_of_app, elem_of_cons. intros Hn.
  destruct (Z.eqb_spec (cmp d x) 0) as [E|_].
  { apply cmp_eq in E. subst. tauto. }
  rewrite IHl, IHr by tauto. done.
Qed.

Lemma ancestors_some x t : x ∈ keys t → is_Some (ancestors cmp x t).
Proof.
  induction t as [|l IHl a d c h r IHr]; simpl; [by intros ?%elem_of_nil|].
  rewrite elem_of_app, elem_of_cons. intros Hin.
  destruct (Z.eqb_spec (cmp d x) 0) as [E|E]; [eauto|].
  destruct Hin as [Hin|[->|Hin]].
  - destruct (IHl Hin) as [p ->]. eauto.
  - rewrite (cmp_refl cmp) in E; done.
  - destruct (ancestors cmp x l); [eauto|]. destruct (IHr Hin) as [p ->]. eauto.
Qed.

Lemma filter_nil_in (f : T → bool) p :
  (∀ y, y ∈ p → f y = false) → List.filter f p = [].
Proof.
  induction p as [|y p IH]; simpl; [done|]. intros H.
  rewrite (H y) by by left. apply IH. intros z Hz. apply H. by right.
Qed.

(** The three places a present key can have below a node. *)
Lemma key_side x l a d c h r :
  bst cmp (Node l a d c h r) → x ∈ keys (Node l a d c h r) →
  (x = d ∧ ancestors cmp x (Node l a d c h r) = Some [d]) ∨
  (x ∈ keys l ∧ 1 ≤ cmp d x ∧
   ∃ p, ancestors cmp x l = Some p ∧ ancestors cmp x (Node l a d c h r) = Some (d :: p)) ∨
  (x ∈ keys r ∧ cmp d x ≤ -1 ∧
   ∃ p, ancestors cmp x r = Some p ∧ ancestors cmp x (Node l a d c h r) = Some (d :: p)).
Proof.
  intros (Hl & Hr & Hbl & Hbr). rewrite Forall_forall in Hl, Hr. simpl.
  rewrite elem_of_app, elem_of_cons. intros [Hin|[->|Hin]].
  - right. left. pose proof (Hl _ Hin) as Hlt. apply cmp_flip in Hlt.
    split_and!; try done. destruct (ancestors_some x l Hin) as [p Hp].
    exists p. split; [done|]. rewrite Hp.
    destruct (Z.eqb_spec (cmp d x) 0); [lia|done].
  - left. split; [done|]. by rewrite (cmp_refl cmp).
  - right. right. pose proof (Hr _ Hin) as Hgt. apply cmp_flip in Hgt.
    split_and!; try done. destruct (ancestors_some x r Hin) as [p Hp].
    exists p. split; [done|]. rewrite Hp.
    destruct (Z.eqb_spec (cmp d x) 0); [lia|].
    rewrite ancestors_none; [done|]. intros Hl'%Hl.
    pose proof (cmp_trans x d x Hl' Hgt) as Hxx.
    rewrite (cmp_refl cmp) in Hxx. lia.
Qed.

(** On a search tree that holds both keys the descent finds what the
    reference computation finds. *)
Lemma lca_t_ref x1 x2 t :
  bst cmp t → x1 ∈ keys t → x2 ∈ keys t →
  is_Some (lca_ref cmp x1 x2 t) ∧ lca_t cmp x1 x2 t = (M_OK, lca_ref cmp x1 x2 t).
Proof.
  induction t as [|l IHl a d c h r IHr]; [by intros _ ?%elem_of_nil|].
  intros Hbst H1 H2.
  pose proof Hbst as (Hl & Hr & Hbl & Hbr). rewrite Forall_forall in Hl, Hr.
  assert (∀ y, y ∈ keys l → y ≠ d) as Hld.
  { intros y Hy ->. apply Hl in Hy. rewrite (cmp_refl cmp) in Hy. lia. }
  assert (∀ y, y ∈ keys r → y ≠ d) as Hrd.
  { intros y Hy ->. apply Hr in Hy. rewrite (cmp_refl cmp) in Hy. lia. }
  assert (∀ y, y ∈ keys l → y ∉ keys r) as Hlr.
  { intros y Hy Hy'. apply Hl in Hy. apply Hr in Hy'. lia. }
  assert (∀ p1 p2 o, is_Some o → o = last (List.filter (is_in cmp p2) p1) →
          (∀ y, y ∈ p1 → y ≠ d) →
          last (d :: List.filter (is_in cmp (d :: p2)) p1) = o) as Hrec.
  { intros p1 p2 o [z ->] Ho Hp1.
    rewrite (List.filter_ext_in (is_in cmp (d :: p2)) (is_in cmp p2)).
    - destruct (List.filter (is_in cmp p2) p1); [done|]. done.
    - intros y Hy%list_elem_of_In. unfold is_in. simpl.
      destruct (Z.eqb_spec (cmp y d) 0) as [E|_]; [|done].
      apply cmp_eq in E. subst. exfalso. by eapply Hp1. }
  assert (∀ p1 p2, (∀ y, y ∈ p1 → y ∉ p2) →
          last (d :: List.filter (is_in cmp p2) p1) = Some d) as Hstop.
  { intros p1 p2 Hp. rewrite filter_nil_in; [done|].
    intros y Hy. apply is_in_false. by apply Hp. }
  unfold lca_ref.
  destruct (key_side x1 l a d c h r Hbst H1)
    as [[-> E1]|[(I1 & C1 & p1 & P1 & E1)|(I1 & C1 & p1 & P1 & E1)]];
  destruct (key_side x2 l a d c h r Hbst H2)
    as [[-> E2]|[(I2 & C2 & p2 & P2 & E2)|(I2 & C2 & p2 & P2 & E2)]].
  all: rewrite ?E1, ?E2; cbn [lca_t].
  all: try (assert (is_in cmp (d :: p2) d = true) as Hd
              by (apply is_in_spec; by left)).
  all: try (assert (is_in cmp [d] d = true) as Hd'
              by (apply is_in_spec; by left)).
  all: rewrite ?(cmp_refl cmp).
  all: repeat match goal with
       | H : 1 ≤ cmp ?a ?b |- context [cmp ?a ?b >=? 1] =>
           replace (cmp a b >=? 1) with true by (symmetry; zbool)
       | H : 1 ≤ cmp ?a ?b |- context [cmp ?a ?b <=? -1] =>
           replace (cmp a b <=? -1) with false by (symmetry; zbool)
       | H : cmp ?a ?b ≤ -1 |- context [cmp ?a ?b >=? 1] =>
           replace (cmp a b >=? 1) with false by (symmetry; zbool)
       | H : cmp ?a ?b ≤ -1 |- context [cmp ?a ?b <=? -1] =>
           replace (cmp a b <=? -1) with true by (symmetry; zbool)
       end.
  all: cbn [andb Z.geb Z.leb Z.compare]; cbn [List.filter]; rewrite ?Hd, ?Hd'.
  - split; [eauto|done].
  - split; [eauto|done].
  - split; [eauto|done].
  - rewrite Hstop; [split; [eauto|done]|].
    intros y Hy. rewrite list_elem_of_singleton. apply Hld. by apply (ancestors_sub _ _ _ P1).
  - destruct (IHl Hbl I1 I2) as (Hs & Hz).
    unfold lca_ref in Hs, Hz. rewrite P1, P2 in Hs, Hz.
    rewrite (Hrec p1 p2 _ Hs eq_refl); [done|].
    intros y Hy. apply Hld. by apply (ancestors_sub _ _ _ P1).
  - rewrite Hstop; [split; [eauto|done]|].
    intros y Hy. rewrite elem_of_cons. intros [->|Hy2].
    + eapply Hld; [|done]. by apply (ancestors_sub _ _ _ P1).
    + eapply Hlr; [by apply (ancestors_sub _ _ _ P1)|by apply (ancestors_sub _ _ _ P2)].
  - rewrite Hstop; [split; [eauto|done]|].
    intros y Hy. rewrite list_elem_of_singleton. apply Hrd. by apply (ancestors_sub _ _ _ P1).
  - rewrite Hstop; [split; [eauto|done]|].
    intros y Hy. rewrite elem_of_cons. intros [->|Hy2].
    + eapply Hrd; [|done]. by apply (ancestors_sub _ _ _ P1).
    + eapply Hlr; [by apply (ancestors_sub _ _ _ P2)|by apply (ancestors_sub _ _ _ P1)].
  - destruct (IHr Hbr I1 I2) as (Hs & Hz).
    unfold lca_ref in Hs, Hz. rewrite P1, P2 in Hs, Hz.
    rewrite (Hrec p1 p2 _ Hs eq_refl); [done|].
    intros y Hy. apply Hrd. by apply (ancestors_sub _ _ _ P1).
Qed.

Lemma lca_t_self x t : bst cmp t → x ∈ keys t → lca_t cmp x x t = (M_OK, Some x).
Proof.
  induction t as [|l IHl a d c h r IHr]; [by intros _ ?%elem_of_nil|].
  intros Hbst Hin.
  pose proof Hbst as (_ & _ & Hbl & Hbr).
  destruct (key_side x l a d c h r Hbst Hin)
    as [[-> _]|[(I1 & C1 & _)|(I1 & C1 & _)]]; cbn [lca_t].
  - rewrite (cmp_refl cmp). done.
  - replace (cmp d x >=? 1) with true by (symmetry; zbool). simpl. by apply IHl.
  - replace (cmp d x >=? 1) with false by (symmetry; zbool).
    replace (cmp d x <=? -1) with true by (symmetry; zbool). simpl. by apply IHr.
Qed.

End Lca.

(** ** Histories of calls *)

Section Histories.
Context {T : Type} (cmp : T → T → Z).

Context `{!TotalOrder cmp}.
Implicit Types (t l r : tree T) (k : list (frame T)) (σ : mavl_t T).

(** The tree [ID##_mavl] creates satisfies the invariants, and every
    call keeps them. *)
Lemma mavl_inv has_frd garbage σ :
  mavl has_frd garbage true true = Some σ → inv cmp σ Leaf.
Proof.
  unfold mavl. intros E. injection E as <-. split_and!; simpl; try done.
  unfold wf. simpl. split_and!; try done.
  - eexists. split; [by rewrite lookup_singleton_eq|done].
  - apply NoDup_singleton.
Qed.

Lemma push_total σ t data ok :
  inv cmp σ t →
  ∃ e σ' t', mavl_push cmp (Some σ) data ok = Some (e, Some σ') ∧ inv cmp σ' t'.
Proof.
  intros Hinv. pose proof (push_spec cmp σ t data ok Hinv) as Hs.
  destruct (locate cmp data t []) as [[|l a x c h r] k].
  - destruct (ok && _).
    + destruct Hs as (σ' & t' & E & Hi & _). eauto 10.
    + eauto 10.
  - destruct Hs as (σ' & E & _ & Hi). eauto 10.
Qed.

Lemma pop_total σ t data :
  inv cmp σ t →
  ∃ e σ' t', mavl_pop cmp (Some σ) data = Some (e, Some σ') ∧ inv cmp σ' t'.
Proof.
  intros Hinv. pose proof (pop_spec cmp σ t data Hinv) as Hs.
  destruct (locate cmp data t []) as [[|l a x c h r] k].
  - eauto 10.
  - destruct Hs as (σ' & t' & E & Hi & _). eauto 10.
Qed.

Lemma step_inv o σ t :
  inv cmp σ t → ∃ e σ' t', step cmp o σ = Some (e, σ') ∧ inv cmp σ' t'.
Proof.
  intros Hinv. unfold step. destruct o as [data ok|data].
  - destruct (push_total σ t data ok Hinv) as (e & σ' & t' & -> & Hi). eauto 10.
  - destruct (pop_total σ t data Hinv) as (e & σ' & t' & -> & Hi). eauto 10.
Qed.

Lemma run_inv ops : ∀ σ t,
  inv cmp σ t → ∃ σ' t', run cmp ops σ = Some σ' ∧ inv cmp σ' t'.
Proof.
  induction ops as [|o ops IH]; intros σ t Hinv; simpl; [eauto|].
  destruct (step_inv o σ t Hinv) as (e & σ1 & t1 & -> & Hi). by eapply IH.
Qed.

Lemma cells_lookup σ t a d c :
  wf σ t → (a, d, c) ∈ cells t →
  ∃ n, mem σ !! a = Some n ∧ n_data n = d ∧ n_count n = c.
Proof.
  intros (_ & _ & Hrep & _). revert Hrep. generalize (nil σ) at 2.
  induction t as [|l IHl b x cx h r IHr]; intros par Hrep; simpl.
  { by intros ?%elem_of_nil. }
  destruct Hrep as (Hb & Hl & Hr).
  rewrite elem_of_app, elem_of_cons. intros [Hin|[[= -> -> ->]|Hin]].
  - by eapply IHl.
  - eauto.
  - by eapply IHr.
Qed.

Lemma cells_keys t a d c : (a, d, c) ∈ cells t → d ∈ keys t.
Proof.
  intros Hin. rewrite keys_cells. apply list_elem_of_fmap. by exists (a, d, c).
Qed.

Lemma keys_cells_in t d : d ∈ keys t → ∃ a c, (a, d, c) ∈ cells t.
Proof.
  rewrite keys_cells. intros ([[a d'] c] & -> & Hin)%list_elem_of_fmap. eauto.
Qed.

End Histories.

(** ** The integer instance *)

Global Instance cmp_int_total : TotalOrder cmp_int.
Proof.
  split; unfold cmp_int; intros; repeat case_match; try lia;
    repeat match goal with
    | H : (_ <? _) = true |- _ => apply Z.ltb_lt in H
    | H : (_ <? _) = false |- _ => apply Z.ltb_ge in H
    end; split; intros; try lia.
Qed.

(** Proves [inv] of a concrete tree object by evaluation. *)
Ltac ex_inv :=
  unfold inv, wf;
  cbn [nil root mem tsize ptr rep_tree taddrs keys bst avl hc ht card cells app];
  repeat match goal with
  | |- _ ∧ _ => split
  | |- ∃ n, _ !! _ = Some n ∧ _ => eexists; split; [vm_compute; reflexivity|]
  | |- Forall _ _ => constructor
  | |- True => exact I
  | |- NoDup [] => apply NoDup_nil_2
  | |- NoDup (_ :: _) => apply NoDup_cons_2; [set_solver|]
  | |- _ !! _ = _ => vm_compute; reflexivity
  | |- _ => vm_compute; first [reflexivity | lia | discriminate | done]
  end.

(** ** The claims *)

Section Claims.
Context {T : Type} (cmp : T → T → Z) `{!TotalOrder cmp}.
Implicit Types (t : tree T) (σ : mavl_t T) (k : T).

Lemma nodup_fmap_eq {A B} (f : A → B) (l : list A) x y :
  NoDup (f <$> l) → x ∈ l → y ∈ l → f x = f y → x = y.
Proof.
  induction l as [|z l IH]; simpl; [by intros _ ?%elem_of_nil|].
  intros [Hz Hnd]%NoDup_cons [->|Hx]%elem_of_cons [->|Hy]%elem_of_cons E; try done.
  - exfalso. apply Hz. rewrite E. apply list_elem_of_fmap. eauto.
  - exfalso. apply Hz. rewrite <- E. apply list_elem_of_fmap. eauto.
  - by apply IH.
Qed.

Lemma cells_key_unique t a a' k c c' :
  bst cmp t → (a, k, c) ∈ cells t → (a', k, c') ∈ cells t → a = a' ∧ c = c'.
Proof.
  intros Hb%(bst_nodup cmp) H1 H2. rewrite keys_cells in Hb.
  pose proof (nodup_fmap_eq _ _ _ _ Hb H1 H2 eq_refl) as E. by simplify_eq.
Qed.

Lemma removed_absent t t' (A B : list (positive * T * Z)) a k c :
  bst cmp t → cells t = A ++ (a, k, c) :: B → cells t' = A ++ B → k ∉ keys t'.
Proof.
  intros Hb%(bst_nodup cmp) E E'. rewrite keys_cells, E in Hb.
  rewrite keys_cells, E'. rewrite fmap_app, fmap_cons in Hb. rewrite fmap_app.
  simpl in Hb. apply NoDup_app in Hb as (_ & H1 & [H2 _]%NoDup_cons).
  rewrite elem_of_app. intros [Hin|Hin]; [|done].
  apply (H1 _ Hin). by left.
Qed.

Lemma shrunk_size σ t a k σ' :
  inv cmp σ t → t ≠ Leaf → shrunk_by σ a k σ' → tsize σ' = tsize σ - 1.
Proof.
  intros (Hwf & _ & _ & _ & Hsz & Hts) Ht (_ & -> & _).
  pose proof (wf_size _ _ Hwf) as Hs.
  assert (1 ≤ card t).
  { destruct t; [done|]. simpl. pose proof (card_nonneg t1). pose proof (card_nonneg t2). lia. }
  assert (card t + 1 ≤ addr_space).
  { rewrite card_cells, <- (length_fmap (λ x, x.1.1)), <- taddrs_cells. lia. }
  unfold u64. rewrite Z.mod_small; [done|]. unfold addr_space in *. lia.
Qed.

Lemma wf_leaf_root σ t : wf σ t → (root σ = nil σ ↔ t = Leaf).
Proof.
  intros Hwf. assert (root σ = ptr (nil σ) t) as -> by apply Hwf.
  destruct t as [|l a d c h r]; [done|]. simpl. split; [|done].
  intros E. by destruct (wf_root_neq σ l a d c h r [] Hwf).
Qed.

Lemma located_node σ t k a n :
  inv cmp σ t → internal_mavl_find_node cmp k σ = Some (a, σ) →
  a ≠ nil σ → mem σ !! a = Some n →
  ∃ l c h r K,
    locate cmp k t [] = (Node l a k c h r, K) ∧
    n = MkNode k (cpar (nil σ) K) (ptr (nil σ) l) (ptr (nil σ) r) c h.
Proof.
  intros (Hwf & Hbst & _) Hfind Hne Hn.
  rewrite (find_node_ok cmp σ t k Hwf) in Hfind. injection Hfind as Ha.
  pose proof (locate_spec cmp k t [] Hbst) as Hs.
  pose proof (locate_plug cmp k t []) as Hp.
  destruct (locate cmp k t []) as [[|l a' x c h r] K]; simpl in *; [done|].
  subst a'. destruct Hs as [-> _]. rewrite <- Hp in Hwf.
  pose proof (wf_root_lookup _ _ _ _ _ _ _ _ Hwf) as Hl.
  rewrite Hn in Hl. injection Hl as ->. eauto 10.
Qed.

(** C1: every tree object reached from a freshly created tree by a finite
    sequence of [mavl_push] and [mavl_pop] calls (each call returns, and
    the sequence can be cut after any call) represents a tree in which
    every node satisfies the search-tree order, the AVL balance condition
    and the consistency of the stored heights. *)
Theorem invariants_after_any_history (has_frd : bool) (garbage : T)
    (ops : list (op (T:=T))) :
  ∃ σ0 σ t,
    mavl has_frd garbage true true = Some σ0 ∧ run cmp ops σ0 = Some σ ∧
    wf σ t ∧ bst cmp t ∧ avl t ∧ hc t.
Proof.
  eexists. destruct (run_inv cmp ops _ Leaf (mavl_inv cmp has_frd garbage _ eq_refl))
    as (σ & t & Hrun & Hwf & Hbst & Havl & Hhc & _).
  exists σ, t. by split_and!.
Qed.

(** C2: a successful [mavl_push] of [k] is followed by a [mavl_find] of
    [k] that succeeds and delivers [k]; a successful [mavl_pop] of [k] is
    followed by a [mavl_find] of [k] that reports [M_NOT_FOUND]; both calls
    return on every tree, the push succeeds when memory is granted and
    the pop succeeds when [k] is present, wherever its node sits. *)
Theorem find_after_push_and_pop σ t k :
  inv cmp σ t →
  (∀ ok, ∃ e σ',
     mavl_push cmp (Some σ) k ok = Some (e, Some σ') ∧
     (e = M_OK → mavl_find cmp (Some σ') k true = Some (M_OK, Some k)) ∧
     (ok = true → Z.of_nat (size (mem σ)) < addr_space → e = M_OK)) ∧
  (∃ e σ',
     mavl_pop cmp (Some σ) k = Some (e, Some σ') ∧
     (e = M_OK → ∀ acc, mavl_find cmp (Some σ') k acc = Some (M_NOT_FOUND, None)) ∧
     (k ∈ keys t → e = M_OK)).
Proof.
  intros Hinv. split.
  - intros ok. pose proof (push_spec cmp σ t k ok Hinv) as Hs.
    pose proof (locate_spec cmp k t [] (proj1 (proj2 Hinv))) as Hl.
    destruct (locate cmp k t []) as [[|l a x c h r] K]; simpl in Hl.
    + destruct (ok && (Z.of_nat (size (mem σ)) <? addr_space)) eqn:Eok.
      * destruct Hs as (σ' & t' & E & (Hwf' & Hb' & _) & Hc & _).
        exists M_OK, σ'. split_and!; try done. intros _.
        apply (find_present cmp σ' t'); try done.
        rewrite keys_cells, Hc, fmap_app, fmap_cons, elem_of_app, elem_of_cons. auto.
      * exists M_MALLOC_FAILED, σ. split_and!; try done.
        intros -> Hlt%Z.ltb_lt. by rewrite Hlt in Eok.
    + destruct Hs as (σ' & E & _ & (Hwf' & Hb' & _)). destruct Hl as [-> _].
      exists M_OK, σ'. split_and!; try done. intros _.
      apply (find_present cmp σ' _ k Hwf' Hb').
      rewrite keys_plug. simpl. rewrite !elem_of_app, elem_of_cons. auto.
  - pose proof (pop_spec cmp σ t k Hinv) as Hs.
    pose proof (locate_spec cmp k t [] (proj1 (proj2 Hinv))) as Hl.
    destruct (locate cmp k t []) as [[|l a x c h r] K]; simpl in Hl.
    + eexists _, σ. split; [exact Hs|]. split; [by destruct t|]. done.
    + destruct Hs as (σ' & t' & E & (Hwf' & Hb' & _) & Hc & Hc' & _).
      destruct Hl as [-> _]. exists M_OK, σ'. split_and!; try done.
      intros _ acc. apply (find_absent cmp σ' t'); try done.
      eapply removed_absent; [apply Hinv|exact Hc|exact Hc'].
Qed.

(** C3 (as the macro AVL tree does it): when [k] sits at a node [a] with
    two children, [mavl_pop] succeeds, the sequence of nodes in order is
    the former one without the entry of [k], every other entry keeping
    its node object, payload and count; the in-order successor's node
    object stays in memory and it is the target's node object [a] that is
    released. *)
Theorem pop_two_children_relinks σ t k a n :
  inv cmp σ t →
  internal_mavl_find_node cmp k σ = Some (a, σ) → a ≠ nil σ →
  mem σ !! a = Some n → n_left n ≠ nil σ → n_right n ≠ nil σ →
  ∃ σ' t' A B s ds cs n',
    mavl_pop cmp (Some σ) k = Some (M_OK, Some σ') ∧ inv cmp σ' t' ∧
    cells t = A ++ (a, k, n_count n) :: (s, ds, cs) :: B ∧
    cells t' = A ++ (s, ds, cs) :: B ∧
    mem σ' !! a = None ∧ dom (mem σ') = dom (mem σ) ∖ {[a]} ∧
    mem σ' !! s = Some n' ∧ n_data n' = ds ∧ n_count n' = cs.
Proof.
  intros Hinv Hfind Hne Hn Hnl Hnr.
  destruct (located_node σ t k a n Hinv Hfind Hne Hn) as (l & c & h & r & K & Hloc & ->).
  simpl in Hnl, Hnr.
  pose proof (pop_spec cmp σ t k Hinv) as Hs. rewrite Hloc in Hs.
  destruct Hs as (σ' & t' & E & Hinv' & Hc & Hc' & Hsh).
  destruct r as [|rl b db cb hb rr]; [by destruct Hnr|].
  destruct (cells (Node rl b db cb hb rr)) as [|[[s ds] cs] B] eqn:Er.
  { apply (f_equal length) in Er. simpl in Er. rewrite length_app in Er. simpl in Er. lia. }
  assert ((s, ds, cs) ∈ cells t') as Hin.
  { rewrite Hc'. rewrite elem_of_app. right. by left. }
  destruct (cells_lookup σ' t' s ds cs (proj1 Hinv') Hin) as (n' & Hn' & Hd' & Hcn').
  exists σ', t', (ccl K ++ cells l), (B ++ ccr K), s, ds, cs, n'.
  destruct Hsh as (_ & _ & _ & _ & Hdom).
  split_and!; try done.
  apply not_elem_of_dom. rewrite Hdom. set_solver.
Qed.

(** C4 (as the macro AVL tree does it): [mavl_pop] on a tree without a
    root returns [M_POP_FROM_EMPTY]; [mavl_pop] of a payload that is not
    in a tree with a root returns [M_INVALID_INPUT]; in both cases the
    tree object is left as it was. *)
Theorem pop_failure_leaves_tree σ t k :
  inv cmp σ t →
  (root σ = nil σ → mavl_pop cmp (Some σ) k = Some (M_POP_FROM_EMPTY, Some σ)) ∧
  (root σ ≠ nil σ → k ∉ keys t →
   mavl_pop cmp (Some σ) k = Some (M_INVALID_INPUT, Some σ)).
Proof.
  intros Hinv. pose proof (pop_spec cmp σ t k Hinv) as Hs.
  pose proof (locate_spec cmp k t [] (proj1 (proj2 Hinv))) as Hl.
  pose proof (wf_leaf_root σ t (proj1 Hinv)) as Hr.
  split.
  - intros ->%Hr. exact Hs.
  - intros Hne Hk. destruct (locate cmp k t []) as [[|l a x c h r] K]; simpl in Hl.
    + destruct t; [|done]. by destruct Hne; apply Hr.
    + by destruct Hl as [_ ?].
Qed.

(** C5 (as the macro AVL tree does it): [mavl_push] of a payload that is
    in the tree, at the node [a] with count [c], changes the count of
    that node to [c + 1] (as [uint32_t]) and nothing else in the tree
    object, and returns [M_OK]; a push that inserts a new node returns
    [M_OK] too. *)
Theorem push_duplicate_counts σ t k a c ok :
  inv cmp σ t → (a, k, c) ∈ cells t →
  (∃ n, mem σ !! a = Some n ∧ n_data n = k ∧ n_count n = c ∧
        mavl_push cmp (Some σ) k ok =
          Some (M_OK, Some (with_node σ a (set_count (u32 (c + 1)) n)))) ∧
  (∀ k', k' ∉ keys t → Z.of_nat (size (mem σ)) < addr_space →
         ∃ σ'', mavl_push cmp (Some σ) k' true = Some (M_OK, Some σ'')).
Proof.
  intros Hinv Hin. split.
  - pose proof (push_spec cmp σ t k ok Hinv) as Hs.
    pose proof (locate_spec cmp k t [] (proj1 (proj2 Hinv))) as Hl.
    pose proof (locate_plug cmp k t []) as Hp.
    destruct (locate cmp k t []) as [[|l a' x c' h r] K]; simpl in Hl, Hp.
    { destruct Hl. by eapply cells_keys. }
    destruct Hl as [-> _]. destruct Hs as (σ' & E & Hu & _).
    assert ((a', k, c') ∈ cells t) as Hin'.
    { rewrite <- Hp, cells_plug. simpl. rewrite !elem_of_app, elem_of_cons. auto. }
    destruct (cells_key_unique t a a' k c c' (proj1 (proj2 Hinv)) Hin Hin') as [<- <-].
    destruct (cells_lookup σ t a k c (proj1 Hinv) Hin) as (n & Hn & Hd & Hc).
    exists n. split_and!; try done. rewrite E. do 3 f_equal.
    unfold upd in Hu. rewrite Hn in Hu. by injection Hu as <-.
  - intros k' Hk' Hlt. pose proof (push_spec cmp σ t k' true Hinv) as Hs.
    pose proof (locate_spec cmp k' t [] (proj1 (proj2 Hinv))) as Hl.
    destruct (locate cmp k' t []) as [[|l a' x c' h r] K]; simpl in Hl.
    + apply Z.ltb_lt in Hlt. rewrite Hlt in Hs. simpl in Hs.
      destruct Hs as (σ' & t' & E & _). eauto.
    + by destruct Hl as [_ ?].
Qed.

(** When the allocator refuses the node, [mavl_push] of a payload that is
    not in the tree returns [M_MALLOC_FAILED] and leaves the tree object as
    it was. *)
Theorem push_allocation_failure σ t k :
  inv cmp σ t → k ∉ keys t →
  mavl_push cmp (Some σ) k false = Some (M_MALLOC_FAILED, Some σ).
Proof.
  intros Hinv Hk. pose proof (push_spec cmp σ t k false Hinv) as Hs.
  pose proof (locate_spec cmp k t [] (proj1 (proj2 Hinv))) as Hl.
  destruct (locate cmp k t []) as [[|l a' x c' h r] K]; simpl in Hl; [done|].
  by destruct Hl as [_ ?].
Qed.

(** C7 (as the macro AVL tree does it): for neighbours [p], [k] in the
    order of the keys, [mavl_pred] of [k] delivers [p] and [mavl_succ] of
    [p] delivers [k]; [mavl_pred] of the least key and [mavl_succ] of the
    greatest key return [M_OK] as well and deliver the payload of the
    sentinel node. *)
Theorem pred_succ_neighbours σ t n0 :
  inv cmp σ t → mem σ !! nil σ = Some n0 →
  (∀ A p k B, keys t = A ++ p :: k :: B →
     mavl_pred cmp (Some σ) k true = Some (M_OK, Some p) ∧
     mavl_succ cmp (Some σ) p true = Some (M_OK, Some k)) ∧
  (∀ k B, keys t = k :: B →
     mavl_pred cmp (Some σ) k true = Some (M_OK, Some (n_data n0))) ∧
  (∀ A k, keys t = A ++ [k] →
     mavl_succ cmp (Some σ) k true = Some (M_OK, Some (n_data n0))).
Proof.
  intros (Hwf & Hbst & _) Hn0. split_and!.
  - intros A p k B E. split.
    + rewrite (pred_spec cmp σ t k (A ++ [p]) B n0); try done.
      * by rewrite last_snoc.
      * by rewrite <- app_assoc.
    + by rewrite (succ_spec cmp σ t p A (k :: B) n0).
  - intros k B E. by rewrite (pred_spec cmp σ t k [] B n0).
  - intros A k E. by rewrite (succ_spec cmp σ t k A [] n0).
Qed.

(** C8: [mavl_lca] returns [M_INVALID_INPUT] when one of the two payloads
    is not in the tree; when both are, it returns [M_OK] and delivers the
    deepest common ancestor as the reference computation on ancestor
    lists finds it; for twice the same payload this is the payload itself;
    [M_UNDEFINED_BEHAVIOUR] is never returned. *)
Theorem lca_agrees_with_reference σ t :
  inv cmp σ t →
  (∀ k1 k2 acc, k1 ∉ keys t ∨ k2 ∉ keys t →
     mavl_lca cmp (Some σ) k1 k2 acc = Some (M_INVALID_INPUT, None)) ∧
  (∀ k1 k2, k1 ∈ keys t → k2 ∈ keys t →
     ∃ z, lca_ref cmp k1 k2 t = Some z ∧
          mavl_lca cmp (Some σ) k1 k2 true = Some (M_OK, Some z)) ∧
  (∀ k, k ∈ keys t → mavl_lca cmp (Some σ) k k true = Some (M_OK, Some k)) ∧
  (∀ k1 k2 acc, ∃ e d, mavl_lca cmp (Some σ) k1 k2 acc = Some (e, d) ∧
                       e ≠ M_UNDEFINED_BEHAVIOUR).
Proof.
  intros (Hwf & Hbst & _).
  assert (∀ k1 k2, k1 ∈ keys t → k2 ∈ keys t →
     ∃ z, lca_ref cmp k1 k2 t = Some z ∧
          mavl_lca cmp (Some σ) k1 k2 true = Some (M_OK, Some z)) as Hpres.
  { intros k1 k2 H1 H2. rewrite (lca_present cmp σ t) by done.
    destruct (lca_t_ref cmp k1 k2 t Hbst H1 H2) as [[z Hz] E].
    exists z. by rewrite E, Hz. }
  split_and!.
  - intros k1 k2 acc Habs. by apply (lca_absent cmp σ t).
  - exact Hpres.
  - intros k Hk. rewrite (lca_present cmp σ t) by done. by rewrite lca_t_self.
  - intros k1 k2 acc.
    assert (∀ k, k ∈ keys t ∨ k ∉ keys t) as Hdec.
    { intros k. pose proof (locate_spec cmp k t [] Hbst) as Hs.
      destruct (locate cmp k t []).1; [by right|left; apply Hs]. }
    destruct (Hdec k1) as [H1|H1], (Hdec k2) as [H2|H2].
    2-4: exists M_INVALID_INPUT, None; split; [apply (lca_absent cmp σ t); auto|done].
    destruct acc.
    + destruct (Hpres k1 k2 H1 H2) as (z & _ & E). eauto.
    + exists M_OK, None. split; [|done]. by apply (lca_present_noacc cmp σ t).
Qed.

(** C9: one [mavl_pop] of a payload that is in the tree removes its node,
    whatever the count [c] that duplicate pushes have given it: the node
    object is released, the size drops by one, and [mavl_find] reports
    [M_NOT_FOUND] afterwards. *)
Theorem pop_removes_node_whatever_count σ t a k c :
  inv cmp σ t → (a, k, c) ∈ cells t →
  ∃ σ' t',
    mavl_pop cmp (Some σ) k = Some (M_OK, Some σ') ∧ inv cmp σ' t' ∧
    k ∉ keys t' ∧ mem σ' !! a = None ∧ tsize σ' = tsize σ - 1 ∧
    ∀ acc, mavl_find cmp (Some σ') k acc = Some (M_NOT_FOUND, None).
Proof.
  intros Hinv Hin.
  pose proof (pop_spec cmp σ t k Hinv) as Hs.
  pose proof (locate_spec cmp k t [] (proj1 (proj2 Hinv))) as Hl.
  pose proof (locate_plug cmp k t []) as Hp.
  destruct (locate cmp k t []) as [[|l a' x c' h r] K]; simpl in Hl, Hp.
  { destruct Hl. by eapply cells_keys. }
  destruct Hl as [-> _]. destruct Hs as (σ' & t' & E & Hinv' & Hc & Hc' & Hsh).
  assert ((a', k, c') ∈ cells t) as Hin'.
  { rewrite Hc, elem_of_app, elem_of_cons. auto. }
  destruct (cells_key_unique t a a' k c c' (proj1 (proj2 Hinv)) Hin Hin') as [<- <-].
  assert (k ∉ keys t') as Hk.
  { eapply removed_absent; [apply Hinv|exact Hc|exact Hc']. }
  exists σ', t'. split_and!; try done.
  - destruct Hsh as (_ & _ & _ & _ & Hdom).
    apply not_elem_of_dom. rewrite Hdom. set_solver.
  - eapply shrunk_size; [exact Hinv| |exact Hsh]. intros ->. by apply elem_of_nil in Hin.
  - intros acc. apply (find_absent cmp σ' t'); [apply Hinv'|apply Hinv'|done].
Qed.

(** C10: on a tree object and with an accumulator, [mavl_min] and
    [mavl_max] return [M_OK] and deliver a payload for every argument; when
    the argument is not in the tree, so also on the empty tree, that
    payload is the one of the sentinel node. *)
Theorem min_max_always_ok σ t n0 k :
  inv cmp σ t → mem σ !! nil σ = Some n0 →
  (∃ d, mavl_min cmp (Some σ) k true = Some (M_OK, Some d) ∧
        (k ∉ keys t → d = n_data n0)) ∧
  (∃ d, mavl_max cmp (Some σ) k true = Some (M_OK, Some d) ∧
        (k ∉ keys t → d = n_data n0)).
Proof.
  intros (Hwf & Hbst & _) Hn0.
  pose proof (locate_spec cmp k t [] Hbst) as Hl.
  split; eexists; (split; [by first [apply min_spec | apply max_spec]|]).
  all: intros Hk; destruct (locate cmp k t []).1; [done|by destruct Hl].
Qed.

End Claims.

(** C6: [avl_insert] of [scl_avl_tree.c] on the empty tree, when the
    allocator grants the node and refuses the copy of the payload: the
    call returns [0], the value of success, and leaves a tree of size [1]
    whose root node has no payload. *)
Theorem scl_insert_keeps_node_without_payload {T : Type} (cmp : T → T → Z)
    (x : T) (data_size : Z) :
  data_size ≠ 0 →
  ∃ p, SclAvl.avl_insert cmp (SclAvl.create_avl true) (Some x) data_size true false =
         Some (0, Some (SclAvl.MkTree (Some p) 1
                          {[ p := SclAvl.MkNode None None None None 1 1 ]})).
Proof.
  intros Hsz. exists (fresh (∅ : gset positive)).
  unfold SclAvl.avl_insert, SclAvl.create_avl.
  apply Z.eqb_neq in Hsz. rewrite Hsz.
  rewrite bool_decide_eq_true_2 by eauto. cbn [negb orb].
  vm_compute. reflexivity.
Qed.

Lemma scl_insert_keeps_node_without_payload_witness :
  4 ≠ 0 ∧
  ∃ p, SclAvl.avl_insert cmp_int (SclAvl.create_avl true) (Some 7) 4 true false =
         Some (0, Some (SclAvl.MkTree (Some p) 1
                          {[ p := SclAvl.MkNode None None None None 1 1 ]})).
Proof.
  split; [lia|]. apply (scl_insert_keeps_node_without_payload cmp_int 7 4). lia.
Defined.

(** ** The claims on concrete trees *)

Lemma built_213 garbage :
  ∃ σ, build garbage ops_213 = Some σ ∧ inv cmp_int σ (tree_213 1) ∧
       mem σ !! nil σ = Some (MkNode garbage 1%positive 1%positive 1%positive 1 0).
Proof.
  eexists. split; [vm_compute; reflexivity|]. unfold tree_213.
  split; [ex_inv|vm_compute; reflexivity].
Qed.

Lemma invariants_after_any_history_witness :
  ∃ σ0 σ t,
    mavl false 0 true true = Some σ0 ∧
    run cmp_int [Push 2 true; Push 1 true; Push 3 true; Pop 2] σ0 = Some σ ∧
    wf σ t ∧ bst cmp_int t ∧ avl t ∧ hc t.
Proof.
  exact (invariants_after_any_history cmp_int false 0
           [Push 2 true; Push 1 true; Push 3 true; Pop 2]).
Defined.

Lemma find_after_push_and_pop_witness :
  ∃ σ, build 0 ops_213 = Some σ ∧
    (∀ ok, ∃ e σ',
       mavl_push cmp_int (Some σ) 2 ok = Some (e, Some σ') ∧
       (e = M_OK → mavl_find cmp_int (Some σ') 2 true = Some (M_OK, Some 2)) ∧
       (ok = true → Z.of_nat (size (mem σ)) < addr_space → e = M_OK)) ∧
    (∃ e σ',
       mavl_pop cmp_int (Some σ) 2 = Some (e, Some σ') ∧
       (e = M_OK → ∀ acc, mavl_find cmp_int (Some σ') 2 acc = Some (M_NOT_FOUND, None)) ∧
       (2 ∈ keys (tree_213 1) → e = M_OK)).
Proof.
  eexists. split; [vm_compute; reflexivity|].
  apply (find_after_push_and_pop cmp_int _ (tree_213 1) 2).
  unfold tree_213. ex_inv.
Defined.

Lemma pop_two_children_relinks_witness :
  ∃ σ, build 0 ops_213 = Some σ ∧
    ∃ σ' t' A B s ds cs n',
      mavl_pop cmp_int (Some σ) 2 = Some (M_OK, Some σ') ∧ inv cmp_int σ' t' ∧
      cells (tree_213 1) = A ++ (2%positive, 2, 1) :: (s, ds, cs) :: B ∧
      cells t' = A ++ (s, ds, cs) :: B ∧
      mem σ' !! 2%positive = None ∧ dom (mem σ') = dom (mem σ) ∖ {[2%positive]} ∧
      mem σ' !! s = Some n' ∧ n_data n' = ds ∧ n_count n' = cs.
Proof.
  eexists. split; [vm_compute; reflexivity|].
  apply (pop_two_children_relinks cmp_int _ (tree_213 1) 2 2%positive
           (MkNode 2 1%positive 3%positive 4%positive 1 2)).
  - unfold tree_213. ex_inv.
  - vm_compute. reflexivity.
  - vm_compute. discriminate.
  - vm_compute. reflexivity.
  - vm_compute. discriminate.
  - vm_compute. discriminate.
Defined.

(** C3, as stated: the node object of the deleted key would stay in
    memory, holding the successor's payload.  It does not. *)
Lemma pop_two_children_in_place_counterexample :
  ¬ (∀ (σ : mavl_t Z) (t : tree Z) k a n,
       inv cmp_int σ t →
       internal_mavl_find_node cmp_int k σ = Some (a, σ) → a ≠ nil σ →
       mem σ !! a = Some n → n_left n ≠ nil σ → n_right n ≠ nil σ →
       ∃ σ', mavl_pop cmp_int (Some σ) k = Some (M_OK, Some σ') ∧
             is_Some (mem σ' !! a)).
Proof.
  intros H. destruct (built_213 0) as (σ & Hb & Hinv & _).
  vm_compute in Hb. injection Hb as <-.
  destruct (H _ _ 2 2%positive (MkNode 2 1%positive 3%positive 4%positive 1 2) Hinv)
    as (σ' & Hpop & Hin).
  - vm_compute. reflexivity.
  - vm_compute. discriminate.
  - vm_compute. reflexivity.
  - vm_compute. discriminate.
  - vm_compute. discriminate.
  - vm_compute in Hpop. injection Hpop as <-.
    vm_compute in Hin. destruct Hin as [? [=]].
Qed.

Lemma pop_failure_leaves_tree_witness :
  (∃ σ, build 0 [] = Some σ ∧
        mavl_pop cmp_int (Some σ) 7 = Some (M_POP_FROM_EMPTY, Some σ)) ∧
  (∃ σ, build 0 ops_213 = Some σ ∧
        mavl_pop cmp_int (Some σ) 7 = Some (M_INVALID_INPUT, Some σ)).
Proof.
  split.
  - eexists. split; [vm_compute; reflexivity|].
    refine (proj1 (pop_failure_leaves_tree cmp_int _ Leaf 7 _) _).
    + ex_inv.
    + vm_compute. reflexivity.
  - eexists. split; [vm_compute; reflexivity|].
    refine (proj2 (pop_failure_leaves_tree cmp_int _ (tree_213 1) 7 _) _ _).
    + unfold tree_213. ex_inv.
    + vm_compute. discriminate.
    + unfold tree_213. cbn [keys app]. set_solver.
Defined.

(** C4, as stated: the pop of an absent payload would return the code
    that [mavl_find] returns for it, [M_NOT_FOUND]. *)
Lemma pop_absent_not_found_counterexample :
  ¬ (∀ (σ : mavl_t Z) (t : tree Z) k,
       inv cmp_int σ t → root σ ≠ nil σ → k ∉ keys t →
       mavl_pop cmp_int (Some σ) k = Some (M_NOT_FOUND, Some σ)).
Proof.
  intros H. destruct (built_213 0) as (σ & Hb & Hinv & _).
  vm_compute in Hb. injection Hb as <-.
  specialize (H _ _ 7 Hinv). vm_compute in H.
  assert (Some (M_INVALID_INPUT, ()) = Some (M_NOT_FOUND, ())) as [=].
  apply (f_equal (λ r, match r with Some (e, _) => Some (e, tt) | None => None end)) in H.
  - exact H.
  - discriminate.
  - unfold tree_213. cbn [keys app]. set_solver.
Qed.

Lemma push_duplicate_counts_witness :
  ∃ σ, build 0 ops_213 = Some σ ∧
    (∃ n, mem σ !! 3%positive = Some n ∧ n_data n = 1 ∧ n_count n = 1 ∧
          mavl_push cmp_int (Some σ) 1 true =
            Some (M_OK, Some (with_node σ 3%positive (set_count (u32 (1 + 1)) n)))) ∧
    (∀ k', k' ∉ keys (tree_213 1) → Z.of_nat (size (mem σ)) < addr_space →
           ∃ σ'', mavl_push cmp_int (Some σ) k' true = Some (M_OK, Some σ'')).
Proof.
  eexists. split; [vm_compute; reflexivity|].
  apply (push_duplicate_counts cmp_int _ (tree_213 1) 1 3%positive 1 true).
  - unfold tree_213. ex_inv.
  - unfold tree_213. cbn [cells app]. apply list_elem_of_here.
Defined.

(** C5, as stated: the result of a push that met an equal payload would
    differ from the result of a push that inserted a node. *)
Lemma push_duplicate_distinct_counterexample :
  ¬ (∀ (σ : mavl_t Z) (t : tree Z) k k' e e' σ1 σ2,
       inv cmp_int σ t → k ∈ keys t → k' ∉ keys t →
       mavl_push cmp_int (Some σ) k true = Some (e, Some σ1) →
       mavl_push cmp_int (Some σ) k' true = Some (e', Some σ2) →
       e ≠ e').
Proof.
  intros H. destruct (built_213 0) as (σ & Hb & Hinv & _).
  vm_compute in Hb. injection Hb as <-.
  refine (H _ _ 1 7 M_OK M_OK _ _ Hinv _ _ _ _ eq_refl).
  - unfold tree_213. cbn [keys app]. set_solver.
  - unfold tree_213. cbn [keys app]. set_solver.
  - vm_compute. reflexivity.
  - vm_compute. reflexivity.
Qed.

Lemma push_allocation_failure_witness :
  ∃ σ, build 0 ops_213 = Some σ ∧
       mavl_push cmp_int (Some σ) 7 false = Some (M_MALLOC_FAILED, Some σ).
Proof.
  eexists. split; [vm_compute; reflexivity|].
  apply (push_allocation_failure cmp_int _ (tree_213 1) 7).
  - unfold tree_213. ex_inv.
  - unfold tree_213. cbn [keys app]. set_solver.
Defined.

Lemma pred_succ_neighbours_witness :
  ∃ σ, build 99 ops_213 = Some σ ∧
    (mavl_pred cmp_int (Some σ) 2 true = Some (M_OK, Some 1) ∧
     mavl_succ cmp_int (Some σ) 1 true = Some (M_OK, Some 2)) ∧
    mavl_pred cmp_int (Some σ) 1 true = Some (M_OK, Some 99) ∧
    mavl_succ cmp_int (Some σ) 3 true = Some (M_OK, Some 99).
Proof.
  eexists. split; [vm_compute; reflexivity|].
  match goal with
  | |- context [mavl_pred _ (Some ?s) _ _] =>
      assert (inv cmp_int s (tree_213 1)) as Hinv by (unfold tree_213; ex_inv);
      assert (mem s !! nil s = Some (MkNode 99 1%positive 1%positive 1%positive 1 0))
        as Hn0 by (vm_compute; reflexivity);
      destruct (pred_succ_neighbours cmp_int s (tree_213 1) _ Hinv Hn0)
        as (H1 & H2 & H3)
  end.
  split; [exact (H1 [] 1 2 [3] eq_refl)|].
  split; [exact (H2 1 [2; 3] eq_refl)|exact (H3 [1; 2] 3 eq_refl)].
Defined.

(** C7, as stated: for the least key no predecessor would be delivered. *)
Lemma pred_of_least_absent_counterexample :
  ¬ (∀ (σ : mavl_t Z) (t : tree Z) k B,
       inv cmp_int σ t → keys t = k :: B →
       ∀ d, mavl_pred cmp_int (Some σ) k true ≠ Some (M_OK, Some d)).
Proof.
  intros H. destruct (built_213 99) as (σ & Hb & Hinv & _).
  vm_compute in Hb. injection Hb as <-.
  apply (H _ _ 1 [2; 3] Hinv eq_refl 99). vm_compute. reflexivity.
Qed.

Lemma lca_agrees_with_reference_witness :
  ∃ σ, build 0 ops_213 = Some σ ∧
    mavl_lca cmp_int (Some σ) 1 7 true = Some (M_INVALID_INPUT, None) ∧
    (∃ z, lca_ref cmp_int 1 3 (tree_213 1) = Some z ∧
          mavl_lca cmp_int (Some σ) 1 3 true = Some (M_OK, Some z)) ∧
    mavl_lca cmp_int (Some σ) 3 3 true = Some (M_OK, Some 3).
Proof.
  eexists. split; [vm_compute; reflexivity|].
  match goal with
  | |- context [mavl_lca _ (Some ?s) _ _ _] =>
      assert (inv cmp_int s (tree_213 1)) as Hinv by (unfold tree_213; ex_inv);
      destruct (lca_agrees_with_reference cmp_int s (tree_213 1) Hinv)
        as (H1 & H2 & H3 & _)
  end.
  split; [apply H1; right; unfold tree_213; cbn [keys app]; set_solver|].
  split; [apply H2|apply H3]; unfold tree_213; cbn [keys app]; set_solver.
Defined.

Lemma pop_removes_node_whatever_count_witness :
  ∃ σ, build 0 (ops_213 ++ [Push 1 true; Push 1 true]) = Some σ ∧
    ∃ σ' t',
      mavl_pop cmp_int (Some σ) 1 = Some (M_OK, Some σ') ∧ inv cmp_int σ' t' ∧
      1 ∉ keys t' ∧ mem σ' !! 3%positive = None ∧ tsize σ' = tsize σ - 1 ∧
      ∀ acc, mavl_find cmp_int (Some σ') 1 acc = Some (M_NOT_FOUND, None).
Proof.
  eexists. split; [vm_compute; reflexivity|].
  apply (pop_removes_node_whatever_count cmp_int _ (tree_213 3) 3%positive 1 3).
  - unfold tree_213. ex_inv.
  - unfold tree_213. cbn [cells app]. apply list_elem_of_here.
Defined.

Lemma min_max_always_ok_witness :
  ∃ σ, build 99 [] = Some σ ∧
    (∃ d, mavl_min cmp_int (Some σ) 5 true = Some (M_OK, Some d) ∧
          (5 ∉ keys (Leaf : tree Z) → d = 99)) ∧
    (∃ d, mavl_max cmp_int (Some σ) 5 true = Some (M_OK, Some d) ∧
          (5 ∉ keys (Leaf : tree Z) → d = 99)).
Proof.
  eexists. split; [vm_compute; reflexivity|].
  apply (min_max_always_ok cmp_int _ Leaf
           (MkNode 99 1%positive 1%positive 1%positive 1 0) 5).
  - ex_inv.
  - vm_compute. reflexivity.
Defined.

(** ** Traversals, release and the memory of a history *)

Section Traversals.
Context {T : Type}.
Implicit Types (t l r : tree T) (k : list (frame T)) (σ : mavl_t T).

Lemma traverse_inorder_ok σ t k fuel :
  wf σ (plug t k) → (length (taddrs t) ≤ fuel)%nat →
  traverse_inorder_help fuel (ptr (nil σ) t) σ = Some (keys t, σ).
Proof.
  revert k fuel. induction t as [|l IHl a x c h r IHr]; intros k fuel Hwf Hfuel.
  - destruct fuel; simpl; unfold bind, get_nil, ret; simpl; by rewrite decide_True.
  - rewrite length_taddrs_node in Hfuel.
    destruct fuel as [|fuel]; [lia|].
    pose proof (wf_root_neq _ _ _ _ _ _ _ _ Hwf) as Hne.
    pose proof (wf_root_lookup _ _ _ _ _ _ _ _ Hwf) as Hl.
    simpl. unfold bind, get_nil, get. simpl.
    rewrite decide_False by done. rewrite Hl. simpl.
    rewrite ?Hl; simpl.
    rewrite (IHl (FL a x c h r :: k) fuel Hwf) by lia.
    rewrite ?Hl; simpl. rewrite ?Hl; simpl.
    rewrite (IHr (FR l a x c h :: k) fuel Hwf) by lia.
    done.
Qed.

Lemma traverse_preorder_ok σ t k fuel :
  wf σ (plug t k) → (length (taddrs t) ≤ fuel)%nat →
  traverse_preorder_help fuel (ptr (nil σ) t) σ = Some (preorder t, σ).
Proof.
  revert k fuel. induction t as [|l IHl a x c h r IHr]; intros k fuel Hwf Hfuel.
  - destruct fuel; simpl; unfold bind, get_nil, ret; simpl; by rewrite decide_True.
  - rewrite length_taddrs_node in Hfuel.
    destruct fuel as [|fuel]; [lia|].
    pose proof (wf_root_neq _ _ _ _ _ _ _ _ Hwf) as Hne.
    pose proof (wf_root_lookup _ _ _ _ _ _ _ _ Hwf) as Hl.
    simpl. unfold bind, get_nil, get. simpl.
    rewrite decide_False by done. rewrite Hl. simpl.
    rewrite ?Hl; simpl.
    rewrite (IHl (FL a x c h r :: k) fuel Hwf) by lia.
    rewrite ?Hl; simpl. rewrite ?Hl; simpl.
    rewrite (IHr (FR l a x c h :: k) fuel Hwf) by lia.
    done.
Qed.

Lemma traverse_postorder_ok σ t k fuel :
  wf σ (plug t k) → (length (taddrs t) ≤ fuel)%nat →
  traverse_postorder_help fuel (ptr (nil σ) t) σ = Some (preorder t, σ).
Proof.
  revert k fuel. induction t as [|l IHl a x c h r IHr]; intros k fuel Hwf Hfuel.
  - destruct fuel; simpl; unfold bind, get_nil, ret; simpl; by rewrite decide_True.
  - rewrite length_taddrs_node in Hfuel.
    destruct fuel as [|fuel]; [lia|].
    pose proof (wf_root_neq _ _ _ _ _ _ _ _ Hwf) as Hne.
    pose proof (wf_root_lookup _ _ _ _ _ _ _ _ Hwf) as Hl.
    simpl. unfold bind, get_nil, get. simpl.
    rewrite decide_False by done. rewrite Hl. simpl.
    rewrite ?Hl; simpl.
    rewrite (IHl (FL a x c h r :: k) fuel Hwf) by lia.
    rewrite ?Hl; simpl. rewrite ?Hl; simpl.
    rewrite (IHr (FR l a x c h :: k) fuel Hwf) by lia.
    done.
Qed.

Lemma wf_leaf_iff σ t : wf σ t → root σ = nil σ ↔ t = Leaf.
Proof.
  intros Hwf. split.
  - intros E. destruct t as [|l a d c h r]; [done|].
    pose proof (wf_root_neq σ l a d c h r [] Hwf) as Hne.
    destruct Hwf as (_ & Hr & _). simpl in Hr. congruence.
  - intros ->. by destruct Hwf as (_ & Hr & _).
Qed.

Lemma inorder_spec σ t :
  wf σ t →
  mavl_traverse_inorder (Some σ) true =
    Some (M_OK, match t with Leaf => [Printed_nil] | _ => bracketed (keys t) end).
Proof.
  intros Hwf. pose proof (wf_leaf_iff σ t Hwf) as Hl.
  pose proof (wf_gas _ _ Hwf) as Hg.
  unfold mavl_traverse_inorder. simpl.
  destruct (decide (root σ = nil σ)) as [E|E].
  - by rewrite (proj1 Hl E).
  - assert (root σ = ptr (nil σ) t) as -> by apply Hwf.
    rewrite (traverse_inorder_ok σ t [] (gas σ) Hwf) by lia.
    destruct t; [by destruct E; apply Hl|done].
Qed.

Lemma preorder_spec σ t :
  wf σ t →
  mavl_traverse_preorder (Some σ) true =
    Some (M_OK, match t with Leaf => [Printed_nil] | _ => bracketed (preorder t) end).
Proof.
  intros Hwf. pose proof (wf_leaf_iff σ t Hwf) as Hl.
  pose proof (wf_gas _ _ Hwf) as Hg.
  unfold mavl_traverse_preorder. simpl.
  destruct (decide (root σ = nil σ)) as [E|E].
  - by rewrite (proj1 Hl E).
  - assert (root σ = ptr (nil σ) t) as -> by apply Hwf.
    rewrite (traverse_preorder_ok σ t [] (gas σ) Hwf) by lia.
    destruct t; [by destruct E; apply Hl|done].
Qed.

Lemma postorder_spec σ t :
  wf σ t →
  mavl_traverse_postorder (Some σ) true =
    Some (M_OK, match t with Leaf => [Printed_nil] | _ => bracketed (preorder t) end).
Proof.
  intros Hwf. pose proof (wf_leaf_iff σ t Hwf) as Hl.
  pose proof (wf_gas _ _ Hwf) as Hg.
  unfold mavl_traverse_postorder. simpl.
  destruct (decide (root σ = nil σ)) as [E|E].
  - by rewrite (proj1 Hl E).
  - assert (root σ = ptr (nil σ) t) as -> by apply Hwf.
    rewrite (traverse_postorder_ok σ t [] (gas σ) Hwf) by lia.
    destruct t; [by destruct E; apply Hl|done].
Qed.

Lemma preorder_perm t : preorder t ≡ₚ keys t.
Proof.
  induction t as [|l IHl a d c h r IHr]; simpl; [done|].
  rewrite IHl, IHr. by rewrite Permutation_middle.
Qed.

Lemma postorder_perm t : postorder t ≡ₚ keys t.
Proof.
  induction t as [|l IHl a d c h r IHr]; simpl; [done|].
  rewrite IHl, IHr. rewrite (Permutation_app_comm (keys r) [d]). done.
Qed.

Lemma card_keys t : card t = Z.of_nat (length (keys t)).
Proof.
  induction t as [|l IHl a d c h r IHr]; simpl; [done|].
  rewrite length_app. simpl. lia.
Qed.

Lemma card_zero t : card t = 0 ↔ t = Leaf.
Proof.
  split; [|by intros ->].
  destruct t as [|l a d c h r]; [done|]. simpl.
  pose proof (card_nonneg l). pose proof (card_nonneg r). lia.
Qed.

End Traversals.

Section Release.
Context {T : Type}.
Implicit Types (t l r : tree T) (k : list (frame T)) (σ : mavl_t T).

Lemma read_slot_frame s (rt nl sz : _) fr rel rel' (m m' : gmap positive (mavl_node_t T)) a p' :
  read_slot s (MkTree rt nl sz fr rel m) = Some (a, MkTree rt nl sz fr rel m) →
  (∀ p, s = Left_slot p ∨ s = Right_slot p → p ≠ p' ∧ m' !! p = m !! p) →
  read_slot s (MkTree rt nl sz fr rel' m') = Some (a, MkTree rt nl sz fr rel' m').
Proof.
  intros Hr Hm. destruct s as [|p|p]; simpl in *.
  - unfold get_root in *. simpl in *. by simplify_eq.
  - unfold get in *. simpl in *. destruct (Hm p) as [_ ->]; [by left|].
    destruct (m !! p); by simplify_eq.
  - unfold get in *. simpl in *. destruct (Hm p) as [_ ->]; [by right|].
    destruct (m !! p); by simplify_eq.
Qed.

Lemma free_help_ok t0 : ∀ fuel s rt nl sz fr rel (m : gmap positive (mavl_node_t T)) par,
  rep_tree m nl par t0 → NoDup (nl :: taddrs t0) →
  read_slot s (MkTree rt nl sz fr rel m) = Some (ptr nl t0, MkTree rt nl sz fr rel m) →
  slot_out s t0 →
  (length (taddrs t0) ≤ fuel)%nat →
  ∃ m', internal_mavl_free_help fuel s (MkTree rt nl sz fr rel m) =
          Some (tt, MkTree (slot_root s nl rt) nl sz fr
                      ((if fr then rev (postorder t0) else []) ++ rel) m') ∧
        (∀ x, x ∈ taddrs t0 → m' !! x = None) ∧
        (∀ x, x ∉ taddrs t0 → m' !! x = slot_view s nl m x).
Proof.
  induction t0 as [|l IHl a d c h r IHr];
    intros fuel s rt nl sz fr rel m par Hrep Hnd Hread Hout Hfuel.
  - exists m. split_and!.
    + assert (internal_mavl_free_help fuel s (MkTree rt nl sz fr rel m) =
              Some (tt, MkTree rt nl sz fr rel m)) as ->.
      { destruct fuel; simpl; unfold bind at 1; unfold get_nil; simpl;
          rewrite (bind_run _ _ _ _ _ Hread); simpl; by rewrite decide_True. }
      destruct fr; simpl; destruct s; simpl; try done.
      all: simpl in Hread; unfold get_root in Hread; simpl in Hread. all: by injection Hread as ->.
    + by intros x ?%elem_of_nil.
    + intros x _. destruct s as [|p|p]; simpl; [done| |].
      * destruct (decide (x = p)) as [->|]; [|done].
        simpl in Hread. unfold get in Hread. simpl in Hread.
        destruct (m !! p) as [[]|]; simpl in *; [|done]. by simplify_eq.
      * destruct (decide (x = p)) as [->|]; [|done].
        simpl in Hread. unfold get in Hread. simpl in Hread.
        destruct (m !! p) as [[]|]; simpl in *; [|done]. by simplify_eq.
  - rewrite length_taddrs_node in Hfuel. destruct fuel as [|fuel]; [lia|].
    simpl in Hrep. destruct Hrep as (Ha & Hrl & Hrr). simpl in Hread, Hnd.
    assert (a ≠ nl) as Hane by nd Hnd.
    assert (NoDup (nl :: taddrs l)) as Hndl by (nd_sub Hnd).
    assert (NoDup (nl :: taddrs r)) as Hndr by (nd_sub Hnd).
    assert (a ∉ taddrs l) as Hal by nd Hnd.
    assert (a ∉ taddrs r) as Har by nd Hnd.
    assert (∀ x, x ∈ taddrs l → x ∉ taddrs r) as Hlr by (intros x ?; nd Hnd).
    (* the left subtree *)
    destruct (IHl fuel (Left_slot a) rt nl sz fr rel m a) as (m1 & E1 & Hin1 & Ho1);
      [done|done| |done|lia|].
    { simpl. unfold get. simpl. by rewrite Ha. }
    simpl in E1.
    assert (m1 !! a = Some (MkNode d par nl (ptr nl r) c h)) as Ha1.
    { rewrite Ho1 by done. simpl. rewrite decide_True by done. by rewrite Ha. }
    set (rel1 := (if fr then rev (postorder l) else []) ++ rel) in *.
    (* the right subtree *)
    destruct (IHr fuel (Right_slot a) rt nl sz fr rel1 m1 a) as (m2 & E2 & Hin2 & Ho2);
      [|done| |done|lia|].
    { eapply rep_tree_ext; [|exact Hrr]. intros x Hx. rewrite Ho1.
      - simpl. rewrite decide_False; [done|]. intros ->. done.
      - intros ?. by eapply Hlr. }
    { simpl. unfold get. simpl. by rewrite Ha1. }
    simpl in E2.
    assert (m2 !! a = Some (MkNode d par nl nl c h)) as Ha2.
    { rewrite Ho2 by done. simpl. rewrite decide_True by done. by rewrite Ha1. }
    set (rel2 := (if fr then rev (postorder r) else []) ++ rel1) in *.
    (* the slot still designates the node *)
    assert (∀ p, s = Left_slot p ∨ s = Right_slot p →
                 p ≠ a ∧ p ∉ taddrs l ∧ p ∉ taddrs r) as Hp.
    { intros p [->| ->]; simpl in Hout; rewrite !elem_of_app, elem_of_cons in Hout;
        naive_solver. }
    assert (∀ p, s = Left_slot p ∨ s = Right_slot p → m1 !! p = m !! p) as Hm1.
    { intros p Hs. destruct (Hp p Hs) as (? & ? & ?). rewrite Ho1 by done.
      simpl. by rewrite decide_False. }
    assert (∀ p, s = Left_slot p ∨ s = Right_slot p → m2 !! p = m !! p) as Hm2.
    { intros p Hs. destruct (Hp p Hs) as (? & ? & ?). rewrite Ho2 by done.
      simpl. rewrite decide_False by done. by apply Hm1. }
    pose proof (read_slot_frame s rt nl sz fr rel rel1 m m1 a a Hread) as Hread1.
    pose proof (read_slot_frame s rt nl sz fr rel rel2 m m2 a a Hread) as Hread2.
    specialize (Hread1 ltac:(intros p Hs; split; [by apply Hp|by apply Hm1])).
    specialize (Hread2 ltac:(intros p Hs; split; [by apply Hp|by apply Hm2])).
    set (rel3 := if fr then d :: rel2 else rel2).
    assert (rel3 = (if fr then rev (postorder (Node l a d c h r)) else []) ++ rel) as Hrel.
    { unfold rel3, rel2, rel1. destruct fr; simpl; [|done].
      rewrite !rev_app_distr. simpl. by rewrite <- !app_assoc. }
    (* the write through the slot *)
    assert (∃ m', write_slot s nl (MkTree rt nl sz fr rel3 (delete a m2)) =
                    Some (tt, MkTree (slot_root s nl rt) nl sz fr rel3 m') ∧
                  (∀ x, x ∈ taddrs (Node l a d c h r) → m' !! x = None) ∧
                  (∀ x, x ∉ taddrs (Node l a d c h r) → m' !! x = slot_view s nl m x))
      as (m' & E3 & Hin3 & Ho3).
    { assert (∀ x, x ∈ taddrs (Node l a d c h r) → delete a m2 !! x = None) as Hin.
      { intros x. simpl. rewrite elem_of_app, elem_of_cons. intros Hx.
        destruct (decide (x = a)) as [->|Hxa]; [by rewrite lookup_delete_eq|].
        rewrite lookup_delete_ne by done.
        destruct Hx as [Hx|[->|Hx]]; [|done|by apply Hin2].
        rewrite Ho2 by by apply Hlr. simpl. rewrite decide_False by done.
        by apply Hin1. }
      assert (∀ x, x ∉ taddrs (Node l a d c h r) → delete a m2 !! x = m !! x) as Hout'.
      { intros x. simpl. rewrite elem_of_app, elem_of_cons. intros Hx.
        assert (x ≠ a ∧ x ∉ taddrs l ∧ x ∉ taddrs r) as (? & ? & ?) by naive_solver.
        rewrite lookup_delete_ne by done. rewrite Ho2 by done. simpl.
        rewrite decide_False by done. rewrite Ho1 by done. simpl.
        by rewrite decide_False. }
      destruct s as [|p|p]; simpl.
      - exists (delete a m2). done.
      - assert (is_Some (m !! p)) as [n Hn].
        { simpl in Hread. unfold get in Hread. simpl in Hread.
          destruct (m !! p); [eauto|done]. }
        unfold upd. simpl. rewrite (Hout' p Hout), Hn.
        eexists. split; [done|]. split.
        + intros x Hx. rewrite lookup_insert_ne; [by apply Hin|].
          intros ->. done.
        + intros x Hx. destruct (decide (x = p)) as [->|Hxp].
          * by rewrite lookup_insert_eq, Hn.
          * rewrite lookup_insert_ne by done. by apply Hout'.
      - assert (is_Some (m !! p)) as [n Hn].
        { simpl in Hread. unfold get in Hread. simpl in Hread.
          destruct (m !! p); [eauto|done]. }
        unfold upd. simpl. rewrite (Hout' p Hout), Hn.
        eexists. split; [done|]. split.
        + intros x Hx. rewrite lookup_insert_ne; [by apply Hin|].
          intros ->. done.
        + intros x Hx. destruct (decide (x = p)) as [->|Hxp].
          * by rewrite lookup_insert_eq, Hn.
          * rewrite lookup_insert_ne by done. by apply Hout'. }
    exists m'. split; [|done].
    rewrite <- Hrel.
    cbn [internal_mavl_free_help]. unfold bind at 1. unfold get_nil at 1. cbn [nil].
    rewrite (bind_run _ _ _ _ _ Hread). cbn [ptr]. rewrite decide_False by done.
    rewrite (bind_run _ _ _ _ _ E1).
    rewrite (bind_run _ _ _ _ _ Hread1).
    rewrite (bind_run _ _ _ _ _ E2).
    rewrite (bind_run _ _ _ _ _ Hread2).
    assert (free_node a (MkTree rt nl sz fr rel2 m2) =
            Some (tt, MkTree rt nl sz fr rel3 (delete a m2))) as E4.
    { unfold free_node. simpl. by rewrite Ha2. }
    rewrite (bind_run _ _ _ _ _ E4).
    unfold bind at 1. unfold get_nil at 1. cbn [nil]. exact E3.
Qed.

(** [ID##_mavl_free] on a tree object. *)
Lemma free_spec σ t :
  wf σ t →
  ∃ m', mavl_free (Some (Some σ)) =
          Some (M_OK, None,
                (if frd σ then rev (postorder t) else []) ++ released σ, m') ∧
        ∀ x, m' !! x = if decide (x ∈ nil σ :: taddrs t) then None else mem σ !! x.
Proof.
  intros Hwf. pose proof (wf_gas _ _ Hwf) as Hg.
  destruct Hwf as ((n0 & Hn0 & _) & Hroot & Hrep & Hnd).
  destruct σ as [rt nl sz fr rel m]. simpl in *.
  destruct (free_help_ok t (gas (MkTree rt nl sz fr rel m)) Root_slot
              rt nl sz fr rel m nl) as (m1 & E1 & Hin1 & Ho1); [done|done| |done|lia|].
  { simpl. unfold get_root. simpl. by rewrite Hroot. }
  simpl in E1, Ho1.
  assert (m1 !! nl = Some n0) as Hn1.
  { rewrite Ho1; [done|]. nd Hnd. }
  exists (delete nl m1). split.
  - unfold mavl_free. rewrite (bind_run _ _ _ _ _ E1).
    unfold free_nil. simpl. by rewrite Hn1.
  - intros x. destruct (decide (x = nl)) as [->|Hx].
    + rewrite lookup_delete_eq. rewrite decide_True; [done|]. apply in_here.
    + rewrite lookup_delete_ne by done.
      destruct (decide (x ∈ taddrs t)) as [Hi|Hi].
      * rewrite decide_True by by apply in_further. by apply Hin1.
      * rewrite decide_False; [by apply Ho1|]. rewrite elem_of_cons. naive_solver.
Qed.

Lemma free_tight σ t :
  wf σ t → tight σ t →
  mavl_free (Some (Some σ)) =
    Some (M_OK, None, (if frd σ then rev (postorder t) else []) ++ released σ, ∅).
Proof.
  intros Hwf Ht. destruct (free_spec σ t Hwf) as (m' & -> & Hm').
  repeat f_equal. apply map_eq. intros x. rewrite Hm', lookup_empty.
  destruct (decide _) as [|Hx]; [done|].
  apply not_elem_of_dom. rewrite Ht. by rewrite elem_of_list_to_set.
Qed.

End Release.

Section Tight.
Context {T : Type} (cmp : T → T → Z) `{!TotalOrder cmp}.
Implicit Types (t l r : tree T) (k : list (frame T)) (σ : mavl_t T).

Lemma taddrs_of_cells t t' : cells t = cells t' → taddrs t = taddrs t'.
Proof. intros E. by rewrite !taddrs_cells, E. Qed.

Lemma locate_cells data t :
  cells t = ccl (locate cmp data t []).2 ++ cells (locate cmp data t []).1
             ++ ccr (locate cmp data t []).2.
Proof. by rewrite <- cells_plug, locate_plug. Qed.

Lemma set_insert_mid (x nl : positive) (A B : list positive) :
  ({[x]} ∪ list_to_set (nl :: A ++ B) : gset positive) = list_to_set (nl :: A ++ x :: B).
Proof.
  apply set_eq. intros y.
  rewrite elem_of_union, !elem_of_list_to_set, elem_of_singleton.
  rewrite !elem_of_cons, !elem_of_app, elem_of_cons. naive_solver.
Qed.

Lemma set_remove_mid (a nl : positive) (A B : list positive) :
  NoDup (nl :: A ++ a :: B) →
  (list_to_set (nl :: A ++ a :: B) : gset positive) ∖ {[a]} = list_to_set (nl :: A ++ B).
Proof.
  intros [Hnl Hnd]%NoDup_cons.
  apply NoDup_app in Hnd as (_ & H1 & [H2 _]%NoDup_cons).
  apply set_eq. intros y.
  rewrite elem_of_difference, !elem_of_list_to_set, elem_of_singleton.
  rewrite !elem_of_cons, !elem_of_app, elem_of_cons.
  rewrite elem_of_app, elem_of_cons in Hnl.
  split; [naive_solver|]. intros Hy. split; [naive_solver|]. intros ->.
  destruct Hy as [->|[Hy|Hy]]; [naive_solver| |done].
  eapply H1; [exact Hy|]. by left.
Qed.

(** A push keeps the node memory tight and the destructor in place. *)
Lemma push_tight σ t data ok e σ' :
  inv cmp σ t → tight σ t →
  mavl_push cmp (Some σ) data ok = Some (e, Some σ') →
  ∃ t', inv cmp σ' t' ∧ tight σ' t' ∧ frd σ' = frd σ.
Proof.
  intros Hinv Ht E. pose proof (push_spec cmp σ t data ok Hinv) as Hs.
  pose proof (locate_cells data t) as Hc. pose proof (locate_plug cmp data t []) as Hp.
  destruct (locate cmp data t []) as [[|l a x c h r] k]; simpl in Hc, Hp.
  - destruct (ok && _).
    + destruct Hs as (σ1 & t1 & E1 & Hi & Hc1 & Hg). rewrite E1 in E. injection E as <- <-.
      exists t1. split; [done|].
      destruct Hg as (Hn & _ & Hf & _ & Hd). simpl in Hn, Hf, Hd. split; [|done].
      unfold tight in *. rewrite Hd, Hn. revert Hc1. generalize (fresh (dom (mem σ))).
      intros p Hc1. rewrite Ht.
      rewrite (taddrs_cells t1), Hc1, (taddrs_cells t), Hc.
      rewrite !fmap_app, fmap_cons. exact (set_insert_mid _ _ _ _).
    + rewrite Hs in E. injection E as <- <-. eauto.
  - destruct Hs as (σ1 & E1 & Hu & Hi). rewrite E1 in E. injection E as <- <-.
    eexists. split; [exact Hi|].
    unfold upd in Hu. destruct (mem σ !! a) as [n|] eqn:Ha; [|done].
    injection Hu as <-. simpl. split; [|done].
    unfold tight in *. simpl.
    rewrite dom_insert_lookup_L by eauto. rewrite Ht.
    assert (taddrs t = taddrs (plug (Node l a x (u32 (c + 1)) h r) k)) as ->; [|done].
    rewrite <- Hp. by rewrite !taddrs_plug.
Qed.

(** A pop keeps the node memory tight and the destructor in place. *)
Lemma pop_tight σ t data e σ' :
  inv cmp σ t → tight σ t →
  mavl_pop cmp (Some σ) data = Some (e, Some σ') →
  ∃ t', inv cmp σ' t' ∧ tight σ' t' ∧ frd σ' = frd σ.
Proof.
  intros Hinv Ht E. pose proof (pop_spec cmp σ t data Hinv) as Hs.
  destruct (locate cmp data t []) as [[|l a x c h r] k].
  - rewrite Hs in E. injection E as <- <-. eauto.
  - destruct Hs as (σ1 & t1 & E1 & Hi & Hc & Hc1 & Hsh). rewrite E1 in E. injection E as <- <-.
    exists t1. split; [done|].
    destruct Hsh as (Hn & _ & Hf & _ & Hd). split; [|done].
    assert (NoDup (nil σ :: taddrs t)) as Hnd by apply Hinv.
    unfold tight in *. rewrite Hd, Ht, Hn.
    revert Hc Hc1. generalize (ccl k ++ cells l) (cells r ++ ccr k). intros A B Hc Hc1.
    rewrite (taddrs_cells t) in Hnd |- *. rewrite (taddrs_cells t1), Hc1.
    rewrite Hc in Hnd |- *.
    rewrite fmap_app, fmap_cons in Hnd. rewrite !fmap_app, fmap_cons.
    exact (set_remove_mid _ _ _ _ Hnd).
Qed.

(** A fresh tree object. *)
Lemma mavl_tight has_frd garbage σ :
  mavl has_frd garbage true true = Some σ →
  tight σ Leaf ∧ frd σ = has_frd ∧ released σ = [].
Proof.
  unfold mavl. intros E. simplify_eq. unfold tight. simpl.
  split; [|done]. rewrite dom_singleton_L. simpl. by rewrite union_empty_r_L.
Qed.

(** Every history keeps the invariants, the node memory tight and the
    destructor in place. *)
Lemma run_tight ops : ∀ σ t,
  inv cmp σ t → tight σ t →
  ∃ σ' t', run cmp ops σ = Some σ' ∧ inv cmp σ' t' ∧ tight σ' t' ∧ frd σ' = frd σ.
Proof.
  induction ops as [|o ops IH]; intros σ t Hinv Ht; simpl; [eauto 10|].
  destruct (step_inv cmp o σ t Hinv) as (e & σ1 & t1 & E & _). rewrite E.
  assert (∃ t', inv cmp σ1 t' ∧ tight σ1 t' ∧ frd σ1 = frd σ) as (t' & Hi & Ht' & Hf).
  { unfold step in E. destruct o as [data ok|data].
    - destruct (mavl_push cmp (Some σ) data ok) as [[e' [σ2|]]|] eqn:E'; simplify_eq.
      by eapply push_tight.
    - destruct (mavl_pop cmp (Some σ) data) as [[e' [σ2|]]|] eqn:E'; simplify_eq.
      by eapply pop_tight. }
  destruct (IH σ1 t' Hi Ht') as (σ' & t'' & -> & ? & ? & Hf'). 
  exists σ', t''. split_and!; try done. congruence.
Qed.

End Tight.

(** ** Further properties of the macro tree *)

Section More.
Context {T : Type} (cmp : T → T → Z) `{!TotalOrder cmp}.
Implicit Types (t : tree T) (σ : mavl_t T) (k : T).

Lemma split_unique {A B} (f : A → B) (L1 L2 L1' L2' : list A) x x' :
  NoDup (f <$> (L1 ++ x :: L2)) → L1 ++ x :: L2 = L1' ++ x' :: L2' → f x = f x' →
  L1 = L1' ∧ x = x' ∧ L2 = L2'.
Proof.
  revert L1'. induction L1 as [|y L1 IH]; intros L1' Hnd E Hf.
  - destruct L1' as [|y' L1']; simpl in *; [by simplify_eq|].
    injection E as -> ->. exfalso.
    apply NoDup_cons in Hnd as [Hn _]. apply Hn.
    rewrite Hf. apply list_elem_of_fmap. exists x'. split; [done|].
    rewrite elem_of_app, elem_of_cons. auto.
  - destruct L1' as [|y' L1']; simpl in *.
    + injection E as -> <-. exfalso.
      apply NoDup_cons in Hnd as [Hn _]. apply Hn.
      rewrite <- Hf. apply list_elem_of_fmap. exists x. split; [done|].
      rewrite elem_of_app, elem_of_cons. auto.
    + injection E as -> E. apply NoDup_cons in Hnd as [_ Hnd].
      destruct (IH L1' Hnd E Hf) as (-> & -> & ->). done.
Qed.

Lemma cells_split_unique t (A B A' B' : list (positive * T * Z)) a a' k c c' :
  bst cmp t → cells t = A ++ (a, k, c) :: B → cells t = A' ++ (a', k, c') :: B' →
  A = A' ∧ a = a' ∧ c = c' ∧ B = B'.
Proof.
  intros Hb%(bst_nodup cmp) E E'. rewrite keys_cells, E in Hb. rewrite E in E'.
  destruct (split_unique _ _ _ _ _ _ _ Hb E' eq_refl) as (-> & [= -> ->] & ->). done.
Qed.

Lemma root_spec σ t :
  wf σ t →
  mavl_root (Some σ) true =
    Some (match t with
          | Leaf => (M_EMPTY_STRUCTURE, None)
          | Node _ _ x _ _ _ => (M_OK, Some x)
          end).
Proof.
  intros Hwf. unfold mavl_root. simpl. eapply query_run.
  rewrite (bind_run _ _ σ (nil σ) σ) by done.
  rewrite (bind_run _ _ σ (root σ) σ) by done.
  assert (root σ = ptr (nil σ) t) as -> by apply Hwf.
  destruct t as [|l a x c h r]; simpl.
  - by rewrite decide_True.
  - pose proof (wf_root_neq σ l a x c h r [] Hwf) as Hne.
    pose proof (wf_root_lookup σ l a x c h r [] Hwf) as Hl.
    rewrite decide_False by done. unfold bind, get. by rewrite Hl.
Qed.

Lemma locate_root l a x c h r :
  locate cmp x (Node l a x c h r) [] = (Node l a x c h r, []).
Proof. simpl. rewrite (cmp_refl cmp). done. Qed.

Lemma sorted_head_le (xs : list T) lo :
  StronglySorted (key_lt cmp) xs → head xs = Some lo → ∀ k, k ∈ xs → cmp lo k ≤ 0.
Proof.
  intros Hs Hh k Hk. destruct xs as [|y xs]; [done|]. simpl in Hh. simplify_eq.
  apply StronglySorted_inv in Hs as [_ Hall].
  apply elem_of_cons in Hk as [->|Hk].
  - by rewrite (cmp_refl cmp).
  - rewrite Forall_forall in Hall. specialize (Hall k Hk). unfold key_lt in Hall. lia.
Qed.

Lemma sorted_last_ge (xs : list T) hi :
  StronglySorted (key_lt cmp) xs → last xs = Some hi → ∀ k, k ∈ xs → 0 ≤ cmp hi k.
Proof.
  intros Hs Hh k Hk.
  destruct (last_Some xs hi) as [[A ->] _]; [done|].
  apply StronglySorted_app in Hs as (Hall & _ & _).
  apply elem_of_app in Hk as [Hk|Hk].
  - specialize (Hall k hi Hk ltac:(by left)). unfold key_lt in Hall.
    apply (cmp_flip hi k) in Hall. lia.
  - apply list_elem_of_singleton in Hk as ->. by rewrite (cmp_refl cmp).
Qed.

Lemma head_in {A} (xs : list A) x : head xs = Some x → x ∈ xs.
Proof. destruct xs; simpl; [done|]. intros [= ->]. by left. Qed.

Lemma last_in {A} (xs : list A) x : last xs = Some x → x ∈ xs.
Proof.
  intros H. destruct (last_Some xs x) as [[B ->] _]; [done|].
  rewrite elem_of_app, list_elem_of_singleton. auto.
Qed.

Lemma postorder_head t :
  t ≠ Leaf → ∃ x rest, postorder t = x :: rest ∧
                        (x ∈ keys (lsub t) ∨ x ∈ keys (rsub t) ∨
                         (lsub t = Leaf ∧ rsub t = Leaf)).
Proof.
  induction t as [|l IHl a d c h r IHr]; intros Ht; [done|]. simpl.
  destruct l as [|ll la ld lc lh lr].
  - destruct r as [|rl ra rd rc rh rr].
    + exists d, []. simpl. auto.
    + destruct IHr as (x & rest & E & Hx); [done|]. rewrite E. simpl.
      exists x, (rest ++ [d]). split; [done|]. right. left.
      change (x ∈ keys (Node rl ra rd rc rh rr)).
      rewrite <- postorder_perm, E. by left.
  - destruct IHl as (x & rest & E & Hx); [done|]. rewrite E. simpl.
    eexists x, _. split; [done|]. left.
    change (x ∈ keys (Node ll la ld lc lh lr)).
    rewrite <- postorder_perm, E. by left.
Qed.

Lemma find_node_loop_ht σ data t K fuel :
  wf σ (plug t K) → hc t → ht t ≤ Z.of_nat fuel →
  find_node_loop cmp fuel data (ptr (nil σ) t) σ =
    Some (ptr (nil σ) (locate cmp data t K).1, σ).
Proof.
  revert K fuel. induction t as [|l IHl a x c h r IHr]; intros K fuel Hwf Hhc Hfuel.
  - destruct fuel; simpl; unfold bind, get_nil, ret; simpl; by rewrite decide_True.
  - simpl in Hhc, Hfuel. destruct Hhc as (Hh & Hhl & Hhr).
    pose proof (hc_nonneg _ Hhl). pose proof (hc_nonneg _ Hhr).
    destruct fuel as [|fuel]; [lia|].
    pose proof (wf_root_neq _ _ _ _ _ _ _ _ Hwf) as Hne.
    pose proof (wf_root_lookup _ _ _ _ _ _ _ _ Hwf) as Hl.
    simpl. unfold bind, get_nil, get. simpl.
    rewrite decide_False by done. rewrite Hl. simpl.
    destruct (cmp x data <=? -1) eqn:E1.
    + assert ((cmp x data >=? 1) = false) as -> by (apply Z.leb_le in E1; zbool).
      rewrite Hl. simpl. rewrite (IHr (FR l a x c h :: K) fuel Hwf); [done|done|lia].
    + destruct (cmp x data >=? 1) eqn:E2.
      * rewrite Hl. simpl. rewrite (IHl (FL a x c h r :: K) fuel Hwf); [done|done|lia].
      * done.
Qed.

Lemma lca_t_sym x1 x2 t : lca_t cmp x1 x2 t = lca_t cmp x2 x1 t.
Proof.
  induction t as [|l IHl a d c h r IHr]; simpl; [done|].
  rewrite (andb_comm (cmp d x2 >=? 1)), (andb_comm (cmp d x2 <=? -1)).
  by rewrite IHl, IHr.
Qed.

Lemma lca_t_between x1 x2 t z :
  lca_t cmp x1 x2 t = (M_OK, Some z) →
  z ∈ keys t ∧ ¬ (1 ≤ cmp z x1 ∧ 1 ≤ cmp z x2) ∧ ¬ (cmp z x1 ≤ -1 ∧ cmp z x2 ≤ -1).
Proof.
  induction t as [|l IHl a d c h r IHr]; simpl; [done|].
  destruct ((cmp d x1 >=? 1) && (cmp d x2 >=? 1)) eqn:E1.
  { intros (? & ?)%IHl. split; [|done]. rewrite elem_of_app. auto. }
  destruct ((cmp d x1 <=? -1) && (cmp d x2 <=? -1)) eqn:E2.
  { intros (? & ?)%IHr. split; [|done]. rewrite elem_of_app, elem_of_cons. auto. }
  intros [= ->]. split; [rewrite elem_of_app, elem_of_cons; auto|].
  apply andb_false_iff in E1, E2. split; intros [H1 H2].
  - destruct E1 as [E|E]; zhyp; lia.
  - destruct E2 as [E|E]; zhyp; lia.
Qed.

(** X2: [mavl_traverse_inorder] hands the payloads to [action] in strictly
    increasing order of the comparator: as many as [mavl_size] reports,
    and exactly the payloads that [mavl_find] finds.  A [NULL] tree is
    answered with [M_NULL_INPUT] and a [NULL] action with [M_NULL_ACTION],
    nothing being visited. *)
Theorem inorder_visits_sorted σ t :
  inv cmp σ t →
  mavl_traverse_inorder (Some σ) true =
    Some (M_OK, match keys t with
                | [] => [Printed_nil]
                | _ => Printed_open :: map Action (keys t) ++ [Printed_close]
                end) ∧
  StronglySorted (key_lt cmp) (keys t) ∧
  Z.of_nat (length (keys t)) = mavl_size (Some σ) ∧
  (∀ k, k ∈ keys t ↔ mavl_find cmp (Some σ) k true = Some (M_OK, Some k)) ∧
  mavl_traverse_inorder (Some σ) false = Some (M_NULL_ACTION, []) ∧
  (∀ action, mavl_traverse_inorder (None : option (mavl_t T)) action =
             Some (M_NULL_INPUT, [])).
Proof.
  intros (Hwf & Hbst & _ & _ & _ & Hsz). split_and!; try done.
  - rewrite (inorder_spec σ t Hwf). destruct t as [|l a d c h r]; [done|].
    simpl. by destruct (keys l).
  - by apply bst_sorted.
  - simpl. by rewrite Hsz, card_keys.
  - intros k. split; [by apply find_present|].
    intros E. rewrite (find_spec cmp σ t k true Hwf) in E.
    pose proof (locate_spec cmp k t [] Hbst) as Hl.
    destruct ((locate cmp k t []).1); [done|]. apply Hl.
Qed.

(** X3: [mavl_traverse_preorder] hands the root's payload to [action]
    first, then the payloads of the left subtree, then those of the right
    subtree; every payload of the tree is visited once. *)
Theorem preorder_visits_root_first σ t :
  wf σ t →
  mavl_traverse_preorder (Some σ) true =
    Some (M_OK, match t with
                | Leaf => [Printed_nil]
                | _ => Printed_open :: map Action (preorder t) ++ [Printed_close]
                end) ∧
  preorder t ≡ₚ keys t ∧
  (∀ x, mavl_root (Some σ) true = Some (M_OK, Some x) → head (preorder t) = Some x).
Proof.
  intros Hwf. split_and!.
  - apply (preorder_spec σ t Hwf).
  - apply preorder_perm.
  - intros x. rewrite (root_spec σ t Hwf). destruct t; [done|]. by intros [= ->].
Qed.

(** X4: [mavl_traverse_postorder] calls [action] on a node before it
    descends: it visits the payloads in the order of
    [mavl_traverse_preorder], which is not the post-order sequence as soon
    as the tree has two nodes. *)
Theorem postorder_visits_like_preorder σ t :
  inv cmp σ t →
  mavl_traverse_postorder (Some σ) true = mavl_traverse_preorder (Some σ) true ∧
  (1 < mavl_size (Some σ) →
   mavl_traverse_postorder (Some σ) true ≠
     Some (M_OK, Printed_open :: map Action (postorder t) ++ [Printed_close])).
Proof.
  intros (Hwf & Hbst & _ & _ & _ & Hsz). split.
  - by rewrite (postorder_spec σ t Hwf), (preorder_spec σ t Hwf).
  - unfold mavl_size. rewrite Hsz. intros Hc. rewrite (postorder_spec σ t Hwf).
    destruct t as [|l a d c h r]; [simpl in Hc; lia|].
    intros [= E].
    apply (app_inv_tail _ (map Action (preorder (Node l a d c h r)))
             (map Action (postorder (Node l a d c h r)))) in E.
    apply (f_equal (fmap (λ e, match e with Action x => Some x | _ => None end))) in E.
    rewrite <- !list_fmap_compose in E.
    destruct (postorder_head (Node l a d c h r)) as (x & rest & Ep & Hx); [done|].
    rewrite Ep in E. simpl in E. injection E as E _. simplify_eq.
    simpl in Hbst. destruct Hbst as (Hl & Hr & _). simpl in Hx.
    rewrite Forall_forall in Hl, Hr.
    destruct Hx as [Hx|[Hx|[-> ->]]].
    + specialize (Hl _ Hx). rewrite (cmp_refl cmp) in Hl. lia.
    + specialize (Hr _ Hx). rewrite (cmp_refl cmp) in Hr. lia.
    + simpl in Hc. lia.
Qed.

(** X5: [mavl_size] counts nodes, not pushes: a push of a payload that is
    in the tree returns [M_OK] and leaves the size as it is, a push that
    returns [M_OK] for a payload that is not in the tree adds one, and a
    push that returns anything else returns [M_MALLOC_FAILED] and leaves
    the tree object unchanged. *)
Theorem push_size_accounting σ t k ok e σ' :
  inv cmp σ t → mavl_push cmp (Some σ) k ok = Some (e, Some σ') →
  (k ∈ keys t → e = M_OK ∧ mavl_size (Some σ') = mavl_size (Some σ)) ∧
  (k ∉ keys t → e = M_OK → mavl_size (Some σ') = mavl_size (Some σ) + 1) ∧
  (e ≠ M_OK → e = M_MALLOC_FAILED ∧ σ' = σ).
Proof.
  intros Hinv E. pose proof (push_spec cmp σ t k ok Hinv) as Hs.
  pose proof (locate_spec cmp k t [] (proj1 (proj2 Hinv))) as Hl.
  pose proof (locate_cells cmp k t) as Hc.
  destruct (locate cmp k t []) as [[|l a x c h r] K]; simpl in Hl, Hc.
  - destruct (ok && _).
    + destruct Hs as (σ1 & t1 & E1 & Hi & Hc1 & _). rewrite E1 in E.
      injection E as <- <-. split_and!; try done.
      intros _ _. simpl. destruct Hi as (_ & _ & _ & _ & _ & ->).
      destruct Hinv as (_ & _ & _ & _ & _ & ->).
      rewrite !card_cells, Hc1, Hc, !length_app. simpl. lia.
    + rewrite Hs in E. injection E as <- <-. split_and!; try done.
  - destruct Hl as [-> Hin]. destruct Hs as (σ1 & E1 & Hu & _). rewrite E1 in E.
    injection E as <- <-. split_and!; try done.
    intros _. split; [done|]. unfold upd in Hu.
    destruct (mem σ !! a); [|done]. by injection Hu as <-.
Qed.

(** X6: on a tree object between calls the three tests of emptiness
    agree: [mavl_empty] answers [mtrue], [mavl_size] is [0] and
    [mavl_root] reports [M_EMPTY_STRUCTURE] exactly when the tree holds no
    payload; otherwise [mavl_root] delivers a payload of the tree.  A
    [NULL] tree is empty and has size [SIZE_MAX]. *)
Theorem empty_root_size_agree σ t :
  inv cmp σ t →
  (mavl_empty (Some σ) = true ↔ keys t = []) ∧
  (mavl_size (Some σ) = 0 ↔ keys t = []) ∧
  (mavl_root (Some σ) true = Some (M_EMPTY_STRUCTURE, None) ↔ keys t = []) ∧
  (keys t ≠ [] →
   ∃ x, mavl_root (Some σ) true = Some (M_OK, Some x) ∧
        mavl_find cmp (Some σ) x true = Some (M_OK, Some x)) ∧
  mavl_empty (None : option (mavl_t T)) = true ∧
  mavl_size (None : option (mavl_t T)) = 2 ^ 64 - 1.
Proof.
  intros (Hwf & Hbst & _ & _ & _ & Hsz).
  pose proof (wf_leaf_iff σ t Hwf) as Hroot.
  assert (keys t = [] ↔ t = Leaf) as Hk.
  { split; [|by intros ->]. destruct t as [|l a d c h r]; [done|]. simpl.
    intros E. by destruct (keys l). }
  split_and!; try done.
  - simpl. rewrite Hk, orb_true_iff, bool_decide_eq_true, Z.eqb_eq, Hsz, card_zero.
    rewrite Hroot. tauto.
  - simpl. by rewrite Hk, Hsz, card_zero.
  - rewrite (root_spec σ t Hwf), Hk. destruct t; [done|]. split; intros; done.
  - intros Hne. rewrite (root_spec σ t Hwf). destruct t as [|l a d c h r]; [done|].
    exists d. split; [done|]. apply (find_present cmp σ _ d Hwf Hbst).
    simpl. rewrite elem_of_app, elem_of_cons. auto.
Qed.

(** X7: called with the payload that [mavl_root] delivers, [mavl_min] and
    [mavl_max] deliver the least and the greatest payload of the whole
    tree. *)
Theorem min_max_from_root σ t x :
  inv cmp σ t → mavl_root (Some σ) true = Some (M_OK, Some x) →
  ∃ lo hi,
    mavl_min cmp (Some σ) x true = Some (M_OK, Some lo) ∧
    mavl_max cmp (Some σ) x true = Some (M_OK, Some hi) ∧
    lo ∈ keys t ∧ hi ∈ keys t ∧
    ∀ k, k ∈ keys t → cmp lo k ≤ 0 ∧ 0 ≤ cmp hi k.
Proof.
  intros (Hwf & Hbst & _) Hr. rewrite (root_spec σ t Hwf) in Hr.
  destruct t as [|l a d c h r]; [done|]. injection Hr as ->.
  destruct (wf_nil σ _ Hwf) as (n0 & Hn0).
  pose proof (min_spec cmp σ _ x n0 Hwf Hn0) as Hmin.
  pose proof (max_spec cmp σ _ x n0 Hwf Hn0) as Hmax.
  pose proof (locate_root l a x c h r) as Hloc.
  rewrite Hloc in Hmin, Hmax. cbn [fst] in Hmin, Hmax.
  set (t := Node l a x c h r) in *.
  apply (bst_sorted cmp) in Hbst.
  destruct (head (keys t)) as [lo|] eqn:Eh.
  2:{ subst t. simpl in Eh. by destruct (keys l). }
  destruct (last (keys t)) as [hi|] eqn:El.
  2:{ apply last_None in El. subst t. simpl in El. by destruct (keys l). }
  exists lo, hi. simpl in Hmin, Hmax. split_and!; try done.
  - by apply head_in.
  - by apply last_in.
  - intros k Hk. split.
    + by apply (sorted_head_le (keys t)).
    + by apply (sorted_last_ge (keys t)).
Qed.

(** X8: after any history of pushes and pops on a fresh tree,
    [mavl_free] returns [M_OK], leaves [NULL] in the handle and no node
    object allocated; with a destructor given at creation the payloads of
    the tree are handed to it children first, each once, and without a
    destructor none is.  A [NULL] argument and a [NULL] handle are answered
    with [M_FREE_NULL]. *)
Theorem free_releases_every_node has_frd garbage (ops : list (op (T:=T))) :
  (∃ σ0 σ t,
     mavl has_frd garbage true true = Some σ0 ∧ run cmp ops σ0 = Some σ ∧ wf σ t ∧
     mavl_free (Some (Some σ)) =
       Some (M_OK, None,
             (if has_frd then rev (postorder t) else []) ++ released σ, ∅)) ∧
  mavl_free (Some (None : option (mavl_t T))) = Some (M_FREE_NULL, None, [], ∅) ∧
  mavl_free (None : option (option (mavl_t T))) = Some (M_FREE_NULL, None, [], ∅).
Proof.
  split; [|done].
  destruct (mavl has_frd garbage true true) as [σ0|] eqn:E0; [|done].
  pose proof (mavl_inv cmp _ _ _ E0) as Hinv0.
  destruct (mavl_tight _ _ _ E0) as (Ht0 & Hf0 & _).
  destruct (run_tight cmp ops σ0 Leaf Hinv0 Ht0) as (σ & t & Hrun & Hinv & Ht & Hf).
  exists σ0, σ, t. split_and!; try done; [apply Hinv|].
  rewrite (free_tight σ t (proj1 Hinv) Ht). by rewrite Hf, Hf0.
Qed.

(** X9: a push of a payload that is not in the tree followed by a pop of
    the same payload gives back the former contents: the same node
    objects with the same payloads and counts in the same order, and the
    same size.  The shape may differ. *)
Theorem push_then_pop_restores σ t k :
  inv cmp σ t → k ∉ keys t → Z.of_nat (size (mem σ)) < addr_space →
  ∃ σ1 σ2 t2,
    mavl_push cmp (Some σ) k true = Some (M_OK, Some σ1) ∧
    mavl_pop cmp (Some σ1) k = Some (M_OK, Some σ2) ∧
    inv cmp σ2 t2 ∧ cells t2 = cells t ∧
    mavl_size (Some σ2) = mavl_size (Some σ) ∧ dom (mem σ2) = dom (mem σ).
Proof.
  intros Hinv Hk Hlt. pose proof (push_spec cmp σ t k true Hinv) as Hs.
  pose proof (locate_spec cmp k t [] (proj1 (proj2 Hinv))) as Hl.
  pose proof (locate_cells cmp k t) as Hc.
  destruct (locate cmp k t []) as [[|l a x c h r] K]; simpl in Hl, Hc.
  2:{ by destruct Hl. }
  apply Z.ltb_lt in Hlt. rewrite Hlt in Hs. simpl in Hs.
  destruct Hs as (σ1 & t1 & E1 & Hi1 & Hc1 & Hg).
  pose proof (pop_spec cmp σ1 t1 k Hi1) as Hs.
  pose proof (locate_spec cmp k t1 [] (proj1 (proj2 Hi1))) as Hl1.
  destruct (locate cmp k t1 []) as [[|l a x c h r] K']; simpl in Hl1.
  { destruct Hl1. rewrite keys_cells, Hc1, fmap_app, fmap_cons. simpl.
    rewrite elem_of_app, elem_of_cons. auto. }
  destruct Hl1 as [-> _]. destruct Hs as (σ2 & t2 & E2 & Hi2 & Hc' & Hc2 & Hsh).
  destruct (cells_split_unique t1 _ _ _ _ _ _ _ _ _ (proj1 (proj2 Hi1)) Hc' Hc1)
    as (EA & -> & -> & EB).
  assert (cells t2 = cells t) as Ecells by by rewrite Hc2, EA, EB, Hc.
  exists σ1, σ2, t2. split_and!; try done.
  - simpl. destruct Hi2 as (_ & _ & _ & _ & _ & ->).
    destruct Hinv as (_ & _ & _ & _ & _ & ->). by rewrite !card_cells, Ecells.
  - destruct Hsh as (_ & _ & _ & _ & ->). destruct Hg as (_ & _ & _ & _ & Hd).
    simpl in Hd. rewrite Hd.
    pose proof (is_fresh (dom (mem σ))) as Hfr.
    apply set_eq. intros y.
    rewrite elem_of_difference, elem_of_union, elem_of_singleton.
    split; [tauto|]. intros Hy. split; [auto|]. by intros ->.
Qed.

(** X10: a push of a payload that is not in the tree puts one new node
    object with count [1] at the payload's place in the order; the node
    objects that were in the tree keep their payloads, their counts and
    their order, and every payload that could be found still can. *)
Theorem push_inserts_in_order σ t k :
  inv cmp σ t → k ∉ keys t → Z.of_nat (size (mem σ)) < addr_space →
  ∃ σ' t' A B p,
    mavl_push cmp (Some σ) k true = Some (M_OK, Some σ') ∧ inv cmp σ' t' ∧
    mem σ !! p = None ∧ cells t = A ++ B ∧ cells t' = A ++ (p, k, 1) :: B ∧
    ∀ x, x ∈ keys t → mavl_find cmp (Some σ') x true = Some (M_OK, Some x).
Proof.
  intros Hinv Hk Hlt. pose proof (push_spec cmp σ t k true Hinv) as Hs.
  pose proof (locate_spec cmp k t [] (proj1 (proj2 Hinv))) as Hl.
  pose proof (locate_cells cmp k t) as Hc.
  destruct (locate cmp k t []) as [[|l a x c h r] K]; simpl in Hl, Hc.
  2:{ by destruct Hl. }
  apply Z.ltb_lt in Hlt. rewrite Hlt in Hs. simpl in Hs.
  destruct Hs as (σ1 & t1 & E1 & Hi1 & Hc1 & Hg).
  exists σ1, t1, (ccl K), (ccr K), (fresh (dom (mem σ))). split_and!; try done.
  - apply not_elem_of_dom. apply is_fresh.
  - intros x Hx. apply (find_present cmp σ1 t1 x); [apply Hi1|apply Hi1|].
    rewrite keys_cells, Hc in Hx. rewrite keys_cells, Hc1.
    rewrite fmap_app in Hx. rewrite fmap_app, fmap_cons.
    rewrite elem_of_app in Hx. rewrite elem_of_app, elem_of_cons. tauto.
Qed.

(** X11: a pop of a payload of the tree removes the node object that
    holds it and nothing else: the other node objects keep their payloads,
    their counts and their order. *)
Theorem pop_removes_only_its_node σ t (A B : list (positive * T * Z)) a k c :
  inv cmp σ t → cells t = A ++ (a, k, c) :: B →
  ∃ σ' t',
    mavl_pop cmp (Some σ) k = Some (M_OK, Some σ') ∧ inv cmp σ' t' ∧
    cells t' = A ++ B ∧
    ∀ x, x ∈ keys t' → mavl_find cmp (Some σ') x true = Some (M_OK, Some x).
Proof.
  intros Hinv Hc. pose proof (pop_spec cmp σ t k Hinv) as Hs.
  pose proof (locate_spec cmp k t [] (proj1 (proj2 Hinv))) as Hl.
  destruct (locate cmp k t []) as [[|l a' x c' h r] K]; simpl in Hl.
  { destruct Hl. rewrite keys_cells, Hc, fmap_app, fmap_cons. simpl.
    rewrite elem_of_app, elem_of_cons. auto. }
  destruct Hl as [-> _]. destruct Hs as (σ' & t' & E & Hi & Hc' & Hc2 & _).
  destruct (cells_split_unique t _ _ _ _ _ _ _ _ _ (proj1 (proj2 Hinv)) Hc' Hc)
    as (EA & -> & -> & EB).
  exists σ', t'. split_and!; try done.
  - by rewrite Hc2, EA, EB.
  - intros x Hx. apply (find_present cmp σ' t' x); [apply Hi|apply Hi|done].
Qed.

(** X12: the height [h] stored in the root node bounds the work of a
    search and is logarithmic in the size: [2^(h/2) <= size + 1], and the
    loop of [ID##_internal_mavl_find_node] ends within [h] iterations. *)
Theorem height_is_logarithmic σ t :
  inv cmp σ t →
  ∃ n, mem σ !! root σ = Some n ∧
       2 ^ (n_height n / 2) ≤ mavl_size (Some σ) + 1 ∧
       ∀ data, find_node_loop cmp (Z.to_nat (n_height n)) data (root σ) σ =
               internal_mavl_find_node cmp data σ.
Proof.
  intros (Hwf & Hbst & Havl & Hhc & _ & Hsz).
  assert (∃ n, mem σ !! root σ = Some n ∧ n_height n = ht t) as (n & Hn & Hh).
  { destruct Hwf as ((n0 & Hn0 & Hok) & Hr & Hrep & _). rewrite Hr.
    destruct t as [|l a d c h r]; simpl.
    - exists n0. split; [done|]. apply Hok.
    - eexists. split; [apply Hrep|done]. }
  exists n. split; [done|]. rewrite Hh. split.
  - simpl. rewrite Hsz. by apply avl_card.
  - intros data. rewrite (find_node_ok cmp σ t data Hwf).
    assert (root σ = ptr (nil σ) t) as -> by apply Hwf.
    apply (find_node_loop_ht σ data t []); [done|done|].
    pose proof (hc_nonneg _ Hhc). lia.
Qed.

(** X13: [mavl_pred] and [mavl_succ] answer a payload that is not in the
    tree with [M_INVALID_INPUT] and deliver nothing; for a payload of the
    tree and without an accumulator they return [M_OK]. *)
Theorem pred_succ_of_missing_key σ t k :
  inv cmp σ t →
  (k ∉ keys t →
   ∀ acc, mavl_pred cmp (Some σ) k acc = Some (M_INVALID_INPUT, None) ∧
          mavl_succ cmp (Some σ) k acc = Some (M_INVALID_INPUT, None)) ∧
  (k ∈ keys t →
   mavl_pred cmp (Some σ) k false = Some (M_OK, None) ∧
   mavl_succ cmp (Some σ) k false = Some (M_OK, None)).
Proof.
  intros (Hwf & Hbst & _).
  pose proof (find_nil cmp σ t k Hwf Hbst) as Hnil.
  split.
  - intros Hk acc. apply Hnil in Hk. split.
    + unfold mavl_pred. eapply query_run.
      rewrite (bind_run _ _ σ (nil σ) σ) by done.
      rewrite (bind_run _ _ _ _ _ (find_node_ok cmp σ t k Hwf)).
      by rewrite decide_True.
    + unfold mavl_succ. eapply query_run.
      rewrite (bind_run _ _ σ (nil σ) σ) by done.
      rewrite (bind_run _ _ _ _ _ (find_node_ok cmp σ t k Hwf)).
      by rewrite decide_True.
  - intros Hk. assert (ptr (nil σ) (locate cmp k t []).1 ≠ nil σ) as Hne.
    { intros E. by apply Hnil in E. }
    split.
    + unfold mavl_pred. eapply query_run.
      rewrite (bind_run _ _ σ (nil σ) σ) by done.
      rewrite (bind_run _ _ _ _ _ (find_node_ok cmp σ t k Hwf)).
      by rewrite decide_False.
    + unfold mavl_succ. eapply query_run.
      rewrite (bind_run _ _ σ (nil σ) σ) by done.
      rewrite (bind_run _ _ _ _ _ (find_node_ok cmp σ t k Hwf)).
      by rewrite decide_False.
Qed.

(** X14: the payload that [mavl_lca] delivers for two payloads of the
    tree does not depend on their order, is a payload of the tree, and
    lies between the two. *)
Theorem lca_lies_between σ t k1 k2 :
  inv cmp σ t → k1 ∈ keys t → k2 ∈ keys t → cmp k1 k2 ≤ 0 →
  ∃ z, mavl_lca cmp (Some σ) k1 k2 true = Some (M_OK, Some z) ∧
       mavl_lca cmp (Some σ) k2 k1 true = Some (M_OK, Some z) ∧
       mavl_find cmp (Some σ) z true = Some (M_OK, Some z) ∧
       cmp k1 z ≤ 0 ∧ cmp z k2 ≤ 0.
Proof.
  intros (Hwf & Hbst & _) H1 H2 Hle.
  destruct (lca_t_ref cmp k1 k2 t Hbst H1 H2) as [[z Hz] E]. rewrite Hz in E.
  destruct (lca_t_between k1 k2 t z E) as (Hin & Hn1 & Hn2).
  exists z. split_and!.
  - by rewrite (lca_present cmp σ t k1 k2 Hwf Hbst H1 H2), E.
  - by rewrite (lca_present cmp σ t k2 k1 Hwf Hbst H2 H1), lca_t_sym, E.
  - by apply (find_present cmp σ t z).
  - destruct (Z_le_gt_dec (cmp k1 z) 0) as [|Hgt]; [done|]. exfalso.
    assert (cmp z k1 ≤ -1) as Ha by (apply (cmp_flip k1 z); lia).
    apply Hn2. split; [done|].
    destruct (Z.eq_dec (cmp k1 k2) 0) as [E0|Hne].
    + apply (cmp_eq k1 k2) in E0 as <-. done.
    + apply (cmp_trans z k1 k2); [done|lia].
  - destruct (Z_le_gt_dec (cmp z k2) 0) as [|Hgt]; [done|]. exfalso.
    assert (cmp k2 z ≤ -1) as Ha by (apply (cmp_flip z k2); lia).
    apply Hn1. split; [|lia].
    destruct (Z.eq_dec (cmp k1 k2) 0) as [E0|Hne].
    + apply (cmp_eq k1 k2) in E0 as ->. lia.
    + apply (cmp_flip z k1). apply (cmp_trans k1 k2 z); [lia|done].
Qed.

End More.

(** ** The further properties on concrete trees *)

Lemma inorder_visits_sorted_witness :
  ∃ σ, build 0 ops_213 = Some σ ∧
    mavl_traverse_inorder (Some σ) true =
      Some (M_OK, match keys (tree_213 1) with
                  | [] => [Printed_nil]
                  | _ => Printed_open :: map Action (keys (tree_213 1)) ++ [Printed_close]
                  end) ∧
    StronglySorted (key_lt cmp_int) (keys (tree_213 1)) ∧
    Z.of_nat (length (keys (tree_213 1))) = mavl_size (Some σ) ∧
    (∀ k, k ∈ keys (tree_213 1) ↔
          mavl_find cmp_int (Some σ) k true = Some (M_OK, Some k)) ∧
    mavl_traverse_inorder (Some σ) false = Some (M_NULL_ACTION, []) ∧
    (∀ action, mavl_traverse_inorder (None : option (mavl_t Z)) action =
               Some (M_NULL_INPUT, [])).
Proof.
  eexists. split; [vm_compute; reflexivity|].
  apply (inorder_visits_sorted cmp_int _ (tree_213 1)). unfold tree_213. ex_inv.
Defined.

Lemma preorder_visits_root_first_witness :
  ∃ σ, build 0 ops_213 = Some σ ∧
    mavl_traverse_preorder (Some σ) true =
      Some (M_OK, Printed_open :: map Action [2; 1; 3] ++ [Printed_close]) ∧
    preorder (tree_213 1) ≡ₚ keys (tree_213 1) ∧
    (∀ x, mavl_root (Some σ) true = Some (M_OK, Some x) →
          head (preorder (tree_213 1)) = Some x).
Proof.
  eexists. split; [vm_compute; reflexivity|].
  apply (preorder_visits_root_first _ (tree_213 1)). unfold tree_213. ex_inv.
Defined.

Lemma postorder_visits_like_preorder_witness :
  ∃ σ, build 0 ops_213 = Some σ ∧
    mavl_traverse_postorder (Some σ) true = mavl_traverse_preorder (Some σ) true ∧
    (1 < mavl_size (Some σ) →
     mavl_traverse_postorder (Some σ) true ≠
       Some (M_OK, Printed_open :: map Action (postorder (tree_213 1)) ++ [Printed_close])).
Proof.
  eexists. split; [vm_compute; reflexivity|].
  apply (postorder_visits_like_preorder cmp_int _ (tree_213 1)). unfold tree_213. ex_inv.
Defined.

Lemma push_size_accounting_witness :
  ∃ σ σ', build 0 ops_213 = Some σ ∧
    mavl_push cmp_int (Some σ) 7 true = Some (M_OK, Some σ') ∧
    (7 ∈ keys (tree_213 1) → M_OK = M_OK ∧ mavl_size (Some σ') = mavl_size (Some σ)) ∧
    (7 ∉ keys (tree_213 1) → M_OK = M_OK →
     mavl_size (Some σ') = mavl_size (Some σ) + 1) ∧
    (M_OK ≠ M_OK → M_OK = M_MALLOC_FAILED ∧ σ' = σ).
Proof.
  eexists. eexists. split; [vm_compute; reflexivity|].
  split; [vm_compute; reflexivity|].
  apply (push_size_accounting cmp_int _ (tree_213 1) 7 true M_OK).
  - unfold tree_213. ex_inv.
  - vm_compute. reflexivity.
Defined.

Lemma empty_root_size_agree_witness :
  ∃ σ, build 0 ops_213 = Some σ ∧
    (mavl_empty (Some σ) = true ↔ keys (tree_213 1) = []) ∧
    (mavl_size (Some σ) = 0 ↔ keys (tree_213 1) = []) ∧
    (mavl_root (Some σ) true = Some (M_EMPTY_STRUCTURE, None) ↔
     keys (tree_213 1) = []) ∧
    (keys (tree_213 1) ≠ [] →
     ∃ x, mavl_root (Some σ) true = Some (M_OK, Some x) ∧
          mavl_find cmp_int (Some σ) x true = Some (M_OK, Some x)) ∧
    mavl_empty (None : option (mavl_t Z)) = true ∧
    mavl_size (None : option (mavl_t Z)) = 2 ^ 64 - 1.
Proof.
  eexists. split; [vm_compute; reflexivity|].
  apply (empty_root_size_agree cmp_int _ (tree_213 1)). unfold tree_213. ex_inv.
Defined.

Lemma min_max_from_root_witness :
  ∃ σ, build 0 ops_213 = Some σ ∧
    ∃ lo hi,
      mavl_min cmp_int (Some σ) 2 true = Some (M_OK, Some lo) ∧
      mavl_max cmp_int (Some σ) 2 true = Some (M_OK, Some hi) ∧
      lo ∈ keys (tree_213 1) ∧ hi ∈ keys (tree_213 1) ∧
      ∀ k, k ∈ keys (tree_213 1) → cmp_int lo k ≤ 0 ∧ 0 ≤ cmp_int hi k.
Proof.
  eexists. split; [vm_compute; reflexivity|].
  apply (min_max_from_root cmp_int _ (tree_213 1) 2).
  - unfold tree_213. ex_inv.
  - vm_compute. reflexivity.
Defined.

Lemma free_releases_every_node_witness :
  (∃ σ0 σ t,
     mavl true 0 true true = Some σ0 ∧
     run cmp_int [Push 2 true; Push 1 true; Push 3 true; Pop 2] σ0 = Some σ ∧
     wf σ t ∧
     mavl_free (Some (Some σ)) =
       Some (M_OK, None, rev (postorder t) ++ released σ, ∅)) ∧
  mavl_free (Some (None : option (mavl_t Z))) = Some (M_FREE_NULL, None, [], ∅) ∧
  mavl_free (None : option (option (mavl_t Z))) = Some (M_FREE_NULL, None, [], ∅).
Proof.
  exact (free_releases_every_node cmp_int true 0
           [Push 2 true; Push 1 true; Push 3 true; Pop 2]).
Defined.

Lemma push_then_pop_restores_witness :
  ∃ σ, build 0 ops_213 = Some σ ∧
    ∃ σ1 σ2 t2,
      mavl_push cmp_int (Some σ) 7 true = Some (M_OK, Some σ1) ∧
      mavl_pop cmp_int (Some σ1) 7 = Some (M_OK, Some σ2) ∧
      inv cmp_int σ2 t2 ∧ cells t2 = cells (tree_213 1) ∧
      mavl_size (Some σ2) = mavl_size (Some σ) ∧ dom (mem σ2) = dom (mem σ).
Proof.
  eexists. split; [vm_compute; reflexivity|].
  apply (push_then_pop_restores cmp_int _ (tree_213 1) 7).
  - unfold tree_213. ex_inv.
  - unfold tree_213. cbn [keys app]. set_solver.
  - vm_compute. reflexivity.
Defined.

Lemma push_inserts_in_order_witness :
  ∃ σ, build 0 ops_213 = Some σ ∧
    ∃ σ' t' A B p,
      mavl_push cmp_int (Some σ) 7 true = Some (M_OK, Some σ') ∧ inv cmp_int σ' t' ∧
      mem σ !! p = None ∧ cells (tree_213 1) = A ++ B ∧
      cells t' = A ++ (p, 7, 1) :: B ∧
      ∀ x, x ∈ keys (tree_213 1) →
           mavl_find cmp_int (Some σ') x true = Some (M_OK, Some x).
Proof.
  eexists. split; [vm_compute; reflexivity|].
  apply (push_inserts_in_order cmp_int _ (tree_213 1) 7).
  - unfold tree_213. ex_inv.
  - unfold tree_213. cbn [keys app]. set_solver.
  - vm_compute. reflexivity.
Defined.

Lemma pop_removes_only_its_node_witness :
  ∃ σ, build 0 ops_213 = Some σ ∧
    ∃ σ' t',
      mavl_pop cmp_int (Some σ) 2 = Some (M_OK, Some σ') ∧ inv cmp_int σ' t' ∧
      cells t' = [(3%positive, 1, 1)] ++ [(4%positive, 3, 1)] ∧
      ∀ x, x ∈ keys t' → mavl_find cmp_int (Some σ') x true = Some (M_OK, Some x).
Proof.
  eexists. split; [vm_compute; reflexivity|].
  apply (pop_removes_only_its_node cmp_int _ (tree_213 1)
           [(3%positive, 1, 1)] [(4%positive, 3, 1)] 2%positive 2 1).
  - unfold tree_213. ex_inv.
  - reflexivity.
Defined.

Lemma height_is_logarithmic_witness :
  ∃ σ, build 0 ops_213 = Some σ ∧
    ∃ n, mem σ !! root σ = Some n ∧
         2 ^ (n_height n / 2) ≤ mavl_size (Some σ) + 1 ∧
         ∀ data, find_node_loop cmp_int (Z.to_nat (n_height n)) data (root σ) σ =
                 internal_mavl_find_node cmp_int data σ.
Proof.
  eexists. split; [vm_compute; reflexivity|].
  apply (height_is_logarithmic cmp_int _ (tree_213 1)). unfold tree_213. ex_inv.
Defined.

Lemma pred_succ_of_missing_key_witness :
  ∃ σ, build 0 ops_213 = Some σ ∧
    (7 ∉ keys (tree_213 1) →
     ∀ acc, mavl_pred cmp_int (Some σ) 7 acc = Some (M_INVALID_INPUT, None) ∧
            mavl_succ cmp_int (Some σ) 7 acc = Some (M_INVALID_INPUT, None)) ∧
    (7 ∈ keys (tree_213 1) →
     mavl_pred cmp_int (Some σ) 7 false = Some (M_OK, None) ∧
     mavl_succ cmp_int (Some σ) 7 false = Some (M_OK, None)).
Proof.
  eexists. split; [vm_compute; reflexivity|].
  apply (pred_succ_of_missing_key cmp_int _ (tree_213 1) 7). unfold tree_213. ex_inv.
Defined.

Lemma lca_lies_between_witness :
  ∃ σ, build 0 ops_213 = Some σ ∧
    ∃ z, mavl_lca cmp_int (Some σ) 1 3 true = Some (M_OK, Some z) ∧
         mavl_lca cmp_int (Some σ) 3 1 true = Some (M_OK, Some z) ∧
         mavl_find cmp_int (Some σ) z true = Some (M_OK, Some z) ∧
         cmp_int 1 z ≤ 0 ∧ cmp_int z 3 ≤ 0.
Proof.
  eexists. split; [vm_compute; reflexivity|].
  apply (lca_lies_between cmp_int _ (tree_213 1) 1 3).
  - unfold tree_213. ex_inv.
  - unfold tree_213. cbn [keys app]. set_solver.
  - unfold tree_213. cbn [keys app]. set_solver.
  - vm_compute. discriminate.
Defined.

(** ** The void-pointer tree: representation and queries *)

Import Shape.

Section SclRep.
Import SclAvl.
Context {T : Type}.
Implicit Types (t l r : tree T) (k : list (frame T)) (σ : avl_tree_t T).
Implicit Types (m : gmap positive (avl_tree_node_t T)).

Lemma srep_tree_ext m m' par t :
  (∀ x, x ∈ taddrs t → m' !! x = m !! x) → srep_tree m par t → srep_tree m' par t.
Proof.
  revert par. induction t as [|l IHl a d c h r IHr]; intros par Hext; simpl; [done|].
  intros (Ha & Hl & Hr). split_and!.
  - rewrite Hext; [done|]. simpl. rewrite elem_of_app, elem_of_cons. auto.
  - apply IHl; [|done]. intros x Hx. apply Hext. simpl. rewrite elem_of_app. auto.
  - apply IHr; [|done]. intros x Hx. apply Hext. simpl.
    rewrite elem_of_app, elem_of_cons. auto.
Qed.

Lemma srep_ctx_ext m m' c k :
  (∀ x, x ∈ caddrs k → m' !! x = m !! x) → srep_ctx m c k → srep_ctx m' c k.
Proof.
  revert c. induction k as [|f k IH]; intros c Hext; simpl; [done|].
  unfold caddrs in Hext. simpl in Hext.
  destruct f as [a d cn h r|l a d cn h]; simpl in *; intros (Ha & Hs & Hk); split_and!.
  - rewrite Hext; [done|]. rewrite !elem_of_app, elem_of_cons. auto.
  - eapply srep_tree_ext; [|done]. intros x Hx. apply Hext.
    rewrite !elem_of_app, elem_of_cons, !elem_of_app. auto.
  - apply IH; [|done]. intros x Hx. apply Hext. unfold caddrs in Hx.
    rewrite !elem_of_app in Hx. rewrite !elem_of_app, elem_of_cons, !elem_of_app.
    tauto.
  - rewrite Hext; [done|]. rewrite !elem_of_app, elem_of_cons. 
    left. right. right. by left.
  - eapply srep_tree_ext; [|done]. intros x Hx. apply Hext.
    rewrite !elem_of_app. auto.
  - apply IH; [|done]. intros x Hx. apply Hext. unfold caddrs in Hx.
    rewrite !elem_of_app in Hx. rewrite !elem_of_app. tauto.
Qed.

Lemma srep_plug m t k :
  srep_tree m None (plug t k) ↔ srep_tree m (ocpar k) t ∧ srep_ctx m (optr t) k.
Proof.
  revert t. induction k as [|f k IH]; intros t; simpl; [tauto|].
  rewrite IH. destruct f; simpl; tauto.
Qed.

Lemma swf_plug σ t k :
  swf σ (plug t k) ↔
    root σ = optr (plug t k) ∧ srep_tree (mem σ) (ocpar k) t ∧
    srep_ctx (mem σ) (optr t) k ∧ NoDup (clefts k ++ taddrs t ++ crights k).
Proof. unfold swf. rewrite srep_plug, taddrs_plug. tauto. Qed.

Lemma swf_root_lookup σ l a d c h r k :
  swf σ (plug (Node l a d c h r) k) →
  mem σ !! a = Some (MkNode (Some d) (ocpar k) (optr l) (optr r) c h).
Proof. intros Hwf. apply swf_plug in Hwf as (_ & Hrep & _). apply Hrep. Qed.

(** The tree object holds at least the nodes of its tree. *)
Lemma swf_size σ t : swf σ t → (length (taddrs t) ≤ base.size (mem σ))%nat.
Proof.
  intros (_ & Hrep & Hnd).
  assert (∀ par x, srep_tree (mem σ) par t → x ∈ taddrs t → x ∈ dom (mem σ)) as Hin.
  { clear. induction t as [|l IHl a d c h r IHr]; intros par x Hrep; simpl.
    { by intros ?%elem_of_nil. }
    destruct Hrep as (Ha & Hl & Hr). rewrite elem_of_app, elem_of_cons.
    intros [?|[->|?]]; [by eapply IHl| |by eapply IHr].
    apply elem_of_dom. eauto. }
  assert ((list_to_set (taddrs t) : gset positive) ⊆ dom (mem σ)) as Hsub.
  { intros x. rewrite elem_of_list_to_set. by eapply Hin. }
  apply subseteq_size in Hsub. rewrite size_list_to_set in Hsub by done.
  by rewrite size_dom in Hsub.
Qed.

Lemma swf_gas σ t : swf σ t → (2 * length (taddrs t) + 2 ≤ gas σ)%nat.
Proof. intros Hwf. apply swf_size in Hwf. unfold gas. lia. Qed.

Lemma optr_neq t x : x ∉ taddrs t → optr t ≠ Some x.
Proof.
  destruct t; simpl; [done|]. rewrite elem_of_app, elem_of_cons.
  intros Hn [= ->]. apply Hn. auto.
Qed.

Lemma swf_leaf_iff σ t : swf σ t → root σ = None ↔ t = Leaf.
Proof. intros (-> & _). destruct t; simpl; split; done. Qed.

(** Running a computation whose result is known. *)
Lemma sbind_run {A B} (c : M (T:=T) A) (K : A → M B) σ a σ' :
  c σ = Some (a, σ') → bind c K σ = K a σ'.
Proof. intros E. unfold bind. by rewrite E. Qed.

Lemma observe_run {A} (body : M (T:=T) A) (null : A) σ (res : A) σ' :
  body σ = Some (res, σ') → observe (Some σ) null body = Some res.
Proof. intros E. unfold observe. by rewrite E. Qed.

End SclRep.

Import Shape.

Section SclQueries.
Import SclAvl.
Context {T : Type} (cmp : T → T → Z) `{!TotalOrder cmp}.
Implicit Types (t l r : tree T) (k : list (frame T)) (σ : avl_tree_t T).
Implicit Types (m : gmap positive (avl_tree_node_t T)).

(** *** Search *)

Lemma s_find_loop_ok σ data t k fuel :
  swf σ (plug t k) → (length (taddrs t) ≤ fuel)%nat →
  find_data_loop cmp fuel (Some data) (optr t) σ =
    Some (optr (locate cmp data t k).1, σ).
Proof.
  revert k fuel. induction t as [|l IHl a x c h r IHr]; intros k fuel Hwf Hfuel.
  - by destruct fuel.
  - rewrite length_taddrs_node in Hfuel. destruct fuel as [|fuel]; [lia|].
    pose proof (swf_root_lookup _ _ _ _ _ _ _ _ Hwf) as Hl.
    simpl. unfold bind, get. simpl. rewrite Hl. simpl. unfold ret.
    destruct (cmp x data <=? -1) eqn:E1.
    + assert ((cmp x data >=? 1) = false) as -> by (apply Z.leb_le in E1; zbool).
      rewrite Hl. simpl. rewrite (IHr (FR l a x c h :: k) fuel Hwf); [done|lia].
    + destruct (cmp x data >=? 1) eqn:E2.
      * rewrite Hl. simpl. rewrite (IHl (FL a x c h r :: k) fuel Hwf); [done|lia].
      * done.
Qed.

Lemma s_find_set_root_ok σ data t k :
  swf σ (plug t k) →
  avl_find_data_set_root cmp (optr t) (Some data) σ =
    Some (optr (locate cmp data t k).1, σ).
Proof.
  intros Hwf. destruct t as [|l a x c h r]; [done|].
  unfold avl_find_data_set_root. cbn [optr].
  rewrite (sbind_run _ _ σ (gas σ) σ) by done.
  apply (s_find_loop_ok σ data (Node l a x c h r) k); [done|].
  pose proof (swf_gas _ _ Hwf) as Hg. rewrite taddrs_plug, !length_app in Hg. lia.
Qed.

Lemma s_find_data_ok σ data t :
  swf σ t →
  find_data cmp (Some data) σ = Some (optr (locate cmp data t []).1, σ).
Proof.
  intros Hwf. unfold find_data.
  rewrite (sbind_run _ _ σ (root σ) σ) by done.
  assert (root σ = optr t) as -> by apply Hwf.
  destruct t as [|l a x c h r]; [done|]. cbn [optr].
  rewrite (sbind_run _ _ σ (gas σ) σ) by done.
  apply (s_find_loop_ok σ data (Node l a x c h r) []); [done|].
  pose proof (swf_gas _ _ Hwf). lia.
Qed.

Lemma located_data data t k :
  bst cmp t →
  root_data (locate cmp data t k).1 = 
    match (locate cmp data t k).1 with Leaf => None | _ => Some data end.
Proof.
  intros Hb. pose proof (locate_spec cmp data t k Hb) as Hs.
  destruct ((locate cmp data t k).1); [done|]. simpl. by destruct Hs as [-> _].
Qed.

(** *** Minimum and maximum *)

Lemma s_min_loop_ok σ l a d c h r k fuel :
  let t := Node l a d c h r in
  swf σ (plug t k) → (length (taddrs t) ≤ S fuel)%nat →
  min_node_loop fuel a σ = Some (ptr a (leftmost t k).1, σ).
Proof.
  intros t. subst t. revert a d c h r k fuel.
  induction l as [|ll IHl b db cb hb lr _]; intros a d c h r k fuel Hwf Hfuel.
  - pose proof (swf_root_lookup _ _ _ _ _ _ _ _ Hwf) as Hl.
    destruct fuel; simpl; unfold bind, get, ret; simpl; by rewrite Hl.
  - rewrite length_taddrs_node in Hfuel. rewrite length_taddrs_node in Hfuel.
    destruct fuel as [|fuel]; [lia|].
    pose proof (swf_root_lookup _ _ _ _ _ _ _ _ Hwf) as Hl.
    cbn [min_node_loop]. unfold bind, get. rewrite Hl. cbn [left optr].
    rewrite (IHl b db cb hb lr (FL a d c h r :: k) fuel Hwf).
    + f_equal. f_equal.
      destruct (leftmost_shape (Node ll b db cb hb lr) (FL a d c h r :: k))
        as (? & ? & ? & ? & ? & ? & E & _); [done|].
      change (leftmost (Node (Node ll b db cb hb lr) a d c h r) k)
        with (leftmost (Node ll b db cb hb lr) (FL a d c h r :: k)).
      by rewrite E.
    + rewrite length_taddrs_node. lia.
Qed.

Lemma s_max_loop_ok σ l a d c h r k fuel :
  let t := Node l a d c h r in
  swf σ (plug t k) → (length (taddrs t) ≤ S fuel)%nat →
  max_node_loop fuel a σ = Some (ptr a (rightmost t k).1, σ).
Proof.
  intros t. subst t. revert l a d c h k fuel.
  induction r as [|rl _ b db cb hb rr IHr]; intros l a d c h k fuel Hwf Hfuel.
  - pose proof (swf_root_lookup _ _ _ _ _ _ _ _ Hwf) as Hl.
    destruct fuel; simpl; unfold bind, get, ret; simpl; by rewrite Hl.
  - rewrite length_taddrs_node in Hfuel. rewrite length_taddrs_node in Hfuel.
    destruct fuel as [|fuel]; [lia|].
    pose proof (swf_root_lookup _ _ _ _ _ _ _ _ Hwf) as Hl.
    cbn [max_node_loop]. unfold bind, get. rewrite Hl. cbn [right optr].
    rewrite (IHr rl b db cb hb (FR l a d c h :: k) fuel Hwf).
    + f_equal. f_equal.
      destruct (rightmost_shape (Node rl b db cb hb rr) (FR l a d c h :: k))
        as (? & ? & ? & ? & ? & ? & E & _); [done|].
      change (rightmost (Node l a d c h (Node rl b db cb hb rr)) k)
        with (rightmost (Node rl b db cb hb rr) (FR l a d c h :: k)).
      by rewrite E.
    + rewrite length_taddrs_node. lia.
Qed.

Lemma s_min_node_ok σ t0 k :
  swf σ (plug t0 k) →
  avl_min_node (optr t0) σ = Some (optr (leftmost t0 k).1, σ).
Proof.
  intros Hwf. destruct t0 as [|l a x c h r]; [done|].
  unfold avl_min_node. cbn [optr].
  rewrite (sbind_run _ _ σ (gas σ) σ) by done.
  rewrite (sbind_run _ _ _ _ _ (s_min_loop_ok σ l a x c h r k (gas σ) Hwf
    ltac:(pose proof (swf_gas _ _ Hwf) as Hg;
          rewrite taddrs_plug, !length_app in Hg; lia))).
  unfold ret. f_equal. f_equal.
  destruct (leftmost_shape (Node l a x c h r) k) as (? & ? & ? & ? & ? & ? & E & _); [done|].
  by rewrite E.
Qed.

Lemma s_max_node_ok σ t0 k :
  swf σ (plug t0 k) →
  avl_max_node (optr t0) σ = Some (optr (rightmost t0 k).1, σ).
Proof.
  intros Hwf. destruct t0 as [|l a x c h r]; [done|].
  unfold avl_max_node. cbn [optr].
  rewrite (sbind_run _ _ σ (gas σ) σ) by done.
  rewrite (sbind_run _ _ _ _ _ (s_max_loop_ok σ l a x c h r k (gas σ) Hwf
    ltac:(pose proof (swf_gas _ _ Hwf) as Hg;
          rewrite taddrs_plug, !length_app in Hg; lia))).
  unfold ret. f_equal. f_equal.
  destruct (rightmost_shape (Node l a x c h r) k) as (? & ? & ? & ? & ? & ? & E & _); [done|].
  by rewrite E.
Qed.

Lemma s_leftmost_data σ t0 k :
  swf σ (plug t0 k) →
  data_of (optr (leftmost t0 k).1) σ = Some (head (keys t0), σ).
Proof.
  intros Hwf. destruct t0 as [|l a x c h r]; [done|].
  destruct (leftmost_shape (Node l a x c h r) k)
    as (s & ds & cs & hs & sr & ks & E & Hks & Ht); [done|].
  rewrite (leftmost_head _ _ _ _ _ _ _ _ E), E. simpl.
  rewrite Ht, <- plug_app in Hwf.
  pose proof (swf_root_lookup _ _ _ _ _ _ _ _ Hwf) as Hl.
  unfold get. by rewrite Hl.
Qed.

Lemma s_rightmost_data σ t0 k :
  swf σ (plug t0 k) →
  data_of (optr (rightmost t0 k).1) σ = Some (last (keys t0), σ).
Proof.
  intros Hwf. destruct t0 as [|l a x c h r]; [done|].
  destruct (rightmost_shape (Node l a x c h r) k)
    as (sl & s & ds & cs & hs & ks & E & Hks & Ht); [done|].
  rewrite (rightmost_last _ _ _ _ _ _ _ _ E), E. simpl.
  rewrite Ht, <- plug_app in Hwf.
  pose proof (swf_root_lookup _ _ _ _ _ _ _ _ Hwf) as Hl.
  unfold get. by rewrite Hl.
Qed.

Lemma s_min_data_ok σ t0 k :
  swf σ (plug t0 k) → avl_min_data σ (optr t0) = Some (head (keys t0)).
Proof.
  intros Hwf. destruct t0 as [|l a x c h r]; [done|].
  unfold avl_min_data. cbn [optr].
  rewrite (sbind_run _ _ _ _ _ (s_min_node_ok σ (Node l a x c h r) k Hwf)).
  by rewrite (s_leftmost_data σ (Node l a x c h r) k Hwf).
Qed.

Lemma s_max_data_ok σ t0 k :
  swf σ (plug t0 k) → avl_max_data σ (optr t0) = Some (last (keys t0)).
Proof.
  intros Hwf. destruct t0 as [|l a x c h r]; [done|].
  unfold avl_max_data. cbn [optr].
  rewrite (sbind_run _ _ _ _ _ (s_max_node_ok σ (Node l a x c h r) k Hwf)).
  by rewrite (s_rightmost_data σ (Node l a x c h r) k Hwf).
Qed.

(** *** Predecessor and successor *)

Lemma s_pred_climb_ok σ k : ∀ l a d c h r fuel,
  swf σ (plug (Node l a d c h r) k) → (length k ≤ fuel)%nat →
  predecessor_climb fuel a (ocpar k) σ = Some (faddr <$> pred_anc k, σ).
Proof.
  induction k as [|f k IH]; intros l a d c h r fuel Hwf Hfuel.
  { by destruct fuel. }
  destruct f as [p dp cp hp s|s p dp cp hp].
  - change (swf σ (plug (Node (Node l a d c h r) p dp cp hp s) k)) in Hwf.
    pose proof (swf_root_lookup _ _ _ _ _ _ _ _ Hwf) as Hl.
    destruct fuel as [|fuel]; [simpl in Hfuel; lia|].
    simpl. unfold bind at 1. unfold get at 1. rewrite Hl. simpl.
    rewrite decide_True by done.
    unfold bind at 1. unfold get at 1. rewrite Hl. simpl.
    apply (IH _ _ _ _ _ _ fuel Hwf). simpl in Hfuel. lia.
  - change (swf σ (plug (Node s p dp cp hp (Node l a d c h r)) k)) in Hwf.
    pose proof (swf_root_lookup _ _ _ _ _ _ _ _ Hwf) as Hl.
    assert (optr s ≠ Some a) as Hsa.
    { apply swf_plug in Hwf as (_ & _ & _ & Hnd). simpl in Hnd.
      apply optr_neq. nd Hnd. }
    destruct fuel; simpl; unfold bind at 1; unfold get at 1; rewrite Hl; simpl;
      by rewrite decide_False.
Qed.

Lemma s_succ_climb_ok σ k : ∀ l a d c h r fuel,
  swf σ (plug (Node l a d c h r) k) → (length k ≤ fuel)%nat →
  successor_climb fuel a (ocpar k) σ = Some (faddr <$> succ_anc k, σ).
Proof.
  induction k as [|f k IH]; intros l a d c h r fuel Hwf Hfuel.
  { by destruct fuel. }
  destruct f as [p dp cp hp s|s p dp cp hp].
  - change (swf σ (plug (Node (Node l a d c h r) p dp cp hp s) k)) in Hwf.
    pose proof (swf_root_lookup _ _ _ _ _ _ _ _ Hwf) as Hl.
    assert (optr s ≠ Some a) as Hsa.
    { apply swf_plug in Hwf as (_ & _ & _ & Hnd). simpl in Hnd.
      apply optr_neq. nd Hnd. }
    destruct fuel; simpl; unfold bind at 1; unfold get at 1; rewrite Hl; simpl;
      by rewrite decide_False.
  - change (swf σ (plug (Node s p dp cp hp (Node l a d c h r)) k)) in Hwf.
    pose proof (swf_root_lookup _ _ _ _ _ _ _ _ Hwf) as Hl.
    destruct fuel as [|fuel]; [simpl in Hfuel; lia|].
    simpl. unfold bind at 1. unfold get at 1. rewrite Hl. simpl.
    rewrite decide_True by done.
    unfold bind at 1. unfold get at 1. rewrite Hl. simpl.
    apply (IH _ _ _ _ _ _ fuel Hwf). simpl in Hfuel. lia.
Qed.

Lemma s_frame_lookup σ k : ∀ t f,
  swf σ (plug t k) → f ∈ k →
  ∃ n, mem σ !! faddr f = Some n ∧ data n = Some (fdata f).
Proof.
  induction k as [|g k IH]; intros t f Hwf Hin; [by apply elem_of_nil in Hin|].
  apply elem_of_cons in Hin as [->|Hin]; [|by eapply (IH (fill g t))].
  simpl in Hwf. destruct g; simpl in *;
    pose proof (swf_root_lookup _ _ _ _ _ _ _ _ Hwf) as Hl; eauto.
Qed.

Lemma s_anc_data σ t k (o : option (frame T)) :
  swf σ (plug t k) → (∀ f, o = Some f → f ∈ k) →
  data_of (faddr <$> o) σ = Some (fdata <$> o, σ).
Proof.
  intros Hwf Ho. destruct o as [f|]; simpl; [|done].
  destruct (s_frame_lookup σ k t f Hwf (Ho f eq_refl)) as (n & Hn & Hd).
  unfold get. by rewrite Hn, Hd.
Qed.

Lemma optr_plug_node l a (d : T) c h r k :
  is_Some (optr (plug (Node l a d c h r) k)).
Proof.
  revert l a d c h r. induction k as [|f k IH]; intros; simpl; [eauto|].
  destruct f; apply IH.
Qed.

Lemma s_pred_node_data σ t x A B :
  swf σ t → bst cmp t → keys t = A ++ x :: B →
  ∃ o, predecessor_node cmp (Some x) σ = Some (o, σ) ∧
       data_of o σ = Some (last A, σ).
Proof.
  intros Hwf Hbst E.
  destruct (locate_keys cmp x t A B Hbst E) as (l & a & c & h & r & k & Hloc & -> & ->).
  pose proof (locate_plug cmp x t []) as Hplug.
  pose proof (s_find_data_ok σ x t Hwf) as Hfind.
  rewrite Hloc in Hplug, Hfind. simpl in Hplug, Hfind.
  assert (is_Some (root σ)) as Hroot.
  { destruct Hwf as (-> & _). rewrite <- Hplug. apply optr_plug_node. }
  rewrite <- Hplug in Hwf.
  pose proof (swf_root_lookup _ _ _ _ _ _ _ _ Hwf) as Hl.
  assert (∀ o, bind (get left a) (λ q,
                match q with
                | Some _ => avl_max_node q
                | None => bind get_gas (λ fuel, bind (get parent a) (λ p,
                          predecessor_climb fuel a p))
                end) σ = Some (o, σ) →
               predecessor_node cmp (Some x) σ = Some (o, σ)) as Hred.
  { intros o Ho. unfold predecessor_node.
    rewrite (sbind_run _ _ σ (root σ) σ) by done.
    rewrite (bool_decide_eq_true_2 _ Hroot).
    rewrite (bool_decide_eq_true_2 (is_Some (Some x))) by eauto. cbn [negb orb].
    rewrite (sbind_run _ _ _ _ _ Hfind). done. }
  destruct l as [|ll b db cb hb lr].
  - exists (faddr <$> pred_anc k). split.
    + apply Hred.
      rewrite (sbind_run _ _ σ None σ) by (unfold get; by rewrite Hl).
      rewrite (sbind_run _ _ σ (gas σ) σ) by done.
      rewrite (sbind_run _ _ σ (ocpar k) σ) by (unfold get; by rewrite Hl).
      apply (s_pred_climb_ok σ k _ _ _ _ _ _ (gas σ) Hwf).
      pose proof (swf_gas _ _ Hwf). pose proof (length_ctx_le (Node Leaf a x c h r) k). lia.
    + rewrite (s_anc_data σ _ k (pred_anc k) Hwf (pred_anc_in k)).
      simpl. by rewrite app_nil_r, last_klefts.
  - set (l := Node ll b db cb hb lr) in *.
    assert (swf σ (plug l (FL a x c h r :: k))) as Hwfl by done.
    exists (optr (rightmost l (FL a x c h r :: k)).1). split.
    + apply Hred.
      rewrite (sbind_run _ _ σ (Some b) σ) by (unfold get; by rewrite Hl).
      apply (s_max_node_ok σ l _ Hwfl).
    + rewrite (s_rightmost_data σ l _ Hwfl). f_equal. f_equal.
      assert (is_Some (last (keys l))) as [z Hz].
      { destruct (rightmost_shape l (FL a x c h r :: k)) as (? & ? & ? & ? & ? & ? & E' & _); [done|].
        rewrite (rightmost_last _ _ _ _ _ _ _ _ E'). eauto. }
      rewrite Hz. apply last_Some in Hz as [l' Hz]. rewrite Hz, app_assoc.
      by rewrite last_snoc.
Qed.

Lemma s_succ_node_data σ t x A B :
  swf σ t → bst cmp t → keys t = A ++ x :: B →
  ∃ o, successor_node cmp (Some x) σ = Some (o, σ) ∧
       data_of o σ = Some (head B, σ).
Proof.
  intros Hwf Hbst E.
  destruct (locate_keys cmp x t A B Hbst E) as (l & a & c & h & r & k & Hloc & -> & ->).
  pose proof (locate_plug cmp x t []) as Hplug.
  pose proof (s_find_data_ok σ x t Hwf) as Hfind.
  rewrite Hloc in Hplug, Hfind. simpl in Hplug, Hfind.
  assert (is_Some (root σ)) as Hroot.
  { destruct Hwf as (-> & _). rewrite <- Hplug. apply optr_plug_node. }
  rewrite <- Hplug in Hwf.
  pose proof (swf_root_lookup _ _ _ _ _ _ _ _ Hwf) as Hl.
  assert (∀ o, bind (get right a) (λ q,
                match q with
                | Some _ => avl_min_node q
                | None => bind get_gas (λ fuel, bind (get parent a) (λ p,
                          successor_climb fuel a p))
                end) σ = Some (o, σ) →
               successor_node cmp (Some x) σ = Some (o, σ)) as Hred.
  { intros o Ho. unfold successor_node.
    rewrite (sbind_run _ _ σ (root σ) σ) by done.
    rewrite (bool_decide_eq_true_2 _ Hroot).
    rewrite (bool_decide_eq_true_2 (is_Some (Some x))) by eauto. cbn [negb orb].
    rewrite (sbind_run _ _ _ _ _ Hfind). done. }
  destruct r as [|rl b db cb hb rr].
  - exists (faddr <$> succ_anc k). split.
    + apply Hred.
      rewrite (sbind_run _ _ σ None σ) by (unfold get; by rewrite Hl).
      rewrite (sbind_run _ _ σ (gas σ) σ) by done.
      rewrite (sbind_run _ _ σ (ocpar k) σ) by (unfold get; by rewrite Hl).
      apply (s_succ_climb_ok σ k _ _ _ _ _ _ (gas σ) Hwf).
      pose proof (swf_gas _ _ Hwf). pose proof (length_ctx_le (Node l a x c h Leaf) k). lia.
    + rewrite (s_anc_data σ _ k (succ_anc k) Hwf (succ_anc_in k)).
      simpl. by rewrite head_krights.
  - set (r := Node rl b db cb hb rr) in *.
    assert (swf σ (plug r (FR l a x c h :: k))) as Hwfr by done.
    exists (optr (leftmost r (FR l a x c h :: k)).1). split.
    + apply Hred.
      rewrite (sbind_run _ _ σ (Some b) σ) by (unfold get; by rewrite Hl).
      apply (s_min_node_ok σ r _ Hwfr).
    + rewrite (s_leftmost_data σ r _ Hwfr). f_equal. f_equal.
      assert (is_Some (head (keys r))) as [z Hz].
      { destruct (leftmost_shape r (FR l a x c h :: k)) as (? & ? & ? & ? & ? & ? & E' & _); [done|].
        rewrite (leftmost_head _ _ _ _ _ _ _ _ E'). eauto. }
      rewrite Hz. destruct (keys r); simpl in Hz |- *; by simplify_eq.
Qed.

(** A payload that is not in the tree has no predecessor node and no
    successor node. *)
Lemma s_pred_succ_absent σ t x :
  swf σ t → bst cmp t → x ∉ keys t →
  predecessor_node cmp (Some x) σ = Some (None, σ) ∧
  successor_node cmp (Some x) σ = Some (None, σ).
Proof.
  intros Hwf Hbst Hx.
  pose proof (s_find_data_ok σ x t Hwf) as Hfind.
  pose proof (locate_spec cmp x t [] Hbst) as Hs.
  destruct ((locate cmp x t []).1) as [|? ? ? ? ? ?] eqn:El.
  2:{ by destruct Hs. }
  simpl in Hfind. unfold predecessor_node, successor_node.
  rewrite !(sbind_run _ _ σ (root σ) σ) by done.
  destruct (root σ) as [rt|] eqn:Er.
  - rewrite (bool_decide_eq_true_2 (is_Some (Some rt))) by eauto.
    rewrite (bool_decide_eq_true_2 (is_Some (Some x))) by eauto. cbn [negb orb].
    by rewrite !(sbind_run _ _ _ _ _ Hfind).
  - rewrite (bool_decide_eq_false_2 (is_Some None)) by (by intros [? ?]). done.
Qed.

(** *** Lowest common ancestor *)

Lemma s_lca_loop_ok σ x1 x2 t k fuel :
  swf σ (plug t k) → (length (taddrs t) ≤ fuel)%nat →
  lowest_common_ancestor_loop cmp fuel (Some x1) (Some x2) (optr t) σ =
    Some (optr (lca_sub cmp x1 x2 t), σ).
Proof.
  revert k fuel. induction t as [|l IHl a x c h r IHr]; intros k fuel Hwf Hfuel.
  - by destruct fuel.
  - rewrite length_taddrs_node in Hfuel. destruct fuel as [|fuel]; [lia|].
    pose proof (swf_root_lookup _ _ _ _ _ _ _ _ Hwf) as Hl.
    cbn [lowest_common_ancestor_loop optr lca_sub].
    unfold bind at 1. unfold get at 1. rewrite Hl. cbn [data compare_data].
    unfold bind at 1. unfold ret at 1.
    assert (bind (if cmp x x1 >=? 1
                  then bind (compare_data cmp (Some x) (Some x2)) (λ c2, ret (c2 >=? 1))
                  else ret false) =
            bind (ret ((cmp x x1 >=? 1) && (cmp x x2 >=? 1)))) as ->.
    { by destruct (cmp x x1 >=? 1). }
    unfold bind at 1. unfold ret at 1.
    destruct ((cmp x x1 >=? 1) && (cmp x x2 >=? 1)) eqn:E1.
    { unfold bind at 1. unfold get at 1. rewrite Hl. cbn [left].
      apply (IHl (FL a x c h r :: k) fuel Hwf). lia. }
    unfold bind at 1. unfold ret at 1.
    assert (bind (if cmp x x1 <=? -1
                  then bind (compare_data cmp (Some x) (Some x2)) (λ c2, ret (c2 <=? -1))
                  else ret false) =
            bind (ret ((cmp x x1 <=? -1) && (cmp x x2 <=? -1)))) as ->.
    { by destruct (cmp x x1 <=? -1). }
    unfold bind at 1. unfold ret at 1.
    destruct ((cmp x x1 <=? -1) && (cmp x x2 <=? -1)) eqn:E2.
    { unfold bind at 1. unfold get at 1. rewrite Hl. cbn [right].
      apply (IHr (FR l a x c h :: k) fuel Hwf). lia. }
    done.
Qed.

Lemma lca_sub_t x1 x2 t :
  lca_t cmp x1 x2 t =
    match lca_sub cmp x1 x2 t with
    | Leaf => (M_UNDEFINED_BEHAVIOUR, None)
    | Node _ _ d _ _ _ => (M_OK, Some d)
    end.
Proof.
  induction t as [|l IHl a d c h r IHr]; simpl; [done|].
  destruct ((cmp d x1 >=? 1) && (cmp d x2 >=? 1)); [done|].
  by destruct ((cmp d x1 <=? -1) && (cmp d x2 <=? -1)).
Qed.

Lemma lca_sub_plug x1 x2 t : ∃ k, plug (lca_sub cmp x1 x2 t) k = t.
Proof.
  induction t as [|l IHl a d c h r IHr]; simpl; [by exists []|].
  destruct ((cmp d x1 >=? 1) && (cmp d x2 >=? 1)).
  { destruct IHl as [k Hk]. exists (k ++ [FL a d c h r]). rewrite plug_app. simpl.
    by rewrite Hk. }
  destruct ((cmp d x1 <=? -1) && (cmp d x2 <=? -1)).
  { destruct IHr as [k Hk]. exists (k ++ [FR l a d c h]). rewrite plug_app. simpl.
    by rewrite Hk. }
  by exists [].
Qed.

(** [avl_lowest_common_ancestor_data] for two payloads of the tree. *)
Lemma s_lca_data_ok σ t x1 x2 :
  swf σ t → bst cmp t → x1 ∈ keys t → x2 ∈ keys t →
  avl_lowest_common_ancestor_data cmp (Some σ) (Some x1) (Some x2) =
    Some (lca_t cmp x1 x2 t).2.
Proof.
  intros Hwf Hbst H1 H2.
  pose proof (s_find_data_ok σ x1 t Hwf) as Hf1.
  pose proof (s_find_data_ok σ x2 t Hwf) as Hf2.
  pose proof (locate_spec cmp x1 t [] Hbst) as Hs1.
  pose proof (locate_spec cmp x2 t [] Hbst) as Hs2.
  destruct ((locate cmp x1 t []).1) as [|? b1 ? ? ? ?]; [done|].
  destruct ((locate cmp x2 t []).1) as [|? b2 ? ? ? ?]; [done|].
  simpl in Hf1, Hf2.
  unfold avl_lowest_common_ancestor_data.
  rewrite !(bool_decide_eq_true_2 (is_Some (Some _))) by eauto. cbn [negb orb].
  eapply observe_run.
  assert (lowest_common_ancestor_node cmp (Some x1) (Some x2) σ =
          Some (optr (lca_sub cmp x1 x2 t), σ)) as Hn.
  { unfold lowest_common_ancestor_node.
    rewrite !(bool_decide_eq_true_2 (is_Some (Some _))) by eauto. cbn [negb orb].
    rewrite (sbind_run _ _ _ _ _ Hf1). rewrite (sbind_run _ _ _ _ _ Hf2).
    rewrite (sbind_run _ _ σ (gas σ) σ) by done.
    rewrite (sbind_run _ _ σ (root σ) σ) by done.
    assert (root σ = optr t) as -> by apply Hwf.
    apply (s_lca_loop_ok σ x1 x2 t []); [done|]. pose proof (swf_gas _ _ Hwf). lia. }
  rewrite (sbind_run _ _ _ _ _ Hn). rewrite lca_sub_t.
  destruct (lca_sub_plug x1 x2 t) as [k Hk].
  destruct (lca_sub cmp x1 x2 t) as [|zl za zd zc zh zr]; [done|].
  rewrite <- Hk in Hwf. pose proof (swf_root_lookup _ _ _ _ _ _ _ _ Hwf) as Hl.
  simpl. unfold get. by rewrite Hl.
Qed.

(** A payload that is not in the tree has no common ancestor with
    anything. *)
Lemma s_lca_absent σ t x1 x2 :
  swf σ t → bst cmp t → x1 ∉ keys t ∨ x2 ∉ keys t →
  avl_lowest_common_ancestor_data cmp (Some σ) (Some x1) (Some x2) = Some None.
Proof.
  intros Hwf Hbst Hx.
  pose proof (s_find_data_ok σ x1 t Hwf) as Hf1.
  pose proof (s_find_data_ok σ x2 t Hwf) as Hf2.
  pose proof (locate_spec cmp x1 t [] Hbst) as Hs1.
  pose proof (locate_spec cmp x2 t [] Hbst) as Hs2.
  unfold avl_lowest_common_ancestor_data.
  rewrite !(bool_decide_eq_true_2 (is_Some (Some _))) by eauto. cbn [negb orb].
  eapply observe_run.
  assert (lowest_common_ancestor_node cmp (Some x1) (Some x2) σ = Some (None, σ)) as Hn.
  { unfold lowest_common_ancestor_node.
    rewrite !(bool_decide_eq_true_2 (is_Some (Some _))) by eauto. cbn [negb orb].
    rewrite (sbind_run _ _ _ _ _ Hf1).
    destruct ((locate cmp x1 t []).1) as [|? b1 ? ? ? ?]; [done|]. cbn [optr].
    rewrite (sbind_run _ _ _ _ _ Hf2).
    destruct ((locate cmp x2 t []).1) as [|? b2 ? ? ? ?]; [done|].
    exfalso. destruct Hx as [Hx|Hx]; apply Hx; [apply Hs1|apply Hs2]. }
  by rewrite (sbind_run _ _ _ _ _ Hn).
Qed.

(** *** Traversals *)

Lemma s_traverse_inorder_ok σ t k fuel :
  swf σ (plug t k) → (length (taddrs t) ≤ fuel)%nat →
  avl_traverse_inorder_helper fuel (optr t) σ = Some (taddrs t, σ).
Proof.
  revert k fuel. induction t as [|l IHl a x c h r IHr]; intros k fuel Hwf Hfuel.
  - by destruct fuel.
  - rewrite length_taddrs_node in Hfuel. destruct fuel as [|fuel]; [lia|].
    pose proof (swf_root_lookup _ _ _ _ _ _ _ _ Hwf) as Hl.
    cbn [avl_traverse_inorder_helper optr taddrs].
    unfold bind at 1. unfold get at 1. rewrite Hl. cbn [left].
    rewrite (sbind_run _ _ _ _ _ (IHl (FL a x c h r :: k) fuel Hwf ltac:(lia))).
    unfold bind at 1. unfold get at 1. rewrite Hl. cbn [right].
    rewrite (sbind_run _ _ _ _ _ (IHr (FR l a x c h :: k) fuel Hwf ltac:(lia))).
    done.
Qed.

Lemma s_traverse_preorder_ok σ t k fuel :
  swf σ (plug t k) → (length (taddrs t) ≤ fuel)%nat →
  avl_traverse_preorder_helper fuel (optr t) σ = Some (pre_nodes t, σ).
Proof.
  revert k fuel. induction t as [|l IHl a x c h r IHr]; intros k fuel Hwf Hfuel.
  - by destruct fuel.
  - rewrite length_taddrs_node in Hfuel. destruct fuel as [|fuel]; [lia|].
    pose proof (swf_root_lookup _ _ _ _ _ _ _ _ Hwf) as Hl.
    cbn [avl_traverse_preorder_helper optr pre_nodes].
    unfold bind at 1. unfold get at 1. rewrite Hl. cbn [left].
    rewrite (sbind_run _ _ _ _ _ (IHl (FL a x c h r :: k) fuel Hwf ltac:(lia))).
    unfold bind at 1. unfold get at 1. rewrite Hl. cbn [right].
    rewrite (sbind_run _ _ _ _ _ (IHr (FR l a x c h :: k) fuel Hwf ltac:(lia))).
    done.
Qed.

Lemma s_traverse_postorder_ok σ t k fuel :
  swf σ (plug t k) → (length (taddrs t) ≤ fuel)%nat →
  avl_traverse_postorder_helper fuel (optr t) σ = Some (post_nodes t, σ).
Proof.
  revert k fuel. induction t as [|l IHl a x c h r IHr]; intros k fuel Hwf Hfuel.
  - by destruct fuel.
  - rewrite length_taddrs_node in Hfuel. destruct fuel as [|fuel]; [lia|].
    pose proof (swf_root_lookup _ _ _ _ _ _ _ _ Hwf) as Hl.
    cbn [avl_traverse_postorder_helper optr post_nodes].
    unfold bind at 1. unfold get at 1. rewrite Hl. cbn [left].
    rewrite (sbind_run _ _ _ _ _ (IHl (FL a x c h r :: k) fuel Hwf ltac:(lia))).
    unfold bind at 1. unfold get at 1. rewrite Hl. cbn [right].
    rewrite (sbind_run _ _ _ _ _ (IHr (FR l a x c h :: k) fuel Hwf ltac:(lia))).
    done.
Qed.

(** The payload stored in a node of the tree. *)
Lemma s_cells_lookup σ t a d c :
  swf σ t → (a, d, c) ∈ cells t →
  ∃ n, mem σ !! a = Some n ∧ data n = Some d ∧ count n = c.
Proof.
  intros (_ & Hrep & _). revert Hrep. generalize (None : option positive).
  induction t as [|l IHl b x cx h r IHr]; intros par Hrep; simpl.
  { by intros ?%elem_of_nil. }
  destruct Hrep as (Hb & Hl & Hr). rewrite elem_of_app, elem_of_cons.
  intros [Hin|[[= -> -> ->]|Hin]]; [by eapply IHl| |by eapply IHr].
  eauto.
Qed.

Lemma pre_nodes_perm t : pre_nodes t ≡ₚ taddrs t.
Proof.
  induction t as [|l IHl a d c h r IHr]; simpl; [done|].
  rewrite IHl, IHr. by rewrite Permutation_middle.
Qed.

Lemma post_nodes_perm t : post_nodes t ≡ₚ taddrs t.
Proof.
  induction t as [|l IHl a d c h r IHr]; simpl; [done|].
  rewrite IHl, IHr. rewrite (Permutation_app_comm (taddrs r) [a]). done.
Qed.

(** *** Level of a node *)

Lemma s_node_level_ok σ k : ∀ l a d c h r fuel lvl,
  swf σ (plug (Node l a d c h r) k) → (length k < fuel)%nat →
  -1 ≤ lvl → lvl + 1 + Z.of_nat (length k) < 2 ^ 31 →
  node_level_loop fuel (Some a) lvl σ = Some (lvl + 1 + Z.of_nat (length k), σ).
Proof.
  induction k as [|f k IH]; intros l a d c h r fuel lvl Hwf Hfuel Hlo Hhi.
  - pose proof (swf_root_lookup _ _ _ _ _ _ _ _ Hwf) as Hl.
    destruct fuel as [|fuel]; [simpl in Hfuel; lia|].
    cbn [node_level_loop]. unfold bind at 1. unfold get at 1. rewrite Hl.
    cbn [parent ocpar]. destruct fuel; cbn [node_level_loop]; unfold ret;
      do 2 f_equal; simpl length in *; unfold i32; rewrite Z.mod_small; lia.
  - pose proof (swf_root_lookup _ _ _ _ _ _ _ _ Hwf) as Hl.
    destruct fuel as [|fuel]; [simpl in Hfuel; lia|].
    cbn [node_level_loop]. unfold bind at 1. unfold get at 1. rewrite Hl.
    cbn [parent ocpar]. simpl length in *.
    assert (i32 (lvl + 1) = lvl + 1) as ->.
    { unfold i32. rewrite Z.mod_small; lia. }
    destruct f as [p dp cp hp s|s p dp cp hp]; cbn [faddr].
    + change (swf σ (plug (Node (Node l a d c h r) p dp cp hp s) k)) in Hwf.
      rewrite (IH _ _ _ _ _ _ fuel (lvl + 1) Hwf); [|lia..].
      do 2 f_equal. lia.
    + change (swf σ (plug (Node s p dp cp hp (Node l a d c h r)) k)) in Hwf.
      rewrite (IH _ _ _ _ _ _ fuel (lvl + 1) Hwf); [|lia..].
      do 2 f_equal. lia.
Qed.

(** *** Release *)

Lemma s_free_helper_ok fd t0 : ∀ fuel rt sz m par,
  srep_tree m par t0 → NoDup (taddrs t0) → (length (taddrs t0) ≤ fuel)%nat →
  ∃ m', free_avl_helper fuel fd (optr t0) (MkTree rt sz m) =
          Some ((if fd then postorder t0 else []), MkTree rt sz m') ∧
        (∀ x, x ∈ taddrs t0 → m' !! x = None) ∧
        (∀ x, x ∉ taddrs t0 → m' !! x = m !! x).
Proof.
  induction t0 as [|l IHl a d c h r IHr]; intros fuel rt sz m par Hrep Hnd Hfuel.
  - exists m. split_and!; [by destruct fuel; destruct fd|by intros x ?%elem_of_nil|done].
  - rewrite length_taddrs_node in Hfuel. destruct fuel as [|fuel]; [lia|].
    simpl in Hrep, Hnd. destruct Hrep as (Ha & Hrl & Hrr).
    assert (NoDup (taddrs l)) as Hndl by (nd_sub Hnd).
    assert (NoDup (taddrs r)) as Hndr by (nd_sub Hnd).
    assert (a ∉ taddrs l) as Hal by nd Hnd.
    assert (a ∉ taddrs r) as Har by nd Hnd.
    assert (∀ x, x ∈ taddrs l → x ∉ taddrs r) as Hlr by (intros x ?; nd Hnd).
    destruct (IHl fuel rt sz m (Some a) Hrl Hndl ltac:(lia)) as (m1 & E1 & Hin1 & Ho1).
    assert (srep_tree m1 (Some a) r) as Hrr1.
    { eapply srep_tree_ext; [|exact Hrr]. intros x Hx. apply Ho1.
      intros ?. by eapply Hlr. }
    destruct (IHr fuel rt sz m1 (Some a) Hrr1 Hndr ltac:(lia)) as (m2 & E2 & Hin2 & Ho2).
    assert (m1 !! a = Some (MkNode (Some d) par (optr l) (optr r) c h)) as Ha1.
    { by rewrite Ho1. }
    assert (m2 !! a = Some (MkNode (Some d) par (optr l) (optr r) c h)) as Ha2.
    { by rewrite Ho2. }
    exists (delete a m2). split_and!.
    + cbn [free_avl_helper optr].
      unfold bind at 1. unfold get at 1. cbn [mem]. rewrite Ha. cbn [left].
      rewrite (sbind_run _ _ _ _ _ E1).
      unfold bind at 1. unfold get at 1. cbn [mem]. rewrite Ha1. cbn [right].
      rewrite (sbind_run _ _ _ _ _ E2).
      unfold bind at 1. unfold get at 1. cbn [mem]. rewrite Ha2. cbn [data].
      unfold bind, free_node, ret. cbn [mem root size]. rewrite Ha2.
      do 2 f_equal. destruct fd; simpl; [done|done].
    + intros x. simpl. rewrite elem_of_app, elem_of_cons. intros Hx.
      destruct (decide (x = a)) as [->|Hxa]; [by rewrite lookup_delete_eq|].
      rewrite lookup_delete_ne by done.
      destruct Hx as [Hx|[->|Hx]]; [|done|by apply Hin2].
      rewrite Ho2 by by apply Hlr. by apply Hin1.
    + intros x. simpl. rewrite elem_of_app, elem_of_cons. intros Hx.
      assert (x ≠ a ∧ x ∉ taddrs l ∧ x ∉ taddrs r) as (? & ? & ?) by naive_solver.
      rewrite lookup_delete_ne by done. rewrite Ho2 by done. by apply Ho1.
Qed.

(** *** Deletion of a payload that is not in the tree *)

Lemma s_delete_absent σ t x sz fd :
  swf σ t → bst cmp t → x ∉ keys t → t ≠ Leaf → sz ≠ 0 →
  avl_delete cmp (Some σ) (Some x) sz fd = Some (0, Some σ, []).
Proof.
  intros Hwf Hbst Hx Ht Hsz.
  pose proof (s_find_set_root_ok σ x t [] Hwf) as Hfind.
  pose proof (locate_spec cmp x t [] Hbst) as Hs.
  destruct ((locate cmp x t []).1) as [|? ? ? ? ? ?] eqn:El.
  2:{ by destruct Hs. }
  simpl in Hfind. unfold avl_delete.
  assert (root σ = optr t) as Hr by apply Hwf.
  destruct t as [|l a d c h r]; [done|]. simpl in Hr.
  rewrite Hr. rewrite !(bool_decide_eq_true_2 (is_Some (Some _))) by eauto.
  apply Z.eqb_neq in Hsz. rewrite Hsz. cbn [negb orb].
  assert (avl_delete_helper cmp (gas σ) fd (Some a) (Some x) sz σ = Some ([], σ)) as ->; [|done].
  destruct (gas σ); cbn [avl_delete_helper]; by rewrite (sbind_run _ _ _ _ _ Hfind).
Qed.

End SclQueries.

(** ** The void-pointer tree: insertion and deletion *)

Import Shape.

Section SclShape.
Import SclAvl.
Context {T : Type}.
Implicit Types (t l r : tree T) (k : list (frame T)) (σ : avl_tree_t T).

Lemma s_same_refl σ : s_same σ σ.
Proof. by split. Qed.
Lemma s_same_trans σ1 σ2 σ3 : s_same σ1 σ2 → s_same σ2 σ3 → s_same σ1 σ3.
Proof. unfold s_same. intuition congruence. Qed.

Lemma optr_plug t t' k :
  (k = [] → optr t = optr t') → optr (plug t k) = optr (plug t' k).
Proof.
  revert t t'. induction k as [|f k IH]; intros t t' Hp; simpl; [by apply Hp|].
  apply IH. intros _. by destruct f.
Qed.

End SclShape.

(** *** Symbolic execution of the code of [scl_avl_tree.c] *)

Section SclSteps.
Import SclAvl.
Context {T : Type}.
Implicit Types (m : gmap positive (avl_tree_node_t T)) (n : avl_tree_node_t T).

Lemma s_lk_ne m i j (y : avl_tree_node_t T) v :
  i ≠ j → m !! j = v → <[i:=y]> m !! j = v.
Proof. intros. by rewrite lookup_insert_ne. Qed.

Lemma s_ins_comm m m' i j (x y : avl_tree_node_t T) :
  i ≠ j → <[i:=x]> m = m' → <[i:=x]> (<[j:=y]> m) = <[j:=y]> m'.
Proof. intros ? <-. by apply insert_insert_ne. Qed.

Lemma s_step_get {A B} (f : avl_tree_node_t T → A) p (K : A → M B) rt sz m n v R :
  m !! p = Some n → f n = v → K v (MkTree rt sz m) = R →
  bind (get f p) K (MkTree rt sz m) = R.
Proof. intros Hp <- <-. unfold bind, get. simpl. by rewrite Hp. Qed.

Lemma s_step_upd {B} f p (K : unit → M B) rt sz m n m' R :
  m !! p = Some n → <[p := f n]> m = m' → K tt (MkTree rt sz m') = R →
  bind (upd f p) K (MkTree rt sz m) = R.
Proof. intros Hp <- <-. unfold bind, upd. simpl. by rewrite Hp. Qed.

Lemma s_fin_get {A} (f : avl_tree_node_t T → A) p rt sz m n v :
  m !! p = Some n → f n = v →
  get f p (MkTree rt sz m) = Some (v, MkTree rt sz m).
Proof. intros Hp <-. unfold get. simpl. by rewrite Hp. Qed.

Lemma s_fin_upd f p rt sz m n m' :
  m !! p = Some n → <[p := f n]> m = m' →
  upd f p (MkTree rt sz m) = Some (tt, MkTree rt sz m').
Proof. intros Hp <-. unfold upd. simpl. by rewrite Hp. Qed.

Lemma s_step_set_root {B} v (K : unit → M B) rt sz m R :
  K tt (MkTree v sz m) = R → bind (set_root v) K (MkTree rt sz m) = R.
Proof. done. Qed.

Lemma s_step_ret {A B} (a : A) (K : A → M B) (σ : avl_tree_t T) R :
  K a σ = R → bind (ret a) K σ = R.
Proof. done. Qed.

Lemma s_step_cmp {B} (cmp : T → T → Z) x y (K : Z → M B) (σ : avl_tree_t T) R :
  K (cmp x y) σ = R → bind (compare_data cmp (Some x) (Some y)) K σ = R.
Proof. done. Qed.

Lemma s_bind_bind {A B C} (c : M A) (f : A → M B) (g : B → M C) (σ : avl_tree_t T) :
  bind (bind c f) g σ = bind c (λ x, bind (f x) g) σ.
Proof. unfold bind. by destruct (c σ) as [[]|]. Qed.

Lemma s_step_bind {A B C} (c : M A) (f : A → M B) (g : B → M C) (σ : avl_tree_t T) R :
  bind c (λ x, bind (f x) g) σ = R → bind (bind c f) g σ = R.
Proof. intros <-. apply s_bind_bind. Qed.

(** Reading the height through the pointer to a represented subtree. *)
Lemma s_step_height {B} (t : tree T) par (K : Z → M B) rt sz m m0 R :
  srep_tree m0 par t → (∀ x, x ∈ taddrs t → m !! x = m0 !! x) →
  K (ht t) (MkTree rt sz m) = R →
  bind (child_height (optr t)) K (MkTree rt sz m) = R.
Proof.
  intros Hrep Hext <-. destruct t as [|l a d c h r]; [done|].
  simpl. unfold bind, get. simpl. rewrite Hext.
  - destruct Hrep as (-> & _). done.
  - simpl. rewrite elem_of_app, elem_of_cons. auto.
Qed.

Lemma some_neq (x y : positive) : x ≠ y → Some x ≠ Some y.
Proof. congruence. Qed.

Lemma s_dom_ins m i (x : avl_tree_node_t T) D :
  is_Some (m !! i) → dom m = D → dom (<[i:=x]> m) = D.
Proof. intros ? <-. by apply dom_insert_lookup_L. Qed.

End SclSteps.

Module SclTactics.
Import SclAvl.

Ltac s_neq H :=
  solve [ assumption | nd H | apply some_neq; nd H | apply optr_neq; nd H
        | discriminate ].

(** The node stored at an address of a memory given by updates. *)
Ltac s_lk H :=
  lazymatch goal with
  | |- <[?i:=_]> _ !! ?j = _ =>
      first [ apply lookup_insert_eq | apply s_lk_ne; [s_neq H | s_lk H] ]
  | |- _ => eassumption
  end.

(** Updating such a memory, keeping one update per address. *)
Ltac s_upd_norm H :=
  lazymatch goal with
  | |- <[?i:=_]> (<[?j:=_]> _) = _ =>
      first [ apply insert_insert_eq | apply s_ins_comm; [s_neq H | s_upd_norm H] ]
  | |- _ => reflexivity
  end.

Ltac s_node_norm :=
  cbn [set_height set_parent set_left set_right set_count set_data
       data parent left right count height].

(** Nodes outside the written addresses are untouched. *)
Ltac s_fr H :=
  lazymatch goal with
  | |- <[_:=_]> _ !! _ = _ => apply s_lk_ne; [nd H | s_fr H]
  | |- _ => reflexivity
  end.

Ltac s_frame_tac H :=
  let z := fresh "z" in let Hz := fresh "Hz" in
  intros z Hz;
  try (unfold caddrs in Hz; apply elem_of_app in Hz as [Hz|Hz]);
  s_fr H.

Ltac s_exec_cond H b :=
  lazymatch b with
  | context [decide (?x = ?x)] => rewrite (decide_True (P := x = x)) by reflexivity
  | context [decide (?x = ?y)] => rewrite (decide_False (P := x = y)) by s_neq H
  end.

Ltac s_exec_if H b :=
  lazymatch b with
  | true => cbv iota
  | false => cbv iota
  | left _ => cbv iota
  | right _ => cbv iota
  | context [decide _] => s_exec_cond H b
  | _ =>
      match goal with
      | Hx : b = true |- _ => rewrite Hx
      | Hx : b = false |- _ => rewrite Hx
      end
  end.

Ltac s_exec_step H :=
  lazymatch goal with
  | |- bind (get _ _) _ _ = _ =>
      eapply s_step_get; [s_lk H | s_node_norm; reflexivity | cbv beta iota]
  | |- bind (upd _ _) _ _ = _ =>
      eapply s_step_upd; [s_lk H | s_node_norm; s_upd_norm H | cbv beta iota]
  | |- bind (set_root _) _ _ = _ => apply s_step_set_root; cbv beta iota
  | |- bind (ret _) _ _ = _ => apply s_step_ret; cbv beta iota
  | |- bind (compare_data _ (Some _) (Some _)) _ _ = _ =>
      apply s_step_cmp; cbv beta iota
  | |- bind (child_height (optr _)) _ _ = _ =>
      eapply s_step_height; [eassumption | s_frame_tac H | cbv beta iota]
  | |- bind (child_height _) _ _ = _ => cbn [child_height]
  | |- bind (bind _ _) _ _ = _ => apply s_step_bind; cbv beta iota
  | |- bind (if ?b then _ else _) _ _ = _ => s_exec_if H b
  | |- (if ?b then _ else _) _ = _ => s_exec_if H b
  | |- get _ _ _ = _ => eapply s_fin_get; [s_lk H | s_node_norm; reflexivity]
  | |- upd _ _ _ = _ => eapply s_fin_upd; [s_lk H | s_node_norm; s_upd_norm H]
  | |- ret _ _ = _ => reflexivity
  | |- set_root _ _ = _ => reflexivity
  end.

Ltac s_exec H := repeat s_exec_step H.

Ltac s_run_code H := eexists; split; [cbn [root optr lsub rsub]; s_exec H|].

Ltac s_dom_tac H :=
  lazymatch goal with
  | |- dom (<[_:=_]> _) = _ => apply s_dom_ins; [eexists; s_lk H | s_dom_tac H]
  | |- _ => reflexivity
  end.

Ltac s_same_tac H := unfold s_same; simpl; split; [reflexivity|s_dom_tac H].

Ltac s_wf_goal H :=
  first
    [ done
    | s_lk H
    | (eapply srep_tree_ext; [|eassumption]; s_frame_tac H)
    | (eapply srep_ctx_ext; [|eassumption]; s_frame_tac H)
    | (repeat first [rewrite <- app_assoc in H | progress simpl in H];
       repeat first [rewrite <- app_assoc | progress simpl]; exact H)
    | nd_sub H
    | match goal with
      | Hroot : _ = optr (plug _ _) |- _ = optr (plug _ _) =>
          simpl in Hroot; rewrite Hroot; by apply optr_plug
      end ].

End SclTactics.

Section SclRot.
Import SclAvl SclTactics.
Context {T : Type}.
Variable cmp : T → T → Z.
Implicit Types (t l r : tree T) (k : list (frame T)) (σ : avl_tree_t T).
Implicit Types (m : gmap positive (avl_tree_node_t T)).

(** [avl_rotate_left] at the root of a subtree performs the left rotation
    of that subtree. *)
Lemma s_rotl_ok σ l a d c h rl b db cb hb rr k :
  let t := Node l a d c h (Node rl b db cb hb rr) in
  swf σ (plug t k) → hole_ok cmp k db →
  ∃ σ', avl_rotate_left cmp (Some a) σ = Some (tt, σ') ∧
        swf σ' (plug (s_rotl_t t) k) ∧ s_same σ σ'.
Proof.
  intros t Hwf Hside. subst t.
  apply swf_plug in Hwf as (Hroot & Hrep & Hctx & Hnd).
  destruct σ as [rt sz m]. simpl in *|-.
  destruct Hrep as (Ha & Hl & (Hb & Hrl & Hrr)).
  unfold avl_rotate_left, relink, avl_update_node_height.
  destruct rl as [|rll x dx cx hx rlr]; destruct k as [|[p dp cp hp s|s p dp cp hp] k'];
    simpl in *|-.
  all: try destruct Hctx as (Hp & Hs & Hk').
  all: try destruct Hrl as (Hx & Hrll & Hrlr).
  all: s_run_code Hnd; (split; [|s_same_tac Hnd]); apply swf_plug; simpl; split_and!.
  all: s_wf_goal Hnd.
Qed.

(** The same for [avl_rotate_right]. *)
Lemma s_rotr_ok σ ll b db cb hb lr a d c h r k :
  let t := Node (Node ll b db cb hb lr) a d c h r in
  swf σ (plug t k) → hole_ok cmp k db →
  ∃ σ', avl_rotate_right cmp (Some a) σ = Some (tt, σ') ∧
        swf σ' (plug (s_rotr_t t) k) ∧ s_same σ σ'.
Proof.
  intros t Hwf Hside. subst t.
  apply swf_plug in Hwf as (Hroot & Hrep & Hctx & Hnd).
  destruct σ as [rt sz m]. simpl in *|-.
  destruct Hrep as (Ha & (Hb & Hll & Hlr) & Hr).
  unfold avl_rotate_right, relink, avl_update_node_height.
  destruct lr as [|lrl x dx cx hx lrr]; destruct k as [|[p dp cp hp s|s p dp cp hp] k'];
    simpl in *|-.
  all: try destruct Hctx as (Hp & Hs & Hk').
  all: try destruct Hlr as (Hx & Hlrl & Hlrr).
  all: s_run_code Hnd; (split; [|s_same_tac Hnd]); apply swf_plug; simpl; split_and!.
  all: s_wf_goal Hnd.
Qed.

(** [avl_update_node_height] recomputes the stored height of the root of
    a subtree. *)
Lemma s_upheight_ok σ l a d c h r k :
  let t := Node l a d c h r in
  swf σ (plug t k) →
  ∃ σ', avl_update_node_height (Some a) σ = Some (tt, σ') ∧
        swf σ' (plug (s_upheight_t t) k) ∧ s_same σ σ'.
Proof.
  intros t Hwf. subst t.
  apply swf_plug in Hwf as (Hroot & Hrep & Hctx & Hnd).
  destruct σ as [rt sz m]. simpl in *|-.
  destruct Hrep as (Ha & Hl & Hr).
  unfold avl_update_node_height.
  s_run_code Hnd; (split; [|s_same_tac Hnd]); apply swf_plug; simpl; split_and!.
  all: s_wf_goal Hnd.
Qed.

End SclRot.

Import Shape.

Section SclRound.
Import SclAvl SclTactics.
Context {T : Type}.
Variable cmp : T → T → Z.
Implicit Types (t l r : tree T) (k : list (frame T)) (σ : avl_tree_t T).
Implicit Types (m : gmap positive (avl_tree_node_t T)).

Lemma s_rotl_gen σ t k :
  swf σ (plug t k) → (∀ x, x ∈ keys t → hole_ok cmp k x) →
  ∃ σ', avl_rotate_left cmp (optr t) σ = Some (tt, σ') ∧
        swf σ' (plug (s_rotl_t t) k) ∧ s_same σ σ'.
Proof.
  intros Hwf Hside. destruct t as [|l a d c h [|rl b db cb hb rr]].
  - exists σ. split; [done|]. split; [done|apply s_same_refl].
  - exists σ. split; [|split; [done|apply s_same_refl]].
    pose proof (swf_root_lookup _ _ _ _ _ _ _ _ Hwf) as Hl.
    unfold avl_rotate_left, bind, get. cbn [optr]. by rewrite Hl.
  - apply s_rotl_ok; [done|]. apply Hside. simpl.
    rewrite !elem_of_app, !elem_of_cons, !elem_of_app, !elem_of_cons. auto.
Qed.

Lemma s_rotr_gen σ t k :
  swf σ (plug t k) → (∀ x, x ∈ keys t → hole_ok cmp k x) →
  ∃ σ', avl_rotate_right cmp (optr t) σ = Some (tt, σ') ∧
        swf σ' (plug (s_rotr_t t) k) ∧ s_same σ σ'.
Proof.
  intros Hwf Hside. destruct t as [|[|ll b db cb hb lr] a d c h r].
  - exists σ. split; [done|]. split; [done|apply s_same_refl].
  - exists σ. split; [|split; [done|apply s_same_refl]].
    pose proof (swf_root_lookup _ _ _ _ _ _ _ _ Hwf) as Hl.
    unfold avl_rotate_right, bind, get. cbn [optr]. by rewrite Hl.
  - apply s_rotr_ok; [done|]. apply Hside. simpl.
    rewrite !elem_of_app, !elem_of_cons. auto.
Qed.

Lemma s_upheight_gen σ t k :
  swf σ (plug t k) →
  ∃ σ', avl_update_node_height (optr t) σ = Some (tt, σ') ∧
        swf σ' (plug (s_upheight_t t) k) ∧ s_same σ σ'.
Proof.
  intros Hwf. destruct t as [|l a d c h r].
  - exists σ. split; [done|]. split; [done|apply s_same_refl].
  - by apply s_upheight_ok.
Qed.

Lemma s_balance_ok σ par t :
  srep_tree (mem σ) par t →
  avl_get_node_balance (optr t) σ = Some (s_bal t, σ).
Proof.
  intros Hrep. destruct t as [|l a d c h r]; [done|].
  destruct Hrep as (Ha & Hl & Hr).
  unfold avl_get_node_balance, bind, get. cbn [optr]. rewrite Ha. simpl.
  rewrite Ha. simpl.
  destruct l as [|ll x dx cx hx lr]; destruct r as [|rl y dy cy hy rr]; simpl in *.
  - done.
  - destruct Hr as (-> & _). done.
  - destruct Hl as (-> & _). done.
  - destruct Hl as (-> & _). destruct Hr as (-> & _). done.
Qed.

Lemma s_get_parent_near σ t k a :
  swf σ (plug t k) → s_near a t →
  get parent a σ = Some (if decide (optr t = Some a) then ocpar k else optr t, σ).
Proof.
  intros Hwf Hnear.
  apply swf_plug in Hwf as (_ & Hrep & _ & Hnd).
  unfold get, s_near in *. destruct t as [|l b d c h r]; simpl in *.
  { destruct Hnear as [?|[?|?]]; congruence. }
  destruct Hrep as (Hb & Hl & Hr).
  destruct Hnear as [[= ->]|[E|E]].
  - rewrite Hb. simpl. by rewrite decide_True.
  - destruct l as [|ll x dx cx hx lr]; simpl in *; [congruence|].
    injection E as ->.
    destruct Hl as (-> & _). simpl. rewrite decide_False; [done|].
    assert (b ≠ a) as Hne by nd Hnd. congruence.
  - destruct r as [|rl x dx cx hx rr]; simpl in *; [congruence|].
    injection E as ->.
    destruct Hr as (-> & _). simpl. rewrite decide_False; [done|].
    assert (b ≠ a) as Hne by nd Hnd. congruence.
Qed.

(** The rotations of one case of the fix-up, run on a subtree. *)
Lemma s_exec_case_ok σ cs l a d c h r k :
  let t := Node l a d c h r in
  swf σ (plug t k) → bst cmp t → (∀ x, x ∈ keys t → hole_ok cmp k x) →
  ∃ σ', s_exec_case cmp cs a σ = Some (tt, σ') ∧
        swf σ' (plug (s_apply_case cs t) k) ∧ s_same σ σ'.
Proof.
  intros t Hwf Hbst Hside. subst t.
  destruct cs; simpl s_exec_case.
  - exists σ. split; [done|]. split; [done|apply s_same_refl].
  - by apply (s_rotr_gen σ (Node l a d c h r) k).
  - by apply (s_rotl_gen σ (Node l a d c h r) k).
  - destruct (s_rotl_gen σ l (FL a d c h r :: k)) as (σ1 & E1 & Hwf1 & Hs1); [done|..].
    { intros x Hx. simpl. destruct Hbst as (Hl & _).
      rewrite Forall_forall in Hl. specialize (Hl x Hx). zbool. }
    unfold bind at 1. unfold get. rewrite (swf_root_lookup _ _ _ _ _ _ _ _ Hwf). simpl.
    unfold bind at 1. rewrite E1.
    destruct (s_rotr_gen σ1 (Node (s_rotl_t l) a d c h r) k) as (σ2 & E2 & Hwf2 & Hs2);
      [done|..].
    { intros x Hx. apply Hside. simpl in *.
      assert (keys (s_rotl_t l) = keys l) as Hk.
      { clear. destruct l as [|l1 a1 d1 c1 h1 [|rl b db cb hb rr]]; simpl; try done.
        by rewrite <- app_assoc. }
      by rewrite Hk in Hx. }
    simpl in E2. exists σ2. split; [done|]. split; [done|]. by eapply s_same_trans.
  - destruct (s_rotr_gen σ r (FR l a d c h :: k)) as (σ1 & E1 & Hwf1 & Hs1); [done|..].
    { intros x Hx. simpl. destruct Hbst as (_ & Hr & _).
      rewrite Forall_forall in Hr. specialize (Hr x Hx). zbool. }
    unfold bind at 1. unfold get. rewrite (swf_root_lookup _ _ _ _ _ _ _ _ Hwf). simpl.
    unfold bind at 1. rewrite E1.
    destruct (s_rotl_gen σ1 (Node l a d c h (s_rotr_t r)) k) as (σ2 & E2 & Hwf2 & Hs2);
      [done|..].
    { intros x Hx. apply Hside. simpl in *.
      assert (keys (s_rotr_t r) = keys r) as Hk.
      { clear. destruct r as [|[|ll b db cb hb lr] a1 d1 c1 h1 r1]; simpl; try done.
        by rewrite <- app_assoc. }
      by rewrite Hk in Hx. }
    simpl in E2. exists σ2. split; [done|]. split; [done|]. by eapply s_same_trans.
Qed.

Lemma s_near_apply_case cs l a d c h r :
  s_near a (s_apply_case cs (Node l a d c h r)).
Proof.
  unfold s_near. destruct cs; simpl.
  - by left.
  - destruct l as [|ll b db cb hb lr]; simpl; auto.
  - destruct r as [|rl b db cb hb rr]; simpl; auto.
  - destruct l as [|ll b db cb hb [|lrl x dx cx hx lrr]]; simpl; auto.
  - destruct r as [|[|rll x dx cx hx rlr] b db cb hb rr]; simpl; auto.
Qed.

(** One round of a fix-up loop at the root of a subtree: the subtree is
    replaced by [s_round_t], and the loop goes on with the parent of the
    node, or once more with the new root of the subtree after a
    rotation. *)
Lemma s_round_ok sel σ l a d c h r k :
  let t := Node l a d c h r in
  swf σ (plug t k) → bst cmp t → (∀ x, x ∈ keys t → hole_ok cmp k x) →
  ∃ σ', s_fix_round_gen cmp sel a σ =
          Some (if decide (optr (s_round_t sel t) = Some a)
                then ocpar k else optr (s_round_t sel t), σ') ∧
        swf σ' (plug (s_round_t sel t) k) ∧ s_same σ σ'.
Proof.
  intros t Hwf Hbst Hside. subst t.
  destruct (s_upheight_gen σ (Node l a d c h r) k Hwf) as (σ1 & E1 & Hwf1 & Hs1).
  cbn [optr] in E1. unfold s_fix_round_gen. unfold bind at 1. rewrite E1.
  pose proof Hwf1 as Hz. apply swf_plug in Hz as (_ & Hrep & _ & _).
  pose proof (s_balance_ok σ1 _ _ Hrep) as Hb. cbn [optr s_upheight_t] in Hb.
  unfold bind at 1. rewrite Hb.
  pose proof Hrep as Hrep'. simpl in Hrep'. destruct Hrep' as (Ha & Hl & Hr).
  unfold bind at 1. unfold get at 1. rewrite Ha. cbn [left].
  unfold bind at 1. rewrite (s_balance_ok σ1 _ _ Hl).
  unfold bind at 1. unfold get at 1. rewrite Ha. cbn [right].
  unfold bind at 1. rewrite (s_balance_ok σ1 _ _ Hr).
  set (cs := sel _ _ _).
  destruct (s_exec_case_ok σ1 cs l a d c _ r k Hwf1) as (σ2 & E2 & Hwf2 & Hs2).
  { done. } { done. }
  unfold bind at 1. rewrite E2.
  rewrite (s_get_parent_near σ2 _ k a Hwf2).
  - exists σ2. unfold s_round_t. cbn [s_upheight_t lsub rsub]. fold cs.
    split; [done|]. split; [done|]. by eapply s_same_trans.
  - apply s_near_apply_case.
Qed.

(** The rounds of the two loops. *)
Lemma s_insert_round fuel a σ :
  avl_insert_fix_node_up cmp (S fuel) (Some a) σ =
    bind (s_fix_round_gen cmp push_case a) (avl_insert_fix_node_up cmp fuel) σ.
Proof.
  cbn [avl_insert_fix_node_up]. unfold s_fix_round_gen, bind.
  destruct (avl_update_node_height (Some a) σ) as [[[] σ1]|]; [|done].
  destruct (avl_get_node_balance (Some a) σ1) as [[bf σ2]|]; [|done].
  destruct (get left a σ2) as [[x σ3]|]; [|done].
  destruct (avl_get_node_balance x σ3) as [[lbf σ4]|]; [|done].
  destruct (get right a σ4) as [[y σ5]|]; [|done].
  destruct (avl_get_node_balance y σ5) as [[rbf σ6]|]; [|done].
  unfold push_case, ret.
  destruct (Z.eqb_spec bf 2), (Z.eqb_spec lbf 1), (Z.eqb_spec bf (-2)),
    (Z.eqb_spec rbf (-1)), (Z.eqb_spec lbf (-1)), (Z.eqb_spec rbf 1);
    simpl; try lia; unfold bind; repeat case_match; congruence.
Qed.

Lemma s_delete_round fuel a σ :
  avl_delete_fix_node_up cmp (S fuel) (Some a) σ =
    bind (s_fix_round_gen cmp pop_case a) (avl_delete_fix_node_up cmp fuel) σ.
Proof.
  cbn [avl_delete_fix_node_up]. unfold s_fix_round_gen, bind.
  destruct (avl_update_node_height (Some a) σ) as [[[] σ1]|]; [|done].
  destruct (avl_get_node_balance (Some a) σ1) as [[bf σ2]|]; [|done].
  destruct (get left a σ2) as [[x σ3]|]; [|done].
  destruct (avl_get_node_balance x σ3) as [[lbf σ4]|]; [|done].
  destruct (get right a σ4) as [[y σ5]|]; [|done].
  destruct (avl_get_node_balance y σ5) as [[rbf σ6]|]; [|done].
  unfold pop_case, ret. rewrite !Z.gtb_ltb, !Z.geb_leb.
  destruct (Z.ltb_spec 1 bf), (Z.leb_spec 0 lbf), (Z.ltb_spec bf (-1)),
    (Z.leb_spec rbf 0), (Z.ltb_spec lbf 0), (Z.ltb_spec 0 rbf);
    simpl; try lia; unfold bind; repeat case_match; congruence.
Qed.

End SclRound.

Import Shape.

(** *** Heights that fit an [int] *)

Section SclPure.
Import SclAvl.
Context {T : Type}.
Implicit Types (t l r : tree T) (k : list (frame T)).

Lemma s_max_eq x y :
  0 ≤ x ≤ 200 → 0 ≤ y ≤ 200 → i32 (_MAX x y + 1) = 1 + Z.max x y.
Proof.
  intros. unfold i32, _MAX. rewrite Z.geb_leb.
  destruct (Z.leb_spec y x); rewrite Z.mod_small by lia; lia.
Qed.

Lemma i32_small x : -200 ≤ x ≤ 200 → i32 x = x.
Proof. intros. unfold i32. rewrite Z.mod_small by lia. lia. Qed.

Ltac s_tree_facts :=
  repeat match goal with
  | H : hc (Node _ _ _ _ _ _) |- _ => cbn [hc] in H
  | H : _ ∧ _ |- _ => destruct H
  end;
  repeat match goal with
  | H : hc ?t |- _ =>
      lazymatch goal with
      | _ : 0 ≤ ht t |- _ => fail
      | _ => pose proof (hc_nonneg t H)
      end
  end;
  cbn [ht] in *.

(** As long as the heights stay small, the functions of [scl_avl_tree.c]
    compute what those of [m_avl.h] do. *)
Lemma s_upheight_eq l a (d : T) c h r :
  0 ≤ ht l ≤ 200 → 0 ≤ ht r ≤ 200 →
  s_upheight_t (Node l a d c h r) = upheight_t (Node l a d c h r).
Proof. intros. simpl. by rewrite s_max_eq, u32_max. Qed.

Lemma ht_upheight l a (d : T) c h r :
  0 ≤ ht l ≤ 200 → 0 ≤ ht r ≤ 200 →
  ht (upheight_t (Node l a d c h r)) = 1 + Z.max (ht l) (ht r).
Proof. intros. simpl. by rewrite u32_max. Qed.

Lemma s_bal_eq t :
  0 ≤ ht (lsub t) ≤ 200 → 0 ≤ ht (rsub t) ≤ 200 → s_bal t = bal t.
Proof.
  destruct t as [|l a d c h r]; [done|]. simpl. intros Hl Hr.
  rewrite i32_sub by done.
  destruct l, r; simpl in *; rewrite ?i32_small by lia; lia.
Qed.

Lemma s_rotl_eq l a (d : T) c h rl b db cb hb rr :
  0 ≤ ht l ≤ 190 → 0 ≤ ht rl ≤ 190 → 0 ≤ ht rr ≤ 190 →
  s_rotl_t (Node l a d c h (Node rl b db cb hb rr)) =
    rotl_t (Node l a d c h (Node rl b db cb hb rr)).
Proof.
  intros. cbn [s_rotl_t rotl_t]. rewrite (s_upheight_eq l a d c h rl) by lia.
  apply s_upheight_eq; [|lia]. rewrite ht_upheight by lia. lia.
Qed.

Lemma s_rotr_eq ll b (db : T) cb hb lr a d c h r :
  0 ≤ ht ll ≤ 190 → 0 ≤ ht lr ≤ 190 → 0 ≤ ht r ≤ 190 →
  s_rotr_t (Node (Node ll b db cb hb lr) a d c h r) =
    rotr_t (Node (Node ll b db cb hb lr) a d c h r).
Proof.
  intros. cbn [s_rotr_t rotr_t]. rewrite (s_upheight_eq lr a d c h r) by lia.
  apply s_upheight_eq; [lia|]. rewrite ht_upheight by lia. lia.
Qed.

Lemma s_apply_case_eq cs l a (d : T) c h r :
  hc l → hc r → ht l ≤ 150 → ht r ≤ 150 →
  s_apply_case cs (Node l a d c h r) = apply_case cs (Node l a d c h r).
Proof.
  intros Hl Hr Hbl Hbr. destruct cs; cbn [s_apply_case apply_case on_left on_right].
  - done.
  - destruct l as [|ll b db cb hb lr]; [done|]. s_tree_facts.
    apply s_rotr_eq; lia.
  - destruct r as [|rl b db cb hb rr]; [done|]. s_tree_facts.
    apply s_rotl_eq; lia.
  - destruct l as [|ll b db cb hb [|lrl x dx cx hx lrr]]; [done| |]; s_tree_facts.
    + cbn [s_rotl_t rotl_t]. apply s_rotr_eq; simpl; lia.
    + rewrite s_rotl_eq by lia. cbn [rotl_t upheight_t].
      apply s_rotr_eq; cbn [ht]; rewrite ?u32_max by lia; lia.
  - destruct r as [|[|rll x dx cx hx rlr] b db cb hb rr]; [done| |]; s_tree_facts.
    + cbn [s_rotr_t rotr_t]. apply s_rotl_eq; simpl; lia.
    + rewrite s_rotr_eq by lia. cbn [rotr_t upheight_t].
      apply s_rotl_eq; cbn [ht]; rewrite ?u32_max by lia; lia.
Qed.

Lemma s_round_eq sel t :
  hc (lsub t) → hc (rsub t) → ht (lsub t) ≤ 150 → ht (rsub t) ≤ 150 →
  s_round_t sel t = round_t sel t.
Proof.
  destruct t as [|l a d c h r]; [done|]. simpl. intros Hl Hr Hbl Hbr.
  pose proof (hc_nonneg _ Hl). pose proof (hc_nonneg _ Hr).
  unfold s_round_t, round_t. rewrite s_upheight_eq by lia.
  cbn [upheight_t lsub rsub].
  rewrite (s_bal_eq (Node _ _ _ _ _ _)) by (simpl; lia).
  rewrite (s_bal_eq l), (s_bal_eq r).
  - by apply s_apply_case_eq.
  - pose proof (hc_sub_le _ Hr) as [??]. pose proof (hc_nonneg _ (hc_lsub _ Hr)). lia.
  - pose proof (hc_sub_le _ Hr) as [??]. pose proof (hc_nonneg _ (hc_rsub _ Hr)). lia.
  - pose proof (hc_sub_le _ Hl) as [??]. pose proof (hc_nonneg _ (hc_lsub _ Hl)). lia.
  - pose proof (hc_sub_le _ Hl) as [??]. pose proof (hc_nonneg _ (hc_rsub _ Hl)). lia.
Qed.

End SclPure.

(** *** The fix-up loops *)

Section SclLoop.
Import SclAvl.
Context {T : Type} (cmp : T → T → Z) `{!TotalOrder cmp}.
Implicit Types (t l r s : tree T) (k : list (frame T)) (σ : avl_tree_t T).
Variable sel : Z → Z → Z → rot_case.
Variable P : Z → tree T → Prop.
Variable loop : nat → option positive → M (T:=T) unit.
Hypothesis Hquiet : quiet sel.
Hypothesis HP : ∀ h0 t, P h0 t → hc t ∧ avl t.
Hypothesis Hstep : ∀ h0 t f,
  0 ≤ h0 → P h0 t → hc (fsib f) → avl (fsib f) →
  Z.abs (h0 - ht (fsib f)) ≤ 1 → ht t ≤ 150 → ht (fsib f) ≤ 150 →
  P (1 + Z.max h0 (ht (fsib f))) (round_t sel (fill f t)).
Hypothesis Hloop0 : ∀ fuel σ, loop fuel None σ = Some (tt, σ).
Hypothesis HloopS : ∀ fuel a σ,
  loop (S fuel) (Some a) σ = bind (s_fix_round_gen cmp sel a) (loop fuel) σ.

(** A fix-up loop of [scl_avl_tree.c] started at the parent of a subtree
    that an update has left in the state [P] ends, within the fuel given,
    with a consistent AVL tree that holds the same nodes in the same
    order. *)
Lemma s_fix_loop_ok k : ∀ t σ fuel h0,
  swf σ (plug t k) → bst cmp (plug t k) → P h0 t → 0 ≤ h0 → ctx_inv h0 k →
  card (plug t k) + 1 ≤ addr_space → (2 * length k ≤ fuel)%nat →
  ∃ σ' t', loop fuel (ocpar k) σ = Some (tt, σ') ∧
           swf σ' t' ∧ hc t' ∧ avl t' ∧ cells t' = cells (plug t k) ∧
           s_same σ σ'.
Proof.
  induction k as [|f k IH]; intros t σ fuel h0 Hwf Hbst Ht Hh0 Hk Hcard Hfuel.
  { exists σ, t. simpl. rewrite Hloop0. destruct (HP _ _ Ht).
    split_and!; try done; apply s_same_refl. }
  destruct Hk as (Hcs & Has & Hd & Hk).
  destruct (HP _ _ Ht) as [Hct Hat].
  assert (ht t ≤ 150).
  { pose proof (card_plug_le t (f :: k)).
    pose proof (avl_small t Hct Hat). lia. }
  assert (ht (fsib f) ≤ 150).
  { pose proof (card_sib_le t f k).
    pose proof (avl_small _ Hcs Has). lia. }
  pose proof (Hstep h0 t f Hh0 Ht Hcs Has Hd) as Hu'.
  do 2 (specialize (Hu' ltac:(done))).
  set (h1 := 1 + Z.max h0 (ht (fsib f))) in *.
  assert (ocpar (f :: k) = Some (faddr f)) as -> by done.
  change (plug t (f :: k)) with (plug (fill f t) k) in *.
  assert (s_round_t sel (fill f t) = round_t sel (fill f t)) as Hreq.
  { apply s_round_eq; destruct f; simpl in *; done. }
  destruct (fill_node f t) as (l & a & d & c & h & r & Hu).
  assert (faddr f = a) as -> by (destruct f; simpl in *; congruence).
  rewrite Hu in *. clear Hu. set (u := Node l a d c h r) in *.
  remember (round_t sel u) as u' eqn:Eu'.
  destruct (bst_hole cmp _ _ Hbst) as [Hbu Hhole].
  destruct (s_round_ok cmp sel σ l a d c h r k Hwf Hbu Hhole)
    as (σ1 & Hrun & Hwf1 & Hso1).
  fold u in Hrun, Hwf1. rewrite Hreq in Hrun, Hwf1.
  assert (cells (plug u' k) = cells (plug u k)) as Hcells.
  { subst u'. apply cells_plug_eq, cells_round. }
  assert (bst cmp (plug u' k)) as Hbst1 by by eapply bst_cells.
  assert (card (plug u' k) + 1 ≤ addr_space) as Hcard1.
  { by rewrite card_cells, Hcells, <- card_cells. }
  assert (0 ≤ h1) as Hh1 by (unfold h1; lia).
  destruct fuel as [|[|fuel]]; [simpl in Hfuel; lia..|].
  rewrite HloopS.
  unfold bind at 1. rewrite Hrun.
  destruct (decide (optr u' = Some a)) as [Heq|Hne].
  { destruct (IH u' σ1 (S fuel) h1) as (σ' & t' & Hl & ? & ? & ? & Hc' & ?);
      try done; [simpl in Hfuel; lia|].
    exists σ', t'. rewrite Hl. split_and!; try done.
    - by rewrite Hc'.
    - by eapply s_same_trans. }
  destruct u' as [|l' a' d' c' h' r'].
  { symmetry in Eu'. by apply round_node in Eu'. }
  cbn [optr] in *.
  rewrite HloopS.
  assert (bst cmp (plug (Node l' a' d' c' h' r') k)) as Hb2 by done.
  destruct (bst_hole cmp _ _ Hb2) as [Hbu2 Hhole2].
  destruct (s_round_ok cmp sel σ1 l' a' d' c' h' r' k Hwf1 Hbu2 Hhole2)
    as (σ2 & Hrun2 & Hwf2 & Hso2).
  destruct (HP _ _ Hu') as [Hcu' Hau'].
  assert (ht (Node l' a' d' c' h' r') ≤ 129) as Hsmall.
  { pose proof (card_plug_le (Node l' a' d' c' h' r') k).
    pose proof (avl_small _ Hcu' Hau'). lia. }
  assert (round_t sel (Node l' a' d' c' h' r') = Node l' a' d' c' h' r') as Est.
  { apply round_stable; try done. lia. }
  assert (s_round_t sel (Node l' a' d' c' h' r') = round_t sel (Node l' a' d' c' h' r'))
    as Hreq2.
  { pose proof (hc_sub_le _ Hcu') as [??].
    apply s_round_eq; [by apply (hc_lsub _ Hcu')|by apply (hc_rsub _ Hcu')|lia..]. }
  rewrite Hreq2, Est in Hrun2, Hwf2.
  cbn [optr] in Hrun2. rewrite decide_True in Hrun2 by done.
  unfold bind at 1. rewrite Hrun2.
  destruct (IH (Node l' a' d' c' h' r') σ2 fuel h1)
    as (σ' & t' & Hl & ? & ? & ? & Hc' & ?);
    try done; [simpl in Hfuel; lia|].
  exists σ', t'. rewrite Hl. split_and!; try done.
  - by rewrite Hc'.
  - eapply s_same_trans; [done|]. by eapply s_same_trans.
Qed.

End SclLoop.

Section SclFix.
Import SclAvl.
Context {T : Type} (cmp : T → T → Z) `{!TotalOrder cmp}.
Implicit Types (t l r s : tree T) (k : list (frame T)) (σ : avl_tree_t T).

(** [avl_insert_fix_node_up] and [avl_delete_fix_node_up]. *)
Lemma s_insert_fix_ok k t σ fuel h0 :
  swf σ (plug t k) → bst cmp (plug t k) → Grown h0 t → 0 ≤ h0 → ctx_inv h0 k →
  card (plug t k) + 1 ≤ addr_space → (2 * length k ≤ fuel)%nat →
  ∃ σ' t', avl_insert_fix_node_up cmp fuel (ocpar k) σ = Some (tt, σ') ∧
           swf σ' t' ∧ hc t' ∧ avl t' ∧ cells t' = cells (plug t k) ∧
           s_same σ σ'.
Proof.
  apply (s_fix_loop_ok cmp push_case Grown).
  - apply push_case_quiet.
  - apply Grown_facts.
  - apply push_step.
  - by intros [|n] σ0.
  - intros n a σ0. apply s_insert_round.
Qed.

Lemma s_delete_fix_ok k t σ fuel h0 :
  swf σ (plug t k) → bst cmp (plug t k) → Shrunk h0 t → 0 ≤ h0 → ctx_inv h0 k →
  card (plug t k) + 1 ≤ addr_space → (2 * length k ≤ fuel)%nat →
  ∃ σ' t', avl_delete_fix_node_up cmp fuel (ocpar k) σ = Some (tt, σ') ∧
           swf σ' t' ∧ hc t' ∧ avl t' ∧ cells t' = cells (plug t k) ∧
           s_same σ σ'.
Proof.
  apply (s_fix_loop_ok cmp pop_case Shrunk).
  - apply pop_case_quiet.
  - apply Shrunk_facts.
  - apply pop_step.
  - by intros [|n] σ0.
  - intros n a σ0. apply s_delete_round.
Qed.

End SclFix.

Import Shape.

(** *** Insertion *)

Section SclInsertHeap.
Import SclAvl SclTactics.
Context {T : Type}.
Variable cmp : T → T → Z.
Implicit Types (t l r : tree T) (k : list (frame T)) (σ : avl_tree_t T).
Implicit Types (m : gmap positive (avl_tree_node_t T)).

Lemma srep_in_dom m par t x : srep_tree m par t → x ∈ taddrs t → x ∈ dom m.
Proof.
  revert par. induction t as [|l IHl a d c h r IHr]; intros par Hrep; simpl.
  { by intros ?%elem_of_nil. }
  destruct Hrep as (Ha & Hl & Hr). rewrite elem_of_app, elem_of_cons.
  intros [?|[->|?]]; [by eapply IHl| |by eapply IHr].
  apply elem_of_dom. eauto.
Qed.

Lemma swf_in_dom σ t x : swf σ t → x ∈ taddrs t → x ∈ dom (mem σ).
Proof. intros (_ & Hrep & _). by eapply srep_in_dom. Qed.

Lemma s_same_size σ σ' : s_same σ σ' → base.size (mem σ') = base.size (mem σ).
Proof. intros [_ Hd]. by rewrite <- !size_dom, Hd. Qed.

Lemma s_same_gas σ σ' : s_same σ σ' → gas σ' = gas σ.
Proof. intros H. unfold gas. by rewrite (s_same_size _ _ H). Qed.

(** Changing the count of a node. *)
Lemma s_set_count_ok σ l a d c h r k v :
  swf σ (plug (Node l a d c h r) k) →
  ∃ σ', upd (set_count v) a σ = Some (tt, σ') ∧
        swf σ' (plug (Node l a d v h r) k) ∧ s_same σ σ'.
Proof.
  intros Hwf.
  apply swf_plug in Hwf as (Hroot & Hrep & Hctx & Hnd).
  destruct σ as [rt sz m]. simpl in *|-.
  destruct Hrep as (Ha & Hl & Hr).
  s_run_code Hnd. split; [|s_same_tac Hnd]. apply swf_plug; simpl; split_and!.
  all: s_wf_goal Hnd.
Qed.

(** The descent of [avl_insert] follows [locate]. *)
Lemma s_insert_descent_ok σ data t k fuel :
  swf σ (plug t k) → (length (taddrs t) ≤ fuel)%nat →
  ∃ res σ',
    insert_descent cmp fuel (Some data) (optr t) (ocpar k) σ = Some (res, σ') ∧
    s_descent_post σ (locate cmp data t k) res σ'.
Proof.
  revert k fuel. induction t as [|l IHl a x c h r IHr]; intros k fuel Hwf Hfuel.
  - exists (inr (ocpar k)), σ. split; [|done]. by destruct fuel.
  - rewrite length_taddrs_node in Hfuel.
    destruct fuel as [|fuel]; [lia|].
    pose proof (swf_root_lookup _ _ _ _ _ _ _ _ Hwf) as Hl.
    cbn [insert_descent optr locate].
    unfold bind at 1. unfold get at 1. rewrite Hl. cbn [SclAvl.data].
    unfold bind at 1. cbn [compare_data]. unfold ret at 1.
    destruct (cmp x data >=? 1) eqn:E1.
    + unfold bind at 1. unfold get at 1. rewrite Hl. cbn [left].
      apply (IHl (FL a x c h r :: k) fuel Hwf). lia.
    + unfold bind at 1. unfold ret at 1.
      destruct (cmp x data <=? -1) eqn:E2.
      * unfold bind at 1. unfold get at 1. rewrite Hl. cbn [right].
        apply (IHr (FR l a x c h :: k) fuel Hwf). lia.
      * unfold bind at 1. unfold get at 1. rewrite Hl. cbn [count].
        destruct (s_set_count_ok σ l a x c h r k (c + 1) Hwf) as (σ' & E & Hwf' & Hs).
        exists (inl tt), σ'. unfold bind. rewrite E. done.
Qed.

(** Linking the new node below the last node of the descent. *)
Lemma s_attach_ok σ f k p data :
  swf σ (plug Leaf (f :: k)) → went_ok cmp (f :: k) data → p ∉ dom (mem σ) →
  ∃ σ', s_attach_code cmp p (faddr f)
          (s_with_node σ p (MkNode (Some data) None None None 1 1)) = Some (tt, σ') ∧
        swf σ' (plug (Node Leaf p data 1 1 Leaf) (f :: k)) ∧ s_grown σ p σ'.
Proof.
  intros Hwf Hhole Hp.
  assert (p ∉ taddrs (plug Leaf (f :: k))) as Hp'.
  { intros Hin. apply Hp. by eapply swf_in_dom. }
  apply swf_plug in Hwf as (Hroot & Hrep & Hctx & Hnd).
  rewrite taddrs_plug in Hp'.
  assert (NoDup (p :: clefts (f :: k) ++ taddrs (Leaf : tree T) ++ crights (f :: k)))
    as Hnd' by by apply NoDup_cons_2.
  clear Hp'.
  destruct σ as [rt sz m]. unfold s_with_node, s_attach_code. simpl in *|-.
  destruct f as [a d c h s|s a d c h]; simpl in *|-; destruct Hctx as (Ha & Hs & Hk).
  all: cbn [size mem root faddr].
  all: s_run_code Hnd'.
  all: split; [apply swf_plug; simpl; split_and!|].
  all: try s_wf_goal Hnd'.
  all: try (unfold s_grown; simpl; split; [reflexivity|]).
  all: try (repeat first [rewrite <- app_assoc in Hnd' | rewrite app_nil_r in Hnd'
                          | progress simpl in Hnd'];
            anorm; nd_build Hnd').
  all: rewrite ?dom_insert_L.
  all: try (assert (a ∈ dom m) as Hin by (apply elem_of_dom; eauto)).
  all: try (clear -Hin; set_solver).
Qed.

Lemma s_attach_seq {A} p q (K : unit → M A) σ :
  bind (bind (upd (set_parent (Some q)) p) (λ _,
        bind (get data q) (λ qd,
        bind (get data p) (λ pd,
        bind (compare_data cmp qd pd) (λ c,
        bind (if c >=? 1 then upd (set_left (Some p)) q
              else upd (set_right (Some p)) q) (λ _,
        λ σ', avl_insert_fix_node_up cmp (gas σ') (Some q) σ')))))) K σ
  = bind (s_attach_code cmp p q) (λ _,
      bind (λ σ', avl_insert_fix_node_up cmp (gas σ') (Some q) σ') K) σ.
Proof.
  unfold s_attach_code, bind.
  destruct (upd (set_parent (Some q)) p σ) as [[[] σa]|]; [|done].
  destruct (get data q σa) as [[qd σb]|]; [|done].
  destruct (get data p σb) as [[pd σc]|]; [|done].
  destruct (compare_data cmp qd pd σc) as [[c σd]|]; [|done].
  destruct (if c >=? 1 then _ else _) as [[[] σe]|]; done.
Qed.

End SclInsertHeap.

Section SclInsert.
Import SclAvl.
Context {T : Type} (cmp : T → T → Z) `{!TotalOrder cmp}.
Implicit Types (t l r s : tree T) (k : list (frame T)) (σ : avl_tree_t T).

Lemma s_set_insert_mid (x : positive) (A B : list positive) :
  ({[x]} ∪ list_to_set (A ++ B) : gset positive) = list_to_set (A ++ x :: B).
Proof.
  apply set_eq. intros y.
  rewrite elem_of_union, !elem_of_list_to_set, elem_of_singleton.
  rewrite !elem_of_app, elem_of_cons. naive_solver.
Qed.

Lemma sinv_count_update σ σ' l a x c h r k v :
  sinv cmp σ (plug (Node l a x c h r) k) →
  swf σ' (plug (Node l a x v h r) k) → s_same σ σ' →
  sinv cmp σ' (plug (Node l a x v h r) k).
Proof.
  intros (Hwf & Hbst & Havl & Hhc & Hts & Hdom & Hfit) Hwf' [Hs1 Hs2].
  split_and!; try done.
  - eapply bst_keys; [done| |done]. by rewrite !keys_plug.
  - eapply avl_plug_eq; [| |done]; [done|]. by apply avl_plug_inv in Havl.
  - eapply hc_plug_eq; [| |done]; [done|]. by apply hc_plug_inv in Hhc.
  - rewrite Hs1, Hts.
    rewrite !card_cells, !cells_plug, !length_app. simpl. by rewrite !length_app.
  - rewrite Hs2, Hdom. by rewrite !taddrs_plug.
  - revert Hfit. rewrite !card_cells, !cells_plug, !length_app. simpl.
    by rewrite !length_app.
Qed.

(** [avl_insert] on a tree object that satisfies the invariants: the
    count of an equal payload is incremented; else a node is allocated
    and inserted in order; when the node cannot be allocated, [1] is
    returned and nothing changes. *)
Lemma s_insert_spec σ t data sz (okn : bool) :
  sinv cmp σ t → sz ≠ 0 →
  match locate cmp data t [] with
  | (Node l a x c h r, k) =>
      ∀ okd : bool,
      ∃ σ', avl_insert cmp (Some σ) (Some data) sz okn okd = Some (0, Some σ') ∧
            upd (set_count (c + 1)) a σ = Some (tt, σ') ∧
            sinv cmp σ' (plug (Node l a x (c + 1) h r) k)
  | (Leaf, k) =>
      if okn then
        card t + 1 < addr_space →
        let p := fresh (dom (mem σ)) in
        ∃ σ' t', avl_insert cmp (Some σ) (Some data) sz true true = Some (0, Some σ') ∧
                 sinv cmp σ' t' ∧ cells t' = ccl k ++ (p, data, 1) :: ccr k
      else ∀ okd : bool, avl_insert cmp (Some σ) (Some data) sz false okd = Some (1, Some σ)
  end.
Proof.
  intros Hinv Hsz. pose proof Hinv as (Hwf & Hbst & Havl & Hhc & Hts & Hdom & Hfit).
  pose proof (swf_gas _ _ Hwf) as Hgas.
  destruct (s_insert_descent_ok cmp σ data t [] (gas σ) Hwf ltac:(lia))
    as (res & σ1 & Hd & Hpost).
  pose proof (locate_plug cmp data t []) as Hplug.
  pose proof (locate_spec cmp data t [] Hbst) as Hspec.
  pose proof (locate_path cmp data t [] Hbst) as Hpath.
  pose proof (locate_went cmp data t []) as Hwent.
  destruct (locate cmp data t []) as [t0 k]. simpl in Hplug, Hspec, Hpath, Hwent.
  assert (root σ = optr t) as Hroot by apply Hwf.
  simpl ocpar in Hd. rewrite <- Hroot in Hd.
  assert (∀ (K : unit + option positive → M Z) R,
    match K res σ1 with Some (r, σ') => Some (r, Some σ') | None => None end = R →
    match
      bind get_root (λ iterator,
        bind (insert_descent cmp (gas σ) (Some data) iterator None) K) σ
    with Some (r, σ') => Some (r, Some σ') | None => None end = R) as Hstart.
  { intros K R <-.
    rewrite (sbind_run _ _ σ (root σ) σ) by done.
    by rewrite (sbind_run _ _ _ _ _ Hd). }
  assert ((negb (bool_decide (is_Some (Some data))) || (sz =? 0)) = false) as Hguard.
  { rewrite bool_decide_eq_true_2 by eauto. simpl. by apply Z.eqb_neq. }
  destruct t0 as [|l a x c h r]; simpl in Hpost.
  2:{ destruct Hpost as (-> & Hu & Hwf1 & Hso). intros okd. exists σ1.
      split_and!; try done.
      - unfold avl_insert. rewrite Hguard. by apply Hstart.
      - subst t. by eapply sinv_count_update. }
  destruct Hpost as [-> ->].
  destruct okn.
  2:{ intros okd. unfold avl_insert. rewrite Hguard. by apply Hstart. }
  intros Hroom p.
  assert (p ∉ dom (mem σ)) as Hp by apply is_fresh.
  assert (cells t = ccl k ++ ccr k) as Hcells by by rewrite <- Hplug, cells_plug.
  assert (u64 (size σ + 1) = card t + 1) as Hu64.
  { rewrite Hts. unfold u64. rewrite Z.mod_small; [done|].
    pose proof (card_nonneg t). unfold addr_space in *. lia. }
  set (σn := s_with_node σ p (MkNode (Some data) None None None 1 1)).
  destruct k as [|f k].
  - simpl in Hplug. subst t.
    eexists _, (Node Leaf p data 1 1 Leaf). split.
    { unfold avl_insert. rewrite Hguard. apply Hstart. reflexivity. }
    fold p. split; [|done].
    split_and!; simpl.
    + split_and!; simpl; try done.
      * by rewrite lookup_insert_eq.
      * apply NoDup_singleton.
    + split_and!; try done; apply Forall_nil_2.
    + done.
    + done.
    + simpl in Hts. rewrite Hts. done.
    + rewrite dom_insert_L, Hdom. simpl. set_solver.
    + unfold addr_space. lia.
  - rewrite <- Hplug in Hwf.
    destruct (s_attach_ok cmp σ f k p data Hwf (Hwent I) Hp) as (σ2 & Hr & Hwf2 & Hg).
    destruct Hg as (Hg1 & Hg2).
    assert (bst cmp (plug (Node Leaf p data 1 1 Leaf) (f :: k))) as Hb2.
    { apply bst_insert; [done|by rewrite Hplug|]. apply Hpath. by split. }
    rewrite <- Hplug in Hhc, Havl.
    destruct (ctx_inv_intro _ _ Hhc Havl) as (_ & _ & Hctx).
    destruct (s_insert_fix_ok cmp (f :: k) (Node Leaf p data 1 1 Leaf) σ2 (gas σ2) 0)
      as (σ3 & t' & Hfix & Hwf3 & Hhc3 & Havl3 & Hcells3 & Hso3); try done.
    { repeat split; try done. right. split; [done|]. by right. }
    { rewrite card_cells, cells_plug. rewrite card_cells, Hcells in Hroom.
      change (cells (Node Leaf p data 1 1 Leaf)) with [(p, data, 1)].
      rewrite !length_app. rewrite !length_app in Hroom. cbn [length]. lia. }
    { pose proof (swf_gas _ _ Hwf2).
      pose proof (length_ctx_le (Node Leaf p data 1 1 Leaf) (f :: k)). lia. }
    cbn [ocpar] in Hfix.
    destruct Hso3 as (Hs1 & Hs2).
    eexists _, t'. split.
    { unfold avl_insert. rewrite Hguard. apply Hstart.
      cbn [create_avl_node ocpar]. fold p.
      rewrite (sbind_run _ _ σ (Some p) σn) by done. cbv beta iota.
      rewrite (s_attach_seq cmp).
      rewrite (sbind_run _ _ _ _ _ Hr).
      rewrite (sbind_run _ _ σ2 tt σ3) by exact Hfix.
      reflexivity. }
    split.
    + split_and!; simpl.
      * done.
      * by eapply bst_cells.
      * done.
      * done.
      * rewrite Hs1, Hg1, Hu64.
        rewrite !card_cells, Hcells3, Hcells, cells_plug.
        change (cells (Node Leaf p data 1 1 Leaf)) with [(p, data, 1)].
        rewrite !length_app. cbn [length]. lia.
      * rewrite Hs2, Hg2, Hdom.
        rewrite (taddrs_cells t'), Hcells3, (taddrs_cells t), Hcells, cells_plug.
        change (cells (Node Leaf p data 1 1 Leaf)) with [(p, data, 1)].
        rewrite !fmap_app, fmap_cons. exact (s_set_insert_mid _ _ _).
      * rewrite card_cells, Hcells3, cells_plug.
        rewrite card_cells, Hcells in Hroom.
        change (cells (Node Leaf p data 1 1 Leaf)) with [(p, data, 1)].
        rewrite !length_app. rewrite !length_app in Hroom. cbn [length]. lia.
    + rewrite Hcells3, cells_plug. done.
Qed.

End SclInsert.

Import Shape.

(** *** Deletion *)

Section SclDeleteHeap.
Import SclAvl SclTactics.
Context {T : Type}.
Variable cmp : T → T → Z.
Implicit Types (t l r : tree T) (k : list (frame T)) (σ : avl_tree_t T).
Implicit Types (m : gmap positive (avl_tree_node_t T)).

(** Unlinking a node with at most one child. *)
Lemma s_splice_ok σ l a d c h r k :
  swf σ (plug (Node l a d c h r) k) → l = Leaf ∨ r = Leaf →
  ∃ σ', s_splice_code a (optr l) (optr r) σ = Some (tt, σ') ∧
        swf σ' (plug (spliced l r) k) ∧ s_same σ σ' ∧
        mem σ' !! a = mem σ !! a.
Proof.
  intros Hwf Hone.
  apply swf_plug in Hwf as (Hroot & Hrep & Hctx & Hnd).
  destruct σ as [rt sz m]. simpl in *|-.
  destruct Hrep as (Ha & Hl & Hr).
  unfold s_splice_code, replace_in_parent.
  destruct l as [|ll x dx cx hx lr]; destruct r as [|rl y dy cy hy rr];
    try (destruct Hone; discriminate);
    destruct k as [|[p dp cp hp s|s p dp cp hp] k']; simpl in *|-.
  all: try destruct Hctx as (Hp & Hs & Hk').
  all: try destruct Hl as (Hx & Hll & Hlr).
  all: try destruct Hr as (Hy & Hrl & Hrr).
  all: cbn [optr].
  all: s_run_code Hnd;
    (split_and!; [|s_same_tac Hnd|simpl; by s_fr Hnd]); apply swf_plug; simpl; split_and!.
  all: s_wf_goal Hnd.
Qed.

(** Releasing a node that is not part of the tree. *)
Lemma s_free_ok σ t a n :
  swf σ t → a ∉ taddrs t → mem σ !! a = Some n →
  free_node a σ = Some (tt, MkTree (root σ) (size σ) (delete a (mem σ))) ∧
  swf (MkTree (root σ) (size σ) (delete a (mem σ))) t.
Proof.
  intros (Hroot & Hrep & Hnd) Ha Hl.
  unfold free_node. rewrite Hl. split; [done|].
  split_and!; simpl; [done| |done].
  eapply srep_tree_ext; [|done]. intros x Hx. rewrite lookup_delete_ne; [done|].
  intros ->. by apply Ha.
Qed.

(** [avl_change_data] copies payload, count and height of the source node
    into the destination node. *)
Lemma s_change_data_ok σ l a d c h r k s ds ps ls rs cs hs sz :
  swf σ (plug (Node l a d c h r) k) → a ≠ s →
  mem σ !! s = Some (MkNode (Some ds) ps ls rs cs hs) → sz ≠ 0 →
  ∃ σ', avl_change_data (Some a) (Some s) sz σ = Some (tt, σ') ∧
        swf σ' (plug (Node l a ds cs hs r) k) ∧ s_same σ σ' ∧
        mem σ' !! s = mem σ !! s.
Proof.
  intros Hwf Hne Hs Hsz.
  assert ((sz =? 0) = false) as Hz by by apply Z.eqb_neq.
  apply swf_plug in Hwf as (Hroot & Hrep & Hctx & Hnd).
  destruct σ as [rt sz0 m]. simpl in *|-.
  destruct Hrep as (Ha & Hl & Hr).
  unfold avl_change_data.
  s_run_code Hnd.
  split_and!; [|s_same_tac Hnd|simpl; by rewrite lookup_insert_ne].
  apply swf_plug; simpl; split_and!.
  all: s_wf_goal Hnd.
Qed.

End SclDeleteHeap.

Section SclDelete.
Import SclAvl.
Context {T : Type} (cmp : T → T → Z) `{!TotalOrder cmp}.
Implicit Types (t l r s : tree T) (k : list (frame T)) (σ : avl_tree_t T).

Lemma s_set_remove_mid (a : positive) (A B : list positive) :
  NoDup (A ++ a :: B) →
  (list_to_set (A ++ a :: B) : gset positive) ∖ {[a]} = list_to_set (A ++ B).
Proof.
  intros Hnd.
  apply NoDup_app in Hnd as (_ & H1 & [H2 _]%NoDup_cons).
  apply set_eq. intros y.
  rewrite elem_of_difference, !elem_of_list_to_set, elem_of_singleton.
  rewrite !elem_of_app, elem_of_cons.
  split; [naive_solver|]. intros Hy. split; [naive_solver|]. intros ->.
  destruct Hy as [Hy|Hy]; [|done].
  eapply H1; [exact Hy|]. by left.
Qed.

(** Unlinking and releasing a node with at most one child, then fixing
    the tree up from its parent. *)
Lemma s_delete_tail_ok fd σ l a d c h r k :
  swf σ (plug (Node l a d c h r) k) → l = Leaf ∨ r = Leaf →
  bst cmp (plug (spliced l r) k) →
  hc l → hc r → avl l → avl r →
  ctx_inv (1 + Z.max (ht l) (ht r)) k →
  card (plug (spliced l r) k) + 1 ≤ addr_space →
  ∃ σ' t', s_delete_tail cmp fd a (optr l) (optr r) σ =
             Some ((if fd then [d] else []), σ') ∧
           swf σ' t' ∧ hc t' ∧ avl t' ∧
           cells t' = cells (plug (spliced l r) k) ∧
           size σ' = u64 (size σ - 1) ∧ dom (mem σ') = dom (mem σ) ∖ {[a]}.
Proof.
  intros Hwf Hone Hbst Hcl Hcr Hal Har Hctx Hcard.
  pose proof (swf_root_lookup _ _ _ _ _ _ _ _ Hwf) as Hl.
  destruct (s_splice_ok σ l a d c h r k Hwf Hone) as (σ2 & Hsp & Hwf2 & Hso2 & Hmem).
  assert (a ∉ taddrs (plug (spliced l r) k)) as Hfresh.
  { destruct Hwf as (_ & _ & Hnd).
    rewrite taddrs_plug in *. simpl in Hnd.
    destruct Hone as [-> | ->]; [|destruct l]; simpl in *.
    all: repeat first [rewrite <- app_assoc in Hnd | rewrite app_nil_r in Hnd
                      | progress simpl in Hnd].
    all: intros E; nd_mem Hnd a E. }
  rewrite Hl in Hmem.
  destruct (s_free_ok σ2 _ a _ Hwf2 Hfresh Hmem) as [Hfree Hwf3].
  set (σ3 := MkTree (root σ2) (size σ2) (delete a (mem σ2))) in *.
  destruct Hso2 as (Hs1 & Hs2).
  assert (hc (spliced l r) ∧ avl (spliced l r) ∧
          ht (spliced l r) = 1 + Z.max (ht l) (ht r) - 1) as (Hcs & Has & Hhs).
  { pose proof (hc_nonneg _ Hcl). pose proof (hc_nonneg _ Hcr).
    destruct Hone as [-> | ->]; [|destruct l];
      (refine (conj _ (conj _ _)); [done|done|simpl in *; lia]). }
  destruct (s_delete_fix_ok cmp k (spliced l r) σ3 (gas σ3)
              (1 + Z.max (ht l) (ht r)))
    as (σ5 & t' & Hfix & Hwf5 & Hhc5 & Havl5 & Hcells5 & Hso5); try done.
  { split_and!; try done. right. lia. }
  { pose proof (hc_nonneg _ Hcl). lia. }
  { pose proof (swf_gas _ _ Hwf3).
    pose proof (length_ctx_le (spliced l r) k). lia. }
  destruct Hso5 as (Hs3 & Hs4).
  exists (MkTree (root σ5) (u64 (size σ5 - 1)) (mem σ5)), t'. split_and!; try done.
  - unfold s_delete_tail. rewrite (sbind_run _ _ _ _ _ Hsp).
    rewrite (sbind_run _ _ σ2 (ocpar k) σ2) by (unfold get; by rewrite Hmem).
    rewrite (sbind_run _ _ σ2 (Some d) σ2) by (unfold get; by rewrite Hmem).
    rewrite (sbind_run _ _ _ _ _ Hfree).
    rewrite (sbind_run _ _ σ3 (gas σ3) σ3) by done.
    rewrite (sbind_run _ _ _ _ _ Hfix). reflexivity.
  - simpl. by rewrite Hs3, <- Hs1.
  - simpl. rewrite Hs4. unfold σ3. simpl. by rewrite dom_delete_L, Hs2.
Qed.

(** The descent for the payload of the leftmost node ends at that
    node. *)
Lemma locate_leftmost ks : ∀ r (s : positive) ds cs hs sr K,
  bst cmp r → Forall is_FL ks → r = plug (Node Leaf s ds cs hs sr) ks →
  locate cmp ds r K = (Node Leaf s ds cs hs sr, ks ++ K).
Proof.
  induction ks as [|f ks IH] using rev_ind; intros r s ds cs hs sr K Hbst Hks ->.
  { simpl. assert (cmp ds ds = 0) as -> by by apply cmp_eq. done. }
  apply Forall_app in Hks as [Hks Hf]. rewrite Forall_singleton in Hf.
  destruct f as [y dy cy hy rr|]; [|exfalso; exact Hf].
  rewrite plug_app in Hbst |- *. simpl in Hbst |- *.
  destruct Hbst as (Hl & _ & Hbl & _).
  rewrite Forall_forall in Hl.
  assert (ds ∈ keys (plug (Node Leaf s ds cs hs sr) ks)) as Hin.
  { rewrite keys_plug. simpl. rewrite elem_of_app, elem_of_cons. auto. }
  specialize (Hl ds Hin).
  assert (1 ≤ cmp dy ds) as Hge by by apply cmp_flip.
  assert ((cmp dy ds >=? 1) = true) as -> by zbool.
  rewrite (IH _ s ds cs hs sr (FL y dy cy hy rr :: K) Hbl Hks eq_refl).
  by rewrite <- app_assoc.
Qed.

Lemma card_taddrs t : card t = Z.of_nat (length (taddrs t)).
Proof. by rewrite card_cells, taddrs_cells, length_fmap. Qed.

(** The first steps of [avl_delete_helper]. *)
Lemma s_delete_helper_unfold fuel fd rt d sz σ a n :
  avl_find_data_set_root cmp (Some rt) (Some d) σ = Some (Some a, σ) →
  mem σ !! a = Some n →
  avl_delete_helper cmp fuel fd (Some rt) (Some d) sz σ =
    match left n, right n with
    | Some _, Some y =>
        bind (avl_min_node (Some y)) (λ delete_succecessor,
        bind (avl_change_data (Some a) delete_succecessor sz) (λ _,
        bind (get right a) (λ q,
        bind (match delete_succecessor with
              | Some b => get data b
              | None => stuck
              end) (λ sd,
        match fuel with
        | O => stuck
        | S fuel' => avl_delete_helper cmp fuel' fd q sd sz
        end)))) σ
    | _, _ => s_delete_tail cmp fd a (left n) (right n) σ
    end.
Proof.
  intros Hf Hl.
  destruct fuel; cbn [avl_delete_helper]; unfold bind at 1; rewrite Hf;
    unfold bind at 1; unfold get at 1; rewrite Hl;
    unfold bind at 1; unfold get at 1; rewrite Hl;
    destruct (left n), (right n); reflexivity.
Qed.

(** [avl_delete] on a tree object that satisfies the invariants: the node
    of the payload is unlinked and released when it has at most one
    child; when it has two, it takes payload and count of its successor,
    and the node of the successor is unlinked and released.  The payload
    handed to [free_data] is the one of the released node. *)
Lemma s_delete_spec σ t d sz fd :
  sinv cmp σ t → sz ≠ 0 →
  match locate cmp d t [] with
  | (Leaf, _) =>
      avl_delete cmp (Some σ) (Some d) sz fd =
        Some (match t with Leaf => 1 | _ => 0 end, Some σ, [])
  | (Node l a x c h r, k) =>
      ∃ σ' t',
        avl_delete cmp (Some σ) (Some d) sz fd =
          Some (0, Some σ',
                if fd then
                  match l, cells r with
                  | Node _ _ _ _ _ _, (_, ds, _) :: _ => [ds]
                  | _, _ => [x]
                  end
                else []) ∧
        sinv cmp σ' t' ∧
        cells t = (ccl k ++ cells l) ++ (a, x, c) :: cells r ++ ccr k ∧
        cells t' =
          match l, cells r with
          | Node _ _ _ _ _ _, (_, ds, cs) :: B =>
              (ccl k ++ cells l) ++ (a, ds, cs) :: B ++ ccr k
          | _, _ => (ccl k ++ cells l) ++ cells r ++ ccr k
          end
  end.
Proof.
  intros Hinv Hsz. pose proof Hinv as (Hwf & Hbst & Havl & Hhc & Hts & Hdom & Hfit).
  pose proof (swf_gas _ _ Hwf) as Hgas.
  pose proof (locate_plug cmp d t []) as Hplug.
  pose proof (locate_spec cmp d t [] Hbst) as Hspec.
  pose proof (s_find_set_root_ok cmp σ d t [] Hwf) as Hfind.
  assert (root σ = optr t) as Hroot by apply Hwf.
  assert ((sz =? 0) = false) as Hz by by apply Z.eqb_neq.
  destruct (locate cmp d t []) as [t0 k]. simpl in Hplug, Hspec, Hfind.
  destruct t0 as [|l a x c h r].
  { destruct t as [|tl ta td tc th tr].
    - unfold avl_delete. rewrite Hroot. done.
    - apply (s_delete_absent cmp σ (Node tl ta td tc th tr)); try done. }
  destruct Hspec as [-> _].
  assert (swf σ (plug (Node l a d c h r) k)) as Hwf0 by by rewrite Hplug.
  pose proof (swf_root_lookup _ _ _ _ _ _ _ _ Hwf0) as Hl.
  assert (∃ rt, optr t = Some rt) as [rt Hrt].
  { rewrite <- Hplug. clear. revert l a d c h r.
    induction k as [|f k IH]; intros; [by eexists|]. simpl. destruct f; apply IH. }
  rewrite Hrt in Hfind. cbn [optr] in Hfind.
  set (fuel0 := pred (gas σ)).
  assert (gas σ = S fuel0) as Hg by (unfold fuel0, gas; lia).
  assert (∀ freed σ',
    avl_delete_helper cmp (S fuel0) fd (Some rt) (Some d) sz σ = Some (freed, σ') →
    avl_delete cmp (Some σ) (Some d) sz fd = Some (0, Some σ', freed)) as Hbody.
  { intros freed σ' E. unfold avl_delete. rewrite Hg, Hroot, Hrt.
    rewrite bool_decide_eq_true_2 by eauto.
    rewrite bool_decide_eq_true_2 by eauto. rewrite Hz. simpl negb. cbv iota.
    simpl orb. cbv iota. by rewrite E. }
  assert (cells t = (ccl k ++ cells l) ++ (a, d, c) :: cells r ++ ccr k) as Hct.
  { rewrite <- Hplug, cells_plug. simpl. by rewrite <- !app_assoc. }
  assert (∀ σ' t' (A B : list positive) e,
    taddrs t = A ++ e :: B → taddrs t' = A ++ B →
    bst cmp t' →
    swf σ' t' → hc t' → avl t' → size σ' = u64 (size σ - 1) →
    dom (mem σ') = dom (mem σ) ∖ {[e]} →
    sinv cmp σ' t') as Hfin.
  { intros σ' t' A B e HA HB Hb' Hwf' Hhc' Havl' Hsz' Hdom'.
    split_and!; try done.
    - rewrite Hsz', Hts. unfold u64.
      revert Hfit. rewrite !card_taddrs, HA, HB, !length_app. simpl. intros Hfit.
      rewrite Z.mod_small by (unfold addr_space in *; lia). lia.
    - rewrite Hdom', Hdom.
      assert (NoDup (taddrs t)) as Hnd by apply Hwf.
      rewrite HB. rewrite HA in Hnd |- *.
      exact (s_set_remove_mid _ _ _ Hnd).
    - revert Hfit. rewrite !card_taddrs, HA, HB, !length_app. simpl. lia. }
  rewrite <- Hplug in Hhc, Havl.
  destruct (ctx_inv_intro _ _ Hhc Havl) as (Hcn & Han & Hctx).
  destruct Hcn as (Hh & Hcl & Hcr). destruct Han as (Hbal & Hal & Har).
  assert ((l = Leaf ∨ r = Leaf) ∨ (l ≠ Leaf ∧ r ≠ Leaf)) as [Hone|[Hl0 Hr0]].
  { destruct l, r; auto. }
  - assert (cells (plug (spliced l r) k) = (ccl k ++ cells l) ++ cells r ++ ccr k) as Hct'.
    { rewrite cells_plug. destruct Hone as [-> | ->]; [|destruct l]; simpl;
        by rewrite <- ?app_assoc, ?app_nil_r. }
    assert (bst cmp (plug (spliced l r) k)) as Hb'.
    { eapply bst_remove; [done|exact Hct|exact Hct'|done]. }
    destruct (s_delete_tail_ok fd σ l a d c h r k)
      as (σ' & t' & Hrun & Hwf' & Hhc' & Havl' & Hcells' & Hsz' & Hdom'); try done.
    { simpl in Hctx. by rewrite <- Hh. }
    { rewrite card_cells, Hct'. unfold addr_space in *.
      rewrite card_cells, Hct in Hfit. len_norm. len_norm_in Hfit. lia. }
    exists σ', t'.
    assert (match l, cells r with
            | Node _ _ _ _ _ _, (_, ds, _) :: _ => [ds]
            | _, _ => [d]
            end = [d]) as Hfr.
    { destruct Hone as [-> | ->]; [done|]. by destruct l. }
    assert (match l, cells r with
            | Node _ _ _ _ _ _, (_, ds, cs) :: B =>
                (ccl k ++ cells l) ++ (a, ds, cs) :: B ++ ccr k
            | _, _ => (ccl k ++ cells l) ++ cells r ++ ccr k
            end = (ccl k ++ cells l) ++ cells r ++ ccr k) as Hcr2.
    { destruct Hone as [-> | ->]; [done|]. by destruct l. }
    rewrite Hfr, Hcr2. split_and!; try done.
    + apply Hbody.
      rewrite (s_delete_helper_unfold (S fuel0) fd rt d sz σ a _ Hfind Hl).
      cbn [left right]. rewrite <- Hrun.
      destruct Hone as [-> | ->]; [done|]. by destruct l.
    + apply (Hfin σ' t' ((λ x, x.1.1) <$> (ccl k ++ cells l))
               ((λ x, x.1.1) <$> (cells r ++ ccr k)) a); try done.
      * by rewrite taddrs_cells, Hct, fmap_app, fmap_cons.
      * by rewrite taddrs_cells, Hcells', Hct', fmap_app.
      * apply (bst_cells cmp (plug (spliced l r) k) t'); [by rewrite Hcells'|exact Hb'].
    + by rewrite Hcells'.
  - destruct l as [|ll b db cb hb lr]; [done|].
    destruct r as [|rl y dy cy hy rr]; [done|].
    clear Hl0 Hr0.
    set (l := Node ll b db cb hb lr) in *. set (r := Node rl y dy cy hy rr) in *.
    destruct (leftmost_shape r (FR l a d c h :: k))
      as (s & ds & cs & hs & sr & ks & Hlm & Hks & Hr); [done|].
    assert (plug (Node Leaf s ds cs hs sr) (ks ++ FR l a d c h :: k) = t) as Hplug2.
    { rewrite plug_app, <- Hr. done. }
    assert (swf σ (plug (Node Leaf s ds cs hs sr) (ks ++ FR l a d c h :: k))) as Hwf2
      by by rewrite Hplug2.
    pose proof (swf_root_lookup _ _ _ _ _ _ _ _ Hwf2) as Hs.
    assert (a ≠ s) as Hne.
    { destruct Hwf2 as (_ & _ & Hnd). rewrite taddrs_plug in Hnd.
      rewrite clefts_app, crights_app in Hnd. simpl in Hnd.
      repeat first [rewrite <- app_assoc in Hnd | progress simpl in Hnd].
      nd Hnd. }
    destruct (s_change_data_ok σ l a d c h r k s ds _ _ _ cs hs sz Hwf0 Hne Hs Hsz)
      as (σ1 & Hch & Hwf1' & Hso1 & Hmem1).
    set (K := ks ++ FR l a ds cs hs :: k) in *.
    assert (plug (Node l a ds cs hs r) k = plug (Node Leaf s ds cs hs sr) K) as Hpk.
    { unfold K. rewrite plug_app, <- Hr. done. }
    pose proof Hwf1' as Hwf1. rewrite Hpk in Hwf1.
    assert (cells r = (s, ds, cs) :: cells sr ++ ccr ks) as Hcr'.
    { rewrite Hr, cells_plug, (ccl_FL ks Hks). done. }
    set (A0 := ccl k ++ cells l) in *.
    set (X3 := cells sr ++ ccr ks ++ ccr k).
    assert (cells t = A0 ++ (a, d, c) :: (s, ds, cs) :: X3) as Hct2.
    { rewrite Hct, Hcr'. cbn [app]. unfold X3. by rewrite <- (app_assoc (cells sr)). }
    assert (cells (plug (spliced Leaf sr) K) = A0 ++ (a, ds, cs) :: X3) as Hct'.
    { unfold K, A0, X3. rewrite cells_plug, ccl_app, ccr_app, (ccl_FL ks Hks).
      simpl. rewrite <- !app_assoc. done. }
    assert (bst cmp (plug (spliced Leaf sr) K)) as Hb'.
    { revert Hbst. rewrite !(bst_sorted cmp), !keys_cells, Hct2, Hct'.
      rewrite !fmap_app, !fmap_cons. cbn [fst snd]. apply sorted_remove. }
    rewrite Hplug in Hhc, Havl. rewrite <- Hplug2 in Hhc, Havl.
    destruct (ctx_inv_intro _ _ Hhc Havl) as (Hcn & Han & Hctx2).
    destruct Hcn as (Hhs & _ & Hcsr). destruct Han as (_ & _ & Hasr).
    destruct (s_delete_tail_ok fd σ1 Leaf s ds cs hs sr K)
      as (σ' & t' & Hrun & Hwf' & Hhc' & Havl' & Hcells' & Hsz' & Hdom'); try done.
    { by left. }
    { simpl ht in Hctx2. rewrite Hhs in Hctx2.
      eapply ctx_inv_sibs; [|exact Hctx2]. unfold K. by rewrite !fmap_app. }
    { revert Hfit. rewrite !card_cells, Hct', Hct2, !length_app. cbn [length].
      unfold addr_space. lia. }
    exists σ', t'.
    rewrite Hcr'. cbv iota.
    destruct Hso1 as (Hq1 & Hq2).
    assert (bst cmp r) as Hbr.
    { apply (bst_hole cmp r (FR l a d c h :: k)). by rewrite <- Hplug in Hbst. }
    split_and!.
    + apply Hbody.
      rewrite (s_delete_helper_unfold (S fuel0) fd rt d sz σ a _ Hfind Hl).
      cbn [left right]. change (optr l) with (Some b). change (optr r) with (Some y).
      cbv iota.
      rewrite (sbind_run _ _ σ (Some s) σ).
      2:{ pose proof (s_min_node_ok σ r (FR l a d c h :: k) Hwf0) as Hm.
          rewrite Hlm in Hm. exact Hm. }
      rewrite (sbind_run _ _ _ _ _ Hch).
      rewrite (sbind_run _ _ σ1 (optr r) σ1).
      2:{ unfold get. by rewrite (swf_root_lookup _ _ _ _ _ _ _ _ Hwf1'). }
      rewrite (sbind_run _ _ σ1 (Some ds) σ1).
      2:{ unfold get. by rewrite (swf_root_lookup _ _ _ _ _ _ _ _ Hwf1). }
      pose proof (s_find_set_root_ok cmp σ1 ds r (FR l a ds cs hs :: k) Hwf1') as Hf1.
      rewrite (locate_leftmost ks r s ds cs hs sr _ Hbr Hks Hr) in Hf1.
      change (optr r) with (Some y) in Hf1 |- *. cbn [fst optr] in Hf1.
      rewrite (s_delete_helper_unfold _ fd y ds sz σ1 s _ Hf1
                 (swf_root_lookup _ _ _ _ _ _ _ _ Hwf1)).
      cbn [left right]. exact Hrun.
    + apply (Hfin σ' t' (((λ x, x.1.1) <$> A0) ++ [a]) ((λ x, x.1.1) <$> X3) s).
      * rewrite taddrs_cells, Hct2, fmap_app, !fmap_cons, <- app_assoc. done.
      * rewrite taddrs_cells, Hcells', Hct', fmap_app, !fmap_cons, <- app_assoc. done.
      * apply (bst_cells cmp (plug (spliced Leaf sr) K) t'); [by rewrite Hcells'|exact Hb'].
      * done.
      * done.
      * done.
      * by rewrite Hsz', Hq1.
      * by rewrite Hdom', Hq2.
    + by rewrite Hct, Hcr'.
    + rewrite Hcells', Hct'. unfold A0, X3. by rewrite <- !app_assoc.
Qed.

End SclDelete.

Import Shape.

(** *** Histories of calls *)

Section SclHistories.
Import SclAvl.
Context {T : Type} (cmp : T → T → Z).

Context `{!TotalOrder cmp}.
Implicit Types (t l r : tree T) (k : list (frame T)) (σ : avl_tree_t T).

(** The tree [create_avl] delivers satisfies the invariants. *)
Lemma sinv_empty : sinv cmp (MkTree None 0 ∅) Leaf.
Proof.
  split_and!; simpl; try done;
    try (split_and!; simpl; try done; apply NoDup_nil_2);
    by rewrite dom_empty_L.
Qed.

Lemma s_insert_total σ t d sz :
  sinv cmp σ t → sz ≠ 0 → card t + 1 < addr_space →
  ∃ σ' t', avl_insert cmp (Some σ) (Some d) sz true true = Some (0, Some σ') ∧
           sinv cmp σ' t' ∧ card t' ≤ card t + 1.
Proof.
  intros Hinv Hsz Hroom. pose proof (s_insert_spec cmp σ t d sz true Hinv Hsz) as Hs.
  pose proof (locate_cells cmp d t) as Hc.
  pose proof (locate_plug cmp d t []) as Hp.
  destruct (locate cmp d t []) as [[|l a x c h r] k]; simpl in Hc, Hp.
  - destruct (Hs Hroom) as (σ' & t' & E & Hi & Hc'). exists σ', t'.
    split_and!; try done.
    rewrite !card_cells, Hc', Hc, !length_app. simpl. lia.
  - destruct (Hs true) as (σ' & E & _ & Hi). eexists σ', _.
    split_and!; try done.
    rewrite <- Hp, !card_cells, !cells_plug, !length_app. simpl.
    rewrite !length_app. simpl. lia.
Qed.

Lemma s_delete_total σ t d sz fd :
  sinv cmp σ t → sz ≠ 0 →
  ∃ res σ' t' freed,
    avl_delete cmp (Some σ) (Some d) sz fd = Some (res, Some σ', freed) ∧
    sinv cmp σ' t' ∧ card t' ≤ card t.
Proof.
  intros Hinv Hsz. pose proof (s_delete_spec cmp σ t d sz fd Hinv Hsz) as Hs.
  destruct (locate cmp d t []) as [[|l a x c h r] k].
  - eexists _, σ, t, _. split_and!; [done|done|lia].
  - destruct Hs as (σ' & t' & E & Hi & Hc & Hc'). eexists _, σ', t', _.
    split_and!; try done.
    rewrite !card_cells, Hc, Hc'.
    destruct l as [|ll b db cb hb lr]; [|destruct (cells r) as [|[[s ds] cs] B]];
      rewrite !length_app; simpl; rewrite ?length_app; simpl; lia.
Qed.

(** Every history keeps the invariants, as long as its nodes fit in the
    address space. *)
Lemma scl_run_inv sz fd ops : ∀ σ t,
  sinv cmp σ t → sz ≠ 0 → card t + Z.of_nat (length ops) < addr_space →
  ∃ σ' t', scl_run cmp sz fd ops σ = Some σ' ∧ sinv cmp σ' t'.
Proof.
  induction ops as [|o ops IH]; intros σ t Hinv Hsz Hroom; simpl; [eauto|].
  simpl in Hroom.
  assert (∃ σ1 t1, scl_step cmp sz fd o σ = Some σ1 ∧ sinv cmp σ1 t1 ∧
                   card t1 ≤ card t + 1) as (σ1 & t1 & -> & Hi & Hc).
  { unfold scl_step. destruct o as [d|d].
    - destruct (s_insert_total σ t d sz Hinv Hsz) as (σ1 & t1 & -> & Hi & Hc); [lia|].
      eauto.
    - destruct (s_delete_total σ t d sz fd Hinv Hsz) as (res & σ1 & t1 & fr & -> & Hi & Hc).
      exists σ1, t1. split_and!; [done|done|lia]. }
  apply (IH σ1 t1 Hi Hsz). lia.
Qed.

(** [avl_find_data] finds the payloads of the tree, and no other. *)
Lemma s_find_cases σ t d :
  swf σ t → bst cmp t →
  (d ∈ keys t →
   ∃ a n, avl_find_data cmp (Some σ) (Some d) = Some (Some a) ∧
          mem σ !! a = Some n ∧ data n = Some d) ∧
  (d ∉ keys t → avl_find_data cmp (Some σ) (Some d) = Some None).
Proof.
  intros Hwf Hbst.
  pose proof (s_find_data_ok cmp σ d t Hwf) as Hf.
  pose proof (locate_spec cmp d t [] Hbst) as Hs.
  pose proof (locate_plug cmp d t []) as Hp.
  destruct (locate cmp d t []) as [[|l a x c h r] K]; simpl in Hf, Hs, Hp.
  - split; [done|]. intros _. by eapply observe_run.
  - destruct Hs as [-> Hin]. split; [|done]. intros _.
    rewrite <- Hp in Hwf. pose proof (swf_root_lookup _ _ _ _ _ _ _ _ Hwf) as Hl.
    eexists a, _. split_and!; [by eapply observe_run|exact Hl|done].
Qed.

End SclHistories.

Import Shape.

(** Proves [swf] of a concrete tree object by evaluation. *)
Ltac ex_swf :=
  unfold swf;
  cbn [SclAvl.root SclAvl.mem optr srep_tree taddrs app];
  repeat match goal with
  | |- _ ∧ _ => split
  | |- True => exact I
  | |- NoDup [] => apply NoDup_nil_2
  | |- NoDup (_ :: _) => apply NoDup_cons_2; [set_solver|]
  | |- _ !! _ = _ => vm_compute; reflexivity
  | |- _ => vm_compute; first [reflexivity | lia | discriminate | done]
  end.

Ltac ex_bst :=
  cbn [bst keys app];
  repeat match goal with
  | |- _ ∧ _ => split
  | |- Forall _ _ => constructor
  | |- True => exact I
  | |- _ => vm_compute; first [reflexivity | lia | discriminate | done]
  end.

(** ** Properties of the void-pointer tree *)

Section SclMore.
Import SclAvl.
Context {T : Type} (cmp : T → T → Z) `{!TotalOrder cmp}.
Implicit Types (t : tree T) (σ : avl_tree_t T) (k : T).

(** X15: [avl_find_data] returns the node that holds the payload when the
    payload is in the tree and [NULL] when it is not; a [NULL] tree is
    answered with [NULL]. *)
Theorem scl_find_data_spec σ t k :
  swf σ t → bst cmp t →
  (k ∈ keys t →
   ∃ a n, avl_find_data cmp (Some σ) (Some k) = Some (Some a) ∧
          mem σ !! a = Some n ∧ data n = Some k) ∧
  (k ∉ keys t → avl_find_data cmp (Some σ) (Some k) = Some None) ∧
  avl_find_data cmp None (Some k) = Some None.
Proof.
  intros Hwf Hbst.
  pose proof (s_find_data_ok cmp σ k t Hwf) as Hf.
  pose proof (locate_spec cmp k t [] Hbst) as Hs.
  pose proof (locate_plug cmp k t []) as Hp.
  destruct (locate cmp k t []) as [[|l a x c h r] K]; simpl in Hf, Hs, Hp.
  - split_and!; [done| |done]. intros _. by eapply observe_run.
  - destruct Hs as [-> Hin]. split_and!; [|done|done]. intros _.
    rewrite <- Hp in Hwf. pose proof (swf_root_lookup _ _ _ _ _ _ _ _ Hwf) as Hl.
    eexists a, _. split_and!; [by eapply observe_run|exact Hl|done].
Qed.

(** X16: called with the root, [avl_min_data] and [avl_max_data] deliver
    the least and the greatest payload of the tree, and [NULL] when the
    tree is empty. *)
Theorem scl_min_max_data σ t :
  swf σ t → bst cmp t →
  avl_min_data σ (get_avl_root (Some σ)) = Some (head (keys t)) ∧
  avl_max_data σ (get_avl_root (Some σ)) = Some (last (keys t)) ∧
  (∀ lo, head (keys t) = Some lo → ∀ k, k ∈ keys t → cmp lo k ≤ 0) ∧
  (∀ hi, last (keys t) = Some hi → ∀ k, k ∈ keys t → 0 ≤ cmp hi k).
Proof.
  intros Hwf Hbst. assert (root σ = optr t) as Hr by apply Hwf.
  apply (bst_sorted cmp) in Hbst. simpl. rewrite Hr. split_and!.
  - apply (s_min_data_ok σ t [] Hwf).
  - apply (s_max_data_ok σ t [] Hwf).
  - intros lo Hlo. by apply (sorted_head_le cmp (keys t)).
  - intros hi Hhi. by apply (sorted_last_ge cmp (keys t)).
Qed.

(** X17: [avl_predecessor_data] and [avl_succecessor_data] deliver the
    neighbours of a payload in the order of the comparator; they return
    [NULL] for the predecessor of the least payload, for the successor of
    the greatest one and for a payload that is not in the tree. *)
Theorem scl_pred_succ_neighbours σ t :
  swf σ t → bst cmp t →
  (∀ A p k B, keys t = A ++ p :: k :: B →
     avl_predecessor_data cmp (Some σ) (Some k) = Some (Some p) ∧
     avl_succecessor_data cmp (Some σ) (Some p) = Some (Some k)) ∧
  (∀ k B, keys t = k :: B →
     avl_predecessor_data cmp (Some σ) (Some k) = Some None) ∧
  (∀ A k, keys t = A ++ [k] →
     avl_succecessor_data cmp (Some σ) (Some k) = Some None) ∧
  (∀ k, k ∉ keys t →
     avl_predecessor_data cmp (Some σ) (Some k) = Some None ∧
     avl_succecessor_data cmp (Some σ) (Some k) = Some None).
Proof.
  intros Hwf Hbst.
  assert (∀ A x B, keys t = A ++ x :: B →
            avl_predecessor_data cmp (Some σ) (Some x) = Some (last A)) as Hpred.
  { intros A x B E. destruct (s_pred_node_data cmp σ t x A B Hwf Hbst E) as (o & Ho & Hd).
    unfold avl_predecessor_data.
    rewrite (bool_decide_eq_true_2 (is_Some (Some x))) by eauto. cbn [negb].
    eapply observe_run. rewrite (sbind_run _ _ _ _ _ Ho). exact Hd. }
  assert (∀ A x B, keys t = A ++ x :: B →
            avl_succecessor_data cmp (Some σ) (Some x) = Some (head B)) as Hsucc.
  { intros A x B E. destruct (s_succ_node_data cmp σ t x A B Hwf Hbst E) as (o & Ho & Hd).
    unfold avl_succecessor_data.
    rewrite (bool_decide_eq_true_2 (is_Some (Some x))) by eauto. cbn [negb].
    eapply observe_run. rewrite (sbind_run _ _ _ _ _ Ho). exact Hd. }
  split_and!.
  - intros A p k B E. split.
    + rewrite (Hpred (A ++ [p]) k B) by by rewrite <- app_assoc.
      by rewrite last_snoc.
    + by rewrite (Hsucc A p (k :: B)).
  - intros k B E. by rewrite (Hpred [] k B).
  - intros A k E. by rewrite (Hsucc A k []).
  - intros k Hk. destruct (s_pred_succ_absent cmp σ t k Hwf Hbst Hk) as [Hp Hs].
    unfold avl_predecessor_data, avl_succecessor_data.
    rewrite (bool_decide_eq_true_2 (is_Some (Some k))) by eauto. cbn [negb].
    split; eapply observe_run.
    + by rewrite (sbind_run _ _ _ _ _ Hp).
    + by rewrite (sbind_run _ _ _ _ _ Hs).
Qed.

(** X18: for two payloads of the tree [avl_lowest_common_ancestor_data]
    delivers the deepest payload that is an ancestor of both, as computed
    from the two lists of ancestors; it returns [NULL] when one of the
    payloads is not in the tree. *)
Theorem scl_lca_agrees_with_reference σ t k1 k2 :
  swf σ t → bst cmp t →
  (k1 ∈ keys t → k2 ∈ keys t →
   is_Some (lca_ref cmp k1 k2 t) ∧
   avl_lowest_common_ancestor_data cmp (Some σ) (Some k1) (Some k2) =
     Some (lca_ref cmp k1 k2 t)) ∧
  (k1 ∉ keys t ∨ k2 ∉ keys t →
   avl_lowest_common_ancestor_data cmp (Some σ) (Some k1) (Some k2) = Some None).
Proof.
  intros Hwf Hbst. split.
  - intros H1 H2. destruct (lca_t_ref cmp k1 k2 t Hbst H1 H2) as [Hs E].
    split; [done|]. rewrite (s_lca_data_ok cmp σ t k1 k2 Hwf Hbst H1 H2). by rewrite E.
  - apply (s_lca_absent cmp σ t k1 k2 Hwf Hbst).
Qed.

(** X19: [avl_traverse_inorder] hands the nodes to [action] in strictly
    increasing order of their payloads, and prints [(Null)] for the empty
    tree. *)
Theorem scl_inorder_visits_sorted σ t :
  swf σ t → bst cmp t →
  avl_traverse_inorder (Some σ) true =
    Some (match t with Leaf => [Printed_null] | _ => map Action (taddrs t) end) ∧
  Forall2 (λ a d, ∃ n, mem σ !! a = Some n ∧ data n = Some d) (taddrs t) (keys t) ∧
  StronglySorted (key_lt cmp) (keys t).
Proof.
  intros Hwf Hbst. split_and!.
  - unfold avl_traverse_inorder. cbn [negb]. eapply observe_run.
    rewrite (sbind_run _ _ σ (root σ) σ) by done.
    assert (root σ = optr t) as -> by apply Hwf.
    destruct t as [|l a d c h r]; [done|]. cbn [optr].
    rewrite (sbind_run _ _ σ (gas σ) σ) by done.
    rewrite (sbind_run _ _ _ _ _ (s_traverse_inorder_ok σ _ [] (gas σ) Hwf
      ltac:(pose proof (swf_gas _ _ Hwf); lia))). done.
  - rewrite taddrs_cells, keys_cells. apply Forall2_fmap, Forall_Forall2_diag.
    apply Forall_forall. intros [[a d] c] Hin. simpl.
    destruct (s_cells_lookup σ t a d c Hwf Hin) as (n & ? & ? & _). eauto.
  - by apply bst_sorted.
Qed.

(** X20: [avl_traverse_preorder] visits a node before its subtrees and
    [avl_traverse_postorder] after them: the root is the first node of the
    one and the last node of the other, and both visit every node of the
    tree once. *)
Theorem scl_preorder_postorder σ t :
  swf σ t → t ≠ Leaf →
  avl_traverse_preorder (Some σ) true = Some (map Action (pre_nodes t)) ∧
  avl_traverse_postorder (Some σ) true = Some (map Action (post_nodes t)) ∧
  head (pre_nodes t) = get_avl_root (Some σ) ∧
  last (post_nodes t) = get_avl_root (Some σ) ∧
  pre_nodes t ≡ₚ taddrs t ∧ post_nodes t ≡ₚ taddrs t.
Proof.
  intros Hwf Ht. assert (root σ = optr t) as Hr by apply Hwf.
  pose proof (swf_gas _ _ Hwf) as Hg.
  destruct t as [|l a d c h r]; [done|]. split_and!.
  - unfold avl_traverse_preorder. cbn [negb]. eapply observe_run.
    rewrite (sbind_run _ _ σ (root σ) σ) by done. rewrite Hr. cbn [optr].
    rewrite (sbind_run _ _ σ (gas σ) σ) by done.
    rewrite (sbind_run _ _ _ _ _ (s_traverse_preorder_ok σ _ [] (gas σ) Hwf
      ltac:(lia))). done.
  - unfold avl_traverse_postorder. cbn [negb]. eapply observe_run.
    rewrite (sbind_run _ _ σ (root σ) σ) by done. rewrite Hr. cbn [optr].
    rewrite (sbind_run _ _ σ (gas σ) σ) by done.
    rewrite (sbind_run _ _ _ _ _ (s_traverse_postorder_ok σ _ [] (gas σ) Hwf
      ltac:(lia))). done.
  - simpl. by rewrite Hr.
  - simpl. rewrite Hr. rewrite !app_assoc. apply last_snoc.
  - apply pre_nodes_perm.
  - apply post_nodes_perm.
Qed.

(** X21: [avl_node_level] of a node of the tree is the number of its
    proper ancestors, [0] for the root; for [NULL] it is [-1]. *)
Theorem scl_node_level_is_depth σ l a (d : T) c h r (K : list (frame T)) :
  swf σ (plug (Node l a d c h r) K) → Z.of_nat (length K) < 2 ^ 31 →
  avl_node_level σ (Some a) = Some (Z.of_nat (length K)) ∧
  avl_node_level σ None = Some (-1).
Proof.
  intros Hwf Hlen. split; [|done]. unfold avl_node_level.
  rewrite (s_node_level_ok σ K l a d c h r (gas σ) (-1) Hwf); [f_equal; lia| |lia|lia].
  pose proof (swf_gas _ _ Hwf). pose proof (length_ctx_le (Node l a d c h r) K). lia.
Qed.

(** X22: the payload a deletion is asked for is not in the tree:
    [avl_delete] leaves the tree object as it is and hands nothing to
    [free_data]; it returns [1] on an empty tree and [0], the value of
    success, on a tree that is not empty. *)
Theorem scl_delete_of_missing_key σ t k data_size free_data :
  swf σ t → bst cmp t → k ∉ keys t → data_size ≠ 0 →
  avl_delete cmp (Some σ) (Some k) data_size free_data =
    Some (match t with Leaf => 1 | _ => 0 end, Some σ, []).
Proof.
  intros Hwf Hbst Hk Hsz. destruct t as [|l a d c h r].
  - unfold avl_delete. assert (root σ = None) as -> by apply Hwf.
    by rewrite (bool_decide_eq_false_2 (is_Some None)) by (by intros [? ?]).
  - by apply (s_delete_absent cmp σ (Node l a d c h r)).
Qed.

(** X23: [free_avl] frees every node of the tree and nothing else, and
    hands the payloads to [free_data], when there is one, children first,
    each of them once. *)
Theorem scl_free_avl_releases_every_node σ t free_data :
  swf σ t →
  ∃ m', free_avl (Some σ) free_data =
          Some ((if free_data then postorder t else []), m') ∧
        (∀ x, x ∈ taddrs t → m' !! x = None) ∧
        (∀ x, x ∉ taddrs t → m' !! x = mem σ !! x) ∧
        postorder t ≡ₚ keys t.
Proof.
  intros Hwf. pose proof (swf_gas _ _ Hwf) as Hg.
  destruct Hwf as (Hr & Hrep & Hnd). destruct σ as [rt sz m]. cbn [root mem] in *.
  subst rt.
  destruct (s_free_helper_ok free_data t (gas (MkTree (optr t) sz m)) (optr t) sz m
              None Hrep Hnd) as (m' & E & Hin & Ho); [lia|].
  exists m'. split_and!; try done; [|apply postorder_perm].
  unfold free_avl. cbn [root]. by rewrite E.
Qed.

End SclMore.

(** ** The properties of the void-pointer tree on concrete trees *)

Section SclWitnesses.
Import SclAvl.

Lemma scl_find_data_spec_witness :
  ∃ σ, scl_build [2; 1; 3] = Some σ ∧
    (1 ∈ keys scl_tree_213 →
     ∃ a n, avl_find_data cmp_int (Some σ) (Some 1) = Some (Some a) ∧
            mem σ !! a = Some n ∧ data n = Some 1) ∧
    (1 ∉ keys scl_tree_213 →
     avl_find_data cmp_int (Some σ) (Some 1) = Some None) ∧
    avl_find_data cmp_int None (Some 1) = Some None.
Proof.
  eexists. split; [vm_compute; reflexivity|].
  apply (scl_find_data_spec cmp_int _ scl_tree_213 1); unfold scl_tree_213.
  - ex_swf.
  - ex_bst.
Defined.

Lemma scl_min_max_data_witness :
  ∃ σ, scl_build [2; 1; 3] = Some σ ∧
    avl_min_data σ (get_avl_root (Some σ)) = Some (Some 1) ∧
    avl_max_data σ (get_avl_root (Some σ)) = Some (Some 3) ∧
    (∀ lo, head (keys scl_tree_213) = Some lo →
           ∀ k, k ∈ keys scl_tree_213 → cmp_int lo k ≤ 0) ∧
    (∀ hi, last (keys scl_tree_213) = Some hi →
           ∀ k, k ∈ keys scl_tree_213 → 0 ≤ cmp_int hi k).
Proof.
  eexists. split; [vm_compute; reflexivity|].
  apply (scl_min_max_data cmp_int _ scl_tree_213); unfold scl_tree_213.
  - ex_swf.
  - ex_bst.
Defined.

Lemma scl_pred_succ_neighbours_witness :
  ∃ σ, scl_build [2; 1; 3] = Some σ ∧
    (avl_predecessor_data cmp_int (Some σ) (Some 2) = Some (Some 1) ∧
     avl_succecessor_data cmp_int (Some σ) (Some 1) = Some (Some 2)) ∧
    avl_predecessor_data cmp_int (Some σ) (Some 1) = Some None ∧
    avl_succecessor_data cmp_int (Some σ) (Some 3) = Some None.
Proof.
  eexists. split; [vm_compute; reflexivity|].
  match goal with
  | |- context [avl_predecessor_data _ (Some ?s) _] =>
      assert (swf s scl_tree_213) as Hwf by (unfold scl_tree_213; ex_swf);
      assert (bst cmp_int scl_tree_213) as Hbst by (unfold scl_tree_213; ex_bst);
      destruct (scl_pred_succ_neighbours cmp_int s scl_tree_213 Hwf Hbst)
        as (H1 & H2 & H3 & _)
  end.
  split; [exact (H1 [] 1 2 [3] eq_refl)|].
  split; [exact (H2 1 [2; 3] eq_refl)|exact (H3 [1; 2] 3 eq_refl)].
Defined.

Lemma scl_lca_agrees_with_reference_witness :
  ∃ σ, scl_build [2; 1; 3] = Some σ ∧
    (1 ∈ keys scl_tree_213 → 3 ∈ keys scl_tree_213 →
     is_Some (lca_ref cmp_int 1 3 scl_tree_213) ∧
     avl_lowest_common_ancestor_data cmp_int (Some σ) (Some 1) (Some 3) =
       Some (lca_ref cmp_int 1 3 scl_tree_213)) ∧
    (1 ∉ keys scl_tree_213 ∨ 3 ∉ keys scl_tree_213 →
     avl_lowest_common_ancestor_data cmp_int (Some σ) (Some 1) (Some 3) =
       Some None).
Proof.
  eexists. split; [vm_compute; reflexivity|].
  apply (scl_lca_agrees_with_reference cmp_int _ scl_tree_213 1 3); unfold scl_tree_213.
  - ex_swf.
  - ex_bst.
Defined.

Lemma scl_inorder_visits_sorted_witness :
  ∃ σ, scl_build [2; 1; 3] = Some σ ∧
    avl_traverse_inorder (Some σ) true =
      Some (map Action [2; 1; 3]%positive) ∧
    Forall2 (λ a d, ∃ n, mem σ !! a = Some n ∧ data n = Some d)
      (taddrs scl_tree_213) (keys scl_tree_213) ∧
    StronglySorted (key_lt cmp_int) (keys scl_tree_213).
Proof.
  eexists. split; [vm_compute; reflexivity|].
  apply (scl_inorder_visits_sorted cmp_int _ scl_tree_213); unfold scl_tree_213.
  - ex_swf.
  - ex_bst.
Defined.

Lemma scl_preorder_postorder_witness :
  ∃ σ, scl_build [2; 1; 3] = Some σ ∧
    avl_traverse_preorder (Some σ) true =
      Some (map Action [1; 2; 3]%positive) ∧
    avl_traverse_postorder (Some σ) true =
      Some (map Action [2; 3; 1]%positive) ∧
    head (pre_nodes scl_tree_213) = get_avl_root (Some σ) ∧
    last (post_nodes scl_tree_213) = get_avl_root (Some σ) ∧
    pre_nodes scl_tree_213 ≡ₚ taddrs scl_tree_213 ∧
    post_nodes scl_tree_213 ≡ₚ taddrs scl_tree_213.
Proof.
  eexists. split; [vm_compute; reflexivity|].
  apply (scl_preorder_postorder _ scl_tree_213); unfold scl_tree_213.
  - ex_swf.
  - discriminate.
Defined.

Lemma scl_node_level_is_depth_witness :
  ∃ σ, scl_build [2; 1; 3] = Some σ ∧
    avl_node_level σ (Some 3%positive) = Some 1 ∧
    avl_node_level σ None = Some (-1).
Proof.
  eexists. split; [vm_compute; reflexivity|].
  apply (scl_node_level_is_depth _ Leaf 3%positive 3 1 1 Leaf
           [FR (Node Leaf 2 1 1 1 Leaf) 1 2 1 2]).
  - cbn [plug fill]. ex_swf.
  - vm_compute. reflexivity.
Defined.

Lemma scl_delete_of_missing_key_witness :
  ∃ σ, scl_build [2; 1; 3] = Some σ ∧
    avl_delete cmp_int (Some σ) (Some 7) 4 true = Some (0, Some σ, []).
Proof.
  eexists. split; [vm_compute; reflexivity|].
  apply (scl_delete_of_missing_key cmp_int _ scl_tree_213 7 4 true); unfold scl_tree_213.
  - ex_swf.
  - ex_bst.
  - cbn [keys app]. set_solver.
  - lia.
Defined.

Lemma scl_free_avl_releases_every_node_witness :
  ∃ σ, scl_build [2; 1; 3] = Some σ ∧
    ∃ m', free_avl (Some σ) true = Some ([1; 3; 2], m') ∧
          (∀ x, x ∈ taddrs scl_tree_213 → m' !! x = None) ∧
          (∀ x, x ∉ taddrs scl_tree_213 → m' !! x = mem σ !! x) ∧
          postorder scl_tree_213 ≡ₚ keys scl_tree_213.
Proof.
  eexists. split; [vm_compute; reflexivity|].
  apply (scl_free_avl_releases_every_node _ scl_tree_213 true). unfold scl_tree_213.
  ex_swf.
Defined.

End SclWitnesses.

Import Shape.

(** Proves the invariants of a concrete tree object by evaluation. *)
Ltac ex_sinv :=
  unfold sinv;
  split; [ex_swf|];
  split; [ex_bst|];
  split; [cbn [avl ht]; repeat split; vm_compute; congruence|];
  split; [cbn [hc ht]; repeat split; vm_compute; congruence|];
  split; [vm_compute; reflexivity|];
  split; vm_compute; reflexivity.

(** ** Insertion and deletion in the void-pointer tree *)

Section SclUpdates.
Import SclAvl.
Context {T : Type} (cmp : T → T → Z) `{!TotalOrder cmp}.
Implicit Types (t l r : tree T) (σ : avl_tree_t T) (d : T).

Lemma sinv_size σ t : sinv cmp σ t → get_avl_size (Some σ) = card t.
Proof. intros (_ & _ & _ & _ & H & _). exact H. Qed.

Lemma sinv_dom σ t :
  sinv cmp σ t → dom (mem σ) = list_to_set ((λ x, x.1.1) <$> cells t).
Proof. intros (_ & _ & _ & _ & _ & H & _). by rewrite H, taddrs_cells. Qed.

Lemma s_set_remove_next (a s : positive) (P Q : list positive) :
  NoDup (P ++ a :: s :: Q) →
  (list_to_set (P ++ a :: s :: Q) : gset positive) ∖ {[s]} = list_to_set (P ++ a :: Q).
Proof.
  intros Hnd.
  assert (P ++ a :: s :: Q = (P ++ [a]) ++ s :: Q) as E by by rewrite <- app_assoc.
  assert (P ++ a :: Q = (P ++ [a]) ++ Q) as E' by by rewrite <- app_assoc.
  rewrite E in Hnd |- *. rewrite E'. by apply s_set_remove_mid.
Qed.

Lemma nodup_mid_absent (A B : list T) x : NoDup (A ++ x :: B) → x ∉ A ++ B.
Proof.
  intros Hnd. apply NoDup_app in Hnd as (HA & Hx & [HB _]%NoDup_cons).
  rewrite elem_of_app. intros [Hin|Hin]; [|done].
  apply (Hx x Hin). by left.
Qed.

(** What a deletion of a payload of the tree does to the payloads. *)
Lemma s_delete_present_keys σ t d sz fd :
  sinv cmp σ t → d ∈ keys t → sz ≠ 0 →
  ∃ σ' t' freed A B,
    avl_delete cmp (Some σ) (Some d) sz fd = Some (0, Some σ', freed) ∧
    sinv cmp σ' t' ∧ keys t = A ++ d :: B ∧ keys t' = A ++ B.
Proof.
  intros Hinv Hd Hsz.
  pose proof (s_delete_spec cmp σ t d sz fd Hinv Hsz) as Hs.
  pose proof (locate_spec cmp d t []) as Hl.
  destruct (locate cmp d t []) as [[|l a x c h r] k]; simpl in Hl.
  { destruct Hl; [apply Hinv|done]. }
  destruct Hl as [-> _]; [apply Hinv|].
  destruct Hs as (σ' & t' & E & Hi & Hc & Hc').
  set (f2 := λ x : positive * T * Z, x.1.2).
  destruct l as [|ll b db cb hb lr].
  - eexists σ', t', _, (f2 <$> (ccl k ++ cells Leaf)), (f2 <$> (cells r ++ ccr k)).
    split_and!; try done.
    + by rewrite keys_cells, Hc, fmap_app, fmap_cons.
    + by rewrite keys_cells, Hc', fmap_app.
  - destruct (cells r) as [|[[s ds] cs] B] eqn:Er.
    + eexists σ', t', _, (f2 <$> (ccl k ++ cells (Node ll b db cb hb lr))), (f2 <$> ccr k).
      split_and!; try done.
      * by rewrite keys_cells, Hc, fmap_app, fmap_cons.
      * by rewrite keys_cells, Hc', fmap_app.
    + eexists σ', t', _, (f2 <$> (ccl k ++ cells (Node ll b db cb hb lr))),
        (ds :: (f2 <$> (B ++ ccr k))).
      split_and!; try done.
      * by rewrite keys_cells, Hc, fmap_app, !fmap_cons.
      * by rewrite keys_cells, Hc', fmap_app, !fmap_cons.
Qed.

(** X24: on a tree object that satisfies the invariants, [avl_insert] of
    a payload that is not in the tree, with the allocations granted,
    returns [0] and keeps the invariants; the payload is in the tree
    afterwards, at its place in the order and with count [1], nothing else
    has changed in the sequence of payloads and counts, the size has grown
    by one and one node has been allocated. *)
Theorem scl_insert_new_payload σ t d sz :
  sinv cmp σ t → d ∉ keys t → sz ≠ 0 → card t + 1 < addr_space →
  ∃ σ' t' A B,
    avl_insert cmp (Some σ) (Some d) sz true true = Some (0, Some σ') ∧
    sinv cmp σ' t' ∧
    elements t = A ++ B ∧ elements t' = A ++ (d, 1) :: B ∧
    get_avl_size (Some σ') = get_avl_size (Some σ) + 1 ∧
    dom (mem σ') = {[fresh (dom (mem σ))]} ∪ dom (mem σ).
Proof.
  intros Hinv Hd Hsz Hroom.
  pose proof (s_insert_spec cmp σ t d sz true Hinv Hsz) as Hs.
  pose proof (locate_cells cmp d t) as Hc.
  pose proof (locate_spec cmp d t []) as Hl.
  destruct (locate cmp d t []) as [[|l a x c h r] k]; simpl in Hc, Hl.
  2:{ destruct Hl as [_ Hin]; [apply Hinv|done]. }
  destruct (Hs Hroom) as (σ' & t' & E & Hi & Hc').
  revert Hc'. generalize (fresh (dom (mem σ))). intros p Hc'.
  exists σ', t', ((λ x, (x.1.2, x.2)) <$> ccl k), ((λ x, (x.1.2, x.2)) <$> ccr k).
  split_and!; try done.
  - by rewrite elements_cells, Hc, fmap_app.
  - by rewrite elements_cells, Hc', fmap_app.
  - rewrite (sinv_size _ _ Hi), (sinv_size _ _ Hinv).
    rewrite !card_cells, Hc', Hc, !length_app. simpl. lia.
  - rewrite (sinv_dom _ _ Hi), (sinv_dom _ _ Hinv), Hc', Hc.
    rewrite !fmap_app, fmap_cons. symmetry. exact (s_set_insert_mid _ _ _).
Qed.


(** X26: when the node for a new payload cannot be allocated,
    [avl_insert] returns [1] and leaves the tree object as it was; so it
    does for a [NULL] payload, for a payload size of [0] and for a [NULL]
    tree. *)
Theorem scl_insert_failure_leaves_tree σ t d sz okd :
  sinv cmp σ t → d ∉ keys t → sz ≠ 0 →
  avl_insert cmp (Some σ) (Some d) sz false okd = Some (1, Some σ) ∧
  avl_insert cmp (Some σ) None sz true true = Some (1, Some σ) ∧
  avl_insert cmp (Some σ) (Some d) 0 true true = Some (1, Some σ) ∧
  avl_insert cmp None (Some d) sz true true = Some (1, None).
Proof.
  intros Hinv Hd Hsz. split; [|done].
  pose proof (s_insert_spec cmp σ t d sz false Hinv Hsz) as Hs.
  pose proof (locate_spec cmp d t []) as Hl.
  destruct (locate cmp d t []) as [[|l a x c h r] k]; simpl in Hl.
  - apply Hs.
  - destruct Hl as [_ Hin]; [apply Hinv|done].
Qed.

(** X27: [avl_delete] of a payload that is in the tree returns [0] and
    keeps the invariants; the payload is gone, whatever its count was,
    the other payloads keep their order, the size has shrunk by one and
    exactly one node has been released. *)
Theorem scl_delete_present_payload σ t d sz fd :
  sinv cmp σ t → d ∈ keys t → sz ≠ 0 →
  ∃ σ' t' freed A B,
    avl_delete cmp (Some σ) (Some d) sz fd = Some (0, Some σ', freed) ∧
    sinv cmp σ' t' ∧ keys t = A ++ d :: B ∧ keys t' = A ++ B ∧
    get_avl_size (Some σ') = get_avl_size (Some σ) - 1 ∧
    ∃ gone, gone ∈ dom (mem σ) ∧ dom (mem σ') = dom (mem σ) ∖ {[gone]}.
Proof.
  intros Hinv Hd Hsz.
  pose proof (s_delete_spec cmp σ t d sz fd Hinv Hsz) as Hs.
  pose proof (locate_spec cmp d t []) as Hl.
  assert (NoDup (taddrs t)) as Hnd by apply Hinv.
  rewrite taddrs_cells in Hnd.
  destruct (locate cmp d t []) as [[|l a x c h r] k]; simpl in Hl.
  { destruct Hl; [apply Hinv|done]. }
  destruct Hl as [-> _]; [apply Hinv|].
  destruct Hs as (σ' & t' & E & Hi & Hc & Hc').
  set (f1 := λ x : positive * T * Z, x.1.1) in *.
  set (f2 := λ x : positive * T * Z, x.1.2).
  destruct l as [|ll b db cb hb lr].
  - eexists σ', t', _, (f2 <$> (ccl k ++ cells Leaf)), (f2 <$> (cells r ++ ccr k)).
    split_and!; try done.
    + by rewrite keys_cells, Hc, fmap_app, fmap_cons.
    + by rewrite keys_cells, Hc', fmap_app.
    + rewrite (sinv_size _ _ Hi), (sinv_size _ _ Hinv).
      rewrite !card_cells, Hc', Hc, !length_app. simpl. rewrite ?length_app. lia.
    + exists a. rewrite (sinv_dom _ _ Hi), (sinv_dom _ _ Hinv), Hc', Hc. fold f1.
      rewrite Hc in Hnd.
      repeat first [rewrite fmap_app in Hnd | rewrite fmap_cons in Hnd].
      repeat first [rewrite fmap_app | rewrite fmap_cons]. split.
      * rewrite elem_of_list_to_set, elem_of_app, elem_of_cons. auto.
      * symmetry. exact (s_set_remove_mid _ _ _ Hnd).
  - destruct (cells r) as [|[[s ds] cs] B] eqn:Er.
    + eexists σ', t', _, (f2 <$> (ccl k ++ cells (Node ll b db cb hb lr))), (f2 <$> ccr k).
      split_and!; try done.
      * by rewrite keys_cells, Hc, fmap_app, fmap_cons.
      * by rewrite keys_cells, Hc', fmap_app.
      * rewrite (sinv_size _ _ Hi), (sinv_size _ _ Hinv).
        rewrite !card_cells, Hc', Hc, !length_app. simpl. rewrite ?length_app. lia.
      * exists a. rewrite (sinv_dom _ _ Hi), (sinv_dom _ _ Hinv), Hc', Hc. fold f1.
        rewrite Hc in Hnd.
      repeat first [rewrite fmap_app in Hnd | rewrite fmap_cons in Hnd].
      repeat first [rewrite fmap_app | rewrite fmap_cons]. split.
        -- rewrite elem_of_list_to_set, elem_of_app, elem_of_cons. auto.
        -- symmetry. exact (s_set_remove_mid _ _ _ Hnd).
    + eexists σ', t', _, (f2 <$> (ccl k ++ cells (Node ll b db cb hb lr))),
        (ds :: (f2 <$> (B ++ ccr k))).
      split_and!; try done.
      * by rewrite keys_cells, Hc, fmap_app, !fmap_cons.
      * by rewrite keys_cells, Hc', fmap_app, !fmap_cons.
      * rewrite (sinv_size _ _ Hi), (sinv_size _ _ Hinv).
        rewrite !card_cells, Hc', Hc, !length_app. simpl. rewrite ?length_app. simpl. lia.
      * exists s. rewrite (sinv_dom _ _ Hi), (sinv_dom _ _ Hinv), Hc', Hc. fold f1.
        rewrite Hc in Hnd.
        repeat first [rewrite fmap_app in Hnd | rewrite fmap_cons in Hnd].
        repeat first [rewrite fmap_app | rewrite fmap_cons].
        cbn [app] in Hnd |- *. split.
        -- rewrite elem_of_list_to_set, elem_of_app, !elem_of_cons.
           right. right. by left.
        -- symmetry. exact (s_set_remove_next _ _ _ _ Hnd).
Qed.

(** X28: on a tree with a [free_data] function, [avl_delete] hands to it
    the payload of the node it releases.  That is the payload asked for
    when its node has at most one child.  When the node has two children
    it is the payload of the successor: the node asked for takes the
    successor's payload, which therefore is still in the tree after
    [free_data] has been given it, and the payload asked for is not handed
    to [free_data]. *)
Theorem scl_delete_free_data_payload σ t d sz l a c h r k :
  sinv cmp σ t → sz ≠ 0 → locate cmp d t [] = (Node l a d c h r, k) →
  ∃ σ' t' released,
    avl_delete cmp (Some σ) (Some d) sz true = Some (0, Some σ', [released]) ∧
    sinv cmp σ' t' ∧
    (l = Leaf ∨ r = Leaf → released = d) ∧
    (l ≠ Leaf → r ≠ Leaf →
     head (keys r) = Some released ∧ released ≠ d ∧ released ∈ keys t' ∧
     ∃ n, mem σ' !! a = Some n ∧ data n = Some released).
Proof.
  intros Hinv Hsz Hloc.
  pose proof (s_delete_spec cmp σ t d sz true Hinv Hsz) as Hs.
  rewrite Hloc in Hs. destruct Hs as (σ' & t' & E & Hi & Hc & Hc').
  assert (NoDup (keys t)) as Hnd by (apply (bst_nodup cmp); apply Hinv).
  destruct l as [|ll b db cb hb lr].
  { exists σ', t', d. split_and!; try done. }
  destruct (cells r) as [|[[s ds] cs] B] eqn:Er.
  { exists σ', t', d. split_and!; try done. intros _ Hr.
    destruct r; [done|]. simpl in Er. by destruct (cells r1). }
  exists σ', t', ds. split_and!; try done.
  { intros [?|Hr]; [done|]. by rewrite Hr in Er. }
  intros _ _.
  assert ((a, ds, cs) ∈ cells t') as Hin.
  { rewrite Hc', elem_of_app, elem_of_cons. auto. }
  split_and!.
  - by rewrite keys_cells, Er.
  - intros ->. rewrite keys_cells, Hc, fmap_app, !fmap_cons in Hnd.
    apply nodup_mid_absent in Hnd. apply Hnd.
    apply elem_of_app. right. simpl. by left.
  - by apply (cells_keys t' a ds cs).
  - destruct (s_cells_lookup σ' t' a ds cs) as (n & Hn & Hd & _); [apply Hi|done|].
    eauto.
Qed.

(** X29: after a successful [avl_insert] of a payload, [avl_find_data]
    finds a node that holds it; after [avl_delete] of a payload,
    [avl_find_data] returns [NULL] for it. *)
Theorem scl_insert_delete_find σ t d sz fd :
  sinv cmp σ t → sz ≠ 0 → card t + 1 < addr_space →
  (∃ σ' a n,
     avl_insert cmp (Some σ) (Some d) sz true true = Some (0, Some σ') ∧
     avl_find_data cmp (Some σ') (Some d) = Some (Some a) ∧
     mem σ' !! a = Some n ∧ data n = Some d) ∧
  (∃ res σ' freed,
     avl_delete cmp (Some σ) (Some d) sz fd = Some (res, Some σ', freed) ∧
     avl_find_data cmp (Some σ') (Some d) = Some None).
Proof.
  intros Hinv Hsz Hroom. split.
  - pose proof (s_insert_spec cmp σ t d sz true Hinv Hsz) as Hs.
    pose proof (locate_spec cmp d t []) as Hl.
    pose proof (locate_plug cmp d t []) as Hp.
    destruct (locate cmp d t []) as [[|l a x c h r] k]; simpl in Hl, Hp.
    + destruct (Hs Hroom) as (σ' & t' & E & Hi & Hc').
      destruct (s_find_cases cmp σ' t' d) as [Hf _]; [apply Hi..|].
      destruct Hf as (a & n & Hf & Hn & Hd).
      { rewrite keys_cells, Hc', fmap_app, fmap_cons, elem_of_app, elem_of_cons. auto. }
      eauto 10.
    + destruct Hl as [-> _]; [apply Hinv|].
      destruct (Hs true) as (σ' & E & _ & Hi).
      destruct (s_find_cases cmp σ' (plug (Node l a d (c + 1) h r) k) d) as [Hf _];
        [apply Hi..|].
      destruct Hf as (a' & n & Hf & Hn & Hd).
      { rewrite keys_plug. simpl. rewrite !elem_of_app, elem_of_cons. auto. }
      eauto 10.
  - pose proof (s_delete_spec cmp σ t d sz fd Hinv Hsz) as Hs.
    pose proof (locate_spec cmp d t []) as Hl.
    assert (NoDup (keys t)) as Hnd by (apply (bst_nodup cmp); apply Hinv).
    destruct (locate cmp d t []) as [[|l a x c h r] k]; simpl in Hl.
    + eexists _, σ, _. split; [exact Hs|].
      apply (s_find_cases cmp σ t d); [apply Hinv..|]. apply Hl, Hinv.
    + destruct Hl as [_ Hin]; [apply Hinv|].
      destruct (s_delete_present_keys σ t d sz fd Hinv Hin Hsz)
        as (σ' & t' & freed & A & B & E & Hi & HA & HB).
      eexists _, σ', _. split; [exact E|].
      apply (s_find_cases cmp σ' t' d); [apply Hi..|].
      rewrite HA in Hnd. rewrite HB. by apply nodup_mid_absent.
Qed.

(** X30: every sequence of calls of [avl_insert] and [avl_delete] on a
    tree that [create_avl] has delivered returns and keeps the
    invariants, as long as the number of calls stays below the size of the
    address space: the tree is a balanced search tree with consistent
    heights, [get_avl_size] is the number of its nodes, [is_avl_empty]
    tells whether it has none, and its height is at most logarithmic in
    its size. *)
Theorem scl_history_keeps_invariants sz fd (ops : list (scl_op (T:=T))) σ0 :
  create_avl true = Some σ0 → sz ≠ 0 → Z.of_nat (length ops) < addr_space →
  ∃ σ t,
    scl_run cmp sz fd ops σ0 = Some σ ∧ sinv cmp σ t ∧
    get_avl_size (Some σ) = card t ∧
    (is_avl_empty (Some σ) = 1 ↔ t = Leaf) ∧
    2 ^ (ht t / 2) ≤ card t + 1.
Proof.
  intros [= <-] Hsz Hlen.
  destruct (scl_run_inv cmp sz fd ops (MkTree None 0 ∅) Leaf) as (σ & t & E & Hi).
  { apply sinv_empty. } { done. } { simpl. lia. }
  exists σ, t. split_and!; try done.
  - by apply sinv_size.
  - destruct Hi as ((Hr & _) & _ & _ & _ & Hs & _).
    unfold is_avl_empty. rewrite Hr, Hs.
    destruct t as [|l a d c h r]; simpl; [done|].
    pose proof (card_nonneg l). pose proof (card_nonneg r).
    assert ((card l + 1 + card r =? 0) = false) as -> by zbool. done.
  - apply avl_card; apply Hi.
Qed.

End SclUpdates.

(** ** Insertion and deletion on concrete trees *)

Section SclUpdateWitnesses.
Import SclAvl.

Lemma scl_insert_new_payload_witness :
  ∃ σ, scl_build [2; 1; 3] = Some σ ∧
  ∃ σ' t' A B,
    avl_insert cmp_int (Some σ) (Some 4) 4 true true = Some (0, Some σ') ∧
    sinv cmp_int σ' t' ∧
    elements scl_tree_213 = A ++ B ∧ elements t' = A ++ (4, 1) :: B ∧
    get_avl_size (Some σ') = get_avl_size (Some σ) + 1 ∧
    dom (mem σ') = {[fresh (dom (mem σ))]} ∪ dom (mem σ).
Proof.
  eexists. split; [vm_compute; reflexivity|].
  apply (scl_insert_new_payload cmp_int _ scl_tree_213 4 4); unfold scl_tree_213.
  - ex_sinv.
  - vm_compute. set_solver.
  - lia.
  - vm_compute. reflexivity.
Defined.


Lemma scl_insert_failure_leaves_tree_witness :
  ∃ σ, scl_build [2; 1; 3] = Some σ ∧
    avl_insert cmp_int (Some σ) (Some 4) 4 false true = Some (1, Some σ) ∧
    avl_insert cmp_int (Some σ) None 4 true true = Some (1, Some σ) ∧
    avl_insert cmp_int (Some σ) (Some 4) 0 true true = Some (1, Some σ) ∧
    avl_insert cmp_int None (Some 4) 4 true true = Some (1, None).
Proof.
  eexists. split; [vm_compute; reflexivity|].
  apply (scl_insert_failure_leaves_tree cmp_int _ scl_tree_213 4 4 true);
    unfold scl_tree_213.
  - ex_sinv.
  - vm_compute. set_solver.
  - lia.
Defined.

Lemma scl_delete_present_payload_witness :
  ∃ σ, scl_build [2; 1; 3] = Some σ ∧
  ∃ σ' t' freed A B,
    avl_delete cmp_int (Some σ) (Some 2) 4 true = Some (0, Some σ', freed) ∧
    sinv cmp_int σ' t' ∧ keys scl_tree_213 = A ++ 2 :: B ∧ keys t' = A ++ B ∧
    get_avl_size (Some σ') = get_avl_size (Some σ) - 1 ∧
    ∃ gone, gone ∈ dom (mem σ) ∧ dom (mem σ') = dom (mem σ) ∖ {[gone]}.
Proof.
  eexists. split; [vm_compute; reflexivity|].
  apply (scl_delete_present_payload cmp_int _ scl_tree_213 2 4 true);
    unfold scl_tree_213.
  - ex_sinv.
  - vm_compute. set_solver.
  - lia.
Defined.

Lemma scl_delete_free_data_payload_witness :
  ∃ σ, scl_build [2; 1; 3] = Some σ ∧
  ∃ σ' t' released,
    avl_delete cmp_int (Some σ) (Some 2) 4 true = Some (0, Some σ', [released]) ∧
    sinv cmp_int σ' t' ∧
    (Node Leaf 2 1 1 1 Leaf = Leaf ∨ Node Leaf 3 3 1 1 Leaf = Leaf → released = 2) ∧
    (Node Leaf 2 1 1 1 Leaf ≠ Leaf → Node Leaf 3 3 1 1 Leaf ≠ Leaf →
     head (keys (Node Leaf 3 3 1 1 Leaf)) = Some released ∧ released ≠ 2 ∧
     released ∈ keys t' ∧
     ∃ n, mem σ' !! 1%positive = Some n ∧ data n = Some released).
Proof.
  eexists. split; [vm_compute; reflexivity|].
  apply (scl_delete_free_data_payload cmp_int _ scl_tree_213 2 4
           (Node Leaf 2 1 1 1 Leaf) 1 1 2 (Node Leaf 3 3 1 1 Leaf) []);
    unfold scl_tree_213.
  - ex_sinv.
  - lia.
  - vm_compute. reflexivity.
Defined.

Lemma scl_insert_delete_find_witness :
  ∃ σ, scl_build [2; 1; 3] = Some σ ∧
  (∃ σ' a n,
     avl_insert cmp_int (Some σ) (Some 4) 4 true true = Some (0, Some σ') ∧
     avl_find_data cmp_int (Some σ') (Some 4) = Some (Some a) ∧
     mem σ' !! a = Some n ∧ data n = Some 4) ∧
  (∃ res σ' freed,
     avl_delete cmp_int (Some σ) (Some 4) 4 false = Some (res, Some σ', freed) ∧
     avl_find_data cmp_int (Some σ') (Some 4) = Some None).
Proof.
  eexists. split; [vm_compute; reflexivity|].
  apply (scl_insert_delete_find cmp_int _ scl_tree_213 4 4 false); unfold scl_tree_213.
  - ex_sinv.
  - lia.
  - vm_compute. reflexivity.
Defined.

Lemma scl_history_keeps_invariants_witness :
  ∃ σ t,
    scl_run cmp_int 4 true [AvlInsert 2; AvlInsert 1; AvlInsert 3; AvlDelete 2]
      (MkTree None 0 ∅) = Some σ ∧
    sinv cmp_int σ t ∧
    get_avl_size (Some σ) = card t ∧
    (is_avl_empty (Some σ) = 1 ↔ t = Leaf) ∧
    2 ^ (ht t / 2) ≤ card t + 1.
Proof.
  apply (scl_history_keeps_invariants cmp_int 4 true
           [AvlInsert 2; AvlInsert 1; AvlInsert 3; AvlDelete 2]).
  - reflexivity.
  - lia.
  - vm_compute. reflexivity.
Defined.

End SclUpdateWitnesses.
